(** * pykeen triples management: factories, condensers and training instances

    A shallow embedding of [pykeen.triples.triples_factory] and
    [pykeen.triples.instances].

    Conventions of the embedding:
    - IDs are [Z] (the code uses [-1] as a sentinel); sizes and positions
      are [nat].
    - A Python [dict] with string keys is a [gmap string _]; the unpacking
      display [{**a, **b}] is written out with its update order.
    - A call that may raise returns [result A], the sum of a raised
      exception and a value; [x ← c; k] is Python's sequencing.
    - A validated [(n, 3)] long tensor is the list of its rows. *)

From stdpp Require Import gmap strings list fin_maps sorting.

Local Open Scope Z_scope.

(** ** Exceptions and results *)

(** The floating/complex/integer classification of a torch dtype. *)
Inductive dtype :=
  | torch_bool | torch_uint8 | torch_int32 | torch_int64
  | torch_float32 | torch_float64 | torch_complex64.

Definition is_floating_point (d : dtype) : bool :=
  match d with torch_float32 | torch_float64 => true | _ => false end.

Definition is_complex (d : dtype) : bool :=
  match d with torch_complex64 => true | _ => false end.

(** What an exception message reports; one constructor per [raise] site (or
    per failing library call) of the embedded code. *)
Inductive detail :=
  | InvalidShape (shape : list nat)
  | InvalidType (d : dtype)
  | InvalidIds (mins maxs : list Z) (num_entities num_relations : Z)
  | EntityCountMismatch (i : nat)
  | RelationCountMismatch (i : nat)
  | InverseFlagMismatch (i : nat)
  | EntityMappingMismatch (i : nat)
  | RelationMappingMismatch (i : nat)
  | LabelingCountMismatch (in_labeling given : Z)
  | EmptySequence
  | IndexOutOfBounds
  | InvalidCondensation
  | IdsWithoutMap
  | EmptyRange
  | NegativeBound
  | NegativeDimension
  | DivisionByZero
  | InvalidBatchSize (batch_size : Z)
  | ScalarOverflow (d : dtype) (scalar : Z)
  | MappingNotBijective (num_unique_values num_keys : nat)
  | InvalidNumSamples (num_samples : nat).

Inductive exn :=
  | ValueError (d : detail)
  | TypeError (d : detail)
  | RuntimeError (d : detail)
  | IndexError (d : detail)
  | ZeroDivisionError (d : detail).

Definition result (A : Type) : Type := exn + A.

Definition ret {A} (x : A) : result A := inr x.
Definition raise {A} (e : exn) : result A := inl e.

#[global] Instance result_bind : MBind result := λ A B k c,
  match c with inl e => inl e | inr x => k x end.

Definition raises {A} (c : result A) : Prop := ∃ e, c = inl e.

(** The operand index an error message of [merge] names, [others[i]]. *)
Definition named_operand (e : exn) : option nat :=
  match e with
  | ValueError (EntityCountMismatch i)
  | ValueError (RelationCountMismatch i)
  | ValueError (InverseFlagMismatch i)
  | ValueError (EntityMappingMismatch i)
  | ValueError (RelationMappingMismatch i) => Some i
  | _ => None
  end.

(** A list comprehension whose element expression may raise. *)
Fixpoint mapM_result {A B} (f : A → result B) (l : list A) : result (list B) :=
  match l with
  | [] => ret []
  | x :: l' => y ← f x; ys ← mapM_result f l'; ret (y :: ys)
  end.

(** ** Tensors *)

Definition triple : Type := Z * Z * Z.

(** What [torch.as_tensor] hands to the constructor: a dtype, a shape and the
    row-major payload.  The payload of a floating or complex tensor is never
    read by the embedded code. *)
Record Tensor := {
  t_dtype : dtype;
  t_shape : list nat;
  t_data : list Z;
}.

Definition ndim (t : Tensor) : nat := length (t_shape t).

(** Rows of a payload with three columns. *)
Fixpoint rows3 (l : list Z) : list triple :=
  match l with
  | h :: r :: t :: l' => (h, r, t) :: rows3 l'
  | _ => []
  end.

Definition flatten3 (rows : list triple) : list Z :=
  rows ≫= (λ '(h, r, t), [h; r; t]).

(** The [(n, 3)] long tensor with the given rows. *)
Definition long_tensor (rows : list triple) : Tensor :=
  {| t_dtype := torch_int64; t_shape := [length rows; 3%nat]; t_data := flatten3 rows |}.

(** [torch.cat(tensors, dim=0)] on [(n_i, 3)] long tensors. *)
Definition torch_cat (ts : list (list triple)) : Tensor := long_tensor (concat ts).

(** ** Python dicts *)

(** Metadata values ([Any] in the source): paths, restriction records. *)
Inductive pyval :=
  | PyStr (s : string)
  | PyInt (z : Z)
  | PyInts (l : list Z)
  | PyStrs (l : list string).

(** [d.update(new)]: the keys of [new] overwrite those of [d]. *)
Definition dict_update {V} (d new : gmap string V) : gmap string V := new ∪ d.

(** [{**d1, **d2, ...}]: the unpackings update an empty dict left to right,
    so a later dict overwrites an earlier one on a common key. *)
Definition dict_display {V} (ds : list (gmap string V)) : gmap string V :=
  foldl dict_update ∅ ds.

(** [x or {}] for an optional dict. *)
Definition or_empty {V} (d : option (gmap string V)) : gmap string V := default ∅ d.

(** ** KGInfo and CoreTriplesFactory *)

Module KGInfo.

(** [KGInfo.__init__]: [num_relations] doubles when inverse triples are
    created, [real_num_relations] keeps the argument. *)
Definition num_relations (num_relations : Z) (create_inverse_triples : bool) : Z :=
  if create_inverse_triples then num_relations * 2 else num_relations.

End KGInfo.

(** The Python int [scalar] as the operand of a comparison with a tensor of
    dtype [d], as torch takes it: an int beyond the 64-bit range does not
    unpack, and the scalar must convert to the dtype of an integer tensor
    without overflow, where an unsigned dtype lets a negative scalar wrap
    around.  A bool tensor is compared as a long tensor.  The result is the
    value that the entries are compared with. *)
Definition scalar_operand (d : dtype) (scalar : Z) : result Z :=
  if (scalar <? - 2 ^ 63) || (2 ^ 63 - 1 <? scalar) then
    raise (RuntimeError (ScalarOverflow d scalar))
  else
    match d with
    | torch_uint8 =>
        if (scalar <? -255) || (255 <? scalar) then
          raise (RuntimeError (ScalarOverflow d scalar))
        else ret (scalar `mod` 256)
    | torch_int32 =>
        if (scalar <? - 2 ^ 31) || (2 ^ 31 - 1 <? scalar) then
          raise (RuntimeError (ScalarOverflow d scalar))
        else ret scalar
    | _ => ret scalar
    end.

(** [valid_triple_id_range], on a tensor of three columns: the chain of
    [and] stops at the first comparison that does not hold for all
    entries, so a later count is converted only when the earlier
    comparisons hold. *)
Definition valid_triple_id_range (mapped_triples : Tensor)
    (num_entities num_relations : Z) : result bool :=
  let rows := rows3 (t_data mapped_triples) in
  if negb (forallb (λ '(h, r, t), (0 <=? h) && (0 <=? r) && (0 <=? t)) rows) then ret false
  else
    bound ← scalar_operand (t_dtype mapped_triples) num_entities;
    if negb (forallb (λ '(h, _, t), (h <? bound) && (t <? bound)) rows) then ret false
    else
      bound ← scalar_operand (t_dtype mapped_triples) num_relations;
      ret (forallb (λ '(_, r, _), r <? bound) rows).

(** [tensor.min(dim=0).values] and [tensor.max(dim=0).values] of a nonempty
    three-column tensor (the message of the range error prints both). *)
Definition column_fold (op : Z → Z → Z) (rows : list triple) : list Z :=
  match rows with
  | [] => []
  | (h, r, t) :: rows' =>
      let '(a, b, c) :=
        foldl (λ '(a, b, c) '(h', r', t'), (op a h', op b r', op c t')) (h, r, t) rows' in
      [a; b; c]
  end.

(** [mapped_triples.ndim != 2 or mapped_triples.shape[1] != 3], negated. *)
Definition shape_ok (t : Tensor) : bool :=
  bool_decide (ndim t = 2%nat) && bool_decide (t_shape t !! 1%nat = Some 3%nat).

Module CoreTriplesFactory.

Record t := {
  num_entities : Z;
  real_num_relations : Z;
  num_relations : Z;
  create_inverse_triples : bool;
  mapped_triples : list triple;
  metadata : gmap string pyval;
}.

(** [CoreTriplesFactory.__init__]: the rows are stored as a long tensor,
    and the range check runs on the tensor as it was given, in its own
    dtype. *)
Definition __init__ (mapped_triples : Tensor)
    (num_entities num_relations : Z) (create_inverse_triples : bool)
    (metadata : option (gmap string pyval)) : result t :=
  if negb (shape_ok mapped_triples) then
    raise (ValueError (InvalidShape (t_shape mapped_triples)))
  else if is_complex (t_dtype mapped_triples) || is_floating_point (t_dtype mapped_triples) then
    raise (TypeError (InvalidType (t_dtype mapped_triples)))
  else
    let rows := rows3 (t_data mapped_triples) in
    valid ← valid_triple_id_range mapped_triples num_entities num_relations;
    if negb valid then
      raise (ValueError (InvalidIds (column_fold Z.min rows) (column_fold Z.max rows)
               num_entities (KGInfo.num_relations num_relations create_inverse_triples)))
    else
      ret {| num_entities := num_entities;
             real_num_relations := num_relations;
             num_relations := KGInfo.num_relations num_relations create_inverse_triples;
             create_inverse_triples := create_inverse_triples;
             mapped_triples := rows;
             metadata := match metadata with None => ∅ | Some m => m end |}.

(** [CoreTriplesFactory.clone_and_exchange_triples] *)
Definition clone_and_exchange_triples (self : t) (mapped_triples : Tensor)
    (extra_metadata : option (gmap string pyval)) (keep_metadata : bool)
    (create_inverse_triples : option bool) : result t :=
  let create_inverse_triples :=
    match create_inverse_triples with
    | None => self.(CoreTriplesFactory.create_inverse_triples)
    | Some b => b
    end in
  __init__ mapped_triples self.(num_entities) self.(real_num_relations) create_inverse_triples
    (Some (dict_display [or_empty extra_metadata;
                         if keep_metadata then self.(metadata) else ∅])).

(** [Self]: a class of factories with the attributes of the base class and
    its own [clone_and_exchange_triples]; the methods of the base class call
    [self.clone_and_exchange_triples], which dispatches on the class of
    [self]. *)
Class Subclass (F : Type) := {
  base : F → t;
  self_clone_and_exchange_triples :
    F → Tensor → option (gmap string pyval) → bool → option bool → result F;
}.

#[global] Instance base_class : Subclass t := {|
  base := id;
  self_clone_and_exchange_triples := clone_and_exchange_triples;
|}.

Definition num_triples `{Subclass F} (self : F) : nat :=
  length (base self).(mapped_triples).

(** The loop of [merge]: [i] is the index of [enumerate], [acc] the list
    [mapped_triples] built so far. *)
Fixpoint merge_loop (self : t) (i : nat) (others : list t) (acc : list (list triple))
    : result (list (list triple)) :=
  match others with
  | [] => ret acc
  | other :: others' =>
      if bool_decide (other.(num_entities) ≠ self.(num_entities)) then
        raise (ValueError (EntityCountMismatch i))
      else if bool_decide (other.(num_relations) ≠ self.(num_relations)) then
        raise (ValueError (RelationCountMismatch i))
      else if bool_decide (other.(create_inverse_triples) ≠ self.(create_inverse_triples)) then
        raise (ValueError (InverseFlagMismatch i))
      else merge_loop self (S i) others' (acc ++ [other.(mapped_triples)])
  end.

(** [CoreTriplesFactory.merge] *)
Definition merge `{Subclass F} (self : F) (others : list F) : result F :=
  match others with
  | [] => ret self
  | _ =>
      mapped_triples ← merge_loop (base self) 0 (base <$> others)
                          [(base self).(mapped_triples)];
      self_clone_and_exchange_triples self (torch_cat mapped_triples) None true None
  end.

Section split.
(** [pykeen.triples.splitting.split] is not part of the embedded sources:
    the splitting routine is a parameter, with whatever arguments it takes
    ([ratios], [random_state], [randomize_cleanup], [method]) bundled in
    [split_args]; it returns the parts as [(n_i, 3)] long tensors, or
    raises. *)
Context {split_args : Type}.
Variable splitting_split : list triple → split_args → result (list (list triple)).

(** [CoreTriplesFactory.split] *)
Definition split `{Subclass F} (self : F) (args : split_args) : result (list F) :=
  parts ← splitting_split (base self).(mapped_triples) args;
  mapM_result
    (λ '(i, triples),
       self_clone_and_exchange_triples self (long_tensor triples) None true
         (if bool_decide (i = 0%nat) then None else Some false))
    (imap pair parts).
End split.

End CoreTriplesFactory.

(** ** Sorting and deduplication of the libraries *)

Section sorted_unique.
Context {A : Type} (cmp : A → A → comparison).

Fixpoint insert_unique (x : A) (l : list A) : list A :=
  match l with
  | [] => [x]
  | y :: l' =>
      match cmp x y with
      | Lt => x :: l
      | Eq => l
      | Gt => y :: insert_unique x l'
      end
  end.

(** The ascending list of the distinct elements: [sorted(set(l))],
    [numpy.unique] and [torch.unique]. *)
Definition sorted_unique (l : list A) : list A := foldr insert_unique [] l.
End sorted_unique.

Section sort_by_key.
Context {A K : Type} (cmp : K → K → comparison) (key : A → K).

Fixpoint insert_by_key (x : A) (l : list A) : list A :=
  match l with
  | [] => [x]
  | y :: l' =>
      match cmp (key x) (key y) with
      | Gt => y :: insert_by_key x l'
      | _ => x :: l
      end
  end.

(** [sorted(l, key=key)], a stable sort. *)
Definition sorted_by_key (l : list A) : list A := foldr insert_by_key [] l.
End sort_by_key.

(** Lexicographic comparison of tuples and of the rows of an array. *)
Definition lex {A B} (ca : A → A → comparison) (cb : B → B → comparison)
    (x y : A * B) : comparison :=
  match ca x.1 y.1 with
  | Eq => cb x.2 y.2
  | c => c
  end.

Definition pair_compare : Z * Z → Z * Z → comparison := lex Z.compare Z.compare.
Definition triple_compare : triple → triple → comparison := lex pair_compare Z.compare.

(** [numpy.unique(ar, axis=0)] on rows of IDs. *)
Definition np_unique_rows (ar : list triple) : list triple :=
  sorted_unique triple_compare ar.

(** [torch.unique] / [numpy.unique] on a flat tensor of IDs. *)
Definition unique_ids (x : list Z) : list Z := sorted_unique Z.compare x.

(** ** Label mappings *)

Definition ltriple : Type := string * string * string.

Definition INVERSE_SUFFIX : string := "_inverse".

Definition newline : string := String (Ascii.ascii_of_nat 10) EmptyString.

(** [s.endswith(suffix)] *)
Definition endswith (s suffix : string) : bool :=
  String.prefix (String.rev suffix) (String.rev s).

(** [re.sub] of the pattern [INVERSE_SUFFIX + $] by the empty string: the
    anchor matches at the end of the string and before a newline that ends
    the string. *)
Definition sub_inverse_suffix (x : string) : string :=
  let n := String.length x in
  let k := String.length INVERSE_SUFFIX in
  if endswith x INVERSE_SUFFIX then String.substring 0 (n - k) x
  else if endswith x (INVERSE_SUFFIX +:+ newline) then String.substring 0 (n - k - 1) x +:+ newline
  else x.

(** [{str(label): i for (i, label) in enumerate(labels)}] *)
Definition enumerate_mapping (labels : list string) : gmap string Z :=
  foldl (λ m '(i, label), <[label := Z.of_nat i]> m) ∅ (imap pair labels).

Definition create_entity_mapping (triples : list ltriple) : gmap string Z :=
  let heads := (λ '(h, _, _), h) <$> triples in
  let tails := (λ '(_, _, t), t) <$> triples in
  let entity_labels := sorted_unique String.compare (heads ++ tails) in
  enumerate_mapping entity_labels.

(** Two labels that differ only by a newline after the suffix have the same
    key; the stable sort then keeps the iteration order of the set, which
    Python leaves open: [remove_dups] fixes one. *)
Definition create_relation_mapping (relations : list string) : gmap string Z :=
  let relation_labels :=
    sorted_by_key (lex String.compare Bool.compare)
      (λ x, (sub_inverse_suffix x, endswith x INVERSE_SUFFIX))
      (remove_dups relations) in
  enumerate_mapping relation_labels.

(** [dict.get(key, -1)], vectorized over a column by [np.vectorize]. *)
Definition get_id (label_to_id : gmap string Z) (label : string) : Z :=
  default (-1) (label_to_id !! label).

Definition _map_triples_elements_to_ids (triples : list ltriple)
    (entity_to_id relation_to_id : gmap string Z) : list triple :=
  match triples with
  | [] => []
  | _ =>
      let head_column := (λ '(h, _, _), get_id entity_to_id h) <$> triples in
      let tail_column := (λ '(_, _, t), get_id entity_to_id t) <$> triples in
      let relation_column := (λ '(_, r, _), get_id relation_to_id r) <$> triples in
      let head_filter := (λ x, x <? 0) <$> head_column in
      let relation_filter := (λ x, x <? 0) <$> relation_column in
      let tail_filter := (λ x, x <? 0) <$> tail_column in
      let rows := zip (zip head_column relation_column) tail_column in
      let triples_of_ids :=
        if existsb id head_filter || existsb id relation_filter || existsb id tail_filter then
          let non_mappable_triples :=
            zip_with orb (zip_with orb head_filter relation_filter) tail_filter in
          (zip rows non_mappable_triples) ≫= (λ '(row, masked), if (masked : bool) then [] else [row])
        else rows in
      np_unique_rows triples_of_ids
  end.

Module Labeling.

Record t := {
  label_to_id : gmap string Z;
  id_to_label : gmap Z string;
}.

(** The inverse of a mapping with one label per ID,
    [{id: label for label, id in mapping.items()}]. *)
Definition inverse (mapping : gmap string Z) : gmap Z string :=
  list_to_map (prod_swap <$> map_to_list mapping).

(** Modelled from the spec: [invert_mapping] of [pykeen.utils] is not part of
    the embedded sources; the spec has [id_to_label] as the derived inverse
    of [label_to_id], with exactly one label per ID and vice versa.  A
    mapping that has fewer distinct IDs than labels is rejected as not
    bijective, any other one is inverted. *)
Definition invert_mapping (mapping : gmap string Z) : result (gmap Z string) :=
  let values := (map_to_list mapping).*2 in
  if bool_decide (NoDup values) then ret (inverse mapping)
  else raise (ValueError (MappingNotBijective (length (remove_dups values)) (size mapping))).

(** The labeling of a mapping and its inverse. *)
Definition built (label_to_id : gmap string Z) : t :=
  {| label_to_id := label_to_id; id_to_label := inverse label_to_id |}.

(** [Labeling.__post_init__], with the dataclass constructor before it *)
Definition __post_init__ (label_to_id : gmap string Z) : result t :=
  id_to_label ← invert_mapping label_to_id;
  ret {| label_to_id := label_to_id; id_to_label := id_to_label |}.

(** [Labeling.label], on a column of IDs *)
Definition label (self : t) (ids : list Z) (unknown_label : string) : list string :=
  (λ i, default unknown_label (self.(id_to_label) !! i)) <$> ids.

(** [Labeling.max_id]: [max] of an empty sequence raises. *)
Definition max_id (self : t) : result Z :=
  match (map_to_list self.(label_to_id)).*2 with
  | [] => raise (ValueError EmptySequence)
  | v :: vs => ret (foldl Z.max v vs + 1)
  end.

End Labeling.

Module TriplesFactory.

Record t := {
  core : CoreTriplesFactory.t;
  entity_labeling : Labeling.t;
  relation_labeling : Labeling.t;
}.

Definition entity_to_id (self : t) : gmap string Z :=
  self.(entity_labeling).(Labeling.label_to_id).

Definition relation_to_id (self : t) : gmap string Z :=
  self.(relation_labeling).(Labeling.label_to_id).

(** The count given to [__init__] must be the one of the labeling. *)
Definition check_count (given : option Z) (in_labeling : Z) : result Z :=
  match given with
  | None => ret in_labeling
  | Some n =>
      if bool_decide (n ≠ in_labeling) then
        raise (ValueError (LabelingCountMismatch in_labeling n))
      else ret n
  end.

(** [TriplesFactory.__init__] *)
Definition __init__ (mapped_triples : Tensor) (entity_to_id relation_to_id : gmap string Z)
    (create_inverse_triples : bool) (metadata : option (gmap string pyval))
    (num_entities num_relations : option Z) : result t :=
  entity_labeling ← Labeling.__post_init__ entity_to_id;
  max_entity ← Labeling.max_id entity_labeling;
  num_entities ← check_count num_entities max_entity;
  relation_labeling ← Labeling.__post_init__ relation_to_id;
  max_relation ← Labeling.max_id relation_labeling;
  num_relations ← check_count num_relations max_relation;
  core ← CoreTriplesFactory.__init__ mapped_triples num_entities num_relations
            create_inverse_triples metadata;
  ret {| core := core;
         entity_labeling := entity_labeling;
         relation_labeling := relation_labeling |}.

(** [TriplesFactory.clone_and_exchange_triples] *)
Definition clone_and_exchange_triples (self : t) (mapped_triples : Tensor)
    (extra_metadata : option (gmap string pyval)) (keep_metadata : bool)
    (create_inverse_triples : option bool) : result t :=
  let create_inverse_triples :=
    match create_inverse_triples with
    | None => self.(core).(CoreTriplesFactory.create_inverse_triples)
    | Some b => b
    end in
  __init__ mapped_triples (entity_to_id self) (relation_to_id self) create_inverse_triples
    (Some (dict_display [or_empty extra_metadata;
                         if keep_metadata then self.(core).(CoreTriplesFactory.metadata)
                         else ∅]))
    None None.

#[global] Instance sub_class : CoreTriplesFactory.Subclass t := {|
  CoreTriplesFactory.base := core;
  CoreTriplesFactory.self_clone_and_exchange_triples := clone_and_exchange_triples;
|}.

(** The loop of [TriplesFactory.merge] over [enumerate(others)]. *)
Fixpoint merge_loop (self : t) (i : nat) (others : list t) : result unit :=
  match others with
  | [] => ret ()
  | other :: others' =>
      if bool_decide (entity_to_id other ≠ entity_to_id self) then
        raise (ValueError (EntityMappingMismatch i))
      else if bool_decide (relation_to_id other ≠ relation_to_id self) then
        raise (ValueError (RelationMappingMismatch i))
      else merge_loop self (S i) others'
  end.

(** [TriplesFactory.merge]: the label mappings of all operands are compared,
    then [merge] of the base class runs on the same operands. *)
Definition merge (self : t) (others : list t) : result t :=
  _ ← merge_loop self 0 others;
  CoreTriplesFactory.merge self others.

(** [TriplesFactory.label_triples] *)
Definition label_triples (self : t) (triples : list triple)
    (unknown_entity_label : string) (unknown_relation_label : option string)
    : list ltriple :=
  match triples with
  | [] => []
  | _ =>
      let unknown_relation_label := default unknown_entity_label unknown_relation_label in
      let heads := Labeling.label self.(entity_labeling)
                     ((λ '(h, _, _), h) <$> triples) unknown_entity_label in
      let relations := Labeling.label self.(relation_labeling)
                         ((λ '(_, r, _), r) <$> triples) unknown_relation_label in
      let tails := Labeling.label self.(entity_labeling)
                     ((λ '(_, _, t), t) <$> triples) unknown_entity_label in
      zip (zip heads relations) tails
  end.

(** [TriplesFactory.map_triples] *)
Definition map_triples (self : t) (triples : list ltriple) : list triple :=
  _map_triples_elements_to_ids triples (entity_to_id self) (relation_to_id self).

Section from_labeled_triples.
(** [compact_mapping] of [pykeen.utils] is not part of the embedded
    sources; it is a parameter (the first component of its result). *)
Variable compact_mapping : gmap string Z → gmap string Z.

(** [TriplesFactory.from_labeled_triples] *)
Definition from_labeled_triples (triples : list ltriple) (create_inverse_triples : bool)
    (entity_to_id relation_to_id : option (gmap string Z)) (compact_id : bool)
    (filter_out_candidate_inverse_relations : bool)
    (metadata : option (gmap string pyval)) : result t :=
  let triples :=
    if filter_out_candidate_inverse_relations then
      filter (λ '(_, r, _), endswith r INVERSE_SUFFIX = false) triples
    else triples in
  let entity_to_id :=
    match entity_to_id with
    | None => create_entity_mapping triples
    | Some m => m
    end in
  let entity_to_id := if compact_id then compact_mapping entity_to_id else entity_to_id in
  let relation_to_id :=
    match relation_to_id with
    | None => create_relation_mapping ((λ '(_, r, _), r) <$> triples)
    | Some m => m
    end in
  let relation_to_id :=
    if compact_id then compact_mapping relation_to_id else relation_to_id in
  let mapped_triples := _map_triples_elements_to_ids triples entity_to_id relation_to_id in
  __init__ (long_tensor mapped_triples) entity_to_id relation_to_id create_inverse_triples
    metadata None None.
End from_labeled_triples.

End TriplesFactory.

(** ** Condenser *)

(** Modelled from the spec: [get_num_ids] of [pykeen.triples.utils] is not
    part of the embedded sources; the spec has the number of IDs inferred as
    one plus the maximum ID observed.  A tensor without entries has no
    ID. *)
Definition get_num_ids (x : list Z) : result Z :=
  match x with
  | [] => ret 0
  | v :: vs => ret (foldl Z.max v vs + 1)
  end.

(** [torch.arange(k)] *)
Definition torch_arange (k : Z) : result (list Z) :=
  if k <? 0 then raise (RuntimeError NegativeBound) else ret (seqZ 0 k).

(** [torch.full((k,), fill_value)] *)
Definition torch_full (k : Z) (fill_value : Z) : result (list Z) :=
  if k <? 0 then raise (RuntimeError NegativeDimension)
  else ret (replicate (Z.to_nat k) fill_value).

(** [y.scatter_(dim=0, index=index, src=src)] on flat tensors:
    [y[index[i]] = src[i]]; an index outside [y], or more indices than
    sources, raises. *)
Fixpoint scatter_ (y index src : list Z) : result (list Z) :=
  match index, src with
  | [], _ => ret y
  | i :: index', s :: src' =>
      if (0 <=? i) && (i <? Z.of_nat (length y)) then
        scatter_ (<[Z.to_nat i := s]> y) index' src'
      else raise (RuntimeError IndexOutOfBounds)
  | _ :: _, [] => raise (RuntimeError IndexOutOfBounds)
  end.

(** [tensor[i]] for one index: a negative index counts from the end. *)
Definition tensor_getitem (c : list Z) (i : Z) : result Z :=
  let n := Z.of_nat (length c) in
  let j := if i <? 0 then i + n else i in
  if (0 <=? j) && (j <? n) then
    match c !! Z.to_nat j with
    | Some v => ret v
    | None => raise (IndexError IndexOutOfBounds)
    end
  else raise (IndexError IndexOutOfBounds).

Module Condenser.

(** A tensor of IDs is the list of its entries: [make] reads the number,
    the maximum and the distinct values of the entries, whatever the shape,
    and [__call__] maps entry by entry. *)
Record t := { condensation : option (list Z) }.

(** The dataclass constructor with [__post_init__]; the condensation is a
    flat long tensor here, so the checks of rank and dtype pass. *)
Definition __init__ (condensation : option (list Z)) : result t :=
  match condensation with
  | None => ret {| condensation := None |}
  | Some [] => raise (RuntimeError EmptySequence)
  | Some (v :: vs) =>
      if (foldl Z.min v vs <? -1) || (Z.of_nat (length (v :: vs)) <=? foldl Z.max v vs) then
        raise (ValueError InvalidCondensation)
      else ret {| condensation := Some (v :: vs) |}
  end.

(** [Condenser.empty] *)
Definition empty : result t := __init__ None.

(** [Condenser.make] *)
Definition make (x : list Z) (enable : bool) : result t :=
  if negb enable || bool_decide (length x = 0%nat) then empty
  else
    k ← get_num_ids x;
    let unique_entities := unique_ids x in
    old_ids_t ← torch_arange k;
    if bool_decide (unique_entities = old_ids_t) then empty
    else
      y ← torch_full k (-1);
      y ← scatter_ y unique_entities old_ids_t;
      __init__ (Some y).

(** [Condenser.__call__] *)
Definition __call__ (self : t) (x : list Z) : result (list Z) :=
  match self.(condensation) with
  | None => ret x
  | Some c =>
      y ← mapM_result (tensor_getitem c) x;
      if existsb (λ v, v <? 0) y then raise (ValueError IdsWithoutMap) else ret y
  end.

(** [Condenser.__bool__] *)
Definition __bool__ (self : t) : bool :=
  match self.(condensation) with
  | None => false
  | Some _ => true
  end.

End Condenser.

(** ** LCWA instances *)

Inductive TargetColumn := COLUMN_HEAD | COLUMN_RELATION | COLUMN_TAIL.

(** Modelled from the spec: [get_target_column] of [pykeen.constants] is not
    part of the embedded sources; the spec has the target default to the
    tail. *)
Definition get_target_column (target : option TargetColumn) : TargetColumn :=
  default COLUMN_TAIL target.

(** [mapped_triples[:, target]] *)
Definition target_column (target : TargetColumn) (row : triple) : Z :=
  let '(h, r, t) := row in
  match target with
  | COLUMN_HEAD => h
  | COLUMN_RELATION => r
  | COLUMN_TAIL => t
  end.

(** [mapped_triples[:, other_columns]] with
    [other_columns = sorted(set(range(3)).difference({target}))]. *)
Definition other_columns (target : TargetColumn) (row : triple) : Z * Z :=
  let '(h, r, t) := row in
  match target with
  | COLUMN_HEAD => (r, t)
  | COLUMN_RELATION => (h, t)
  | COLUMN_TAIL => (h, r)
  end.

(** [numpy.unique(ar, return_inverse=True, axis=0)] on two-column rows: the
    ascending distinct rows, and for every input row its position among
    them. *)
Definition np_unique_inverse (ar : list (Z * Z)) : list (Z * Z) * list nat :=
  let u := sorted_unique pair_compare ar in
  (u, (λ p, default 0%nat (fst <$> list_find (λ q, q = p) u)) <$> ar).

(** A [scipy.sparse] matrix in coordinate format.  The values are the
    [float32] ones of the source and their sums: whole numbers. *)
Record coo_matrix := {
  coo_shape : nat * nat;
  coo_row : list nat;
  coo_col : list nat;
  coo_data : list nat;
}.

(** [scipy.sparse.coo_matrix((data, (row, col)), shape=shape)]: a negative
    dimension, a negative index or an index beyond the shape raises. *)
Definition make_coo_matrix (data : list nat) (row : list nat) (col : list Z)
    (shape : nat * Z) : result coo_matrix :=
  if shape.2 <? 0 then raise (ValueError NegativeDimension)
  else if existsb (λ j, j <? 0) col then raise (ValueError IndexOutOfBounds)
  else if existsb (λ i, shape.1 <=? i)%nat row then raise (ValueError IndexOutOfBounds)
  else if existsb (λ j, shape.2 <=? j) col then raise (ValueError IndexOutOfBounds)
  else ret {| coo_shape := (shape.1, Z.to_nat shape.2);
              coo_row := row; coo_col := Z.to_nat <$> col; coo_data := data |}.

(** A matrix in compressed sparse row format: per row, the stored values by
    column. *)
Record csr_matrix := {
  csr_shape : nat * nat;
  csr_rows : list (gmap nat nat);
}.

(** The [float32] nearest to a whole number below [2 ^ 128], ties going to
    the even significand: whole numbers below [2 ^ 24] are exact. *)
Definition float32_of_Z (n : Z) : Z :=
  if n <? 2 ^ 24 then n
  else
    let ulp := 2 ^ (Z.log2 n - 23) in
    let q := n `div` ulp in
    let r := n `mod` ulp in
    if 2 * r <? ulp then q * ulp
    else if ulp <? 2 * r then (q + 1) * ulp
    else if Z.even q then q * ulp else (q + 1) * ulp.

(** The [float32] sum of two whole numbers that are [float32] values. *)
Definition float32_add (x v : nat) : nat :=
  Z.to_nat (float32_of_Z (Z.of_nat x + Z.of_nat v)).

(** Adding [v] at [(i, j)], in [float32]. *)
Definition csr_add (rows : list (gmap nat nat)) (entry : nat * nat * nat)
    : list (gmap nat nat) :=
  let '(i, j, v) := entry in
  alter (partial_alter (λ o, Some (float32_add (default 0%nat o) v)) j) i rows.

(** [coo.tocsr()]: entries at the same position are summed, one after the
    other in the order of the entries. *)
Definition tocsr (m : coo_matrix) : csr_matrix :=
  {| csr_shape := m.(coo_shape);
     csr_rows :=
       foldl csr_add (replicate m.(coo_shape).1 ∅)
             (zip (zip m.(coo_row) m.(coo_col)) m.(coo_data)) |}.

(** [numpy.asarray(m[item, :].todense())[0, :]] *)
Definition dense_row (m : csr_matrix) (item : nat) : result (list nat) :=
  match m.(csr_rows) !! item with
  | None => raise (IndexError IndexOutOfBounds)
  | Some row => ret ((λ j, default 0%nat (row !! j)) <$> seq 0 m.(csr_shape).2)
  end.

Module LCWAInstances.

Record t := {
  pairs : list (Z * Z);
  compressed : csr_matrix;
  target : TargetColumn;
}.

(** [LCWAInstances.from_triples] *)
Definition from_triples (mapped_triples : list triple) (num_entities num_relations : Z)
    (target : option TargetColumn) : result t :=
  let target := get_target_column target in
  let '(unique_pairs, pair_idx_to_triple_idx) :=
    np_unique_inverse (other_columns target <$> mapped_triples) in
  let num_pairs := length unique_pairs in
  let tails := target_column target <$> mapped_triples in
  let target_size :=
    match target with
    | COLUMN_RELATION => num_relations
    | _ => num_entities
    end in
  compressed ← make_coo_matrix (replicate (length mapped_triples) 1%nat)
                  pair_idx_to_triple_idx tails (num_pairs, target_size);
  ret {| pairs := unique_pairs; compressed := tocsr compressed; target := target |}.

(** [LCWAInstances.__len__] *)
Definition __len__ (self : t) : nat := length self.(pairs).

(** The [target] entry of [LCWAInstances.__getitem__]. *)
Definition __getitem__target (self : t) (item : nat) : result (list nat) :=
  dense_row self.(compressed) item.

End LCWAInstances.

(** ** sLCWA instances *)

(** A Python [range(start, stop)]. *)
Record range := { start : nat; stop : nat }.

Definition range_len (r : range) : nat := (stop r - start r)%nat.

(** [torch.utils.data.BatchSampler(sampler, batch_size, drop_last)], on the
    indices the sampler yields in one epoch: indices are appended to the
    current batch, a batch of [batch_size] indices is yielded, and what
    remains at the end is yielded unless [drop_last]. *)
Fixpoint batch_sampler_loop (batch_size : nat) (drop_last : bool)
    (batch : list nat) (sampler : list nat) : list (list nat) :=
  match sampler with
  | [] => if drop_last || bool_decide (batch = []) then [] else [batch]
  | idx :: sampler' =>
      let batch := batch ++ [idx] in
      if bool_decide (length batch = batch_size) then
        batch :: batch_sampler_loop batch_size drop_last [] sampler'
      else batch_sampler_loop batch_size drop_last batch sampler'
  end.

(** The constructor rejects a batch size that is not positive. *)
Definition BatchSampler (sampler : list nat) (batch_size : Z) (drop_last : bool)
    : result (list (list nat)) :=
  if batch_size <=? 0 then raise (ValueError (InvalidBatchSize batch_size))
  else ret (batch_sampler_loop (Z.to_nat batch_size) drop_last [] sampler).

Module BaseBatchedSLCWAInstances.

Record t := {
  mapped_triples : list triple;
  batch_size : Z;
  drop_last : bool;
}.

(** [BaseBatchedSLCWAInstances.__len__]; [divmod] is the floor division of
    Python, which raises for a zero divisor. *)
Definition __len__ (self : t) : result Z :=
  if bool_decide (self.(batch_size) = 0) then raise (ZeroDivisionError DivisionByZero)
  else
    let num_batches := Z.of_nat (length self.(mapped_triples)) `div` self.(batch_size) in
    let remainder := Z.of_nat (length self.(mapped_triples)) `mod` self.(batch_size) in
    if negb (bool_decide (remainder = 0)) && negb self.(drop_last) then ret (num_batches + 1)
    else ret num_batches.

End BaseBatchedSLCWAInstances.

(** [torch.utils.data.RandomSampler(data_source)], on the indices it yields
    in one epoch: the constructor rejects a data source without elements,
    and an epoch is one random permutation of [range(len(data_source))];
    [randperm] is that draw. *)
Definition RandomSampler (randperm : nat → list nat) (data_source : range)
    : result (list nat) :=
  if bool_decide (range_len data_source = 0%nat) then
    raise (ValueError (InvalidNumSamples (range_len data_source)))
  else ret (randperm (range_len data_source)).

Module BatchedSLCWAInstances.

Section iter_triple_ids.
(** [split_workload] of [pykeen.utils] is not part of the embedded
    sources: it is a parameter, the share of [range(n)] that the calling
    worker iterates over. *)
Variable split_workload : nat → range.
Variable randperm : nat → list nat.

(** [BatchedSLCWAInstances.iter_triple_ids], the batches of one epoch: the
    sampler is built before the batch sampler. *)
Definition iter_triple_ids (self : BaseBatchedSLCWAInstances.t) : result (list (list nat)) :=
  let data_source := split_workload (length self.(BaseBatchedSLCWAInstances.mapped_triples)) in
  sampler ← RandomSampler randperm data_source;
  BatchSampler sampler
    self.(BaseBatchedSLCWAInstances.batch_size)
    self.(BaseBatchedSLCWAInstances.drop_last).
End iter_triple_ids.

End BatchedSLCWAInstances.

Module SubGraphSLCWAInstances.

(** [torch.randint(high, size=(1,))[0]]: one uniform draw below [high],
    which raises when there is nothing to draw from; [entropy] is the
    randomness consumed by the call. *)
Definition torch_randint (high : nat) (entropy : nat) : result nat :=
  if bool_decide (high = 0%nat) then raise (RuntimeError EmptyRange)
  else ret (entropy `mod` high)%nat.

(** The tensors and the list that one call of [subgraph_sample] updates. *)
Record state := {
  node_weights : list Z;
  edge_picked : list bool;
  node_picked : list bool;
  result_ids : list nat;
}.

Section edge_selection.
(** [adj_list] is [self.neighbors[start:stop, :]], rows of an edge number
    and the other vertex; [rand k] is the randomness of the [k]-th draw. *)
Variable adj_list : list (nat * nat).
Variable chosen_node_degree : nat.
Variable edge_picked : list bool.
Variable rand : nat → nat.

(** [chosen_edge_index = torch.randint(...)[0]; chosen_edge =
    adj_list[chosen_edge_index]] *)
Definition draw_edge (k : nat) : result (nat * nat) :=
  chosen_edge_index ← torch_randint chosen_node_degree (rand k);
  match adj_list !! chosen_edge_index with
  | Some chosen_edge => ret chosen_edge
  | None => raise (IndexError IndexOutOfBounds)
  end.

(** The loop [while edge_picked[edge_number]] entered with [chosen_edge],
    the next draw being the [k]-th: [None] when the loop is still running
    after [fuel] iterations, else how it was left. *)
Fixpoint retry (fuel : nat) (k : nat) (chosen_edge : nat * nat)
    : option (result (nat * nat)) :=
  match edge_picked !! chosen_edge.1 with
  | None => Some (raise (IndexError IndexOutOfBounds))
  | Some false => Some (ret chosen_edge)
  | Some true =>
      match fuel with
      | O => None
      | S fuel' =>
          match draw_edge k with
          | inl e => Some (inl e)
          | inr chosen_edge' => retry fuel' (S k) chosen_edge'
          end
      end
  end.

(** The rejection sampling of an outgoing edge: the first draw, then the
    loop. *)
Definition sample_edge (fuel : nat) : option (result (nat * nat)) :=
  match draw_edge 0 with
  | inl e => Some (inl e)
  | inr chosen_edge => retry fuel 1 chosen_edge
  end.
End edge_selection.

(** [t[i]] and [t[i] = v] on the tensors of the state, for an index that is
    not negative: an index beyond the tensor raises. *)
Definition getitem {A} (t : list A) (i : nat) : result A :=
  match t !! i with
  | Some v => ret v
  | None => raise (IndexError IndexOutOfBounds)
  end.

Definition setitem {A} (t : list A) (i : nat) (v : A) : result (list A) :=
  if bool_decide (i < length t)%nat then ret (<[i := v]> t)
  else raise (IndexError IndexOutOfBounds).

(** [node_weights[i] -= 1] *)
Definition decrement (t : list Z) (i : nat) : result (list Z) :=
  w ← getitem t i; setitem t i (w - 1).

(** What an iteration does before the edge is sampled: the chosen vertex is
    marked and its adjacency list is sliced out of [neighbors]. *)
Definition visit_vertex (degrees offset : list nat) (neighbors : list (nat * nat))
    (chosen_vertex : nat) (s : state) : result (list bool * list (nat * nat) * nat) :=
  node_picked ← setitem s.(node_picked) chosen_vertex true;
  start ← getitem offset chosen_vertex;
  chosen_node_degree ← getitem degrees chosen_vertex;
  let adj_list := take chosen_node_degree (drop start neighbors) in
  ret (node_picked, adj_list, chosen_node_degree).

(** What an iteration does after the edge is sampled. *)
Definition pick_edge (chosen_vertex : nat) (node_picked : list bool)
    (chosen_edge : nat * nat) (s : state) : result state :=
  let edge_number := chosen_edge.1 in
  edge_picked ← setitem s.(edge_picked) edge_number true;
  let other_vertex := chosen_edge.2 in
  node_picked ← setitem node_picked other_vertex true;
  node_weights ← decrement s.(node_weights) chosen_vertex;
  node_weights ← decrement node_weights other_vertex;
  ret {| result_ids := s.(result_ids) ++ [edge_number];
         edge_picked := edge_picked;
         node_picked := node_picked;
         node_weights := node_weights |}.

(** One iteration of [for _ in range(self.batch_size)] from the point where
    the vertex has been chosen; [degrees], [offset] and [neighbors] are the
    compressed adjacency list of the instance.  [None]: the retry loop is
    still running after [fuel] iterations. *)
Definition sample_step (degrees offset : list nat) (neighbors : list (nat * nat))
    (rand : nat → nat) (fuel : nat) (chosen_vertex : nat) (s : state)
    : option (result state) :=
  match visit_vertex degrees offset neighbors chosen_vertex s with
  | inl e => Some (inl e)
  | inr (node_picked, adj_list, chosen_node_degree) =>
      match sample_edge adj_list chosen_node_degree s.(edge_picked) rand fuel with
      | None => None
      | Some (inl e) => Some (inl e)
      | Some (inr chosen_edge) => Some (pick_edge chosen_vertex node_picked chosen_edge s)
      end
  end.

End SubGraphSLCWAInstances.

(** * Vocabulary of the statements *)

(** ** Factories *)

(** The IDs of a row lie within the declared numbers of entities and
    relations. *)
Definition row_in_bounds (num_entities num_relations : Z) (row : triple) : Prop :=
  let '(h, r, t) := row in
  (0 ≤ h < num_entities) ∧ (0 ≤ r < num_relations) ∧ (0 ≤ t < num_entities).

(** What the constructor of a factory rejects: a tensor that is not [(n, 3)],
    a floating or complex dtype, or an ID outside the declared bounds. *)
Definition invalid_input (mapped_triples : Tensor) (num_entities num_relations : Z) : Prop :=
  ¬ (ndim mapped_triples = 2%nat ∧ t_shape mapped_triples !! 1%nat = Some 3%nat)
  ∨ is_floating_point (t_dtype mapped_triples) = true
  ∨ is_complex (t_dtype mapped_triples) = true
  ∨ ∃ h r t, (h, r, t) ∈ rows3 (t_data mapped_triples)
      ∧ (h < 0 ∨ r < 0 ∨ t < 0 ∨ num_entities ≤ h ∨ num_entities ≤ t ∨ num_relations ≤ r).

(** The three comparisons of the range check read over the integers, with
    the counts themselves as the bounds. *)
Definition ids_in_range (rows : list triple) (num_entities num_relations : Z) : bool :=
  forallb (λ '(h, r, t), (0 <=? h) && (0 <=? r) && (0 <=? t)) rows
  && forallb (λ '(h, _, t), (h <? num_entities) && (t <? num_entities)) rows
  && forallb (λ '(_, r, _), r <? num_relations) rows.

(** A count that a comparison with a tensor of dtype [d] accepts as its
    scalar operand. *)
Definition convertible (d : dtype) (scalar : Z) : Prop :=
  match d with
  | torch_uint8 => -255 ≤ scalar ≤ 255
  | torch_int32 => - 2 ^ 31 ≤ scalar ≤ 2 ^ 31 - 1
  | _ => - 2 ^ 63 ≤ scalar ≤ 2 ^ 63 - 1
  end.

(** The value that the entries are compared with, for a count that is
    accepted. *)
Definition operand_value (d : dtype) (scalar : Z) : Z :=
  match d with
  | torch_uint8 => scalar `mod` 256
  | _ => scalar
  end.

(** The range of a Python int that unpacks into a 64-bit integer. *)
Definition int64 (z : Z) : Prop := - 2 ^ 63 ≤ z ≤ 2 ^ 63 - 1.


(** The state a constructed factory is in: the relation count is the one of
    [KGInfo.__init__], and the stored long tensor passes the range check
    against the real number of relations. *)
Definition well_formed (f : CoreTriplesFactory.t) : Prop :=
  f.(CoreTriplesFactory.num_relations) =
    KGInfo.num_relations f.(CoreTriplesFactory.real_num_relations)
      f.(CoreTriplesFactory.create_inverse_triples)
  ∧ valid_triple_id_range (long_tensor f.(CoreTriplesFactory.mapped_triples))
      f.(CoreTriplesFactory.num_entities) f.(CoreTriplesFactory.real_num_relations)
    = inr true.

(** An operand that [merge] of the base class rejects. *)
Definition incompatible (self other : CoreTriplesFactory.t) : Prop :=
  other.(CoreTriplesFactory.num_entities) ≠ self.(CoreTriplesFactory.num_entities)
  ∨ other.(CoreTriplesFactory.num_relations) ≠ self.(CoreTriplesFactory.num_relations)
  ∨ other.(CoreTriplesFactory.create_inverse_triples)
      ≠ self.(CoreTriplesFactory.create_inverse_triples).

(** An operand that [merge] of [TriplesFactory] rejects before the checks of
    the base class. *)
Definition label_mismatch (self other : TriplesFactory.t) : Prop :=
  TriplesFactory.entity_to_id other ≠ TriplesFactory.entity_to_id self
  ∨ TriplesFactory.relation_to_id other ≠ TriplesFactory.relation_to_id self.

(** [i] is the first position of [l] whose element satisfies [P]. *)
Definition first_at {A} (P : A → Prop) (l : list A) (i : nat) : Prop :=
  (∃ x, l !! i = Some x ∧ P x) ∧ ∀ j y, (j < i)%nat → l !! j = Some y → ¬ P y.

(** The row of IDs of a labeled row, and the rows that the mapping keeps. *)
Definition mapped_row (entity_to_id relation_to_id : gmap string Z) (row : ltriple)
    : triple :=
  let '(h, r, t) := row in
  (get_id entity_to_id h, get_id relation_to_id r, get_id entity_to_id t).

Definition row_nonneg (row : triple) : Prop :=
  let '(h, r, t) := row in 0 ≤ h ∧ 0 ≤ r ∧ 0 ≤ t.

#[global] Instance row_nonneg_dec row : Decision (row_nonneg row).
Proof. destruct row as [[h r] t]. unfold row_nonneg. apply _. Defined.

(** ** Orders and condensation *)

(** A three-way comparison that decides a strict total order. *)
Class StrictCompare {A} (cmp : A → A → comparison) := {
  compare_eq x y : cmp x y = Eq ↔ x = y;
  compare_antisym x y : cmp y x = CompOpp (cmp x y);
  compare_lt_trans x y z : cmp x y = Lt → cmp y z = Lt → cmp x z = Lt;
}.

Definition cmp_lt {A} (cmp : A → A → comparison) (x y : A) : Prop := cmp x y = Lt.

(** The IDs present in a tensor are exactly [0..k-1] for some [k]. *)
Definition contiguous (x : list Z) : Prop := ∃ k, ∀ v, v ∈ x ↔ 0 ≤ v < k.

(** The entry of a sparse row matrix at [(i, j)]. *)
Definition csr_cell (rows : list (gmap nat nat)) (i j : nat) : nat :=
  default 0%nat (rows !! i ≫= (.!! j)).

(** ** Rejection sampling *)

(** All sequences of [t] draws below [d], and the randomness that makes the
    sampler draw a given sequence. *)
Fixpoint draws (d t : nat) : list (list nat) :=
  match t with
  | O => [[]]
  | S t' => p ← seq 0 d; (p ::.) <$> draws d t'
  end.

Definition entropy_of (ds : list nat) : nat → nat := λ k, default 0%nat (ds !! k).

(** The edge is marked in [edge_picked], or is not; the position of an
    adjacency list holds a marked edge. *)
Definition picked (edge_picked : list bool) (edge : nat * nat) : Prop :=
  edge_picked !! edge.1 = Some true.

Definition unpicked (edge_picked : list bool) (edge : nat * nat) : Prop :=
  edge_picked !! edge.1 = Some false.

Definition picked_position (adj_list : list (nat * nat)) (edge_picked : list bool)
    (p : nat) : Prop :=
  ∃ edge, adj_list !! p = Some edge ∧ picked edge_picked edge.

#[global] Instance picked_position_dec adj_list edge_picked p :
  Decision (picked_position adj_list edge_picked p).
Proof.
  unfold picked_position, picked. destruct (adj_list !! p) as [edge|].
  - destruct (decide (edge_picked !! edge.1 = Some true)) as [Hp|Hp].
    + left. by exists edge.
    + right. intros (edge' & [= <-] & Hp'). by apply Hp.
  - right. intros (edge' & [=] & _).
Defined.

(** The number of positions of the adjacency list that hold a picked edge. *)
Definition num_picked (adj_list : list (nat * nat)) (edge_picked : list bool) : nat :=
  length (filter (picked_position adj_list edge_picked) (seq 0 (length adj_list))).

(** The draw sequences of [S fuel] draws after which the retry loop is still
    running. *)
Definition still_running (adj_list : list (nat * nat)) (edge_picked : list bool)
    (fuel : nat) : list (list nat) :=
  filter (λ ds, SubGraphSLCWAInstances.sample_edge adj_list (length adj_list) edge_picked
                  (entropy_of ds) fuel = None)
    (draws (length adj_list) (S fuel)).

(** ** Concrete inputs *)

(** A factory restricted to the entities 0 and 1, as [new_with_restriction]
    records it in the metadata. *)
Definition restricted_factory : CoreTriplesFactory.t :=
  {| CoreTriplesFactory.num_entities := 3;
     CoreTriplesFactory.real_num_relations := 1;
     CoreTriplesFactory.num_relations := 1;
     CoreTriplesFactory.create_inverse_triples := false;
     CoreTriplesFactory.mapped_triples := [(0, 0, 1); (1, 0, 0)];
     CoreTriplesFactory.metadata := {[ "entity_restriction"%string := PyInts [0; 1] ]} |}.

(** A factory over four entities, which [restricted_factory] cannot be merged
    with. *)
Definition larger_factory : CoreTriplesFactory.t :=
  {| CoreTriplesFactory.num_entities := 4;
     CoreTriplesFactory.real_num_relations := 1;
     CoreTriplesFactory.num_relations := 1;
     CoreTriplesFactory.create_inverse_triples := false;
     CoreTriplesFactory.mapped_triples := [(3, 0, 1)];
     CoreTriplesFactory.metadata := ∅ |}.

(** A factory with inverse triples, and a splitting routine that cuts after
    the first row. *)
Definition inverse_factory : CoreTriplesFactory.t :=
  {| CoreTriplesFactory.num_entities := 3;
     CoreTriplesFactory.real_num_relations := 1;
     CoreTriplesFactory.num_relations := 2;
     CoreTriplesFactory.create_inverse_triples := true;
     CoreTriplesFactory.mapped_triples := [(0, 0, 1); (1, 0, 2); (2, 0, 0)];
     CoreTriplesFactory.metadata := ∅ |}.

Definition cut_after_first (rows : list triple) (_ : unit) : result (list (list triple)) :=
  ret [take 1 rows; drop 1 rows].

(** Four labeled triples, one of them twice. *)
Definition example_labeled_triples : list ltriple :=
  [("b", "likes", "a"); ("a", "likes", "b"); ("b", "likes", "a"); ("a", "knows", "c")]%string.

(** Labeled factories over two entities: two with the same label mappings
    that differ in the inverse-triple flag, one with other entity labels. *)
Definition labeled_factory (entity_to_id : gmap string Z) (create_inverse_triples : bool)
    : TriplesFactory.t :=
  {| TriplesFactory.core :=
       {| CoreTriplesFactory.num_entities := 2;
          CoreTriplesFactory.real_num_relations := 1;
          CoreTriplesFactory.num_relations :=
            KGInfo.num_relations 1 create_inverse_triples;
          CoreTriplesFactory.create_inverse_triples := create_inverse_triples;
          CoreTriplesFactory.mapped_triples := [(0, 0, 1)];
          CoreTriplesFactory.metadata := ∅ |};
     TriplesFactory.entity_labeling := Labeling.built entity_to_id;
     TriplesFactory.relation_labeling :=
       Labeling.built {[ "likes"%string := 0 ]} |}.

Definition factory_ab : TriplesFactory.t :=
  labeled_factory {[ "a"%string := 0; "b"%string := 1 ]} false.

Definition factory_ab_inverse : TriplesFactory.t :=
  labeled_factory {[ "a"%string := 0; "b"%string := 1 ]} true.

Definition factory_xy : TriplesFactory.t :=
  labeled_factory {[ "x"%string := 0; "y"%string := 1 ]} false.

(** The triples of the LCWA example of the spec. *)
Definition lcwa_example : list triple := [(0, 0, 1); (0, 0, 2); (1, 0, 2)].

(** Five triples in batches of two, iterated in one process, with the
    sampler drawing the indices in descending order. *)
Definition five_triples : BaseBatchedSLCWAInstances.t :=
  {| BaseBatchedSLCWAInstances.mapped_triples :=
       [(0, 0, 1); (1, 0, 2); (2, 0, 3); (3, 0, 4); (4, 0, 0)];
     BaseBatchedSLCWAInstances.batch_size := 2;
     BaseBatchedSLCWAInstances.drop_last := true |}.

Definition whole_workload (n : nat) : range := {| start := 0; stop := n |}.

(** No triples, in batches of one. *)
Definition no_triples : BaseBatchedSLCWAInstances.t :=
  {| BaseBatchedSLCWAInstances.mapped_triples := [];
     BaseBatchedSLCWAInstances.batch_size := 1;
     BaseBatchedSLCWAInstances.drop_last := true |}.

Definition descending (n : nat) : list nat := reverse (seq 0 n).

(** The adjacency list of a vertex with two incident edges. *)
Definition two_edges : list (nat * nat) := [(0, 1); (1, 2)]%nat.


(** * Further functions of the two modules *)

(** ** Exceptions of the further functions *)

(** The classes of the exceptions. *)
Inductive exn_class :=
  | ValueErrorClass | TypeErrorClass | RuntimeErrorClass | IndexErrorClass
  | ZeroDivisionErrorClass | KeyErrorClass.

(** What the exceptions of the functions below report; one constructor per
    [raise] site or failing lookup. *)
Inductive site :=
  | CannotConvertIds (label : string)
  | MissingLabel (label : string)
  | MissingId (id : Z)
  | IdsNotInLabeling (name : string) (diff : list Z)
  | UnequalLengths
  | DifferentNumberOfFactories
  | NoFactory
  | NotEnoughValues (expected got : nat).

(** An exception of the code embedded above, or one of the functions below. *)
Inductive error :=
  | Earlier (e : exn)
  | Later (c : exn_class) (s : site).

Definition class_of (e : error) : exn_class :=
  match e with
  | Earlier (ValueError _) => ValueErrorClass
  | Earlier (TypeError _) => TypeErrorClass
  | Earlier (RuntimeError _) => RuntimeErrorClass
  | Earlier (IndexError _) => IndexErrorClass
  | Earlier (ZeroDivisionError _) => ZeroDivisionErrorClass
  | Later c _ => c
  end.

Definition outcome (A : Type) : Type := error + A.

#[global] Instance outcome_bind : MBind outcome := λ A B k c,
  match c with inl e => inl e | inr x => k x end.

#[global] Instance outcome_ret : MRet outcome := λ A x, inr x.

Definition throw {A} (c : exn_class) (s : site) : outcome A := inl (Later c s).

(** A call of a function embedded above. *)
Definition lift {A} (c : result A) : outcome A :=
  match c with inl e => inl (Earlier e) | inr x => inr x end.

(** ** Restriction of triples *)

(** [torch.isin(elements, test_elements, invert=invert)], at one element. *)
Definition torch_isin (test_elements : list Z) (invert : bool) (element : Z) : bool :=
  xorb (bool_decide (element ∈ test_elements)) invert.

(** The [columns] argument of [_get_triple_mask] as the module passes it: one
    column, or a tuple of two columns or more. *)
Inductive columns :=
  | Column (c : TargetColumn)
  | Columns (c1 c2 : TargetColumn) (cs : list TargetColumn).

(** [_get_triple_mask]: with more than one column, a row is selected when all
    of its columns are. *)
Definition _get_triple_mask (ids : list Z) (triples : list triple) (columns : columns)
    (invert : bool) : list bool :=
  match columns with
  | Column c => (λ row, torch_isin ids invert (target_column c row)) <$> triples
  | Columns c1 c2 cs =>
      (λ row, forallb (λ c, torch_isin ids invert (target_column c row)) (c1 :: c2 :: cs))
        <$> triples
  end.

(** [tensor[mask]] for a boolean mask over the rows. *)
Definition masked_select {A} (rows : list A) (mask : list bool) : list A :=
  zip rows mask ≫= (λ '(row, keep), if (keep : bool) then [row] else []).

Definition restrict_triples (mapped_triples : list triple)
    (entities relations : option (list Z))
    (invert_entity_selection invert_relation_selection : bool) : list triple :=
  let keep_mask :=
    match entities with
    | Some entities =>
        Some (_get_triple_mask entities mapped_triples (Columns COLUMN_HEAD COLUMN_TAIL [])
                invert_entity_selection)
    | None => None
    end in
  let keep_mask :=
    match relations with
    | Some relations =>
        let relation_mask :=
          _get_triple_mask relations mapped_triples (Column COLUMN_RELATION)
            invert_relation_selection in
        Some (match keep_mask with
              | None => relation_mask
              | Some keep_mask => zip_with andb keep_mask relation_mask
              end)
    | None => keep_mask
    end in
  match keep_mask with
  | None => mapped_triples
  | Some keep_mask => masked_select mapped_triples keep_mask
  end.

(** A [Collection[int] | Collection[str]] of entities or relations. *)
Inductive collection :=
  | Ints (ids : list Z)
  | Strs (labels : list string).

Definition elements (c : collection) : list (Z + string) :=
  match c with
  | Ints ids => inl <$> ids
  | Strs labels => inr <$> labels
  end.

(** The collection as a metadata value. *)
Definition collection_value (c : collection) : pyval :=
  match c with
  | Ints ids => PyInts ids
  | Strs labels => PyStrs labels
  end.

(** [_ensure_ids]: a label that the mapping does not have raises. *)
Definition _ensure_ids (labels_or_ids : collection) (label_to_id : gmap string Z)
    : outcome (list Z) :=
  mapM (λ l_or_i : Z + string,
          match l_or_i with
          | inr label =>
              match label_to_id !! label with
              | Some i => mret i
              | None => throw KeyErrorClass (MissingLabel label)
              end
          | inl i => mret i
          end)
       (elements labels_or_ids).

(** [CoreTriplesFactory._raise_on_string] *)
Definition _raise_on_string (x : Z + string) (label : string) : outcome Z :=
  match x with
  | inl i => mret i
  | inr _ => throw TypeErrorClass (CannotConvertIds label)
  end.

(** The methods that [TriplesFactory] overrides and that
    [new_with_restriction] of the base class calls on [self]. *)
Class Restrictable (F : Type) `{CoreTriplesFactory.Subclass F} := {
  self_entities_to_ids : F → collection → outcome (list Z);
  self_relations_to_ids : F → collection → outcome (list Z);
}.

Module CoreRestriction.

(** [CoreTriplesFactory.entities_to_ids] and [relations_to_ids] *)
Definition entities_to_ids (self : CoreTriplesFactory.t) (entities : collection)
    : outcome (list Z) :=
  mapM (λ e, _raise_on_string e "entity") (elements entities).

Definition relations_to_ids (self : CoreTriplesFactory.t) (relations : collection)
    : outcome (list Z) :=
  mapM (λ r, _raise_on_string r "relation") (elements relations).

#[global] Instance base_restrictable : Restrictable CoreTriplesFactory.t := {|
  self_entities_to_ids := entities_to_ids;
  self_relations_to_ids := relations_to_ids;
|}.

(** [CoreTriplesFactory.get_mask_for_relations] *)
Definition get_mask_for_relations (self : CoreTriplesFactory.t) (relations : list Z)
    (invert : bool) : list bool :=
  _get_triple_mask relations self.(CoreTriplesFactory.mapped_triples)
    (Column COLUMN_RELATION) invert.

Section new_with_restriction.
(** [format_relative_comparison] of [pykeen.utils] is not part of the
    embedded sources; its result goes to the log, but it is called, and may
    raise, whatever the level of the log: it is a parameter. *)
Variable format_relative_comparison : Z → Z → result string.

(** The restriction of one kind of IDs: the metadata entry, the IDs, and
    the logged comparison. *)
Definition prepare_restriction `{Restrictable F} (self : F)
    (to_ids : F → collection → outcome (list Z)) (key : string) (total : Z)
    (selection : option collection) (invert : bool) (extra_metadata : gmap string pyval)
    : outcome (gmap string pyval * option (list Z)) :=
  match selection with
  | None => mret (extra_metadata, None)
  | Some c =>
      let extra_metadata := <[key := collection_value c]> extra_metadata in
      ids ← to_ids self c;
      let remaining :=
        if invert then total - Z.of_nat (length ids) else Z.of_nat (length ids) in
      _ ← lift (format_relative_comparison remaining total);
      mret (extra_metadata, Some ids)
  end.

(** [CoreTriplesFactory.new_with_restriction] *)
Definition new_with_restriction `{Restrictable F} (self : F)
    (entities relations : option collection)
    (invert_entity_selection invert_relation_selection : bool) : outcome F :=
  let core := CoreTriplesFactory.base self in
  '(extra_metadata, entities) ←
    prepare_restriction self self_entities_to_ids "entity_restriction"
      core.(CoreTriplesFactory.num_entities) entities invert_entity_selection ∅;
  '(extra_metadata, relations) ←
    prepare_restriction self self_relations_to_ids "relation_restriction"
      core.(CoreTriplesFactory.num_relations) relations invert_relation_selection
      extra_metadata;
  let mapped_triples :=
    restrict_triples core.(CoreTriplesFactory.mapped_triples) entities relations
      invert_entity_selection invert_relation_selection in
  if bool_decide (length mapped_triples = CoreTriplesFactory.num_triples self) then mret self
  else
    _ ← lift (format_relative_comparison (Z.of_nat (length mapped_triples))
                (Z.of_nat (CoreTriplesFactory.num_triples self)));
    lift (CoreTriplesFactory.self_clone_and_exchange_triples self
            (long_tensor mapped_triples) (Some extra_metadata) true None).
End new_with_restriction.

End CoreRestriction.

Module LabeledRestriction.

(** [TriplesFactory.entities_to_ids] and [relations_to_ids] *)
Definition entities_to_ids (self : TriplesFactory.t) (entities : collection)
    : outcome (list Z) :=
  _ensure_ids entities self.(TriplesFactory.entity_labeling).(Labeling.label_to_id).

Definition relations_to_ids (self : TriplesFactory.t) (relations : collection)
    : outcome (list Z) :=
  _ensure_ids relations self.(TriplesFactory.relation_labeling).(Labeling.label_to_id).

#[global] Instance labeled_restrictable : Restrictable TriplesFactory.t := {|
  self_entities_to_ids := entities_to_ids;
  self_relations_to_ids := relations_to_ids;
|}.

(** [TriplesFactory.get_mask_for_relations] *)
Definition get_mask_for_relations (self : TriplesFactory.t) (relations : collection)
    (invert : bool) : outcome (list bool) :=
  relations ← relations_to_ids self relations;
  mret (CoreRestriction.get_mask_for_relations self.(TriplesFactory.core) relations invert).

Section new_with_restriction.
Variable format_relative_comparison : Z → Z → result string.

(** [x = f(x)] under [if x is not None]. *)
Definition convert (to_ids : collection → outcome (list Z)) (selection : option collection)
    : outcome (option collection) :=
  match selection with
  | None => mret None
  | Some c => ids ← to_ids c; mret (Some (Ints ids))
  end.

(** [TriplesFactory.new_with_restriction]: the labels are converted, the
    method of the base class restricts, and the labelings of [self] are
    assigned to what it returns. *)
Definition new_with_restriction (self : TriplesFactory.t)
    (entities relations : option collection)
    (invert_entity_selection invert_relation_selection : bool) : outcome TriplesFactory.t :=
  match entities, relations with
  | None, None => mret self
  | _, _ =>
      entities ← convert (entities_to_ids self) entities;
      relations ← convert (relations_to_ids self) relations;
      tf ← CoreRestriction.new_with_restriction format_relative_comparison self
              entities relations invert_entity_selection invert_relation_selection;
      mret {| TriplesFactory.core := tf.(TriplesFactory.core);
              TriplesFactory.entity_labeling := self.(TriplesFactory.entity_labeling);
              TriplesFactory.relation_labeling := self.(TriplesFactory.relation_labeling) |}
  end.
End new_with_restriction.

End LabeledRestriction.

(** ** Vocabulary of restriction *)

(** An ID passes a selection: there is none, or the ID is among the selected
    ones, or, for an inverted selection, is not. *)
Definition selected (ids : option (list Z)) (invert : bool) (v : Z) : Prop :=
  match ids with
  | None => True
  | Some l => if invert then v ∉ l else v ∈ l
  end.

#[global] Instance selected_dec ids invert v : Decision (selected ids invert v).
Proof. destruct ids as [l|]; [destruct invert|]; simpl; apply _. Defined.

(** Head and tail pass the entity selection and the relation passes the
    relation selection. *)
Definition kept (entities relations : option (list Z))
    (invert_entity_selection invert_relation_selection : bool) (row : triple) : Prop :=
  let '(h, r, t) := row in
  selected entities invert_entity_selection h
  ∧ selected entities invert_entity_selection t
  ∧ selected relations invert_relation_selection r.

#[global] Instance kept_dec entities relations ie ir row :
  Decision (kept entities relations ie ir row).
Proof. destruct row as [[h r] t]. unfold kept. apply _. Defined.

(** ** Condensers of labelings and of triples *)

(** [Condenser.apply_to_num] *)
Definition Condenser_apply_to_num (self : Condenser.t) (max_id : Z) : result Z :=
  match self.(Condenser.condensation) with
  | None => ret max_id
  | Some c => get_num_ids c
  end.

(** [(condensation >= 0).nonzero().view(-1).tolist()] *)
Definition nonnegative_positions (c : list Z) : list Z :=
  (imap (λ i v, (Z.of_nat i, v)) c) ≫= (λ '(i, v), if 0 <=? v then [i] else []).

(** A dict comprehension over the pairs in their order: a later pair
    overwrites an earlier one with the same key. *)
Definition dict_of_pairs (pairs : list (string * Z)) : gmap string Z :=
  foldl (λ m '(label, i), <[label := i]> m) ∅ pairs.

(** [Condenser.apply_to_map].  Without a condensation the dict is inverted;
    a [gmap] does not record the order of insertion, which decides between
    two IDs with the same label: [map_to_list] fixes one.  With a
    condensation, [zip(..., strict=True)] raises after the last pair when
    the lengths differ. *)
Definition Condenser_apply_to_map (self : Condenser.t) (id_to_label : gmap Z string)
    : outcome (gmap string Z) :=
  match self.(Condenser.condensation) with
  | None => mret (dict_of_pairs (prod_swap <$> map_to_list id_to_label))
  | Some c =>
      let old_indices := nonnegative_positions c in
      k ← lift (get_num_ids c);
      let new_indices := seqZ 0 k in
      pairs ← mapM (λ '(old, new),
                      match id_to_label !! old with
                      | Some label => mret (label, new)
                      | None => throw KeyErrorClass (MissingId old)
                      end)
                   (zip old_indices new_indices);
      if bool_decide (length old_indices ≠ length new_indices) then
        throw ValueErrorClass UnequalLengths
      else mret (dict_of_pairs pairs)
  end.

Module TripleCondenser.

Record t := {
  entities : Condenser.t;
  relations : Condenser.t;
}.

(** [mapped_triples[:, ::2]] and [mapped_triples[:, 1]], entry by entry. *)
Definition head_tail_columns (mapped_triples : list triple) : list Z :=
  mapped_triples ≫= (λ '(h, _, t), [h; t]).

Definition relation_column (mapped_triples : list triple) : list Z :=
  (λ '(_, r, _), r) <$> mapped_triples.

(** The rows of a two-column tensor given entry by entry. *)
Fixpoint rows2 (l : list Z) : list (Z * Z) :=
  match l with
  | h :: t :: l' => (h, t) :: rows2 l'
  | _ => []
  end.

(** [TripleCondenser.make] *)
Definition make (mapped_triples : list triple) (entities relations : bool) : result t :=
  e ← Condenser.make (head_tail_columns mapped_triples) entities;
  r ← Condenser.make (relation_column mapped_triples) relations;
  ret {| entities := e; relations := r |}.

(** [TripleCondenser.__bool__]: [bool(self.entities or self.relations)] *)
Definition __bool__ (self : t) : bool :=
  Condenser.__bool__
    (if Condenser.__bool__ self.(entities) then self.(entities) else self.(relations)).

(** [TripleCondenser.__call__] *)
Definition __call__ (self : t) (mapped_triples : list triple) : result (list triple) :=
  if negb (__bool__ self) then ret mapped_triples
  else
    ht ← Condenser.__call__ self.(entities) (head_tail_columns mapped_triples);
    r ← Condenser.__call__ self.(relations) (relation_column mapped_triples);
    ret (zip_with (λ '(h, t) r, (h, r, t)) (rows2 ht) r).

End TripleCondenser.

Module CoreCondensation.

(** [CoreTriplesFactory.make_condenser] *)
Definition make_condenser (self : CoreTriplesFactory.t) (entities relations : bool)
    : result TripleCondenser.t :=
  TripleCondenser.make self.(CoreTriplesFactory.mapped_triples) entities relations.

(** [CoreTriplesFactory.apply_condenser] *)
Definition apply_condenser (self : CoreTriplesFactory.t) (condenser : TripleCondenser.t)
    : result CoreTriplesFactory.t :=
  if negb (TripleCondenser.__bool__ condenser) then ret self
  else
    mapped_triples ← TripleCondenser.__call__ condenser self.(CoreTriplesFactory.mapped_triples);
    num_entities ← Condenser_apply_to_num condenser.(TripleCondenser.entities)
                      self.(CoreTriplesFactory.num_entities);
    num_relations ← Condenser_apply_to_num condenser.(TripleCondenser.relations)
                       self.(CoreTriplesFactory.num_relations);
    CoreTriplesFactory.__init__ (long_tensor mapped_triples) num_entities num_relations
      self.(CoreTriplesFactory.create_inverse_triples)
      (Some self.(CoreTriplesFactory.metadata)).

(** [CoreTriplesFactory.condense] on a factory of the base class *)
Definition condense (self : CoreTriplesFactory.t) (entities relations : bool)
    : result CoreTriplesFactory.t :=
  condenser ← make_condenser self entities relations;
  apply_condenser self condenser.

End CoreCondensation.

Module LabeledCondensation.

(** [TriplesFactory.apply_condenser] *)
Definition apply_condenser (self : TriplesFactory.t) (condenser : TripleCondenser.t)
    : outcome TriplesFactory.t :=
  if negb (TripleCondenser.__bool__ condenser) then mret self
  else
    let core := self.(TriplesFactory.core) in
    mapped_triples ← lift (TripleCondenser.__call__ condenser
                             core.(CoreTriplesFactory.mapped_triples));
    entity_to_id ← Condenser_apply_to_map condenser.(TripleCondenser.entities)
                      self.(TriplesFactory.entity_labeling).(Labeling.id_to_label);
    relation_to_id ← Condenser_apply_to_map condenser.(TripleCondenser.relations)
                        self.(TriplesFactory.relation_labeling).(Labeling.id_to_label);
    num_entities ← lift (Condenser_apply_to_num condenser.(TripleCondenser.entities)
                           core.(CoreTriplesFactory.num_entities));
    num_relations ← lift (Condenser_apply_to_num condenser.(TripleCondenser.relations)
                            core.(CoreTriplesFactory.num_relations));
    lift (TriplesFactory.__init__ (long_tensor mapped_triples) entity_to_id relation_to_id
            core.(CoreTriplesFactory.create_inverse_triples)
            (Some core.(CoreTriplesFactory.metadata))
            (Some num_entities) (Some num_relations)).

(** [CoreTriplesFactory.condense] on a [TriplesFactory]: [make_condenser] is
    inherited and [apply_condenser] is the overriding method. *)
Definition condense (self : TriplesFactory.t) (entities relations : bool)
    : outcome TriplesFactory.t :=
  condenser ← lift (CoreCondensation.make_condenser self.(TriplesFactory.core)
                      entities relations);
  apply_condenser self condenser.

End LabeledCondensation.

(** ** Vocabulary of condensation *)

(** The number of distinct IDs of [x] below [v]: the new ID of [v]. *)
Definition rank (x : list Z) (v : Z) : Z :=
  Z.of_nat (length (filter (λ u, u < v) (unique_ids x))).

(** The row that a condenser built from the triples [T] makes of a row, for
    the axes that it condenses. *)
Definition condensed_row (T : list triple) (entities relations : bool) (row : triple)
    : triple :=
  let '(h, r, t) := row in
  let E := TripleCondenser.head_tail_columns T in
  let R := TripleCondenser.relation_column T in
  (if entities then rank E h else h,
   if relations then rank R r else r,
   if entities then rank E t else t).

(** The IDs of a row occur in the triples [T], on the axes that are
    condensed. *)
Definition covered (T : list triple) (entities relations : bool) (row : triple) : Prop :=
  let '(h, r, t) := row in
  (entities = true →
   h ∈ TripleCondenser.head_tail_columns T ∧ t ∈ TripleCondenser.head_tail_columns T)
  ∧ (relations = true → r ∈ TripleCondenser.relation_column T).

(** A factory over six entities of which three occur, without and with
    inverse triples. *)
Definition gap_factory (create_inverse_triples : bool) : CoreTriplesFactory.t :=
  {| CoreTriplesFactory.num_entities := 6;
     CoreTriplesFactory.real_num_relations := 2;
     CoreTriplesFactory.num_relations := KGInfo.num_relations 2 create_inverse_triples;
     CoreTriplesFactory.create_inverse_triples := create_inverse_triples;
     CoreTriplesFactory.mapped_triples := [(0, 0, 5); (5, 1, 2)];
     CoreTriplesFactory.metadata := ∅ |}.

(** A labeled tensor over three entities of which two occur. *)
Definition gap_labels : gmap string Z :=
  {[ "a"%string := 0; "b"%string := 1; "c"%string := 2 ]}.

Definition gap_triples : Tensor := long_tensor [(0, 0, 2)].

(** ** Further constructors and conversions *)

Module CoreConstruction.

(** [CoreTriplesFactory.create], for an integer tensor of three columns
    given by its rows: the counts that are not given are inferred. *)
Definition create (mapped_triples : list triple) (num_entities num_relations : option Z)
    (create_inverse_triples : bool) (metadata : option (gmap string pyval))
    : result CoreTriplesFactory.t :=
  num_entities ←
    match num_entities with
    | None => get_num_ids (TripleCondenser.head_tail_columns mapped_triples)
    | Some n => ret n
    end;
  num_relations ←
    match num_relations with
    | None => get_num_ids (TripleCondenser.relation_column mapped_triples)
    | Some n => ret n
    end;
  CoreTriplesFactory.__init__ (long_tensor mapped_triples) num_entities num_relations
    create_inverse_triples metadata.

(** [CoreTriplesFactory.__eq__] for another factory: the triples are
    compared entry by entry once their numbers are equal. *)
Definition __eq__ (self o : CoreTriplesFactory.t) : bool :=
  bool_decide (self.(CoreTriplesFactory.num_entities) = o.(CoreTriplesFactory.num_entities))
  && bool_decide (self.(CoreTriplesFactory.num_relations)
                  = o.(CoreTriplesFactory.num_relations))
  && bool_decide (length self.(CoreTriplesFactory.mapped_triples)
                  = length o.(CoreTriplesFactory.mapped_triples))
  && bool_decide (self.(CoreTriplesFactory.create_inverse_triples)
                  = o.(CoreTriplesFactory.create_inverse_triples))
  && forallb (λ '(a, b), bool_decide (a = b))
       (zip (flatten3 self.(CoreTriplesFactory.mapped_triples))
            (flatten3 o.(CoreTriplesFactory.mapped_triples))).

(** The check of one labeling in [with_labels]; [diff] is listed in
    ascending order. *)
Definition check_labeling (name : string) (ids : list Z) (new_labeling : gmap string Z)
    : outcome unit :=
  let existing_ids := unique_ids ids in
  let values := (map_to_list new_labeling).*2 in
  if negb (forallb (λ i, bool_decide (i ∈ values)) existing_ids) then
    let diff := filter (λ i, i ∉ values) existing_ids in
    throw ValueErrorClass (IdsNotInLabeling name diff)
  else mret ().

(** [CoreTriplesFactory.with_labels] *)
Definition with_labels (self : CoreTriplesFactory.t) (entity_to_id relation_to_id : gmap string Z)
    : outcome TriplesFactory.t :=
  _ ← check_labeling "entity"
        (TripleCondenser.head_tail_columns self.(CoreTriplesFactory.mapped_triples))
        entity_to_id;
  _ ← check_labeling "relation"
        (TripleCondenser.relation_column self.(CoreTriplesFactory.mapped_triples))
        relation_to_id;
  lift (TriplesFactory.__init__ (long_tensor self.(CoreTriplesFactory.mapped_triples))
          entity_to_id relation_to_id self.(CoreTriplesFactory.create_inverse_triples)
          (Some self.(CoreTriplesFactory.metadata)) None None).

(** What [to_path_binary] stores besides the triples. *)
Record binary_state := {
  state_num_entities : Z;
  state_num_relations : Z;
  state_create_inverse_triples : bool;
  state_metadata : gmap string pyval;
}.

(** [CoreTriplesFactory._get_binary_state] *)
Definition _get_binary_state (self : CoreTriplesFactory.t) : binary_state :=
  {| state_num_entities := self.(CoreTriplesFactory.num_entities);
     state_num_relations := self.(CoreTriplesFactory.real_num_relations);
     state_create_inverse_triples := self.(CoreTriplesFactory.create_inverse_triples);
     state_metadata := self.(CoreTriplesFactory.metadata) |}.

(** The call of the constructor in [from_path_binary], on the keywords of
    the loaded state together with the loaded triples. *)
Definition from_binary_state (state : binary_state) (mapped_triples : Tensor)
    : result CoreTriplesFactory.t :=
  CoreTriplesFactory.__init__ mapped_triples state.(state_num_entities)
    state.(state_num_relations) state.(state_create_inverse_triples)
    (Some state.(state_metadata)).

End CoreConstruction.

Module LabeledConstruction.

(** [TriplesFactory.to_core_triples_factory] *)
Definition to_core_triples_factory (self : TriplesFactory.t) : result CoreTriplesFactory.t :=
  let core := self.(TriplesFactory.core) in
  CoreTriplesFactory.__init__ (long_tensor core.(CoreTriplesFactory.mapped_triples))
    core.(CoreTriplesFactory.num_entities) core.(CoreTriplesFactory.num_relations)
    core.(CoreTriplesFactory.create_inverse_triples)
    (Some core.(CoreTriplesFactory.metadata)).

(** [TriplesFactory.triples] *)
Definition triples (self : TriplesFactory.t) : list ltriple :=
  TriplesFactory.label_triples self
    self.(TriplesFactory.core).(CoreTriplesFactory.mapped_triples) "[UNKNOWN]" None.

End LabeledConstruction.


(** * Label mappings of the factories *)

(** [Labeling.all_labels]: the labels of [range(self.max_id)], IDs without
    a label being given the default [unknown_label] of [Labeling.label]. *)
Definition Labeling_all_labels (self : Labeling.t) : result (list string) :=
  max_id ← Labeling.max_id self;
  ret (Labeling.label self (seqZ 0 max_id) "unknown").

(** The label is the head or the tail of one of the triples. *)
Definition entity_of (triples : list ltriple) (label : string) : Prop :=
  ∃ h r t, (h, r, t) ∈ triples ∧ (label = h ∨ label = t).

(** The string ends with a line feed. *)
Definition ends_with_newline (s : string) : Prop := endswith s newline = true.

(** Two labels on the ID 0. *)
Definition shared_id : gmap string Z := {[ "a"%string := 0; "b"%string := 0 ]}.

(** A mapping of two labels onto the IDs 0 and 1, and one with a gap at the
    ID 1 and a negative ID. *)
Definition two_labels : gmap string Z := {[ "b"%string := 1; "a"%string := 0 ]}.

Definition labels_with_gap : gmap string Z :=
  {[ "a"%string := 0; "c"%string := 2; "z"%string := -1 ]}.

(** The order of a sort by key: the key of [x] is not above the key of
    [y]. *)
Definition key_le {A K} (cmp : K → K → comparison) (key : A → K) (x y : A) : Prop :=
  cmp (key x) (key y) ≠ Gt.

(** The sort key of [create_relation_mapping]. *)
Definition relation_key (x : string) : string * bool :=
  (sub_inverse_suffix x, endswith x INVERSE_SUFFIX).

(** Relation labels, one of them with the label of its inverse. *)
Definition example_relations : list string := ["likes_inverse"; "knows"; "likes"]%string.

(** * Training instances *)

(** Five triples in batches of two with the incomplete batch kept. *)
Definition five_triples_kept : BaseBatchedSLCWAInstances.t :=
  {| BaseBatchedSLCWAInstances.mapped_triples :=
       [(0, 0, 1); (1, 0, 2); (2, 0, 3); (3, 0, 4); (4, 0, 0)];
     BaseBatchedSLCWAInstances.batch_size := 2;
     BaseBatchedSLCWAInstances.drop_last := false |}.

(** The number of the triples with the given other columns and the given
    target. *)
Definition multiplicity (target : TargetColumn) (T : list triple) (p : Z * Z) (j : Z)
    : nat :=
  length (filter (λ row, other_columns target row = p ∧ target_column target row = j) T).

(** The size of the target axis of the LCWA matrix. *)
Definition target_size (target : TargetColumn) (num_entities num_relations : Z) : Z :=
  match target with
  | COLUMN_RELATION => num_relations
  | _ => num_entities
  end.

(** Triples with a repetition, over three entities and two relations. *)
Definition repeated_triples : list triple := [(0, 1, 2); (0, 0, 2); (0, 1, 2); (1, 0, 2)].

(** ** Sampling a subgraph *)

Module SubGraphSampling.
Import SubGraphSLCWAInstances.

Section subgraph_sample.
(** [degrees], [offset] and [neighbors] are the compressed adjacency list of
    the instance and [num_triples] is [self.mapped_triples.shape[0]].
    [torch.multinomial(probabilities, num_samples=1)[0]] is a draw of the
    torch library: it is a parameter, the index drawn for the weights that
    [probabilities] is normalized from and the randomness consumed, or the
    exception raised.  [vertex_rand k] is the randomness of the vertex drawn
    in iteration [k], [edge_rand k] that of its edge draws. *)
Variable torch_multinomial : list Z → nat → result nat.
Variables degrees offset : list nat.
Variable neighbors : list (nat * nat).
Variable num_triples : nat.
Variable batch_size : Z.
Variable vertex_rand : nat → nat.
Variable edge_rand : nat → nat → nat.

(** [weights = node_weights * node_picked] *)
Definition weights (s : state) : list Z :=
  zip_with (λ w (p : bool), if p then w else 0) s.(node_weights) s.(node_picked).

(** [(~node_picked).nonzero()] *)
Definition pool (s : state) : list nat :=
  filter (λ v, s.(node_picked) !! v = Some false) (seq 0 (length s.(node_picked))).

(** The choice of the vertex at the start of an iteration. *)
Definition choose_vertex (entropy : nat) (s : state) : result nat :=
  let weights := weights s in
  if bool_decide (foldr Z.add 0 weights = 0) then
    let pool := pool s in
    i ← torch_randint (length pool) entropy;
    getitem pool i
  else torch_multinomial weights entropy.

(** The iterations of [for _ in range(self.batch_size)] that are left, the
    next one being the [k]-th.  [None]: a retry loop is still running after
    [fuel] iterations. *)
Fixpoint sample_loop (fuel : nat) (iterations : nat) (k : nat) (s : state)
    : option (result state) :=
  match iterations with
  | O => Some (ret s)
  | S iterations' =>
      match choose_vertex (vertex_rand k) s with
      | inl e => Some (inl e)
      | inr chosen_vertex =>
          match sample_step degrees offset neighbors (edge_rand k) fuel chosen_vertex s with
          | None => None
          | Some (inl e) => Some (inl e)
          | Some (inr s') => sample_loop fuel iterations' (S k) s'
          end
      end
  end.

Definition initial_state : state :=
  {| node_weights := Z.of_nat <$> degrees;
     edge_picked := replicate num_triples false;
     node_picked := replicate (length degrees) false;
     result_ids := [] |}.

(** [SubGraphSLCWAInstances.subgraph_sample] *)
Definition subgraph_sample (fuel : nat) : option (result (list nat)) :=
  match sample_loop fuel (Z.to_nat batch_size) 0 initial_state with
  | None => None
  | Some (inl e) => Some (inl e)
  | Some (inr s) => Some (ret s.(result_ids))
  end.
End subgraph_sample.

End SubGraphSampling.

(** A path of three vertices and two edges as a compressed adjacency list,
    and a draw that takes the first vertex with a positive weight. *)
Definition path_degrees : list nat := [1; 2; 1]%nat.
Definition path_offset : list nat := [0; 1; 3]%nat.
Definition path_neighbors : list (nat * nat) := [(0, 1); (0, 0); (1, 2); (1, 1)]%nat.

Definition first_positive (weights : list Z) (entropy : nat) : result nat :=
  match list_find (λ w, 0 < w) weights with
  | Some (i, _) => ret i
  | None => raise (RuntimeError EmptyRange)
  end.

(** The edges marked in [edge_picked] are exactly those of the result, each
    once. *)
Definition picked_are_results (num_triples : nat) (s : SubGraphSLCWAInstances.state)
    : Prop :=
  length s.(SubGraphSLCWAInstances.edge_picked) = num_triples
  ∧ NoDup s.(SubGraphSLCWAInstances.result_ids)
  ∧ ∀ e, e ∈ s.(SubGraphSLCWAInstances.result_ids)
         ↔ s.(SubGraphSLCWAInstances.edge_picked) !! e = Some true.

(** * Comparison of splits *)

Section splits_steps.
(** [triple_tensor_to_set] of [pykeen.utils] is not part of the embedded
    sources: it is a parameter, the set of int-tuples that a tensor of
    triples is converted to. *)
Variable triple_tensor_to_set : list triple → gset triple.

(** [splits_steps]; [a[0]] of an empty sequence raises. *)
Definition splits_steps (a b : list CoreTriplesFactory.t) : outcome nat :=
  if bool_decide (length a ≠ length b) then throw ValueErrorClass DifferentNumberOfFactories
  else
    match a, b with
    | a0 :: _, b0 :: _ =>
        let train_1 := triple_tensor_to_set a0.(CoreTriplesFactory.mapped_triples) in
        let train_2 := triple_tensor_to_set b0.(CoreTriplesFactory.mapped_triples) in
        mret (size ((train_1 ∖ train_2) ∪ (train_2 ∖ train_1)))
    | _, _ => throw IndexErrorClass NoFactory
    end.
End splits_steps.

(** The conversion of a tensor of triples to the set of its rows. *)
Definition rows_to_set (rows : list triple) : gset triple := list_to_set rows.

(** * Inductive splits *)

Module CoreInductiveSplit.

Section split_fully_inductive.
(** [split_fully_inductive] of [pykeen.triples.splitting] is not part of the
    embedded sources: the splitting routine is a parameter, with the
    arguments it takes besides the triples ([entity_split_train_ratio],
    [evaluation_triples_ratios], [random_state]) bundled in [split_args]; it
    returns the parts as [(n_i, 3)] long tensors, or raises. *)
Context {split_args : Type}.
Variable splitting_split_fully_inductive :
  list triple → split_args → result (list (list triple)).

(** [CoreTriplesFactory.split_fully_inductive] on a factory of the base
    class; the starred unpacking needs two parts at least. *)
Definition split_fully_inductive (self : CoreTriplesFactory.t) (args : split_args)
    : outcome (list CoreTriplesFactory.t) :=
  parts ← lift (splitting_split_fully_inductive self.(CoreTriplesFactory.mapped_triples)
                  args);
  match parts with
  | training :: inference :: evaluation =>
      training_tf ← lift (
        tf ← CoreTriplesFactory.clone_and_exchange_triples self (long_tensor training)
               None true None;
        CoreCondensation.condense tf true false);
      condenser ← lift (TripleCondenser.make inference true false);
      inference_tf ← lift (
        tf ← CoreTriplesFactory.clone_and_exchange_triples self (long_tensor inference)
               None true None;
        CoreCondensation.apply_condenser tf condenser);
      evaluation_tfs ← lift (
        mapM_result
          (λ mapped_triples,
             tf ← CoreTriplesFactory.clone_and_exchange_triples self
                    (long_tensor mapped_triples) None true (Some false);
             CoreCondensation.apply_condenser tf condenser)
          evaluation);
      mret ([training_tf; inference_tf] ++ evaluation_tfs)
  | _ => throw ValueErrorClass (NotEnoughValues 2 (length parts))
  end.
End split_fully_inductive.

End CoreInductiveSplit.

(** A factory over six entities, and a split of its triples into training
    triples on the entities 0 to 2, inference triples on the entities 3 and
    5 and one part of evaluation triples. *)
Definition inductive_factory : CoreTriplesFactory.t :=
  {| CoreTriplesFactory.num_entities := 6;
     CoreTriplesFactory.real_num_relations := 2;
     CoreTriplesFactory.num_relations := 2;
     CoreTriplesFactory.create_inverse_triples := false;
     CoreTriplesFactory.mapped_triples :=
       [(0, 0, 1); (1, 0, 2); (3, 1, 5); (5, 0, 3); (3, 0, 3)];
     CoreTriplesFactory.metadata := ∅ |}.

Definition inductive_parts (rows : list triple) (_ : unit) : result (list (list triple)) :=
  ret [[(0, 0, 1); (1, 0, 2)]; [(3, 1, 5); (5, 0, 3)]; [(3, 0, 3)]].

(** * Factories from labeled triples *)

(** The triples that [from_labeled_triples] keeps: with
    [filter_out_candidate_inverse_relations], those whose relation does not
    end with the inverse suffix. *)
Definition kept_triples (filter_out_candidate_inverse_relations : bool)
    (triples : list ltriple) : list ltriple :=
  if filter_out_candidate_inverse_relations then
    filter (λ '(_, r, _), endswith r INVERSE_SUFFIX = false) triples
  else triples.

(** The labels of a row of IDs, as [label_triples] gives them. *)
Definition labeled_row (tf : TriplesFactory.t) (unknown : string) (row : triple) : ltriple :=
  let '(h, r, t) := row in
  (default unknown (Labeling.id_to_label (TriplesFactory.entity_labeling tf) !! h),
   default unknown (Labeling.id_to_label (TriplesFactory.relation_labeling tf) !! r),
   default unknown (Labeling.id_to_label (TriplesFactory.entity_labeling tf) !! t)).

(** Labeled triples with a repetition and a relation that carries the
    inverse suffix. *)
Definition suffixed_triples : list ltriple :=
  [("b", "likes", "a"); ("a", "likes_inverse", "b"); ("b", "likes", "a");
   ("a", "knows", "c")]%string.


(** * Properties *)

(** ** The result monad *)

Lemma bind_inr {A B} (c : result A) (k : A → result B) (y : B) :
  c ≫= k = inr y ↔ ∃ x, c = inr x ∧ k x = inr y.
Proof.
  destruct c as [e|x]; simpl; split.
  - discriminate.
  - intros (x & Hx & _). discriminate.
  - eauto.
  - intros (x' & [= <-] & Hk). exact Hk.
Qed.

Lemma bind_ret_l {A B} (x : A) (k : A → result B) : (inr x : result A) ≫= k = k x.
Proof. done. Qed.

Lemma raises_inl {A} (e : exn) : raises (inl e : result A).
Proof. by exists e. Qed.

Lemma not_raises_inr {A} (x : A) : ¬ raises (inr x : result A).
Proof. intros [e He]. discriminate. Qed.

(** ** Tensors of triples *)

Lemma rows3_flatten3 (rows : list triple) : rows3 (flatten3 rows) = rows.
Proof.
  induction rows as [|[[h r] t] rows IH]; [done|].
  change (flatten3 ((h, r, t) :: rows)) with (h :: r :: t :: flatten3 rows).
  simpl. by rewrite IH.
Qed.

Lemma shape_ok_long_tensor (rows : list triple) : shape_ok (long_tensor rows) = true.
Proof. done. Qed.

Lemma shape_ok_spec (mt : Tensor) :
  shape_ok mt = true ↔ ndim mt = 2%nat ∧ t_shape mt !! 1%nat = Some 3%nat.
Proof.
  unfold shape_ok. rewrite andb_true_iff, !bool_decide_eq_true. done.
Qed.

(** ** The range check *)

Lemma scalar_operand_inr (d : dtype) (scalar bound : Z) :
  scalar_operand d scalar = inr bound ↔
  convertible d scalar ∧ bound = operand_value d scalar.
Proof.
  unfold scalar_operand, convertible, operand_value.
  destruct ((scalar <? - 2 ^ 63) || (2 ^ 63 - 1 <? scalar)) eqn:H64.
  { apply orb_true_iff in H64. rewrite !Z.ltb_lt in H64.
    split; [discriminate|]. intros [H _]. destruct d; lia. }
  apply orb_false_iff in H64. rewrite !Z.ltb_ge in H64.
  destruct d;
    try (split; [intros [= <-]; split; [lia|done]|intros [_ ->]; done]).
  - destruct ((scalar <? -255) || (255 <? scalar)) eqn:H8.
    + apply orb_true_iff in H8. rewrite !Z.ltb_lt in H8.
      split; [discriminate|]. intros [H _]. lia.
    + apply orb_false_iff in H8. rewrite !Z.ltb_ge in H8.
      split; [intros [= <-]; split; [lia|done]|intros [_ ->]; done].
  - destruct ((scalar <? - 2 ^ 31) || (2 ^ 31 - 1 <? scalar)) eqn:H32.
    + apply orb_true_iff in H32. rewrite !Z.ltb_lt in H32.
      split; [discriminate|]. intros [H _]. lia.
    + apply orb_false_iff in H32. rewrite !Z.ltb_ge in H32.
      split; [intros [= <-]; split; [lia|done]|intros [_ ->]; done].
Qed.

Lemma scalar_operand_inl (d : dtype) (scalar : Z) (e : exn) :
  scalar_operand d scalar = inl e ↔
  ¬ convertible d scalar ∧ e = RuntimeError (ScalarOverflow d scalar).
Proof.
  destruct (scalar_operand d scalar) as [e'|bound] eqn:Hop.
  - assert (e' = RuntimeError (ScalarOverflow d scalar)) as ->.
    { unfold scalar_operand in Hop.
      repeat (case_match; try discriminate); by injection Hop as <-. }
    split.
    + intros [= <-]. split; [|done]. intros Hc.
      assert (scalar_operand d scalar = inr (operand_value d scalar)) as Hr
          by (by apply scalar_operand_inr).
      rewrite Hr in Hop. discriminate.
    + by intros [_ ->].
  - apply scalar_operand_inr in Hop as [Hc _]. split; [discriminate|]. by intros [? _].
Qed.

Lemma operand_value_nonneg (d : dtype) (scalar : Z) :
  convertible d scalar → (d = torch_uint8 → 0 ≤ scalar) → operand_value d scalar = scalar.
Proof.
  unfold convertible, operand_value. intros Hc Hd. destruct d; try done.
  specialize (Hd eq_refl). apply Z.mod_small. lia.
Qed.

Lemma convertible_int64 (d : dtype) (scalar : Z) : convertible d scalar → int64 scalar.
Proof. unfold convertible, int64. destruct d; lia. Qed.

Lemma nonneg_rows_spec (rows : list triple) :
  forallb (λ '(h, r, t), (0 <=? h) && (0 <=? r) && (0 <=? t)) rows = true ↔
  Forall row_nonneg rows.
Proof.
  induction rows as [|[[h r] t] rows IH]; simpl.
  - split; [constructor|done].
  - rewrite Forall_cons, <- IH, !andb_true_iff, !Z.leb_le. unfold row_nonneg. tauto.
Qed.

Lemma entity_rows_spec (rows : list triple) (bound : Z) :
  forallb (λ '(h, _, t), (h <? bound) && (t <? bound)) rows = true ↔
  Forall (λ '(h, _, t), h < bound ∧ t < bound) rows.
Proof.
  induction rows as [|[[h r] t] rows IH]; simpl.
  - split; [constructor|done].
  - rewrite Forall_cons, <- IH, !andb_true_iff, !Z.ltb_lt. tauto.
Qed.

Lemma relation_rows_spec (rows : list triple) (bound : Z) :
  forallb (λ '(_, r, _), r <? bound) rows = true ↔
  Forall (λ '(_, r, _), r < bound) rows.
Proof.
  induction rows as [|[[h r] t] rows IH]; simpl.
  - split; [constructor|done].
  - rewrite Forall_cons, <- IH, !andb_true_iff, !Z.ltb_lt. tauto.
Qed.

Lemma ids_in_range_unfold (rows : list triple) (ne nr : Z) :
  ids_in_range rows ne nr = true ↔
  Forall row_nonneg rows
  ∧ Forall (λ '(h, _, t), h < ne ∧ t < ne) rows
  ∧ Forall (λ '(_, r, _), r < nr) rows.
Proof.
  unfold ids_in_range.
  rewrite !andb_true_iff, nonneg_rows_spec, entity_rows_spec, relation_rows_spec. tauto.
Qed.

Ltac destruct_forallb H :=
  match goal with |- context [forallb ?f ?l] => destruct (forallb f l) eqn:H end.

(** The range check returns [True] exactly when both counts convert to the
    dtype of the tensor and every row lies within the converted bounds. *)
Lemma valid_triple_id_range_true (mt : Tensor) (ne nr : Z) :
  valid_triple_id_range mt ne nr = inr true ↔
  convertible (t_dtype mt) ne ∧ convertible (t_dtype mt) nr
  ∧ ids_in_range (rows3 (t_data mt))
      (operand_value (t_dtype mt) ne) (operand_value (t_dtype mt) nr) = true.
Proof.
  rewrite ids_in_range_unfold. unfold valid_triple_id_range. cbv zeta.
  destruct_forallb Hnonneg; simpl.
  2:{ apply not_true_iff_false in Hnonneg. rewrite nonneg_rows_spec in Hnonneg.
      split; [discriminate|tauto]. }
  apply nonneg_rows_spec in Hnonneg.
  destruct (scalar_operand (t_dtype mt) ne) as [e|be] eqn:Hne; simpl.
  { apply scalar_operand_inl in Hne as [Hne _]. split; [discriminate|tauto]. }
  apply scalar_operand_inr in Hne as [Hne ->].
  destruct_forallb Hent; simpl.
  2:{ apply not_true_iff_false in Hent. rewrite entity_rows_spec in Hent.
      split; [discriminate|tauto]. }
  apply entity_rows_spec in Hent.
  destruct (scalar_operand (t_dtype mt) nr) as [e|br] eqn:Hnr; simpl.
  { apply scalar_operand_inl in Hnr as [Hnr _]. split; [discriminate|tauto]. }
  apply scalar_operand_inr in Hnr as [Hnr ->].
  rewrite <- relation_rows_spec. split.
  - intros [= ->]. done.
  - intros (_ & _ & _ & _ & ->). done.
Qed.

(** The range check raises exactly when the comparisons before a count hold
    and the count does not convert; the exception is the one of the
    conversion. *)
Lemma valid_triple_id_range_inl (mt : Tensor) (ne nr : Z) (e : exn) :
  valid_triple_id_range mt ne nr = inl e ↔
  Forall row_nonneg (rows3 (t_data mt))
  ∧ ((¬ convertible (t_dtype mt) ne
      ∧ e = RuntimeError (ScalarOverflow (t_dtype mt) ne))
     ∨ (convertible (t_dtype mt) ne
        ∧ Forall (λ '(h, _, t), h < operand_value (t_dtype mt) ne
                               ∧ t < operand_value (t_dtype mt) ne)
            (rows3 (t_data mt))
        ∧ ¬ convertible (t_dtype mt) nr
        ∧ e = RuntimeError (ScalarOverflow (t_dtype mt) nr))).
Proof.
  unfold valid_triple_id_range. cbv zeta.
  destruct_forallb Hnonneg; simpl.
  2:{ apply not_true_iff_false in Hnonneg. rewrite nonneg_rows_spec in Hnonneg.
      split; [discriminate|tauto]. }
  apply nonneg_rows_spec in Hnonneg.
  destruct (scalar_operand (t_dtype mt) ne) as [e'|be] eqn:Hne; simpl.
  { apply scalar_operand_inl in Hne as [Hne ->]. split.
    - intros [= <-]. split; [done|]. by left.
    - intros [_ [[_ ->]|[Hc _]]]; [done|tauto]. }
  apply scalar_operand_inr in Hne as [Hne ->].
  destruct_forallb Hent; simpl.
  2:{ apply not_true_iff_false in Hent. rewrite entity_rows_spec in Hent.
      split; [discriminate|]. intros [_ [[H _]|(_ & H & _)]]; tauto. }
  apply entity_rows_spec in Hent.
  destruct (scalar_operand (t_dtype mt) nr) as [e'|br] eqn:Hnr; simpl.
  { apply scalar_operand_inl in Hnr as [Hnr ->]. split.
    - intros [= <-]. split; [done|]. right. done.
    - intros [_ [[H _]|(_ & _ & _ & ->)]]; [tauto|done]. }
  apply scalar_operand_inr in Hnr as [Hnr _].
  split; [discriminate|]. intros [_ [[H _]|(_ & _ & H & _)]]; tauto.
Qed.

Lemma ids_in_range_spec (rows : list triple) (ne nr : Z) :
  ids_in_range rows ne nr = true ↔ Forall (row_in_bounds ne nr) rows.
Proof.
  unfold ids_in_range.
  induction rows as [|[[h r] t] rows IH]; simpl.
  - split; [constructor|done].
  - rewrite Forall_cons, <- IH. unfold row_in_bounds.
    rewrite !andb_true_iff.
    rewrite !Z.leb_le, !Z.ltb_lt. tauto.
Qed.

Lemma ids_in_range_false (rows : list triple) (ne nr : Z) :
  ids_in_range rows ne nr = false ↔
  ∃ h r t, (h, r, t) ∈ rows ∧ (h < 0 ∨ r < 0 ∨ t < 0 ∨ ne ≤ h ∨ ne ≤ t ∨ nr ≤ r).
Proof.
  rewrite <- not_true_iff_false, ids_in_range_spec.
  rewrite <- Exists_Forall_neg by (intros [[h r] t]; unfold row_in_bounds; lia).
  rewrite Exists_exists. split.
  - intros ([[h r] t] & Hin & Hbad). exists h, r, t. split; [done|].
    unfold row_in_bounds in Hbad. lia.
  - intros (h & r & t & Hin & Hbad). exists (h, r, t). split; [done|].
    unfold row_in_bounds. lia.
Qed.

(** On a long tensor the bounds are the counts themselves. *)
Lemma valid_triple_id_range_long (rows : list triple) (ne nr : Z) :
  valid_triple_id_range (long_tensor rows) ne nr = inr true ↔
  ids_in_range rows ne nr = true ∧ int64 ne ∧ int64 nr.
Proof.
  rewrite valid_triple_id_range_true. simpl. rewrite rows3_flatten3.
  unfold int64. tauto.
Qed.

Lemma well_formed_spec (f : CoreTriplesFactory.t) :
  well_formed f ↔
  CoreTriplesFactory.num_relations f =
    KGInfo.num_relations (CoreTriplesFactory.real_num_relations f)
      (CoreTriplesFactory.create_inverse_triples f)
  ∧ ids_in_range (CoreTriplesFactory.mapped_triples f)
      (CoreTriplesFactory.num_entities f) (CoreTriplesFactory.real_num_relations f) = true
  ∧ int64 (CoreTriplesFactory.num_entities f)
  ∧ int64 (CoreTriplesFactory.real_num_relations f).
Proof. unfold well_formed. by rewrite valid_triple_id_range_long. Qed.

Lemma well_formed_ids (f : CoreTriplesFactory.t) :
  well_formed f →
  ids_in_range (CoreTriplesFactory.mapped_triples f)
    (CoreTriplesFactory.num_entities f) (CoreTriplesFactory.real_num_relations f) = true.
Proof. by intros (_ & H & _)%well_formed_spec. Qed.

(** ** Construction of a factory *)

Lemma CoreTriplesFactory_init_inr mt ne nr civ md f :
  CoreTriplesFactory.__init__ mt ne nr civ md = inr f ↔
  shape_ok mt = true
  ∧ is_complex (t_dtype mt) = false ∧ is_floating_point (t_dtype mt) = false
  ∧ valid_triple_id_range mt ne nr = inr true
  ∧ f = {| CoreTriplesFactory.num_entities := ne;
           CoreTriplesFactory.real_num_relations := nr;
           CoreTriplesFactory.num_relations := KGInfo.num_relations nr civ;
           CoreTriplesFactory.create_inverse_triples := civ;
           CoreTriplesFactory.mapped_triples := rows3 (t_data mt);
           CoreTriplesFactory.metadata := match md with None => ∅ | Some m => m end |}.
Proof.
  unfold CoreTriplesFactory.__init__.
  destruct (shape_ok mt); simpl; [|split; [discriminate|by intros [? _]]].
  destruct (is_complex (t_dtype mt)); simpl;
    [split; [discriminate|by intros (_ & ? & _)]|].
  destruct (is_floating_point (t_dtype mt)); simpl;
    [split; [discriminate|by intros (_ & _ & ? & _)]|].
  destruct (valid_triple_id_range mt ne nr) as [e|[]]; simpl.
  - split; [discriminate|by intros (_ & _ & _ & ? & _)].
  - split; [intros [= <-]; done|by intros (_ & _ & _ & _ & ->)].
  - split; [discriminate|by intros (_ & _ & _ & ? & _)].
Qed.

Lemma CoreTriplesFactory_init_long rows ne nr civ md :
  ids_in_range rows ne nr = true → int64 ne → int64 nr →
  CoreTriplesFactory.__init__ (long_tensor rows) ne nr civ md =
  inr {| CoreTriplesFactory.num_entities := ne;
         CoreTriplesFactory.real_num_relations := nr;
         CoreTriplesFactory.num_relations := KGInfo.num_relations nr civ;
         CoreTriplesFactory.create_inverse_triples := civ;
         CoreTriplesFactory.mapped_triples := rows;
         CoreTriplesFactory.metadata := match md with None => ∅ | Some m => m end |}.
Proof.
  intros Hvalid Hne Hnr. apply CoreTriplesFactory_init_inr.
  rewrite valid_triple_id_range_long. simpl. by rewrite rows3_flatten3.
Qed.

(** A count beyond 64 bits is rejected when the rows are within bounds. *)
Lemma CoreTriplesFactory_init_overflow rows ne nr civ md :
  Forall row_nonneg rows → ¬ int64 ne →
  CoreTriplesFactory.__init__ (long_tensor rows) ne nr civ md =
  inl (RuntimeError (ScalarOverflow torch_int64 ne)).
Proof.
  intros Hnonneg Hne. unfold CoreTriplesFactory.__init__.
  rewrite shape_ok_long_tensor. simpl.
  assert (valid_triple_id_range (long_tensor rows) ne nr
          = inl (RuntimeError (ScalarOverflow torch_int64 ne))) as ->; [|done].
  apply valid_triple_id_range_inl. simpl. rewrite rows3_flatten3.
  split; [done|]. left. done.
Qed.

Lemma CoreTriplesFactory_init_raises mt ne nr civ md :
  raises (CoreTriplesFactory.__init__ mt ne nr civ md) ↔
  invalid_input mt (operand_value (t_dtype mt) ne) (operand_value (t_dtype mt) nr)
  ∨ ¬ convertible (t_dtype mt) ne ∨ ¬ convertible (t_dtype mt) nr.
Proof.
  assert (Decision (convertible (t_dtype mt) ne)) as Hdne
      by (unfold convertible; destruct (t_dtype mt); apply _).
  assert (Decision (convertible (t_dtype mt) nr)) as Hdnr
      by (unfold convertible; destruct (t_dtype mt); apply _).
  destruct (CoreTriplesFactory.__init__ mt ne nr civ md) as [e|f] eqn:Hinit.
  - split; [intros _|intros _; apply raises_inl].
    destruct (decide (convertible (t_dtype mt) ne)) as [Hne|]; [|tauto].
    destruct (decide (convertible (t_dtype mt) nr)) as [Hnr|]; [|tauto].
    left. unfold invalid_input. rewrite <- shape_ok_spec, <- ids_in_range_false.
    destruct (shape_ok mt) eqn:Hshape; [|left; discriminate].
    destruct (is_floating_point (t_dtype mt)) eqn:Hfloat; [auto|].
    destruct (is_complex (t_dtype mt)) eqn:Hcomplex; [auto|].
    do 3 right. apply not_true_iff_false. intros Hin.
    assert (CoreTriplesFactory.__init__ mt ne nr civ md = inr
      {| CoreTriplesFactory.num_entities := ne;
         CoreTriplesFactory.real_num_relations := nr;
         CoreTriplesFactory.num_relations := KGInfo.num_relations nr civ;
         CoreTriplesFactory.create_inverse_triples := civ;
         CoreTriplesFactory.mapped_triples := rows3 (t_data mt);
         CoreTriplesFactory.metadata := match md with None => ∅ | Some m => m end |})
      as Hr.
    { apply CoreTriplesFactory_init_inr. rewrite valid_triple_id_range_true. done. }
    rewrite Hr in Hinit. discriminate.
  - split; [intros H; by apply not_raises_inr in H|]. intros Hbad. exfalso.
    apply CoreTriplesFactory_init_inr in Hinit
      as (Hshape & Hcomplex & Hfloat & Hvalid & _).
    apply valid_triple_id_range_true in Hvalid as (Hne & Hnr & Hin).
    destruct Hbad as [Hbad|[Hbad|Hbad]]; [|tauto..].
    unfold invalid_input in Hbad. rewrite <- shape_ok_spec, <- ids_in_range_false in Hbad.
    destruct Hbad as [H|[H|[H|H]]]; congruence.
Qed.




Lemma valid_triple_id_range_to_long mt ne nr :
  (t_dtype mt = torch_uint8 → 0 ≤ ne ∧ 0 ≤ nr) →
  valid_triple_id_range mt ne nr = inr true →
  valid_triple_id_range (long_tensor (rows3 (t_data mt))) ne nr = inr true.
Proof.
  intros Hguard (Hne & Hnr & Hvalid)%valid_triple_id_range_true.
  rewrite !operand_value_nonneg in Hvalid
    by (done || intros Hd; by destruct (Hguard Hd)).
  apply valid_triple_id_range_long. eauto using convertible_int64.
Qed.

Lemma CoreTriplesFactory_init_well_formed_dtype mt ne nr civ md f :
  (t_dtype mt = torch_uint8 → 0 ≤ ne ∧ 0 ≤ nr) →
  CoreTriplesFactory.__init__ mt ne nr civ md = inr f → well_formed f.
Proof.
  intros Hguard Hf. apply CoreTriplesFactory_init_inr in Hf as (_ & _ & _ & Hvalid & ->).
  split; [done|]. simpl. by apply valid_triple_id_range_to_long.
Qed.

Lemma CoreTriplesFactory_init_well_formed rows ne nr civ md f :
  CoreTriplesFactory.__init__ (long_tensor rows) ne nr civ md = inr f → well_formed f.
Proof. by apply CoreTriplesFactory_init_well_formed_dtype. Qed.

(** ** Metadata of a clone *)

(** Every factory that the methods return is built by the constructor, so
    that [well_formed] is an invariant of the factories of a program. *)
Lemma clone_and_exchange_triples_well_formed self rows extra keep civ f :
  CoreTriplesFactory.clone_and_exchange_triples self (long_tensor rows) extra keep civ
    = inr f →
  well_formed f.
Proof. apply CoreTriplesFactory_init_well_formed. Qed.

Lemma dict_display_pair_lookup {V} (a b : gmap string V) (k : string) :
  dict_display [a; b] !! k = match b !! k with Some v => Some v | None => a !! k end.
Proof.
  unfold dict_display, dict_update. simpl.
  destruct (b !! k) as [v|] eqn:Hb.
  - by apply lookup_union_Some_l.
  - rewrite lookup_union_r by done.
    destruct (a !! k) as [w|] eqn:Ha.
    + by apply lookup_union_Some_l.
    + rewrite lookup_union_r by done. apply lookup_empty.
Qed.

Lemma clone_and_exchange_triples_inr self mt extra keep civ f :
  CoreTriplesFactory.clone_and_exchange_triples self mt extra keep civ = inr f →
  CoreTriplesFactory.num_entities f = CoreTriplesFactory.num_entities self
  ∧ CoreTriplesFactory.real_num_relations f = CoreTriplesFactory.real_num_relations self
  ∧ CoreTriplesFactory.create_inverse_triples f =
      default (CoreTriplesFactory.create_inverse_triples self) civ
  ∧ CoreTriplesFactory.num_relations f =
      KGInfo.num_relations (CoreTriplesFactory.real_num_relations self)
        (default (CoreTriplesFactory.create_inverse_triples self) civ)
  ∧ CoreTriplesFactory.mapped_triples f = rows3 (t_data mt)
  ∧ CoreTriplesFactory.metadata f =
      dict_display [or_empty extra;
                    if keep then CoreTriplesFactory.metadata self else ∅].
Proof.
  unfold CoreTriplesFactory.clone_and_exchange_triples. intros Hf.
  apply CoreTriplesFactory_init_inr in Hf as (_ & _ & _ & _ & ->). simpl.
  by destruct civ.
Qed.

Lemma clone_and_exchange_triples_long self rows extra keep civ :
  well_formed self →
  ids_in_range rows (CoreTriplesFactory.num_entities self)
    (CoreTriplesFactory.real_num_relations self) = true →
  ∃ f, CoreTriplesFactory.clone_and_exchange_triples self (long_tensor rows) extra keep civ
       = inr f
     ∧ CoreTriplesFactory.mapped_triples f = rows
     ∧ CoreTriplesFactory.create_inverse_triples f =
         default (CoreTriplesFactory.create_inverse_triples self) civ.
Proof.
  intros (_ & _ & Hne & Hnr)%well_formed_spec Hvalid.
  unfold CoreTriplesFactory.clone_and_exchange_triples.
  rewrite CoreTriplesFactory_init_long by done.
  eexists. split; [done|]. simpl. by destruct civ.
Qed.

(** What the clone does with a key of both dicts: the value kept from the
    factory is the one stored. *)
Lemma clone_and_exchange_triples_metadata self mt extra f k :
  CoreTriplesFactory.clone_and_exchange_triples self mt (Some extra) true None = inr f →
  CoreTriplesFactory.metadata f !! k =
    match CoreTriplesFactory.metadata self !! k with
    | Some v => Some v
    | None => extra !! k
    end.
Proof.
  intros Hf. apply clone_and_exchange_triples_inr in Hf as (_ & _ & _ & _ & _ & ->).
  apply dict_display_pair_lookup.
Qed.

(** C1. With [keep_metadata=True] the clone has the entity and relation
    counts of the factory, and its metadata is the union of both dicts; on a
    key of both, however, the value stored is the one kept from the factory
    and not the one of [extra_metadata]: cloning a factory whose metadata
    records the restriction to the entities 0 and 1 with the extra metadata
    of a restriction to the entity 0 yields a factory that still records 0
    and 1. *)
Theorem clone_and_exchange_triples_collision :
  ∃ f, CoreTriplesFactory.clone_and_exchange_triples restricted_factory
         (long_tensor [(0, 0, 0)])
         (Some {[ "entity_restriction"%string := PyInts [0] ]}) true None = inr f
     ∧ CoreTriplesFactory.num_entities f = 3
     ∧ CoreTriplesFactory.num_relations f = 1
     ∧ CoreTriplesFactory.metadata f !! "entity_restriction"%string = Some (PyInts [0; 1]).
Proof.
  destruct (clone_and_exchange_triples_long restricted_factory [(0, 0, 0)]
              (Some {[ "entity_restriction"%string := PyInts [0] ]}) true None)
    as (f & Hf & _); [by split|done|].
  exists f. split; [done|].
  pose proof (clone_and_exchange_triples_metadata _ _ _ _ "entity_restriction"%string Hf) as Hmeta.
  apply clone_and_exchange_triples_inr in Hf as (-> & _ & _ & -> & _ & _).
  split; [done|]. split; [done|].
  rewrite Hmeta. done.
Qed.

(** ** Merging *)

Lemma first_at_cons_here {A} (P : A → Prop) x l : P x → first_at P (x :: l) 0.
Proof. intros HP. split; [by exists x|]. intros j y Hj. lia. Qed.

Lemma first_at_cons_later {A} (P : A → Prop) x l i :
  ¬ P x → first_at P l i → first_at P (x :: l) (S i).
Proof.
  intros HP [(y & Hy & HPy) Hbefore]. split; [by exists y|].
  intros [|j] z Hj; simpl; [by intros [= <-]|].
  apply Hbefore. lia.
Qed.

Lemma merge_loop_raises self i others acc :
  Exists (incompatible self) others →
  ∃ d j, CoreTriplesFactory.merge_loop self i others acc = inl (ValueError d)
       ∧ named_operand (ValueError d) = Some (i + j)%nat
       ∧ first_at (incompatible self) others j.
Proof.
  revert i acc. induction others as [|o others IH]; intros i acc Hex.
  { by apply Exists_nil in Hex. }
  simpl. unfold incompatible at 1 in Hex.
  case_bool_decide as Hne.
  { exists (EntityCountMismatch i), 0%nat. rewrite Nat.add_0_r.
    split; [done|]. split; [done|]. apply first_at_cons_here. by left. }
  case_bool_decide as Hnr.
  { exists (RelationCountMismatch i), 0%nat. rewrite Nat.add_0_r.
    split; [done|]. split; [done|]. apply first_at_cons_here. right. by left. }
  case_bool_decide as Hciv.
  { exists (InverseFlagMismatch i), 0%nat. rewrite Nat.add_0_r.
    split; [done|]. split; [done|]. apply first_at_cons_here. right. by right. }
  apply Exists_cons in Hex as [Hbad|Hex].
  { unfold incompatible in Hbad. tauto. }
  destruct (IH (S i) (acc ++ [CoreTriplesFactory.mapped_triples o]) Hex)
    as (d & j & Hloop & Hname & Hfirst).
  exists d, (S j). split; [done|]. split.
  - etrans; [exact Hname|]. f_equal. lia.
  - apply first_at_cons_later; [|done]. unfold incompatible. tauto.
Qed.

Lemma merge_loop_returns self i others acc :
  Forall (λ o, ¬ incompatible self o) others →
  CoreTriplesFactory.merge_loop self i others acc =
  inr (acc ++ (CoreTriplesFactory.mapped_triples <$> others)).
Proof.
  revert i acc. induction others as [|o others IH]; intros i acc Hall.
  { simpl. by rewrite app_nil_r. }
  apply Forall_cons in Hall as [Ho Hall]. unfold incompatible in Ho. simpl.
  rewrite !bool_decide_eq_false_2 by tauto.
  rewrite IH by done. by rewrite <- app_assoc.
Qed.

Lemma compatible_real_num_relations self o :
  well_formed self → well_formed o → ¬ incompatible self o →
  CoreTriplesFactory.real_num_relations o = CoreTriplesFactory.real_num_relations self.
Proof.
  intros [Hs _] [Ho _] Hc. unfold incompatible in Hc.
  assert (CoreTriplesFactory.num_relations o = CoreTriplesFactory.num_relations self)
    as Hnr by (destruct (decide (CoreTriplesFactory.num_relations o
                                 = CoreTriplesFactory.num_relations self)); tauto).
  assert (CoreTriplesFactory.create_inverse_triples o
          = CoreTriplesFactory.create_inverse_triples self)
    as Hciv by (destruct (decide (CoreTriplesFactory.create_inverse_triples o
                                  = CoreTriplesFactory.create_inverse_triples self)); tauto).
  rewrite Hs, Ho, Hciv in Hnr. unfold KGInfo.num_relations in Hnr.
  clear -Hnr. destruct (CoreTriplesFactory.create_inverse_triples self); lia.
Qed.

Lemma ids_in_range_app rows1 rows2 ne nr :
  ids_in_range (rows1 ++ rows2) ne nr = true ↔
  ids_in_range rows1 ne nr = true ∧ ids_in_range rows2 ne nr = true.
Proof. rewrite !ids_in_range_spec. apply Forall_app. Qed.

Lemma ids_in_range_concat self others :
  well_formed self → Forall well_formed others →
  Forall (λ o, ¬ incompatible self o) others →
  ids_in_range (concat (CoreTriplesFactory.mapped_triples <$> others))
    (CoreTriplesFactory.num_entities self) (CoreTriplesFactory.real_num_relations self)
  = true.
Proof.
  intros Hself Hwf Hcompat. induction others as [|o others IH]; [done|].
  apply Forall_cons in Hwf as [Ho Hwf]. apply Forall_cons in Hcompat as [Hc Hcompat].
  simpl. apply ids_in_range_app. split; [|by apply IH].
  rewrite <- (compatible_real_num_relations self o) by done.
  assert (CoreTriplesFactory.num_entities o = CoreTriplesFactory.num_entities self) as <-.
  { unfold incompatible in Hc.
    destruct (decide (CoreTriplesFactory.num_entities o
                      = CoreTriplesFactory.num_entities self)); tauto. }
  by apply well_formed_ids.
Qed.

Lemma length_concat_sum {A} (ls : list (list A)) :
  length (concat ls) = sum_list (length <$> ls).
Proof.
  induction ls as [|l ls IH]; [done|].
  rewrite fmap_cons. simpl. by rewrite length_app, IH.
Qed.

(** C3. [merge] of [CoreTriplesFactory] raises a [ValueError] that names the
    first operand differing in the number of entities, the number of
    relations or the inverse-triple flag whenever there is such an operand;
    when every operand matches, it returns a factory whose triples are the
    concatenation of the operands' triples, so that its number of triples is
    the sum of theirs. *)
Theorem CoreTriplesFactory_merge_checks
    (self : CoreTriplesFactory.t) (others : list CoreTriplesFactory.t) :
  (Exists (incompatible self) others →
   ∃ d i, CoreTriplesFactory.merge self others = inl (ValueError d)
        ∧ named_operand (ValueError d) = Some i
        ∧ first_at (incompatible self) others i)
  ∧ (well_formed self → Forall well_formed others →
     Forall (λ o, ¬ incompatible self o) others →
     ∃ f, CoreTriplesFactory.merge self others = inr f
        ∧ CoreTriplesFactory.mapped_triples f =
            CoreTriplesFactory.mapped_triples self
              ++ concat (CoreTriplesFactory.mapped_triples <$> others)
        ∧ CoreTriplesFactory.num_triples f =
            (CoreTriplesFactory.num_triples self
               + sum_list (CoreTriplesFactory.num_triples <$> others))%nat).
Proof.
  split.
  - intros Hex. destruct others as [|o others]; [by apply Exists_nil in Hex|].
    unfold CoreTriplesFactory.merge. simpl CoreTriplesFactory.base.
    rewrite list_fmap_id. unfold id.
    destruct (merge_loop_raises self 0 (o :: others)
                [CoreTriplesFactory.mapped_triples self] Hex)
      as (d & j & Hloop & Hname & Hfirst).
    exists d, j. rewrite Hloop. done.
  - intros Hself Hwf Hcompat.
    assert (∀ f : CoreTriplesFactory.t,
              CoreTriplesFactory.mapped_triples f =
                CoreTriplesFactory.mapped_triples self
                  ++ concat (CoreTriplesFactory.mapped_triples <$> others) →
              CoreTriplesFactory.num_triples f =
                (CoreTriplesFactory.num_triples self
                   + sum_list (CoreTriplesFactory.num_triples <$> others))%nat) as Hcount.
    { intros f Hf. unfold CoreTriplesFactory.num_triples. simpl. unfold id.
      rewrite Hf, length_app, length_concat_sum, <- list_fmap_compose. done. }
    destruct others as [|o others].
    { exists self. simpl. rewrite app_nil_r. split; [done|]. split; [done|].
      apply Hcount. simpl. by rewrite app_nil_r. }
    unfold CoreTriplesFactory.merge. simpl CoreTriplesFactory.base.
    rewrite list_fmap_id. unfold id.
    rewrite merge_loop_returns by done. simpl mbind.
    unfold torch_cat.
    destruct (clone_and_exchange_triples_long self
                (concat ([CoreTriplesFactory.mapped_triples self]
                           ++ (CoreTriplesFactory.mapped_triples <$> o :: others)))
                None true None) as (f & Hf & Hrows & _).
    { done. }
    { simpl concat. apply ids_in_range_app. split; [by apply well_formed_ids|].
      by apply (ids_in_range_concat self (o :: others)). }
    exists f. split; [exact Hf|]. split; [exact Hrows|]. by apply Hcount.
Qed.

Lemma merge_well_formed (self : CoreTriplesFactory.t) others f :
  well_formed self → CoreTriplesFactory.merge self others = inr f → well_formed f.
Proof.
  intros Hself. unfold CoreTriplesFactory.merge. destruct others as [|o others].
  - by intros [= <-].
  - intros (rows & _ & Hclone)%bind_inr.
    by eapply clone_and_exchange_triples_well_formed.
Qed.

Lemma CoreTriplesFactory_merge_checks_witness :
  (∃ d i, CoreTriplesFactory.merge restricted_factory [restricted_factory; larger_factory]
            = inl (ValueError d)
        ∧ named_operand (ValueError d) = Some i
        ∧ first_at (incompatible restricted_factory) [restricted_factory; larger_factory] i)
  ∧ (∃ f, CoreTriplesFactory.merge restricted_factory [restricted_factory] = inr f
        ∧ CoreTriplesFactory.mapped_triples f =
            CoreTriplesFactory.mapped_triples restricted_factory
              ++ concat (CoreTriplesFactory.mapped_triples <$> [restricted_factory])
        ∧ CoreTriplesFactory.num_triples f =
            (CoreTriplesFactory.num_triples restricted_factory
               + sum_list (CoreTriplesFactory.num_triples <$> [restricted_factory]))%nat).
Proof.
  split.
  - apply (proj1 (CoreTriplesFactory_merge_checks restricted_factory
                    [restricted_factory; larger_factory])).
    apply Exists_cons_tl, Exists_cons_hd. left. simpl. lia.
  - apply (proj2 (CoreTriplesFactory_merge_checks restricted_factory [restricted_factory])).
    + split; reflexivity.
    + repeat constructor.
    + repeat constructor. unfold incompatible. simpl. intros [H|[H|H]]; by apply H.
Defined.

(** ** Splitting *)

Lemma mapM_result_inr {A B} (f : A → result B) (l : list A) (ys : list B) :
  mapM_result f l = inr ys ↔ Forall2 (λ x y, f x = inr y) l ys.
Proof.
  revert ys. induction l as [|x l IH]; intros ys; simpl.
  - split; [intros [= <-]; constructor|intros ->%Forall2_nil_inv_l; done].
  - rewrite bind_inr. split.
    + intros (y & Hy & Hrest). apply bind_inr in Hrest as (ys' & Hys' & [= <-]).
      constructor; [done|]. by apply IH.
    + intros (y & ys' & Hy & Hall & ->)%Forall2_cons_inv_l.
      exists y. split; [done|]. apply bind_inr. exists ys'. split; [by apply IH|done].
Qed.

Lemma mapM_result_total {A B} (f : A → result B) (l : list A) :
  Forall (λ x, ∃ y, f x = inr y) l → ∃ ys, mapM_result f l = inr ys.
Proof.
  induction 1 as [|x l [y Hy] _ [ys Hys]]; simpl.
  - by eexists.
  - rewrite Hy. simpl. rewrite Hys. simpl. by eexists.
Qed.

(** C4. Of the factories that [split] returns, the first carries the
    inverse-triple flag of the source and every other one carries [False];
    and [split] does return them, one per part and with the rows of that
    part, when the splitting routine returns parts made of rows of the
    source. *)
Theorem CoreTriplesFactory_split_flags {split_args : Type}
    (splitting_split : list triple → split_args → result (list (list triple)))
    (self : CoreTriplesFactory.t) (args : split_args) :
  (∀ fs, CoreTriplesFactory.split splitting_split self args = inr fs →
     ∀ i f, fs !! i = Some f →
       CoreTriplesFactory.create_inverse_triples f =
         if decide (i = 0%nat) then CoreTriplesFactory.create_inverse_triples self
         else false)
  ∧ (∀ parts, well_formed self →
       splitting_split (CoreTriplesFactory.mapped_triples self) args = inr parts →
       Forall (λ part, part ⊆ CoreTriplesFactory.mapped_triples self) parts →
       ∃ fs, CoreTriplesFactory.split splitting_split self args = inr fs
           ∧ Forall2 (λ f part, CoreTriplesFactory.mapped_triples f = part) fs parts).
Proof.
  split.
  - intros fs Hsplit i f Hf. unfold CoreTriplesFactory.split in Hsplit.
    apply bind_inr in Hsplit as (parts & _ & Hmap).
    apply mapM_result_inr in Hmap.
    destruct (Forall2_lookup_r _ _ _ _ _ Hmap Hf) as ([j part] & Hpart & Hclone).
    rewrite list_lookup_imap in Hpart.
    destruct (parts !! i) as [part'|]; simpl in Hpart; [|done].
    injection Hpart as <- <-.
    simpl in Hclone. unfold id in Hclone.
    apply clone_and_exchange_triples_inr in Hclone as (_ & _ & -> & _).
    case_bool_decide; case_decide; done.
  - intros parts Hself Hparts Hrows. unfold CoreTriplesFactory.split.
    simpl CoreTriplesFactory.base. unfold id. rewrite Hparts. simpl mbind.
    destruct (mapM_result_total
                (λ '(i, triples),
                   CoreTriplesFactory.self_clone_and_exchange_triples self
                     (long_tensor triples) None true
                     (if bool_decide (i = 0%nat) then None else Some false))
                (imap pair parts)) as [fs Hfs].
    { apply Forall_lookup. intros i [j part] Hi.
      rewrite list_lookup_imap in Hi.
      destruct (parts !! i) as [part'|] eqn:Hpart; simpl in Hi; [|done].
      injection Hi as <- <-.
      destruct (clone_and_exchange_triples_long self part' None true
                  (if bool_decide (i = 0%nat) then None else Some false))
        as (f & Hf & _); [done| |by exists f].
      apply ids_in_range_spec, Forall_forall. intros row Hrow.
      apply well_formed_ids in Hself as Hvalid.
      apply ids_in_range_spec in Hvalid.
      rewrite Forall_forall in Hvalid. apply Hvalid.
      rewrite Forall_lookup in Hrows. by apply (Hrows i part'). }
    exists fs. split; [done|].
    apply mapM_result_inr in Hfs.
    apply Forall2_same_length_lookup. split.
    + apply Forall2_length in Hfs. by rewrite length_imap in Hfs.
    + intros i f part Hf Hpart.
      destruct (Forall2_lookup_r _ _ _ _ _ Hfs Hf) as ([j part'] & Hi & Hclone).
      rewrite list_lookup_imap, Hpart in Hi. injection Hi as <- <-.
      simpl in Hclone.
      apply clone_and_exchange_triples_inr in Hclone as (_ & _ & _ & _ & -> & _).
      simpl. apply rows3_flatten3.
Qed.

Lemma split_well_formed {split_args : Type}
    (splitting_split : list triple → split_args → result (list (list triple)))
    (self : CoreTriplesFactory.t) (args : split_args) fs :
  CoreTriplesFactory.split splitting_split self args = inr fs → Forall well_formed fs.
Proof.
  unfold CoreTriplesFactory.split. intros (parts & _ & Hmap)%bind_inr.
  apply mapM_result_inr in Hmap. apply Forall_lookup. intros i f Hf.
  destruct (Forall2_lookup_r _ _ _ _ _ Hmap Hf) as ([j part] & _ & Hclone).
  by eapply clone_and_exchange_triples_well_formed.
Qed.

Lemma CoreTriplesFactory_split_flags_witness :
  ∃ train test,
    CoreTriplesFactory.split cut_after_first inverse_factory () = inr [train; test]
    ∧ CoreTriplesFactory.create_inverse_triples train = true
    ∧ CoreTriplesFactory.create_inverse_triples test = false
    ∧ CoreTriplesFactory.mapped_triples train = [(0, 0, 1)]
    ∧ CoreTriplesFactory.mapped_triples test = [(1, 0, 2); (2, 0, 0)].
Proof.
  destruct (proj2 (CoreTriplesFactory_split_flags cut_after_first inverse_factory ())
              [[(0, 0, 1)]; [(1, 0, 2); (2, 0, 0)]]) as (fs & Hfs & Hrows).
  - split; reflexivity.
  - reflexivity.
  - simpl. repeat (apply Forall_cons; split; [|]); [..|apply Forall_nil_2];
      intros row; rewrite !elem_of_cons, !elem_of_nil; tauto.
  - pose proof (proj1 (CoreTriplesFactory_split_flags cut_after_first inverse_factory ())
                  fs Hfs) as Hflags.
    destruct fs as [|train [|test [|]]]; try by (apply Forall2_length in Hrows).
    exists train, test. split; [done|].
    split; [apply (Hflags 0%nat train eq_refl)|].
    split; [apply (Hflags 1%nat test eq_refl)|].
    apply Forall2_cons in Hrows as [Htrain Hrows].
    apply Forall2_cons in Hrows as [Htest _]. done.
Defined.

(** ** Sorted deduplication *)

#[global] Instance Z_compare_strict : StrictCompare Z.compare.
Proof.
  split.
  - apply Z.compare_eq_iff.
  - intros x y. apply Z.compare_antisym.
  - intros x y z. rewrite !Z.compare_lt_iff. lia.
Qed.

#[global] Instance lex_strict {A B} (ca : A → A → comparison) (cb : B → B → comparison)
  `{!StrictCompare ca, !StrictCompare cb} : StrictCompare (lex ca cb).
Proof.
  split.
  - intros [a b] [a' b']. unfold lex. simpl. split.
    + destruct (ca a a') eqn:Ha; try discriminate.
      intros Hb. apply compare_eq in Ha, Hb. by subst.
    + intros [= -> ->].
      rewrite (proj2 (compare_eq a' a') eq_refl). by apply compare_eq.
  - intros [a b] [a' b']. unfold lex. simpl.
    rewrite (compare_antisym (cmp:=ca) a a').
    destruct (ca a a'); simpl; [apply compare_antisym|done|done].
  - intros [a b] [a' b'] [a'' b'']. unfold lex. simpl.
    destruct (ca a a') eqn:H1; try discriminate.
    + apply compare_eq in H1 as ->.
      destruct (ca a' a'') eqn:H2; try discriminate; [|done].
      apply compare_lt_trans.
    + intros _. destruct (ca a' a'') eqn:H2; try discriminate.
      * apply compare_eq in H2 as <-. by rewrite H1.
      * by rewrite (compare_lt_trans _ _ _ H1 H2).
Qed.

#[global] Instance pair_compare_strict : StrictCompare pair_compare.
Proof. unfold pair_compare. apply _. Qed.

#[global] Instance triple_compare_strict : StrictCompare triple_compare.
Proof. unfold triple_compare. apply _. Qed.

Section sorted_unique_facts.
Context {A : Type} (cmp : A → A → comparison) `{!StrictCompare cmp}.

Lemma cmp_lt_irrefl x : ¬ cmp_lt cmp x x.
Proof.
  unfold cmp_lt. rewrite (proj2 (compare_eq x x) eq_refl). discriminate.
Qed.

Lemma cmp_gt_lt x y : cmp x y = Gt → cmp_lt cmp y x.
Proof. intros H. unfold cmp_lt. by rewrite compare_antisym, H. Qed.

Lemma cmp_lt_asym x y : cmp_lt cmp x y → cmp_lt cmp y x → False.
Proof.
  unfold cmp_lt. intros H1 H2. rewrite compare_antisym, H1 in H2. discriminate.
Qed.

Lemma elem_of_insert_unique x l z : z ∈ insert_unique cmp x l ↔ z = x ∨ z ∈ l.
Proof.
  induction l as [|y l IH]; simpl.
  - rewrite list_elem_of_singleton, elem_of_nil. tauto.
  - destruct (cmp x y) eqn:Hc.
    + apply compare_eq in Hc as ->. rewrite elem_of_cons. tauto.
    + rewrite !elem_of_cons. tauto.
    + rewrite !elem_of_cons, IH. tauto.
Qed.

Lemma elem_of_sorted_unique l z : z ∈ sorted_unique cmp l ↔ z ∈ l.
Proof.
  induction l as [|x l IH]; simpl; [done|].
  rewrite elem_of_insert_unique, elem_of_cons, IH. done.
Qed.

Lemma insert_unique_sorted x l :
  StronglySorted (cmp_lt cmp) l → StronglySorted (cmp_lt cmp) (insert_unique cmp x l).
Proof.
  induction 1 as [|y l Hl IH Hy]; simpl.
  - repeat constructor.
  - destruct (cmp x y) eqn:Hc.
    + by constructor.
    + constructor; [by constructor|]. constructor; [done|].
      eapply Forall_impl; [exact Hy|]. intros z Hz. by eapply compare_lt_trans.
    + constructor; [done|]. apply Forall_forall. intros z Hz.
      apply elem_of_insert_unique in Hz as [->|Hz].
      * by apply cmp_gt_lt.
      * rewrite Forall_forall in Hy. by apply Hy.
Qed.

Lemma sorted_unique_sorted l : StronglySorted (cmp_lt cmp) (sorted_unique cmp l).
Proof.
  induction l as [|x l IH]; simpl; [constructor|]. by apply insert_unique_sorted.
Qed.

Lemma strictly_sorted_NoDup l : StronglySorted (cmp_lt cmp) l → NoDup l.
Proof.
  induction 1 as [|x l Hl IH Hx]; constructor; [|done].
  intros Hin. rewrite Forall_forall in Hx. by apply (cmp_lt_irrefl x), Hx.
Qed.

Lemma sorted_unique_NoDup l : NoDup (sorted_unique cmp l).
Proof. apply strictly_sorted_NoDup, sorted_unique_sorted. Qed.

Lemma strictly_sorted_ext l1 l2 :
  StronglySorted (cmp_lt cmp) l1 → StronglySorted (cmp_lt cmp) l2 →
  (∀ x, x ∈ l1 ↔ x ∈ l2) → l1 = l2.
Proof.
  intros H1 H2 Hext. apply (StronglySorted_unique_strong (cmp_lt cmp)); [|done|done|].
  - intros x y _ _ Hxy Hyx. by destruct (cmp_lt_asym x y).
  - apply NoDup_Permutation; [by apply strictly_sorted_NoDup..|done].
Qed.

Lemma sorted_unique_id l : StronglySorted (cmp_lt cmp) l → sorted_unique cmp l = l.
Proof.
  intros Hl. apply strictly_sorted_ext; [apply sorted_unique_sorted|done|].
  apply elem_of_sorted_unique.
Qed.

End sorted_unique_facts.

(** ** Merging labeled factories *)

Lemma TriplesFactory_merge_loop_raises self i others :
  Exists (label_mismatch self) others →
  ∃ d j, TriplesFactory.merge_loop self i others = inl (ValueError d)
       ∧ (d = EntityMappingMismatch (i + j) ∨ d = RelationMappingMismatch (i + j))
       ∧ first_at (label_mismatch self) others j.
Proof.
  revert i. induction others as [|o others IH]; intros i Hex.
  { by apply Exists_nil in Hex. }
  simpl. case_bool_decide as He.
  { exists (EntityMappingMismatch i), 0%nat. rewrite Nat.add_0_r.
    split; [done|]. split; [by left|]. apply first_at_cons_here. by left. }
  case_bool_decide as Hr.
  { exists (RelationMappingMismatch i), 0%nat. rewrite Nat.add_0_r.
    split; [done|]. split; [by right|]. apply first_at_cons_here. by right. }
  apply Exists_cons in Hex as [Hbad|Hex].
  { unfold label_mismatch in Hbad. tauto. }
  destruct (IH (S i) Hex) as (d & j & Hloop & Hd & Hfirst).
  exists d, (S j). split; [done|]. split.
  - by rewrite Nat.add_succ_r.
  - apply first_at_cons_later; [|done]. unfold label_mismatch. tauto.
Qed.

(** C10. [merge] of [TriplesFactory] raises a [ValueError] naming the first
    operand whose entity or relation label mapping differs from the one of
    this factory, whenever there is such an operand and whatever the counts
    and flags of the operands are: the label mappings of all operands are
    compared before the base class compares counts and flags. *)
Theorem TriplesFactory_merge_checks_labels
    (self : TriplesFactory.t) (others : list TriplesFactory.t) :
  Exists (label_mismatch self) others →
  ∃ d i, TriplesFactory.merge self others = inl (ValueError d)
       ∧ (d = EntityMappingMismatch i ∨ d = RelationMappingMismatch i)
       ∧ named_operand (ValueError d) = Some i
       ∧ first_at (label_mismatch self) others i.
Proof.
  intros Hex.
  destruct (TriplesFactory_merge_loop_raises self 0 others Hex)
    as (d & i & Hloop & Hd & Hfirst).
  exists d, i. unfold TriplesFactory.merge. rewrite Hloop.
  split; [done|]. split; [done|]. split; [|done].
  by destruct Hd as [-> | ->].
Qed.

Lemma factory_ab_xy_mismatch : label_mismatch factory_ab factory_xy.
Proof.
  left. intros Heq.
  apply (f_equal (λ m : gmap string Z, m !! "a"%string)) in Heq. discriminate.
Qed.

Lemma TriplesFactory_merge_checks_labels_witness :
  Exists (incompatible (TriplesFactory.core factory_ab))
    (TriplesFactory.core <$> [factory_ab_inverse; factory_xy])
  ∧ ∃ d i, TriplesFactory.merge factory_ab [factory_ab_inverse; factory_xy]
             = inl (ValueError d)
         ∧ (d = EntityMappingMismatch i ∨ d = RelationMappingMismatch i)
         ∧ named_operand (ValueError d) = Some i
         ∧ first_at (label_mismatch factory_ab) [factory_ab_inverse; factory_xy] i.
Proof.
  split.
  - apply Exists_cons_hd. right. left. simpl. lia.
  - apply (TriplesFactory_merge_checks_labels factory_ab [factory_ab_inverse; factory_xy]).
    apply Exists_cons_tl, Exists_cons_hd. exact factory_ab_xy_mismatch.
Defined.

(** ** Mapping labels to IDs and back *)

Lemma filter_Forall_id {A} (P : A → Prop) `{∀ x, Decision (P x)} (l : list A) :
  Forall P l → filter P l = l.
Proof.
  induction 1 as [|x l Hx _ IH]; [done|]. by rewrite filter_cons_True, IH.
Qed.

Lemma zip3_fmap {A B C D} (f : A → B) (g : A → C) (h : A → D) (l : list A) :
  zip (zip (f <$> l) (g <$> l)) (h <$> l) = (λ x, (f x, g x, h x)) <$> l.
Proof.
  induction l as [|x l IH]; [done|].
  rewrite !fmap_cons. cbn [zip_with]. by rewrite IH.
Qed.

Lemma mapped_row_zip (e r : gmap string Z) (T : list ltriple) :
  zip (zip ((λ '(h, _, _), get_id e h) <$> T) ((λ '(_, r0, _), get_id r r0) <$> T))
      ((λ '(_, _, t), get_id e t) <$> T)
  = mapped_row e r <$> T.
Proof.
  rewrite zip3_fmap. apply list_fmap_ext. by intros _ [[h r0] t] _.
Qed.

Lemma masked_rows_filter (e r : gmap string Z) (T : list ltriple) :
  zip (mapped_row e r <$> T)
      (zip_with orb
         (zip_with orb ((λ x, x <? 0) <$> ((λ '(h, _, _), get_id e h) <$> T))
                       ((λ x, x <? 0) <$> ((λ '(_, r0, _), get_id r r0) <$> T)))
         ((λ x, x <? 0) <$> ((λ '(_, _, t), get_id e t) <$> T)))
    ≫= (λ '(row, masked), if (masked : bool) then [] else [row])
  = filter row_nonneg (mapped_row e r <$> T).
Proof.
  induction T as [|[[h r0] t] T IH]; [done|].
  rewrite !fmap_cons. cbn [zip_with zip]. rewrite bind_cons, IH, filter_cons.
  unfold mapped_row at 2 4. unfold row_nonneg at 2.
  destruct (Z.ltb_spec (get_id e h) 0), (Z.ltb_spec (get_id r r0) 0),
    (Z.ltb_spec (get_id e t) 0); simpl;
    first [ rewrite decide_True by lia | rewrite decide_False by lia ]; done.
Qed.

Lemma unmasked_rows_filter (e r : gmap string Z) (T : list ltriple) :
  existsb id ((λ x, x <? 0) <$> ((λ '(h, _, _), get_id e h) <$> T))
  || existsb id ((λ x, x <? 0) <$> ((λ '(_, r0, _), get_id r r0) <$> T))
  || existsb id ((λ x, x <? 0) <$> ((λ '(_, _, t), get_id e t) <$> T)) = false →
  filter row_nonneg (mapped_row e r <$> T) = mapped_row e r <$> T.
Proof.
  induction T as [|[[h r0] t] T IH]; [done|].
  rewrite !fmap_cons. cbn [existsb]. unfold id at 1 3 5.
  rewrite !orb_false_iff. intros [[[Hh Hhs] [Hr Hrs]] [Ht Hts]].
  rewrite filter_cons, IH by (by rewrite Hhs, Hrs, Hts).
  apply Z.ltb_ge in Hh, Hr, Ht.
  rewrite decide_True; [done|]. simpl. lia.
Qed.

Lemma map_triples_elements_to_ids_unfold (T : list ltriple) (e r : gmap string Z) :
  _map_triples_elements_to_ids T e r =
  np_unique_rows (filter row_nonneg (mapped_row e r <$> T)).
Proof.
  destruct T as [|x T]; [done|].
  unfold _map_triples_elements_to_ids. cbv zeta. rewrite mapped_row_zip.
  destruct (_ || _ || _) eqn:Hany.
  - by rewrite masked_rows_filter.
  - by rewrite unmasked_rows_filter.
Qed.

Lemma map_triples_elements_to_ids_sorted (T : list ltriple) (e r : gmap string Z) :
  StronglySorted (cmp_lt triple_compare) (_map_triples_elements_to_ids T e r).
Proof.
  rewrite map_triples_elements_to_ids_unfold. apply sorted_unique_sorted, _.
Qed.

Lemma elem_of_map_triples_elements_to_ids (T : list ltriple) (e r : gmap string Z) row :
  row ∈ _map_triples_elements_to_ids T e r ↔
  row_nonneg row ∧ ∃ labeled, labeled ∈ T ∧ row = mapped_row e r labeled.
Proof.
  rewrite map_triples_elements_to_ids_unfold. unfold np_unique_rows.
  rewrite elem_of_sorted_unique by apply _.
  rewrite list_elem_of_filter, list_elem_of_fmap.
  split; intros (Hnonneg & labeled & H1 & H2); eauto.
Qed.

Lemma get_id_nonneg (m : gmap string Z) (label : string) :
  0 ≤ get_id m label → m !! label = Some (get_id m label).
Proof. unfold get_id. destruct (m !! label); simpl; [done|lia]. Qed.

Lemma inverse_Some (m : gmap string Z) (i : Z) (label : string) :
  Labeling.inverse m !! i = Some label → m !! label = Some i.
Proof.
  unfold Labeling.inverse. intros H%elem_of_list_to_map_2.
  apply list_elem_of_fmap in H as ([l j] & [= -> ->] & Hin).
  by apply elem_of_map_to_list.
Qed.

Lemma inverse_is_Some (m : gmap string Z) (i : Z) (label : string) :
  m !! label = Some i → is_Some (Labeling.inverse m !! i).
Proof.
  intros Hm. apply not_eq_None_Some. unfold Labeling.inverse.
  rewrite <- not_elem_of_list_to_map. intros Hnot. apply Hnot.
  apply list_elem_of_fmap. exists (i, label). split; [done|].
  apply list_elem_of_fmap. exists (label, i). split; [done|].
  by apply elem_of_map_to_list.
Qed.

(** Labeling an ID that some label maps to, and mapping the label back. *)
Lemma label_then_get_id (m : gmap string Z) (label unknown : string) :
  0 ≤ get_id m label →
  get_id m (default unknown (Labeling.inverse m !! get_id m label))
  = get_id m label.
Proof.
  intros Hid%get_id_nonneg.
  destruct (inverse_is_Some _ _ _ Hid) as [label' Hlabel']. rewrite Hlabel'.
  simpl. apply inverse_Some in Hlabel'. unfold get_id at 1. by rewrite Hlabel'.
Qed.

Lemma invert_mapping_inr (m : gmap string Z) (inv : gmap Z string) :
  Labeling.invert_mapping m = inr inv ↔
  NoDup (map_to_list m).*2 ∧ inv = Labeling.inverse m.
Proof.
  unfold Labeling.invert_mapping. cbv zeta. case_bool_decide as Hnodup; simpl.
  - split; [by intros [= <-]|by intros [_ ->]].
  - split; [discriminate|by intros [? _]].
Qed.

Lemma Labeling_post_init_inr (m : gmap string Z) (labeling : Labeling.t) :
  Labeling.__post_init__ m = inr labeling ↔
  NoDup (map_to_list m).*2 ∧ labeling = Labeling.built m.
Proof.
  unfold Labeling.__post_init__. rewrite bind_inr. split.
  - intros (inv & [Hnodup ->]%invert_mapping_inr & [= <-]). done.
  - intros [Hnodup ->]. exists (Labeling.inverse m).
    split; [by apply invert_mapping_inr|done].
Qed.

Lemma Labeling_post_init_inl (m : gmap string Z) (e : exn) :
  Labeling.__post_init__ m = inl e ↔
  ¬ NoDup (map_to_list m).*2
  ∧ e = ValueError (MappingNotBijective
                      (length (remove_dups (map_to_list m).*2)) (size m)).
Proof.
  unfold Labeling.__post_init__, Labeling.invert_mapping. cbv zeta.
  case_bool_decide as Hnodup; simpl.
  - split; [discriminate|by intros [? _]].
  - split; [by intros [= <-]|by intros [_ ->]].
Qed.

Lemma TriplesFactory_init_inr mt e r civ md tf :
  TriplesFactory.__init__ mt e r civ md None None = inr tf →
  TriplesFactory.entity_labeling tf = Labeling.built e
  ∧ TriplesFactory.relation_labeling tf = Labeling.built r
  ∧ ∃ ne nr, CoreTriplesFactory.__init__ mt ne nr civ md = inr (TriplesFactory.core tf).
Proof.
  unfold TriplesFactory.__init__. intros H.
  apply bind_inr in H as (le & [_ ->]%Labeling_post_init_inr & H).
  apply bind_inr in H as (me & _ & H). apply bind_inr in H as (ne & _ & H).
  apply bind_inr in H as (lr & [_ ->]%Labeling_post_init_inr & H).
  apply bind_inr in H as (mr & _ & H). apply bind_inr in H as (nr & _ & H).
  apply bind_inr in H as (c & Hc & [= <-]). simpl. eauto.
Qed.

Lemma from_labeled_triples_inr compact_mapping triples civ e2i r2i compact_id filter_out md tf :
  TriplesFactory.from_labeled_triples compact_mapping triples civ e2i r2i compact_id
    filter_out md = inr tf →
  ∃ T,
    TriplesFactory.entity_labeling tf
      = Labeling.built (TriplesFactory.entity_to_id tf)
    ∧ TriplesFactory.relation_labeling tf
      = Labeling.built (TriplesFactory.relation_to_id tf)
    ∧ CoreTriplesFactory.mapped_triples (TriplesFactory.core tf)
      = _map_triples_elements_to_ids T (TriplesFactory.entity_to_id tf)
          (TriplesFactory.relation_to_id tf).
Proof.
  unfold TriplesFactory.from_labeled_triples. cbv zeta.
  intros (He & Hr & ne & nr & Hcore)%TriplesFactory_init_inr.
  apply CoreTriplesFactory_init_inr in Hcore as (_ & _ & _ & _ & Hcore).
  unfold TriplesFactory.entity_to_id, TriplesFactory.relation_to_id.
  rewrite Hcore, He, Hr. simpl. rewrite rows3_flatten3. eauto.
Qed.

Lemma label_then_map_rows (tf : TriplesFactory.t) (M : list triple)
    (unknown_entity_label : string) (unknown_relation_label : option string) :
  TriplesFactory.entity_labeling tf
    = Labeling.built (TriplesFactory.entity_to_id tf) →
  TriplesFactory.relation_labeling tf
    = Labeling.built (TriplesFactory.relation_to_id tf) →
  (∀ row, row ∈ M → row_nonneg row
     ∧ ∃ labeled, row = mapped_row (TriplesFactory.entity_to_id tf)
                          (TriplesFactory.relation_to_id tf) labeled) →
  mapped_row (TriplesFactory.entity_to_id tf) (TriplesFactory.relation_to_id tf)
    <$> TriplesFactory.label_triples tf M unknown_entity_label unknown_relation_label
  = M.
Proof.
  intros He Hr Hknown. destruct M as [|x rows]; [done|].
  unfold TriplesFactory.label_triples. set (M := x :: rows) in *.
  unfold Labeling.label. rewrite He, Hr. simpl Labeling.id_to_label.
  set (e := TriplesFactory.entity_to_id tf) in *.
  set (r := TriplesFactory.relation_to_id tf) in *.
  rewrite <- !list_fmap_compose, zip3_fmap, <- list_fmap_compose.
  rewrite <- (list_fmap_id M) at 2.
  apply list_fmap_ext. intros _ row Hrow%list_elem_of_lookup_2.
  destruct (Hknown row Hrow) as (Hnonneg & [[lh lr] lt] & ->).
  simpl in Hnonneg |- *. destruct Hnonneg as (Hh & Hrel & Ht).
  rewrite !label_then_get_id by done. done.
Qed.

(** C2. For a factory built by [from_labeled_triples], labeling its mapped
    triples and mapping the labels back gives the rows of the mapped triples:
    the same set of rows, without duplicates, and indeed the same tensor. *)
Theorem label_then_map_round_trip
    (compact_mapping : gmap string Z → gmap string Z) (triples : list ltriple)
    (create_inverse_triples : bool) (entity_to_id relation_to_id : option (gmap string Z))
    (compact_id filter_out : bool) (metadata : option (gmap string pyval))
    (tf : TriplesFactory.t) (unknown_entity_label : string)
    (unknown_relation_label : option string) :
  TriplesFactory.from_labeled_triples compact_mapping triples create_inverse_triples
    entity_to_id relation_to_id compact_id filter_out metadata = inr tf →
  let mapped := CoreTriplesFactory.mapped_triples (TriplesFactory.core tf) in
  let back :=
    TriplesFactory.map_triples tf
      (TriplesFactory.label_triples tf mapped unknown_entity_label unknown_relation_label) in
  (∀ row, row ∈ back ↔ row ∈ mapped) ∧ NoDup back ∧ back = mapped.
Proof.
  intros (T & He & Hr & Hmapped)%from_labeled_triples_inr. cbv zeta.
  assert (StronglySorted (cmp_lt triple_compare)
            (CoreTriplesFactory.mapped_triples (TriplesFactory.core tf))) as Hsorted.
  { rewrite Hmapped. apply map_triples_elements_to_ids_sorted. }
  assert (∀ row, row ∈ CoreTriplesFactory.mapped_triples (TriplesFactory.core tf) →
            row_nonneg row
            ∧ ∃ labeled, row = mapped_row (TriplesFactory.entity_to_id tf)
                                 (TriplesFactory.relation_to_id tf) labeled) as Hknown.
  { intros row Hrow. rewrite Hmapped in Hrow.
    apply elem_of_map_triples_elements_to_ids in Hrow as (? & ? & ? & ?). eauto. }
  clear Hmapped.
  set (mapped := CoreTriplesFactory.mapped_triples (TriplesFactory.core tf)) in *.
  assert (TriplesFactory.map_triples tf
            (TriplesFactory.label_triples tf mapped unknown_entity_label
               unknown_relation_label) = mapped) as ->.
  { unfold TriplesFactory.map_triples.
    rewrite map_triples_elements_to_ids_unfold, label_then_map_rows by done.
    rewrite filter_Forall_id by (apply Forall_forall; intros row Hrow;
                                 by apply Hknown).
    by apply sorted_unique_id; [apply _|]. }
  split; [done|]. split; [|done].
  by eapply strictly_sorted_NoDup; [apply _|].
Qed.

Lemma label_then_map_round_trip_witness :
  ∃ tf,
    TriplesFactory.from_labeled_triples (λ m, m) example_labeled_triples false None None
      true true None = inr tf
    ∧ CoreTriplesFactory.mapped_triples (TriplesFactory.core tf)
      = [(0, 0, 2); (0, 1, 1); (1, 1, 0)]
    ∧ TriplesFactory.map_triples tf
        (TriplesFactory.label_triples tf
           (CoreTriplesFactory.mapped_triples (TriplesFactory.core tf)) "[UNKNOWN]" None)
      = CoreTriplesFactory.mapped_triples (TriplesFactory.core tf).
Proof.
  destruct (TriplesFactory.from_labeled_triples (λ m, m) example_labeled_triples false
              None None true true None) as [e|tf] eqn:Hbuilt.
  { vm_compute in Hbuilt. discriminate. }
  exists tf. split; [reflexivity|].
  pose proof (label_then_map_round_trip _ _ _ _ _ _ _ _ _ "[UNKNOWN]" None Hbuilt)
    as (_ & _ & Hback).
  split; [|exact Hback].
  vm_compute in Hbuilt. injection Hbuilt as <-. reflexivity.
Defined.

(** ** Condensation *)

Lemma foldl_max_spec (v : Z) (vs : list Z) :
  foldl Z.max v vs ∈ v :: vs ∧ ∀ u, u ∈ v :: vs → u ≤ foldl Z.max v vs.
Proof.
  revert v. induction vs as [|w vs IH]; intros v; simpl.
  - split; [left|]. intros u ->%list_elem_of_singleton. lia.
  - destruct (IH (Z.max v w)) as [Hin Hle]. split.
    + apply elem_of_cons in Hin as [Heq|Hin].
      * rewrite Heq. destruct (Z.max_spec v w) as [[_ ->]|[_ ->]];
          [right; left|left].
      * by do 2 right.
    + intros u Hu. rewrite !elem_of_cons in Hu.
      destruct Hu as [->|[->|Hu]].
      * etrans; [|apply Hle; left]. lia.
      * etrans; [|apply Hle; left]. lia.
      * apply Hle. by right.
Qed.

Lemma foldl_min_spec (v : Z) (vs : list Z) :
  foldl Z.min v vs ∈ v :: vs ∧ ∀ u, u ∈ v :: vs → foldl Z.min v vs ≤ u.
Proof.
  revert v. induction vs as [|w vs IH]; intros v; simpl.
  - split; [left|]. intros u ->%list_elem_of_singleton. lia.
  - destruct (IH (Z.min v w)) as [Hin Hle]. split.
    + apply elem_of_cons in Hin as [Heq|Hin].
      * rewrite Heq. destruct (Z.min_spec v w) as [[_ ->]|[_ ->]];
          [left|right; left].
      * by do 2 right.
    + intros u Hu. rewrite !elem_of_cons in Hu.
      destruct Hu as [->|[->|Hu]].
      * etrans; [apply Hle; left|]. lia.
      * etrans; [apply Hle; left|]. lia.
      * apply Hle. by right.
Qed.

Lemma get_num_ids_spec (x : list Z) :
  x ≠ [] →
  ∃ k, get_num_ids x = inr k ∧ k - 1 ∈ x ∧ ∀ v, v ∈ x → v < k.
Proof.
  destruct x as [|v vs]; [done|]. intros _. simpl.
  destruct (foldl_max_spec v vs) as [Hin Hle].
  exists (foldl Z.max v vs + 1). split; [done|]. split.
  - by replace (foldl Z.max v vs + 1 - 1) with (foldl Z.max v vs) by lia.
  - intros u Hu. apply Hle in Hu. lia.
Qed.

Lemma seqZ_sorted (m n : Z) : StronglySorted (cmp_lt Z.compare) (seqZ m n).
Proof.
  destruct (decide (n ≤ 0)) as [Hn|Hn]; [rewrite seqZ_nil by done; constructor|].
  rewrite <- (Z2Nat.id n) by lia. generalize (Z.to_nat n). clear n Hn. intros n.
  induction n as [|n IH]; [rewrite seqZ_nil by lia; constructor|].
  rewrite seqZ_S. apply StronglySorted_app. split; [|split; [done|repeat constructor]].
  intros a b Ha ->%list_elem_of_singleton. apply elem_of_seqZ in Ha.
  unfold cmp_lt. apply Z.compare_lt_iff. lia.
Qed.

Lemma unique_ids_sorted (x : list Z) : StronglySorted Z.lt (unique_ids x).
Proof. apply (sorted_unique_sorted Z.compare). Qed.

Lemma elem_of_unique_ids (x : list Z) (v : Z) : v ∈ unique_ids x ↔ v ∈ x.
Proof. apply (elem_of_sorted_unique Z.compare). Qed.

Lemma unique_ids_contiguous (x : list Z) (k : Z) :
  unique_ids x = seqZ 0 k ↔ ∀ v, v ∈ x ↔ v ∈ seqZ 0 k.
Proof.
  split.
  - intros Heq v. by rewrite <- Heq, elem_of_unique_ids.
  - intros Hext. apply (strictly_sorted_ext Z.compare).
    + apply unique_ids_sorted.
    + apply seqZ_sorted.
    + intros v. by rewrite elem_of_unique_ids.
Qed.

Lemma scatter_spec (index src y : list Z) :
  NoDup index → Forall (λ i, 0 ≤ i < Z.of_nat (length y)) index →
  (length index ≤ length src)%nat →
  ∃ y', scatter_ y index src = inr y' ∧ length y' = length y
      ∧ (∀ i id s, index !! i = Some id → src !! i = Some s →
           y' !! Z.to_nat id = Some s)
      ∧ (∀ j, Z.of_nat j ∉ index → y' !! j = y !! j).
Proof.
  revert src y. induction index as [|id index IH]; intros src y Hnodup Hrange Hlen.
  { exists y. simpl. split; [done|]. split; [done|]. split; [|done]. by intros []. }
  destruct src as [|s src]; [simpl in Hlen; lia|].
  apply NoDup_cons in Hnodup as [Hid Hnodup].
  apply Forall_cons in Hrange as [Hin Hrange]. simpl.
  rewrite (proj2 (Z.leb_le 0 id)), (proj2 (Z.ltb_lt id _)) by lia. simpl.
  destruct (IH src (<[Z.to_nat id := s]> y)) as (y' & Hy' & Hlen' & Hset & Hkeep).
  - done.
  - by rewrite length_insert.
  - simpl in Hlen. lia.
  - exists y'. split; [done|]. rewrite length_insert in Hlen'. split; [done|]. split.
    + intros [|i] id' s' Hi Hs; simpl in Hi, Hs.
      * injection Hi as <-. injection Hs as <-.
        rewrite Hkeep by (by rewrite Z2Nat.id by lia).
        apply list_lookup_insert_eq. lia.
      * by apply (Hset i).
    + intros j Hj. apply not_elem_of_cons in Hj as [Hne Hj].
      rewrite Hkeep by done. apply list_lookup_insert_ne. lia.
Qed.

Lemma Condenser_init_Some (y : list Z) :
  y ≠ [] → Forall (λ v, -1 ≤ v < Z.of_nat (length y)) y →
  Condenser.__init__ (Some y) = inr {| Condenser.condensation := Some y |}.
Proof.
  destruct y as [|v vs]; [done|]. intros _ Hall. unfold Condenser.__init__.
  rewrite Forall_forall in Hall.
  destruct (foldl_min_spec v vs) as [Hmin _]. destruct (foldl_max_spec v vs) as [Hmax _].
  apply Hall in Hmin, Hmax.
  rewrite (proj2 (Z.ltb_ge _ _)), (proj2 (Z.leb_gt _ _)) by lia. done.
Qed.

(** C6. For a nonempty tensor of IDs: when the IDs present are exactly
    [0..k-1], [Condenser.make] returns the identity condenser, whose boolean
    value is [False] and whose application returns its input; otherwise it
    returns a condenser whose condensation, of length one plus the largest
    ID, maps the [i]-th smallest present ID to [i] and every absent ID to
    [-1]. *)
Theorem Condenser_make_spec (x : list Z) :
  x ≠ [] → Forall (λ v, 0 ≤ v) x →
  (contiguous x →
   ∃ c, Condenser.make x true = inr c
      ∧ Condenser.__bool__ c = false
      ∧ ∀ ids, Condenser.__call__ c ids = inr ids)
  ∧ (¬ contiguous x →
     ∃ c y, Condenser.make x true = inr c
          ∧ Condenser.condensation c = Some y
          ∧ Condenser.__bool__ c = true
          ∧ get_num_ids x = inr (Z.of_nat (length y))
          ∧ StronglySorted Z.lt (unique_ids x)
          ∧ (∀ v, v ∈ unique_ids x ↔ v ∈ x)
          ∧ (∀ i id, unique_ids x !! i = Some id → y !! Z.to_nat id = Some (Z.of_nat i))
          ∧ (∀ id, (id < length y)%nat → Z.of_nat id ∉ x → y !! id = Some (-1))).
Proof.
  intros Hne Hnonneg.
  destruct (get_num_ids_spec x Hne) as (k & Hk & Hmax & Hbound).
  assert (1 ≤ k) as Hk1.
  { rewrite Forall_forall in Hnonneg. apply Hnonneg in Hmax. lia. }
  assert (Condenser.make x true =
            if bool_decide (unique_ids x = seqZ 0 k) then Condenser.empty
            else y ← scatter_ (replicate (Z.to_nat k) (-1)) (unique_ids x) (seqZ 0 k);
                 Condenser.__init__ (Some y)) as Hmake.
  { unfold Condenser.make. simpl negb. rewrite bool_decide_eq_false_2.
    2:{ destruct x; [by destruct Hne|simpl; lia]. }
    simpl orb. cbv iota. rewrite Hk. simpl mbind. unfold torch_arange, torch_full.
    rewrite (proj2 (Z.ltb_ge k 0)) by lia. simpl mbind. done. }
  split.
  - intros [k' Hk']. rewrite Hmake.
    assert (k' = k) as ->.
    { assert (k - 1 < k') by (by apply Hk').
      assert (k' - 1 < k) by (apply Hbound, Hk'; lia). lia. }
    rewrite bool_decide_eq_true_2.
    2:{ apply unique_ids_contiguous. intros v. rewrite Hk', elem_of_seqZ. lia. }
    by exists {| Condenser.condensation := None |}.
  - intros Hgap. rewrite Hmake.
    rewrite bool_decide_eq_false_2.
    2:{ intros Heq. apply Hgap. exists k. intros v.
        rewrite (proj1 (unique_ids_contiguous x k) Heq), elem_of_seqZ. lia. }
    assert (NoDup (unique_ids x)) as Hnodup.
    { apply (sorted_unique_NoDup Z.compare). }
    assert (Forall (λ i, 0 ≤ i < k) (unique_ids x)) as Hrange.
    { apply Forall_forall. intros v Hv. apply (proj1 (elem_of_unique_ids _ _)) in Hv.
      rewrite Forall_forall in Hnonneg. split; [by apply Hnonneg|by apply Hbound]. }
    assert (length (unique_ids x) ≤ Z.to_nat k)%nat as Hlen.
    { rewrite <- (length_seqZ 0 k). apply submseteq_length, NoDup_submseteq; [done|].
      intros v Hv. rewrite Forall_forall in Hrange. apply Hrange in Hv.
      apply elem_of_seqZ. lia. }
    destruct (scatter_spec (unique_ids x) (seqZ 0 k) (replicate (Z.to_nat k) (-1)))
      as (y & Hy & Hleny & Hset & Hkeep).
    { done. }
    { rewrite length_replicate, Z2Nat.id by lia. done. }
    { by rewrite length_seqZ. }
    rewrite length_replicate in Hleny.
    rewrite Hy, bind_ret_l.
    assert (∀ i id, unique_ids x !! i = Some id → y !! Z.to_nat id = Some (Z.of_nat i))
      as Hpresent.
    { intros i id Hi. apply (Hset i); [done|]. apply lookup_seqZ.
      apply lookup_lt_Some in Hi. lia. }
    assert (∀ id, (id < length y)%nat → Z.of_nat id ∉ x → y !! id = Some (-1)) as Habsent.
    { intros id Hid Hnot. rewrite Hkeep by (by rewrite elem_of_unique_ids).
      apply lookup_replicate_2. lia. }
    rewrite Condenser_init_Some.
    + eexists _, y. split; [done|]. split; [done|]. split; [done|].
      split; [rewrite Hk, Hleny, Z2Nat.id by lia; done|].
      split; [apply unique_ids_sorted|]. split; [apply elem_of_unique_ids|]. done.
    + intros ->. simpl in Hleny. lia.
    + apply Forall_lookup. intros j v Hj.
      assert (j < length y)%nat as Hjlt by (by eapply lookup_lt_Some).
      destruct (decide (Z.of_nat j ∈ x)) as [Hin|Hout].
      * apply (proj2 (elem_of_unique_ids _ _)), list_elem_of_lookup in Hin as [i Hi].
        pose proof (Hpresent i _ Hi) as Hv. rewrite Nat2Z.id, Hj in Hv.
        injection Hv as ->. apply lookup_lt_Some in Hi. lia.
      * rewrite (Habsent j Hjlt Hout) in Hj. injection Hj as <-. lia.
Qed.

Lemma Condenser_make_spec_witness :
  (∃ c, Condenser.make [1; 0; 1] true = inr c
      ∧ Condenser.__bool__ c = false
      ∧ ∀ ids, Condenser.__call__ c ids = inr ids)
  ∧ (∃ c y, Condenser.make [5; 2; 0; 2] true = inr c
          ∧ Condenser.condensation c = Some y
          ∧ Condenser.__bool__ c = true
          ∧ get_num_ids [5; 2; 0; 2] = inr (Z.of_nat (length y))
          ∧ StronglySorted Z.lt (unique_ids [5; 2; 0; 2])
          ∧ (∀ v, v ∈ unique_ids [5; 2; 0; 2] ↔ v ∈ [5; 2; 0; 2])
          ∧ (∀ i id, unique_ids [5; 2; 0; 2] !! i = Some id →
               y !! Z.to_nat id = Some (Z.of_nat i))
          ∧ (∀ id, (id < length y)%nat → Z.of_nat id ∉ [5; 2; 0; 2] →
               y !! id = Some (-1))).
Proof.
  split.
  - apply (proj1 (Condenser_make_spec [1; 0; 1] ltac:(discriminate)
                    ltac:(repeat constructor; lia))).
    exists 2. intros v. rewrite !elem_of_cons, elem_of_nil. lia.
  - apply (proj2 (Condenser_make_spec [5; 2; 0; 2] ltac:(discriminate)
                    ltac:(repeat constructor; lia))).
    intros [k Hk].
    assert (5 < k) as H5 by (apply Hk; rewrite !elem_of_cons; lia).
    assert (1 ∈ [5; 2; 0; 2]) as H1 by (apply Hk; lia).
    rewrite !elem_of_cons, elem_of_nil in H1. lia.
Defined.

(** ** LCWA instances *)

Lemma csr_add_length rows entry : length (csr_add rows entry) = length rows.
Proof. destruct entry as [[i j] v]. apply length_alter. Qed.

Lemma float32_of_Z_exact (n : Z) : n ≤ 2 ^ 24 → float32_of_Z n = n.
Proof.
  intros Hn. unfold float32_of_Z.
  destruct (Z.ltb_spec n (2 ^ 24)) as [Hlt|Hge]; [done|].
  assert (n = 2 ^ 24) as -> by lia. by vm_compute.
Qed.

(** Adding one in [float32]: exact up to [2 ^ 24], where the sum stays. *)
Lemma float32_add_one (c : nat) :
  Z.of_nat c ≤ 2 ^ 24 →
  Z.of_nat (float32_add c 1) = Z.min (2 ^ 24) (Z.of_nat c + 1).
Proof.
  intros Hc. unfold float32_add. change (Z.of_nat 1) with 1.
  destruct (decide (Z.of_nat c = 2 ^ 24)) as [Heq|Hne].
  - rewrite Heq. assert (float32_of_Z (2 ^ 24 + 1) = 2 ^ 24) as -> by (by vm_compute).
    rewrite Z2Nat.id by lia. lia.
  - rewrite float32_of_Z_exact by lia. rewrite Z2Nat.id by lia. lia.
Qed.

Lemma csr_cell_add rows i j v i' j' :
  (i' < length rows)%nat →
  csr_cell (csr_add rows (i, j, v)) i' j'
  = if decide (i = i' ∧ j = j') then float32_add (csr_cell rows i' j') v
    else csr_cell rows i' j'.
Proof.
  intros Hi'. unfold csr_cell, csr_add.
  destruct (lookup_lt_is_Some_2 rows i' Hi') as [row Hrow].
  destruct (decide (i = i')) as [->|Hi].
  - rewrite list_lookup_alter_eq, Hrow. simpl.
    rewrite lookup_partial_alter.
    repeat case_decide; subst; simpl; tauto.
  - rewrite list_lookup_alter_ne, Hrow by done. simpl.
    rewrite decide_False by tauto. done.
Qed.

(** The entry at a position after adding ones: the number of ones added
    there, up to [2 ^ 24], where a [float32] sum of ones stays. *)
Lemma csr_cell_foldl entries rows i j :
  (i < length rows)%nat →
  Forall (λ entry : nat * nat * nat, entry.2 = 1%nat) entries →
  Z.of_nat (csr_cell rows i j) ≤ 2 ^ 24 →
  Z.of_nat (csr_cell (foldl csr_add rows entries) i j)
  = Z.min (2 ^ 24)
      (Z.of_nat (csr_cell rows i j)
       + Z.of_nat (sum_list_with
                     (λ '(i', j', v), if decide (i' = i ∧ j' = j) then v else 0%nat)
                     entries)).
Proof.
  revert rows. induction entries as [|[[i' j'] v] entries IH]; intros rows Hi Hones Hcell.
  - cbn [foldl sum_list_with]. lia.
  - apply Forall_cons in Hones as [Hv Hones]. simpl in Hv. subst v.
    cbn [foldl sum_list_with].
    pose proof (csr_cell_add rows i' j' 1 i j Hi) as Hadd.
    pose proof (float32_add_one (csr_cell rows i j) Hcell) as Hone.
    rewrite IH; [|by rewrite csr_add_length|done|].
    + rewrite Hadd. case_decide; lia.
    + rewrite Hadd. case_decide; lia.
Qed.

Lemma length_foldl_csr_add entries rows :
  length (foldl csr_add rows entries) = length rows.
Proof.
  revert rows. induction entries as [|e entries IH]; intros rows; [done|].
  cbn [foldl]. by rewrite IH, csr_add_length.
Qed.

Lemma csr_cell_empty n i j : csr_cell (replicate n ∅) i j = 0%nat.
Proof.
  unfold csr_cell. destruct (replicate n ∅ !! i) as [row|] eqn:Hrow; [|done].
  apply lookup_replicate in Hrow as [-> _]. done.
Qed.

Lemma sum_indicator_NoDup {A} `{EqDecision A} (a : A) (l : list A) :
  NoDup l →
  sum_list_with (λ x, if decide (x = a) then 1 else 0)%nat l
  = if decide (a ∈ l) then 1%nat else 0%nat.
Proof.
  induction 1 as [|x l Hx Hl IH]; cbn [sum_list_with].
  - case_decide as Hin; [by apply elem_of_nil in Hin|done].
  - rewrite IH.
    destruct (decide (x = a)) as [->|Hne], (decide (a ∈ l)) as [Hin|Hout];
      case_decide as Hin'; try done.
    + exfalso. apply Hin'. by left.
    + exfalso. apply Hin'. by right.
    + exfalso. apply elem_of_cons in Hin' as [Heq|Hin']; [by apply Hne|by apply Hout].
Qed.

(** The position that [numpy.unique(return_inverse=True)] reports for a row. *)
Lemma unique_position (u : list (Z * Z)) (p : Z * Z) (i : nat) :
  NoDup u → u !! i = Some p →
  default 0%nat (fst <$> list_find (λ q, q = p) u) = i.
Proof.
  intros Hnodup Hi.
  destruct (list_find_elem_of (λ q, q = p) u p) as [[i' p'] Hfind];
    [by eapply list_elem_of_lookup_2|done|].
  rewrite Hfind. simpl.
  apply list_find_Some in Hfind as (Hi' & -> & _).
  by eapply NoDup_lookup.
Qed.

Lemma existsb_false_Forall {A} (f : A → bool) (l : list A) :
  existsb f l = false ↔ Forall (λ x, f x = false) l.
Proof.
  induction l as [|x l IH]; simpl; [by split; [constructor|]|].
  rewrite orb_false_iff, Forall_cons, IH. done.
Qed.

Lemma sum_list_with_fmap {A B} (f : B → nat) (g : A → B) (l : list A) :
  sum_list_with f (g <$> l) = sum_list_with (f ∘ g) l.
Proof. induction l as [|x l IH]; [done|]. rewrite fmap_cons. simpl. by rewrite IH. Qed.

Lemma sum_list_with_ext_elem {A} (f g : A → nat) (l : list A) :
  (∀ x, x ∈ l → f x = g x) → sum_list_with f l = sum_list_with g l.
Proof.
  induction l as [|x l IH]; intros Hext; [done|]. simpl.
  rewrite Hext by left. rewrite IH; [done|]. intros y Hy. apply Hext. by right.
Qed.

Lemma replicate_length_fmap {A B} (b : B) (l : list A) :
  replicate (length l) b = (λ _, b) <$> l.
Proof. induction l as [|x l IH]; [done|]. simpl. by rewrite IH. Qed.

(** The entries that [from_triples] hands to the sparse matrix, row by row of
    the triples. *)
Lemma lcwa_entries (T : list triple) (u : list (Z * Z)) :
  zip (zip ((λ p, default 0%nat (fst <$> list_find (λ q, q = p) u))
              <$> (other_columns COLUMN_TAIL <$> T))
           (Z.to_nat <$> (target_column COLUMN_TAIL <$> T)))
      (replicate (length T) 1%nat)
  = (λ row, (default 0%nat (fst <$> list_find (λ q, q = other_columns COLUMN_TAIL row) u),
             Z.to_nat (target_column COLUMN_TAIL row), 1%nat)) <$> T.
Proof.
  rewrite replicate_length_fmap, <- !list_fmap_compose. apply zip3_fmap.
Qed.

Lemma lcwa_cell (T : list triple) (ne : Z) (i j : nat) (h r : Z) :
  NoDup T → (∀ h' r' t', (h', r', t') ∈ T → 0 ≤ t' < ne) →
  sorted_unique pair_compare (other_columns COLUMN_TAIL <$> T) !! i = Some (h, r) →
  sum_list_with (λ '(i', j', v), if decide (i' = i ∧ j' = j) then v else 0%nat)
    ((λ row,
        (default 0%nat
           (fst <$> list_find (λ q, q = other_columns COLUMN_TAIL row)
                      (sorted_unique pair_compare (other_columns COLUMN_TAIL <$> T))),
         Z.to_nat (target_column COLUMN_TAIL row), 1%nat)) <$> T)
  = if decide ((h, r, Z.of_nat j) ∈ T) then 1%nat else 0%nat.
Proof.
  intros Hnodup Hrange Hi.
  set (u := sorted_unique pair_compare (other_columns COLUMN_TAIL <$> T)) in *.
  assert (NoDup u) as Hu by apply (sorted_unique_NoDup pair_compare).
  rewrite sum_list_with_fmap, <- (sum_indicator_NoDup (h, r, Z.of_nat j) T Hnodup).
  apply sum_list_with_ext_elem. intros [[h' r'] t'] Hrow. simpl.
  pose proof (Hrange _ _ _ Hrow) as Ht'.
  assert ((h', r') ∈ u) as Hin.
  { apply (elem_of_sorted_unique pair_compare), list_elem_of_fmap.
    by exists (h', r', t'). }
  apply list_elem_of_lookup in Hin as [i' Hi'].
  rewrite (unique_position u (h', r') i' Hu Hi').
  destruct (decide (i' = i ∧ Z.to_nat t' = j)) as [[-> <-]|Hne].
  - rewrite Hi in Hi'. injection Hi' as -> ->.
    rewrite decide_True; [done|]. by rewrite Z2Nat.id by lia.
  - rewrite decide_False; [done|]. intros [= -> -> ->]. apply Hne. split.
    + by eapply NoDup_lookup.
    + by rewrite Nat2Z.id.
Qed.

(** C5. For deduplicated triples whose tail IDs lie below the number of
    entities, [from_triples] with the tail as target returns instances whose
    pairs are the distinct (head, relation) combinations in ascending order,
    and whose compressed matrix has one row per pair and one column per
    entity, with a 1 in the row of a pair at the tails that occur with it
    and a 0 elsewhere.  For the triples (0,0,1), (0,0,2), (1,0,2) over three
    entities and one relation there are two pairs, and the row of the pair
    (0,0) is 0, 1, 1. *)
Theorem LCWAInstances_from_triples_tail :
  (∀ (T : list triple) (ne nr : Z),
     NoDup T → 0 ≤ ne → (∀ h r t, (h, r, t) ∈ T → 0 ≤ t < ne) →
     ∃ inst, LCWAInstances.from_triples T ne nr (Some COLUMN_TAIL) = inr inst
       ∧ StronglySorted (cmp_lt pair_compare) (LCWAInstances.pairs inst)
       ∧ (∀ h r, (h, r) ∈ LCWAInstances.pairs inst ↔ ∃ t, (h, r, t) ∈ T)
       ∧ csr_shape (LCWAInstances.compressed inst)
         = (LCWAInstances.__len__ inst, Z.to_nat ne)
       ∧ length (csr_rows (LCWAInstances.compressed inst)) = LCWAInstances.__len__ inst
       ∧ ∀ i h r, LCWAInstances.pairs inst !! i = Some (h, r) →
           ∃ row, LCWAInstances.__getitem__target inst i = inr row
                ∧ length row = Z.to_nat ne
                ∧ ∀ j, (j < Z.to_nat ne)%nat →
                    row !! j = Some (if decide ((h, r, Z.of_nat j) ∈ T) then 1%nat
                                     else 0%nat))
  ∧ (∃ inst, LCWAInstances.from_triples lcwa_example 3 1 None = inr inst
       ∧ LCWAInstances.pairs inst = [(0, 0); (1, 0)]
       ∧ LCWAInstances.__len__ inst = 2%nat
       ∧ LCWAInstances.__getitem__target inst 0 = inr [0; 1; 1]%nat
       ∧ LCWAInstances.__getitem__target inst 1 = inr [0; 0; 1]%nat).
Proof.
  split; [|by eexists].
  intros T ne nr Hnodup Hne Hrange.
  unfold LCWAInstances.from_triples, get_target_column, np_unique_inverse.
  simpl default. cbv zeta iota beta.
  set (u := sorted_unique pair_compare (other_columns COLUMN_TAIL <$> T)).
  assert (NoDup u) as Hu by apply (sorted_unique_NoDup pair_compare).
  set (inv := (λ p, default 0%nat (fst <$> list_find (λ q, q = p) u))
                <$> (other_columns COLUMN_TAIL <$> T)).
  assert (make_coo_matrix (replicate (length T) 1%nat) inv
            (target_column COLUMN_TAIL <$> T) (length u, ne)
          = inr {| coo_shape := (length u, Z.to_nat ne);
                   coo_row := inv;
                   coo_col := Z.to_nat <$> (target_column COLUMN_TAIL <$> T);
                   coo_data := replicate (length T) 1%nat |}) as ->.
  { unfold make_coo_matrix. simpl fst. simpl snd.
    rewrite (proj2 (Z.ltb_ge ne 0)) by lia.
    rewrite (proj2 (existsb_false_Forall _ _)).
    2:{ apply Forall_fmap, Forall_forall. intros [[h r] t] Hrow. simpl.
        apply Z.ltb_ge. by apply (Hrange h r t). }
    rewrite (proj2 (existsb_false_Forall _ _)).
    2:{ unfold inv. rewrite <- list_fmap_compose.
        apply Forall_fmap, Forall_forall. intros [[h r] t] Hrow. simpl.
        assert ((h, r) ∈ u) as Hin.
        { apply (elem_of_sorted_unique pair_compare), list_elem_of_fmap.
          by exists (h, r, t). }
        apply list_elem_of_lookup in Hin as [i Hi].
        rewrite (unique_position u (h, r) i Hu Hi).
        apply Nat.leb_gt. by eapply lookup_lt_Some. }
    rewrite (proj2 (existsb_false_Forall _ _)).
    2:{ apply Forall_fmap, Forall_forall. intros [[h r] t] Hrow. simpl.
        apply Z.leb_gt. by apply (Hrange h r t). }
    done. }
  rewrite bind_ret_l. eexists. split; [reflexivity|].
  unfold LCWAInstances.__len__, LCWAInstances.__getitem__target, tocsr, dense_row.
  simpl.
  split; [apply (sorted_unique_sorted pair_compare)|].
  split.
  { intros h r. unfold u.
    rewrite (elem_of_sorted_unique pair_compare), list_elem_of_fmap. split.
    - intros ([[h' r'] t'] & [= -> ->] & Hrow). by exists t'.
    - intros [t Hrow]. by exists (h, r, t). }
  split; [done|].
  split; [by rewrite length_foldl_csr_add, length_replicate|].
  intros i h r Hi.
  destruct (lookup_lt_is_Some_2
              (foldl csr_add (replicate (length u) ∅)
                 (zip (zip inv (Z.to_nat <$> (target_column COLUMN_TAIL <$> T)))
                    (replicate (length T) 1%nat))) i) as [row Hrow].
  { rewrite length_foldl_csr_add, length_replicate. by eapply lookup_lt_Some. }
  rewrite Hrow. eexists. split; [reflexivity|].
  split; [by rewrite length_fmap, length_seq|].
  intros j Hj. rewrite list_lookup_fmap, lookup_seq_lt by done. simpl. f_equal.
  pose proof (lcwa_cell T ne i j h r Hnodup Hrange Hi) as Hsum.
  fold u in Hsum. rewrite <- (lcwa_entries T u) in Hsum.
  pose proof (csr_cell_foldl
                (zip (zip inv (Z.to_nat <$> (target_column COLUMN_TAIL <$> T)))
                   (replicate (length T) 1%nat))
                (replicate (length u) ∅) i j) as Hcell.
  rewrite csr_cell_empty in Hcell. unfold csr_cell in Hcell at 1.
  rewrite Hrow in Hcell. cbn [mbind option_bind] in Hcell.
  fold inv in Hsum. rewrite Hsum in Hcell.
  apply Nat2Z.inj. rewrite Hcell.
  - case_decide; lia.
  - rewrite length_replicate. by eapply lookup_lt_Some.
  - apply Forall_forall. intros [[i' j'] v] Hin.
    apply elem_of_zip_r in Hin. simpl. by apply elem_of_replicate in Hin as [-> _].
  - lia.
Qed.

Lemma LCWAInstances_from_triples_tail_witness :
  ∃ inst, LCWAInstances.from_triples lcwa_example 3 1 (Some COLUMN_TAIL) = inr inst
    ∧ (∀ h r, (h, r) ∈ LCWAInstances.pairs inst ↔ ∃ t, (h, r, t) ∈ lcwa_example)
    ∧ csr_shape (LCWAInstances.compressed inst) = (LCWAInstances.__len__ inst, 3%nat).
Proof.
  destruct (proj1 LCWAInstances_from_triples_tail lcwa_example 3 1)
    as (inst & Hinst & _ & Hpairs & Hshape & _).
  - repeat (apply NoDup_cons; split; [rewrite ?elem_of_cons, elem_of_nil;
                                      intros Hin; repeat destruct Hin as [Hin|Hin];
                                      congruence|]).
    apply NoDup_nil_2.
  - lia.
  - intros h r t. unfold lcwa_example. rewrite !elem_of_cons, elem_of_nil.
    intros [[= -> -> ->]|[[= -> -> ->]|[[= -> -> ->]|[]]]]; lia.
  - exists inst. split; [exact Hinst|]. split; [exact Hpairs|exact Hshape].
Defined.

(** ** Batches of positive triples *)

Lemma NoDup_concat_Forall {A} (ls : list (list A)) : NoDup (concat ls) → Forall NoDup ls.
Proof.
  induction ls as [|l ls IH]; simpl; [constructor|].
  intros (Hl & _ & Hls)%NoDup_app. constructor; [done|by apply IH].
Qed.

Lemma elem_of_concat_2 {A} (x : A) (l : list A) (ls : list (list A)) :
  x ∈ l → l ∈ ls → x ∈ concat ls.
Proof.
  intros Hx. induction 1 as [l ls|l l' ls _ IH]; simpl; apply elem_of_app; auto.
Qed.

Lemma batch_sampler_loop_spec (b : nat) (batch sampler : list nat) :
  (length batch < b)%nat →
  length (batch_sampler_loop b true batch sampler)
  = ((length batch + length sampler) `div` b)%nat
  ∧ Forall (λ B, length B = b) (batch_sampler_loop b true batch sampler)
  ∧ concat (batch_sampler_loop b true batch sampler) `prefix_of` batch ++ sampler.
Proof.
  revert batch. induction sampler as [|idx sampler IH]; intros batch Hlt.
  - simpl. rewrite Nat.add_0_r, Nat.div_small by done.
    split; [done|]. split; [constructor|]. apply prefix_nil.
  - cbn [batch_sampler_loop]. case_bool_decide as Hfull.
    + destruct (IH []) as (Hlen & Hall & Hprefix); [simpl; lia|].
      split; [|split].
      * cbn [length]. rewrite Hlen. rewrite length_app in Hfull. simpl in Hfull |- *.
        replace (length batch + S (length sampler))%nat
          with (1 * b + length sampler)%nat by lia.
        rewrite Nat.div_add_l by lia. done.
      * by constructor.
      * simpl concat. rewrite (cons_middle idx batch sampler), app_assoc.
        by apply prefix_app.
    + rewrite length_app in Hfull. simpl in Hfull.
      destruct (IH (batch ++ [idx])) as (Hlen & Hall & Hprefix).
      { rewrite length_app. simpl. lia. }
      split; [|split; [done|]].
      * rewrite Hlen, length_app. simpl. f_equal. lia.
      * by rewrite (cons_middle idx batch sampler), app_assoc.
Qed.

Lemma RandomSampler_inr (randperm : nat → list nat) (data_source : range) sampler :
  RandomSampler randperm data_source = inr sampler ↔
  (0 < range_len data_source)%nat ∧ sampler = randperm (range_len data_source).
Proof.
  unfold RandomSampler. case_bool_decide as Hlen; simpl.
  - split; [discriminate|]. intros [? _]. lia.
  - split; [intros [= <-]; split; [lia|done]|by intros [_ ->]].
Qed.

(** C8. With [drop_last=True] and a positive batch size [b], [__len__]
    reports [n // b] for [n] triples, and one epoch over a workload of
    [m >= 1] indices yields [m // b] batches, each a list of [b] distinct
    indices of the workload: [n // b] batches when the epoch is iterated as
    one workload of [n >= 1] triples.  On an empty workload the random
    sampler raises a [ValueError]. *)
Theorem BatchedSLCWAInstances_batches
    (split_workload : nat → range) (randperm : nat → list nat)
    (self : BaseBatchedSLCWAInstances.t) :
  let n := length (BaseBatchedSLCWAInstances.mapped_triples self) in
  let b := BaseBatchedSLCWAInstances.batch_size self in
  let m := range_len (split_workload n) in
  0 < b →
  BaseBatchedSLCWAInstances.drop_last self = true →
  randperm m ≡ₚ seq 0 m →
  BaseBatchedSLCWAInstances.__len__ self = inr (Z.of_nat n `div` b)
  ∧ (m = 0%nat →
     BatchedSLCWAInstances.iter_triple_ids split_workload randperm self
     = inl (ValueError (InvalidNumSamples 0)))
  ∧ ((0 < m)%nat →
     ∃ batches,
       BatchedSLCWAInstances.iter_triple_ids split_workload randperm self = inr batches
       ∧ Z.of_nat (length batches) = Z.of_nat m `div` b
       ∧ (m = n → Z.of_nat (length batches) = Z.of_nat n `div` b)
       ∧ Forall (λ batch, Z.of_nat (length batch) = b ∧ NoDup batch
                          ∧ ∀ i, i ∈ batch → (i < m)%nat) batches).
Proof.
  intros n b m Hb Hdrop Hperm. split; [|split].
  - unfold BaseBatchedSLCWAInstances.__len__. fold n b.
    rewrite bool_decide_eq_false_2 by lia. rewrite Hdrop, andb_false_r. done.
  - intros Hm. unfold BatchedSLCWAInstances.iter_triple_ids, RandomSampler. fold n m.
    rewrite bool_decide_eq_true_2 by done. by rewrite Hm.
  - intros Hpos.
    unfold BatchedSLCWAInstances.iter_triple_ids, BatchSampler. fold n b m.
    rewrite (proj2 (RandomSampler_inr randperm (split_workload n) (randperm m)))
      by (by split).
    rewrite bind_ret_l.
    rewrite Hdrop, (proj2 (Z.leb_gt b 0)) by lia.
    eexists. split; [reflexivity|].
    destruct (batch_sampler_loop_spec (Z.to_nat b) [] (randperm m))
      as (Hlen & Hall & Hprefix); [simpl; lia|].
    assert (length (randperm m) = m) as Hm by (by rewrite Hperm, length_seq).
    simpl in Hlen, Hprefix. rewrite Hm in Hlen.
    assert (Z.of_nat (length (batch_sampler_loop (Z.to_nat b) true [] (randperm m)))
            = Z.of_nat m `div` b) as Hcount.
    { rewrite Hlen, Nat2Z.inj_div, Z2Nat.id by lia. done. }
    split; [done|]. split; [intros Hmn; by rewrite <- Hmn|].
    assert (NoDup (concat (batch_sampler_loop (Z.to_nat b) true [] (randperm m))))
      as Hnodup.
    { destruct Hprefix as [rest Hrest].
      assert (NoDup (randperm m)) as Hnd by (rewrite Hperm; apply NoDup_seq).
      rewrite Hrest in Hnd. by apply NoDup_app in Hnd as [? _]. }
    apply NoDup_concat_Forall in Hnodup.
    apply Forall_forall. intros batch Hbatch.
    rewrite Forall_forall in Hall, Hnodup.
    split; [rewrite (Hall batch Hbatch); lia|]. split; [by apply Hnodup|].
    intros i Hi.
    assert (i ∈ randperm m) as Hin.
    { destruct Hprefix as [rest ->]. apply elem_of_app. left.
      by apply (elem_of_concat_2 i batch). }
    rewrite Hperm in Hin. apply elem_of_seq in Hin. lia.
Qed.

(** An epoch over no triples does not yield [0 // b] batches: with no
    triples and batches of one, [__len__] reports [0 // 1], and the epoch
    raises instead of yielding no batch. *)
Lemma BatchedSLCWAInstances_no_triples :
  BaseBatchedSLCWAInstances.__len__ no_triples = inr (0 `div` 1)
  ∧ ¬ ∃ batches,
        BatchedSLCWAInstances.iter_triple_ids whole_workload descending no_triples
        = inr batches
        ∧ Z.of_nat (length batches) = 0 `div` 1.
Proof.
  split; [reflexivity|]. intros (batches & Hiter & _). vm_compute in Hiter. discriminate.
Qed.

Lemma BatchedSLCWAInstances_batches_witness :
  BaseBatchedSLCWAInstances.__len__ five_triples = inr 2
  ∧ ∃ batches,
      BatchedSLCWAInstances.iter_triple_ids whole_workload descending five_triples
      = inr batches
      ∧ Z.of_nat (length batches) = 2
      ∧ (5%nat = 5%nat → Z.of_nat (length batches) = 2)
      ∧ Forall (λ batch, Z.of_nat (length batch) = 2 ∧ NoDup batch
                         ∧ ∀ i, i ∈ batch → (i < 5)%nat) batches.
Proof.
  destruct (BatchedSLCWAInstances_batches whole_workload descending five_triples)
    as (Hlen & _ & Hbatches).
  - reflexivity.
  - reflexivity.
  - apply reverse_Permutation.
  - split; [exact Hlen|]. apply Hbatches. unfold range_len. simpl. lia.
Defined.

(** ** Rejection sampling of an edge *)

Section edge_selection_facts.
Context (adj_list : list (nat * nat)) (edge_picked : list bool).
Hypothesis Hdegree : (0 < length adj_list)%nat.
Hypothesis Hedges : Forall (λ edge, (edge.1 < length edge_picked)%nat) adj_list.

Let deg := length adj_list.

Lemma draw_edge_position (rand : nat → nat) (k : nat) :
  ∃ edge, adj_list !! (rand k `mod` deg)%nat = Some edge
        ∧ SubGraphSLCWAInstances.draw_edge adj_list deg rand k = inr edge.
Proof.
  destruct (lookup_lt_is_Some_2 adj_list (rand k `mod` deg)%nat) as [edge Hedge].
  { apply Nat.mod_upper_bound. unfold deg. lia. }
  exists edge. split; [done|].
  unfold SubGraphSLCWAInstances.draw_edge, SubGraphSLCWAInstances.torch_randint.
  rewrite bool_decide_eq_false_2 by (unfold deg; lia).
  rewrite bind_ret_l. by rewrite Hedge.
Qed.

Lemma edge_status (edge : nat * nat) :
  edge ∈ adj_list →
  (picked edge_picked edge ∧ ¬ unpicked edge_picked edge)
  ∨ (unpicked edge_picked edge ∧ ¬ picked edge_picked edge).
Proof.
  intros Hin. rewrite Forall_forall in Hedges.
  destruct (lookup_lt_is_Some_2 edge_picked edge.1 (Hedges edge Hin)) as [b Hb].
  unfold picked, unpicked. rewrite Hb. destruct b; [left|right]; by split.
Qed.

Lemma picked_position_lookup (p : nat) (edge : nat * nat) :
  adj_list !! p = Some edge →
  picked_position adj_list edge_picked p ↔ picked edge_picked edge.
Proof.
  intros Hp. unfold picked_position. split.
  - intros (edge' & Hp' & Hpicked). rewrite Hp in Hp'. by injection Hp' as <-.
  - intros Hpicked. by exists edge.
Qed.

Lemma retry_None (rand : nat → nat) (fuel k : nat) (edge : nat * nat) :
  edge ∈ adj_list →
  SubGraphSLCWAInstances.retry adj_list deg edge_picked rand fuel k edge = None ↔
  picked edge_picked edge
  ∧ ∀ j, (j < fuel)%nat →
      picked_position adj_list edge_picked (rand (k + j)%nat `mod` deg)%nat.
Proof.
  revert k edge. induction fuel as [|fuel IH]; intros k edge Hin;
    destruct (edge_status edge Hin) as [[Hpicked Hnot]|[Hunpicked Hnot]];
    cbn [SubGraphSLCWAInstances.retry].
  - rewrite Hpicked. split; [intros _; split; [done|lia]|done].
  - rewrite Hunpicked. split; [done|]. by intros [? _].
  - rewrite Hpicked.
    destruct (draw_edge_position rand k) as (edge' & Hpos & ->).
    rewrite IH by (by eapply list_elem_of_lookup_2).
    rewrite <- (picked_position_lookup _ _ Hpos). split.
    + intros [Hfirst Hrest]. split; [done|]. intros [|j] Hj.
      * by rewrite Nat.add_0_r.
      * rewrite Nat.add_succ_r. apply Hrest. lia.
    + intros [_ Hall]. split.
      * specialize (Hall 0%nat). rewrite Nat.add_0_r in Hall. apply Hall. lia.
      * intros j Hj. specialize (Hall (S j)). rewrite Nat.add_succ_r in Hall.
        apply Hall. lia.
  - rewrite Hunpicked. split; [done|]. by intros [? _].
Qed.

Lemma retry_Some (rand : nat → nat) (fuel k : nat) (edge : nat * nat) r :
  edge ∈ adj_list →
  SubGraphSLCWAInstances.retry adj_list deg edge_picked rand fuel k edge = Some r →
  ∃ edge', r = inr edge' ∧ edge' ∈ adj_list ∧ unpicked edge_picked edge'.
Proof.
  revert k edge. induction fuel as [|fuel IH]; intros k edge Hin;
    destruct (edge_status edge Hin) as [[Hpicked Hnot]|[Hunpicked Hnot]];
    cbn [SubGraphSLCWAInstances.retry].
  - by rewrite Hpicked.
  - rewrite Hunpicked. intros [= <-]. by exists edge.
  - rewrite Hpicked.
    destruct (draw_edge_position rand k) as (edge' & Hpos & ->).
    apply IH. by eapply list_elem_of_lookup_2.
  - rewrite Hunpicked. intros [= <-]. by exists edge.
Qed.

Lemma sample_edge_None (rand : nat → nat) (fuel : nat) :
  SubGraphSLCWAInstances.sample_edge adj_list deg edge_picked rand fuel = None ↔
  ∀ j, (j ≤ fuel)%nat → picked_position adj_list edge_picked (rand j `mod` deg)%nat.
Proof.
  unfold SubGraphSLCWAInstances.sample_edge.
  destruct (draw_edge_position rand 0) as (edge & Hpos & ->).
  rewrite retry_None by (by eapply list_elem_of_lookup_2).
  rewrite <- (picked_position_lookup _ _ Hpos). split.
  - intros [Hfirst Hrest] [|j] Hj; [done|]. apply (Hrest j). lia.
  - intros Hall. split; [apply Hall; lia|]. intros j Hj. apply (Hall (S j)). lia.
Qed.

Lemma sample_edge_Some (rand : nat → nat) (fuel : nat) r :
  SubGraphSLCWAInstances.sample_edge adj_list deg edge_picked rand fuel = Some r →
  ∃ edge, r = inr edge ∧ edge ∈ adj_list ∧ unpicked edge_picked edge.
Proof.
  unfold SubGraphSLCWAInstances.sample_edge.
  destruct (draw_edge_position rand 0) as (edge & Hpos & ->).
  apply retry_Some. by eapply list_elem_of_lookup_2.
Qed.

Lemma unpicked_position (edge : nat * nat) :
  edge ∈ adj_list → unpicked edge_picked edge →
  ∃ p, (p < deg)%nat ∧ ¬ picked_position adj_list edge_picked p.
Proof.
  intros [p Hp]%list_elem_of_lookup Hun. exists p. split.
  - by eapply lookup_lt_Some.
  - rewrite (picked_position_lookup _ _ Hp).
    destruct (edge_status edge) as [[_ Hnot]|[_ Hnot]];
      [by eapply list_elem_of_lookup_2|done|done].
Qed.

End edge_selection_facts.

(** *** Counting the draw sequences *)

Lemma filter_ext_elem {A} (P Q : A → Prop) `{∀ x, Decision (P x), ∀ x, Decision (Q x)}
    (l : list A) :
  (∀ x, x ∈ l → P x ↔ Q x) → filter P l = filter Q l.
Proof.
  induction l as [|x l IH]; intros Hext; [done|].
  rewrite !filter_cons, IH by (intros y Hy; apply Hext; by right).
  destruct (decide (P x)) as [HP|HP], (decide (Q x)) as [HQ|HQ]; try done.
  - destruct HQ. apply Hext; [left|done].
  - destruct HP. apply Hext; [left|done].
Qed.

Lemma elem_of_draws (d t : nat) (ds : list nat) :
  ds ∈ draws d t ↔ length ds = t ∧ Forall (λ p, (p < d)%nat) ds.
Proof.
  revert ds. induction t as [|t IH]; intros ds; cbn [draws].
  - rewrite list_elem_of_singleton. split.
    + intros ->. by split.
    + intros [Hlen _]. by apply nil_length_inv.
  - rewrite list_elem_of_bind. split.
    + intros (p & Hds & Hp). apply list_elem_of_fmap in Hds as (ds' & -> & Hds').
      apply IH in Hds' as [<- Hall]. apply elem_of_seq in Hp.
      split; [done|]. constructor; [lia|done].
    + intros [Hlen Hall]. destruct ds as [|p ds]; [done|].
      apply Forall_cons in Hall as [Hp Hall]. exists p. split.
      * apply list_elem_of_fmap. exists ds. split; [done|]. apply IH.
        split; [by injection Hlen|done].
      * apply elem_of_seq. lia.
Qed.

Lemma filter_Forall_fmap_cons (P : nat → Prop) `{∀ p, Decision (P p)}
    (p : nat) (S : list (list nat)) :
  filter (Forall P) ((p ::.) <$> S)
  = if decide (P p) then (p ::.) <$> filter (Forall P) S else [].
Proof.
  induction S as [|ds S IH].
  - by destruct (decide (P p)).
  - rewrite fmap_cons, !filter_cons, IH.
    destruct (decide (P p)) as [Hp|Hp].
    + destruct (decide (Forall P ds)) as [Hds|Hds].
      * by rewrite decide_True by (by constructor).
      * rewrite decide_False; [done|]. by intros [_ ?]%Forall_cons.
    + rewrite decide_False; [done|]. by intros [? _]%Forall_cons.
Qed.

Lemma length_filter_draws_step (P : nat → Prop) `{∀ p, Decision (P p)}
    (l : list nat) (S : list (list nat)) :
  length (filter (Forall P) (l ≫= λ p, (p ::.) <$> S))
  = (length (filter P l) * length (filter (Forall P) S))%nat.
Proof.
  induction l as [|p l IH]; [done|].
  rewrite bind_cons, filter_app, length_app, IH, filter_Forall_fmap_cons, filter_cons.
  destruct (decide (P p)); [|done]. rewrite length_fmap. simpl. lia.
Qed.

Lemma length_filter_draws (P : nat → Prop) `{∀ p, Decision (P p)} (d t : nat) :
  length (filter (Forall P) (draws d t)) = (length (filter P (seq 0 d)) ^ t)%nat.
Proof.
  induction t as [|t IH]; [done|].
  cbn [draws]. rewrite length_filter_draws_step, IH. simpl. lia.
Qed.

Lemma length_draws (d t : nat) : length (draws d t) = (d ^ t)%nat.
Proof.
  rewrite <- (filter_Forall_id (Forall (λ _, True)) (draws d t)).
  - rewrite length_filter_draws.
    by rewrite (filter_Forall_id (λ _, True)), length_seq by (by apply Forall_true).
  - apply Forall_true. intros ds. by apply Forall_true.
Qed.

(** A ratio below one becomes arbitrarily small. *)
Lemma pow_ratio_small (P d N : nat) :
  (P < d)%nat → ∃ t, (N * P ^ S t ≤ d ^ S t)%nat.
Proof.
  intros Hlt.
  assert (∀ t, (P + t) * P ^ t ≤ P * (P + 1) ^ t)%nat as Hbernoulli.
  { induction t as [|t IH]; [simpl; lia|].
    rewrite !Nat.pow_succ_r'.
    transitivity ((P + 1) * ((P + t) * P ^ t))%nat; [nia|].
    transitivity ((P + 1) * (P * (P + 1) ^ t))%nat; [|nia].
    by apply Nat.mul_le_mono_l. }
  exists (N * P)%nat.
  transitivity ((P + 1) ^ S (N * P))%nat; [|apply Nat.pow_le_mono_l; lia].
  destruct (decide (P = 0)%nat) as [->|HP].
  { rewrite Nat.pow_0_l by done. lia. }
  apply (Nat.mul_le_mono_pos_l _ _ P); [lia|].
  etrans; [|apply Hbernoulli]. nia.
Qed.

Lemma still_running_Forall (adj_list : list (nat * nat)) (edge_picked : list bool)
    (fuel : nat) (ds : list nat) :
  (0 < length adj_list)%nat →
  Forall (λ edge, (edge.1 < length edge_picked)%nat) adj_list →
  ds ∈ draws (length adj_list) (S fuel) →
  SubGraphSLCWAInstances.sample_edge adj_list (length adj_list) edge_picked
    (entropy_of ds) fuel = None
  ↔ Forall (picked_position adj_list edge_picked) ds.
Proof.
  intros Hdeg Hedges [Hlen Hbelow]%elem_of_draws.
  rewrite sample_edge_None by done. rewrite Forall_lookup in Hbelow.
  rewrite Forall_lookup. split.
  - intros Hall j p Hj. specialize (Hall j).
    unfold entropy_of in Hall. rewrite Hj in Hall. simpl in Hall.
    rewrite Nat.mod_small in Hall by (by eapply Hbelow).
    apply Hall. apply lookup_lt_Some in Hj. lia.
  - intros Hall j Hj.
    destruct (lookup_lt_is_Some_2 ds j) as [p Hp]; [lia|].
    unfold entropy_of. rewrite Hp. simpl.
    rewrite Nat.mod_small by (by eapply Hbelow). by eapply Hall.
Qed.

Lemma sample_edge_no_edges (adj_list : list (nat * nat)) (edge_picked : list bool)
    (rand : nat → nat) (fuel : nat) :
  SubGraphSLCWAInstances.sample_edge adj_list 0 edge_picked rand fuel
  = Some (raise (RuntimeError EmptyRange)).
Proof. done. Qed.

(** The adjacency list that an iteration samples from is the slice of
    [neighbors] at the offset of the chosen vertex, as long as its degree. *)
Lemma visit_vertex_adj_list degrees offset neighbors chosen_vertex s
    node_picked adj_list chosen_node_degree :
  SubGraphSLCWAInstances.visit_vertex degrees offset neighbors chosen_vertex s
  = inr (node_picked, adj_list, chosen_node_degree) →
  ∃ start, offset !! chosen_vertex = Some start
         ∧ degrees !! chosen_vertex = Some chosen_node_degree
         ∧ adj_list = take chosen_node_degree (drop start neighbors)
         ∧ ((start + chosen_node_degree ≤ length neighbors)%nat →
            chosen_node_degree = length adj_list).
Proof.
  unfold SubGraphSLCWAInstances.visit_vertex. intros H.
  apply bind_inr in H as (np & _ & H).
  apply bind_inr in H as (start & Hstart & H).
  apply bind_inr in H as (deg & Hdeg & [= <- <- <-]).
  unfold SubGraphSLCWAInstances.getitem in Hstart, Hdeg.
  destruct (offset !! chosen_vertex) as [start'|]; [|done]. injection Hstart as ->.
  destruct (degrees !! chosen_vertex) as [deg'|]; [|done]. injection Hdeg as ->.
  exists start. split; [done|]. split; [done|]. split; [done|].
  intros Hlen. rewrite length_take, length_drop. lia.
Qed.

(** An iteration of [subgraph_sample] hangs exactly when the retry loop on
    the adjacency list of the chosen vertex does. *)
Lemma sample_step_running degrees offset neighbors rand fuel chosen_vertex s :
  SubGraphSLCWAInstances.sample_step degrees offset neighbors rand fuel chosen_vertex s
  = None
  ↔ ∃ node_picked adj_list chosen_node_degree,
      SubGraphSLCWAInstances.visit_vertex degrees offset neighbors chosen_vertex s
      = inr (node_picked, adj_list, chosen_node_degree)
      ∧ SubGraphSLCWAInstances.sample_edge adj_list chosen_node_degree
          (SubGraphSLCWAInstances.edge_picked s) rand fuel = None.
Proof.
  unfold SubGraphSLCWAInstances.sample_step.
  destruct (SubGraphSLCWAInstances.visit_vertex _ _ _ _ _)
    as [e|[[node_picked adj_list] chosen_node_degree]].
  - split; [done|]. by intros (? & ? & ? & [=] & _).
  - split.
    + intros Hrun. exists node_picked, adj_list, chosen_node_degree. split; [done|].
      by destruct (SubGraphSLCWAInstances.sample_edge _ _ _ _ _) as [[?|?]|].
    + intros (? & ? & ? & [= <- <- <-] & ->). done.
Qed.

(** C9. The edge selection of [subgraph_sample] draws uniformly from the
    adjacency list of the chosen vertex until the drawn edge is not picked.
    For a vertex without incident edges the first draw raises and the loop
    is not reached.  For a vertex with incident edges: when all of them are
    picked, the loop is still running after any number of retries, whatever
    is drawn; when the loop is left, it is with an edge of the list that is
    not picked; it is left on some randomness precisely when the list has an
    edge that is not picked, and then on exactly the randomness that ever
    draws one.  Of the equally likely sequences of [t] draws, those that
    leave the loop running are [(picked positions) ^ t] out of
    [degree ^ t], a share that falls below any bound [1 / N] when some edge
    is not picked: the loop terminates with probability 1. *)
Theorem subgraph_sample_edge_retry
    (adj_list : list (nat * nat)) (chosen_node_degree : nat) (edge_picked : list bool) :
  chosen_node_degree = length adj_list →
  Forall (λ edge, (edge.1 < length edge_picked)%nat) adj_list →
  (chosen_node_degree = 0%nat →
   ∀ rand fuel,
     SubGraphSLCWAInstances.sample_edge adj_list chosen_node_degree edge_picked rand fuel
     = Some (raise (RuntimeError EmptyRange)))
  ∧ ((0 < chosen_node_degree)%nat →
     (Forall (picked edge_picked) adj_list →
      ∀ rand fuel,
        SubGraphSLCWAInstances.sample_edge adj_list chosen_node_degree edge_picked rand fuel
        = None)
     ∧ (∀ rand fuel r,
          SubGraphSLCWAInstances.sample_edge adj_list chosen_node_degree edge_picked rand
            fuel = Some r →
          ∃ edge, r = inr edge ∧ edge ∈ adj_list ∧ unpicked edge_picked edge)
     ∧ (∀ rand,
          (∃ fuel, is_Some (SubGraphSLCWAInstances.sample_edge adj_list chosen_node_degree
                              edge_picked rand fuel))
          ↔ ∃ k, ¬ picked_position adj_list edge_picked
                     (rand k `mod` chosen_node_degree)%nat)
     ∧ ((∃ rand fuel, is_Some (SubGraphSLCWAInstances.sample_edge adj_list
                                 chosen_node_degree edge_picked rand fuel))
        ↔ Exists (unpicked edge_picked) adj_list)
     ∧ (∀ fuel,
          length (still_running adj_list edge_picked fuel)
          = (num_picked adj_list edge_picked ^ S fuel)%nat
          ∧ length (draws chosen_node_degree (S fuel)) = (chosen_node_degree ^ S fuel)%nat)
     ∧ (Exists (unpicked edge_picked) adj_list →
        ∀ N, ∃ fuel,
          (N * length (still_running adj_list edge_picked fuel)
           ≤ length (draws chosen_node_degree (S fuel)))%nat)).
Proof.
  intros -> Hedges. split.
  { intros Hzero rand fuel. rewrite Hzero. apply sample_edge_no_edges. }
  intros Hdeg.
  assert (∀ fuel, length (still_running adj_list edge_picked fuel)
                  = (num_picked adj_list edge_picked ^ S fuel)%nat) as Hcount.
  { intros fuel. unfold still_running, num_picked.
    rewrite <- length_filter_draws. f_equal.
    apply filter_ext_elem. intros ds Hds. by apply still_running_Forall. }
  split; [|split; [|split; [|split; [|split]]]].
  - intros Hall rand fuel. apply sample_edge_None; [done..|].
    intros j _.
    destruct (draw_edge_position adj_list Hdeg rand j) as (edge & Hpos & _).
    apply (picked_position_lookup _ _ _ _ Hpos).
    rewrite Forall_forall in Hall. apply Hall. by eapply list_elem_of_lookup_2.
  - intros rand fuel r. by apply sample_edge_Some.
  - intros rand. split.
    + intros [fuel Hsome].
      assert (¬ Forall (λ j, picked_position adj_list edge_picked
                               (rand j `mod` length adj_list)%nat) (seq 0 (S fuel)))
        as Hnot.
      { intros Hall.
        rewrite (proj2 (sample_edge_None adj_list edge_picked Hdeg Hedges rand fuel))
          in Hsome.
        - by apply is_Some_None in Hsome.
        - intros j Hj. rewrite Forall_forall in Hall. apply Hall, elem_of_seq. lia. }
      apply not_Forall_Exists in Hnot; [|apply _].
      apply Exists_exists in Hnot as (k & _ & Hk). by exists k.
    + intros [k Hk]. exists k.
      destruct (SubGraphSLCWAInstances.sample_edge adj_list (length adj_list)
                  edge_picked rand k) as [r|] eqn:Hrun; [done|].
      destruct Hk. by apply (proj1 (sample_edge_None _ _ Hdeg Hedges rand k) Hrun).
  - split.
    + intros (rand & fuel & [r Hr]).
      apply sample_edge_Some in Hr as (edge & _ & Hin & Hun); [|done..].
      apply Exists_exists. by exists edge.
    + intros (edge & Hin & Hun)%Exists_exists.
      destruct (unpicked_position adj_list edge_picked Hedges edge Hin Hun)
        as (p & Hp & Hnot).
      exists (λ _, p), 0%nat.
      destruct (SubGraphSLCWAInstances.sample_edge adj_list (length adj_list)
                  edge_picked (λ _, p) 0) as [r|] eqn:Hrun; [done|].
      destruct Hnot.
      pose proof (proj1 (sample_edge_None _ _ Hdeg Hedges (λ _, p) 0%nat) Hrun 0%nat
                    (le_n 0)) as Hpos.
      by rewrite Nat.mod_small in Hpos.
  - intros fuel. split; [apply Hcount|apply length_draws].
  - intros (edge & Hin & Hun)%Exists_exists N.
    destruct (unpicked_position adj_list edge_picked Hedges edge Hin Hun)
      as (p & Hp & Hnot).
    assert (num_picked adj_list edge_picked < length adj_list)%nat as Hlt.
    { unfold num_picked.
      pose proof (length_filter_lt (picked_position adj_list edge_picked)
                    (seq 0 (length adj_list)) p) as Hfilter.
      rewrite length_seq in Hfilter. apply Hfilter; [|done]. apply elem_of_seq. lia. }
    destruct (pow_ratio_small _ _ N Hlt) as [fuel Hfuel].
    exists fuel. by rewrite Hcount, length_draws.
Qed.

Lemma subgraph_sample_edge_retry_witness :
  (∀ rand fuel,
     SubGraphSLCWAInstances.sample_edge two_edges 2 [true; true] rand fuel = None)
  ∧ ((∃ rand fuel, is_Some (SubGraphSLCWAInstances.sample_edge two_edges 2 [true; false]
                              rand fuel))
     ↔ Exists (unpicked [true; false]) two_edges)
  ∧ (∀ N, ∃ fuel,
       (N * length (still_running two_edges [true; false] fuel)
        ≤ length (draws 2 (S fuel)))%nat).
Proof.
  split; [|split].
  - apply (subgraph_sample_edge_retry two_edges 2 [true; true]).
    + reflexivity.
    + repeat constructor.
    + lia.
    + repeat constructor.
  - apply (subgraph_sample_edge_retry two_edges 2 [true; false]).
    + reflexivity.
    + repeat constructor.
    + lia.
  - apply (subgraph_sample_edge_retry two_edges 2 [true; false]).
    + reflexivity.
    + repeat constructor.
    + lia.
    + apply Exists_cons_tl, Exists_cons_hd. reflexivity.
Defined.

(** ** The definitions on small inputs *)

Example init_rejects_entity_5 :
  CoreTriplesFactory.__init__ (long_tensor [(0, 0, 1); (1, 0, 5)]) 3 1 false None
  = inl (ValueError (InvalidIds [0; 0; 1] [1; 0; 5] 3 1)).
Proof. reflexivity. Qed.

Example init_rejects_floats :
  CoreTriplesFactory.__init__
    {| t_dtype := torch_float32; t_shape := [1; 3]%nat; t_data := [0; 0; 1] |}
    3 1 false None
  = inl (TypeError (InvalidType torch_float32)).
Proof. reflexivity. Qed.

Example init_rejects_shape :
  CoreTriplesFactory.__init__
    {| t_dtype := torch_int64; t_shape := [2; 2]%nat; t_data := [0; 0; 1; 1] |}
    3 1 true None
  = inl (ValueError (InvalidShape [2; 2]%nat)).
Proof. reflexivity. Qed.

Example merge_names_second_operand :
  CoreTriplesFactory.merge restricted_factory [restricted_factory; larger_factory]
  = inl (ValueError (EntityCountMismatch 1)).
Proof. reflexivity. Qed.

Example merge_labels_before_counts :
  TriplesFactory.merge factory_ab [factory_ab_inverse; factory_xy]
  = inl (ValueError (EntityMappingMismatch 1))
  ∧ CoreTriplesFactory.merge factory_ab [factory_ab_inverse; factory_xy]
    = inl (ValueError (RelationCountMismatch 0)).
Proof. split; vm_compute; reflexivity. Qed.

Example condenser_of_gaps :
  Condenser.make [5; 2; 0; 2] true
  = inr {| Condenser.condensation := Some [0; -1; 1; -1; -1; 2] |}.
Proof. reflexivity. Qed.

Example condenser_of_contiguous :
  Condenser.make [1; 0; 1] true = inr {| Condenser.condensation := None |}.
Proof. reflexivity. Qed.

Example batches_of_five :
  BatchedSLCWAInstances.iter_triple_ids whole_workload descending five_triples
  = inr [[4; 3]; [2; 1]]%nat.
Proof. reflexivity. Qed.

Example retry_keeps_running :
  SubGraphSLCWAInstances.sample_edge two_edges 2 [true; false] (λ _, 0%nat) 7 = None.
Proof. reflexivity. Qed.

Example retry_finds_edge :
  SubGraphSLCWAInstances.sample_edge two_edges 2 [true; false] (λ k, k) 7
  = Some (inr (1, 2)%nat).
Proof. reflexivity. Qed.

Example draws_of_two :
  draws 2 2 = [[0; 0]; [0; 1]; [1; 0]; [1; 1]]%nat
  ∧ still_running two_edges [true; false] 1 = [[0; 0]]%nat.
Proof. split; reflexivity. Qed.

(** ** Counts within 64 bits *)

Lemma NoDup_bounded_length (l : list Z) (n : Z) :
  NoDup l → (∀ v, v ∈ l → 0 ≤ v < n) → Z.of_nat (length l) ≤ Z.max 0 n.
Proof.
  intros Hnodup Hrange.
  assert (length l ≤ Z.to_nat n)%nat as Hlen; [|lia].
  rewrite <- (length_seqZ 0 n). apply submseteq_length, NoDup_submseteq; [done|].
  intros v Hv. apply Hrange in Hv. apply elem_of_seqZ. lia.
Qed.

Lemma unique_ids_length_bound (x : list Z) (n : Z) :
  (∀ v, v ∈ x → 0 ≤ v < n) → 0 ≤ Z.of_nat (length (unique_ids x)) ≤ Z.max 0 n.
Proof.
  intros Hrange. split; [lia|]. apply NoDup_bounded_length.
  - apply (sorted_unique_NoDup Z.compare).
  - intros v Hv. apply Hrange. by apply elem_of_unique_ids.
Qed.

Lemma int64_bounded (z n : Z) : 0 ≤ z ≤ Z.max 0 n → int64 n → int64 z.
Proof. unfold int64. lia. Qed.

Lemma well_formed_int64 (f : CoreTriplesFactory.t) :
  well_formed f →
  int64 (CoreTriplesFactory.num_entities f)
  ∧ int64 (CoreTriplesFactory.real_num_relations f).
Proof. by intros (_ & _ & ? & ?)%well_formed_spec. Qed.

Lemma well_formed_rows (f : CoreTriplesFactory.t) :
  well_formed f →
  Forall (row_in_bounds (CoreTriplesFactory.num_entities f)
            (CoreTriplesFactory.real_num_relations f))
    (CoreTriplesFactory.mapped_triples f).
Proof. intros Hwf%well_formed_ids. by apply ids_in_range_spec. Qed.

(** A relation count beyond 64 bits is rejected once the IDs are compared
    with the number of entities. *)
Lemma CoreTriplesFactory_init_overflow_relations rows ne nr civ md :
  Forall row_nonneg rows → int64 ne →
  Forall (λ '(h, _, t), h < ne ∧ t < ne) rows → ¬ int64 nr →
  CoreTriplesFactory.__init__ (long_tensor rows) ne nr civ md =
  inl (RuntimeError (ScalarOverflow torch_int64 nr)).
Proof.
  intros Hnonneg Hne Hent Hnr. unfold CoreTriplesFactory.__init__.
  rewrite shape_ok_long_tensor. simpl.
  assert (valid_triple_id_range (long_tensor rows) ne nr
          = inl (RuntimeError (ScalarOverflow torch_int64 nr))) as ->; [|done].
  apply valid_triple_id_range_inl. simpl. rewrite rows3_flatten3.
  split; [done|]. right. done.
Qed.

(** What holds of the factory that the constructor returns, for a tensor of
    any dtype. *)
Lemma CoreTriplesFactory_init_constructed mt ne nr civ md f :
  CoreTriplesFactory.__init__ mt ne nr civ md = inr f →
  Forall row_nonneg (CoreTriplesFactory.mapped_triples f)
  ∧ convertible (t_dtype mt) ne ∧ convertible (t_dtype mt) nr
  ∧ Forall (row_in_bounds (operand_value (t_dtype mt) ne) (operand_value (t_dtype mt) nr))
      (CoreTriplesFactory.mapped_triples f)
  ∧ CoreTriplesFactory.num_relations f = KGInfo.num_relations nr civ.
Proof.
  intros (_ & _ & _ & Hvalid & ->)%CoreTriplesFactory_init_inr. simpl.
  apply valid_triple_id_range_true in Hvalid as (Hne & Hnr & Hvalid).
  apply ids_in_range_spec in Hvalid.
  split; [|done].
  eapply Forall_impl; [exact Hvalid|]. intros [[h r] t]. simpl. lia.
Qed.

(** ** Mappings with one label per ID *)

Lemma NoDup_values (m : gmap string Z) :
  NoDup (map_to_list m).*2
  ↔ ∀ l1 l2 i, m !! l1 = Some i → m !! l2 = Some i → l1 = l2.
Proof.
  split.
  - intros Hnodup l1 l2 i H1 H2.
    apply elem_of_map_to_list, list_elem_of_lookup in H1 as [j1 H1].
    apply elem_of_map_to_list, list_elem_of_lookup in H2 as [j2 H2].
    assert (j1 = j2) as ->.
    { apply (NoDup_lookup _ j1 j2 i Hnodup); rewrite list_lookup_fmap.
      - by rewrite H1.
      - by rewrite H2. }
    congruence.
  - intros Hinj. apply NoDup_fmap_2_strong; [|apply NoDup_map_to_list].
    intros [l1 i1] [l2 i2] H1%elem_of_map_to_list H2%elem_of_map_to_list Heq.
    simpl in Heq. subst i2. f_equal. by eapply Hinj.
Qed.

Lemma Labeling_post_init_built (m : gmap string Z) :
  (∀ l1 l2 i, m !! l1 = Some i → m !! l2 = Some i → l1 = l2) →
  Labeling.__post_init__ m = inr (Labeling.built m).
Proof. intros Hinj. apply Labeling_post_init_inr. split; [by apply NoDup_values|done]. Qed.



(** * Properties of the further functions *)

(** ** The outcome monad *)

Lemma outcome_bind_inr {A B} (c : outcome A) (k : A → outcome B) (y : B) :
  c ≫= k = inr y ↔ ∃ x, c = inr x ∧ k x = inr y.
Proof.
  destruct c as [e|x]; simpl; split.
  - discriminate.
  - intros (x & Hx & _). discriminate.
  - eauto.
  - intros (x' & [= <-] & Hk). exact Hk.
Qed.

Lemma outcome_bind_ret_l {A B} (x : A) (k : A → outcome B) :
  (inr x : outcome A) ≫= k = k x.
Proof. done. Qed.

Lemma lift_inr {A} (c : result A) (x : A) : lift c = inr x ↔ c = inr x.
Proof. destruct c; simpl; split; congruence. Qed.

Lemma mapM_outcome_inr {A B} (f : A → outcome B) (g : A → B) (l : list A) :
  (∀ x, x ∈ l → f x = inr (g x)) → mapM f l = inr (g <$> l).
Proof.
  induction l as [|x l IH]; intros Hf; [done|].
  cbn [mapM]. rewrite Hf by left. rewrite outcome_bind_ret_l.
  rewrite IH by (intros y Hy; apply Hf; by right). done.
Qed.

(** ** Restriction of triples *)

Lemma torch_isin_selected (ids : list Z) (invert : bool) (v : Z) :
  torch_isin ids invert v = true ↔ selected (Some ids) invert v.
Proof.
  unfold torch_isin, selected. destruct invert.
  - rewrite xorb_true_r, negb_true_iff, bool_decide_eq_false. done.
  - rewrite xorb_false_r, bool_decide_eq_true. done.
Qed.

Lemma masked_select_fmap {A} (f : A → bool) (rows : list A) :
  masked_select rows (f <$> rows) = filter (λ row, f row = true) rows.
Proof.
  unfold masked_select. induction rows as [|row rows IH]; [done|].
  rewrite fmap_cons. cbn [zip zip_with]. rewrite bind_cons, IH, filter_cons.
  destruct (f row); [by rewrite decide_True|by rewrite decide_False].
Qed.

Lemma zip_with_fmap_same {A B C D} (op : B → C → D) (f : A → B) (g : A → C) (l : list A) :
  zip_with op (f <$> l) (g <$> l) = (λ x, op (f x) (g x)) <$> l.
Proof. induction l as [|x l IH]; [done|]. rewrite !fmap_cons. simpl. by rewrite IH. Qed.

Lemma filter_ext_iff {A} (P Q : A → Prop) `{∀ x, Decision (P x), ∀ x, Decision (Q x)}
    (l : list A) :
  (∀ x, P x ↔ Q x) → filter P l = filter Q l.
Proof.
  intros HPQ. induction l as [|x l IH]; [done|].
  rewrite !filter_cons, IH. destruct (decide (P x)) as [HP|HP].
  - by rewrite decide_True by (by apply HPQ).
  - by rewrite decide_False by (by rewrite <- HPQ).
Qed.

Lemma filter_True_id {A} (P : A → Prop) `{∀ x, Decision (P x)} (l : list A) :
  (∀ x, P x) → filter P l = l.
Proof. intros HP. apply filter_Forall_id, Forall_forall. auto. Qed.

Lemma restrict_triples_filter (T : list triple) (entities relations : option (list Z))
    (ie ir : bool) :
  restrict_triples T entities relations ie ir = filter (kept entities relations ie ir) T.
Proof.
  unfold restrict_triples, _get_triple_mask.
  destruct entities as [E|], relations as [R|].
  - rewrite zip_with_fmap_same, masked_select_fmap. apply filter_ext_iff.
    intros [[h r] t]. simpl. rewrite !andb_true_iff, !torch_isin_selected. tauto.
  - rewrite masked_select_fmap. apply filter_ext_iff.
    intros [[h r] t]. simpl. rewrite !andb_true_iff, !torch_isin_selected. tauto.
  - rewrite masked_select_fmap. apply filter_ext_iff.
    intros [[h r] t]. simpl. rewrite !torch_isin_selected. tauto.
  - symmetry. apply filter_True_id. by intros [[h r] t].
Qed.

Lemma filter_full_length {A} (P : A → Prop) `{∀ x, Decision (P x)} (l : list A) :
  length (filter P l) = length l → filter P l = l.
Proof.
  induction l as [|x l IH]; [done|]. rewrite filter_cons.
  destruct (decide (P x)); simpl.
  - intros [= Hlen]. by rewrite IH.
  - intros Hlen. pose proof (length_filter P l). lia.
Qed.

(** X1. [restrict_triples] keeps, in their order, exactly the triples whose
    head and tail pass the entity selection and whose relation passes the
    relation selection; it only removes triples, so that a result as long as
    the input is the input (what [new_with_restriction] relies on). *)
Theorem restrict_triples_selects (T : list triple) (entities relations : option (list Z))
    (ie ir : bool) :
  restrict_triples T entities relations ie ir = filter (kept entities relations ie ir) T
  ∧ sublist (restrict_triples T entities relations ie ir) T
  ∧ (∀ row, row ∈ restrict_triples T entities relations ie ir
       ↔ row ∈ T ∧ kept entities relations ie ir row)
  ∧ (length (restrict_triples T entities relations ie ir) = length T →
     restrict_triples T entities relations ie ir = T).
Proof.
  rewrite restrict_triples_filter. split; [done|]. split; [apply sublist_filter|].
  split; [intros row; rewrite list_elem_of_filter; tauto|].
  apply filter_full_length.
Qed.

(** X2. An inverted entity selection is not the complement of the selection:
    the selection keeps a triple when head and tail are both selected, the
    inverted selection when neither is, and a triple with exactly one
    selected end is dropped by both. *)
Theorem entity_selection_three_ways (T : list triple) (E : list Z) (b : bool) (h r t : Z) :
  (h, r, t) ∈ T →
  ((h, r, t) ∈ restrict_triples T (Some E) None false b ↔ h ∈ E ∧ t ∈ E)
  ∧ ((h, r, t) ∈ restrict_triples T (Some E) None true b ↔ (h ∉ E) ∧ (t ∉ E))
  ∧ ((h ∈ E ∧ (t ∉ E)) ∨ ((h ∉ E) ∧ t ∈ E) ↔
     ((h, r, t) ∉ restrict_triples T (Some E) None false b)
     ∧ ((h, r, t) ∉ restrict_triples T (Some E) None true b)).
Proof.
  intros Hin. rewrite !restrict_triples_filter, !list_elem_of_filter. simpl.
  destruct (decide (h ∈ E)), (decide (t ∈ E)); tauto.
Qed.

Lemma entity_selection_three_ways_witness :
  ((0, 0, 1) ∈ restrict_triples [(0, 0, 1); (1, 0, 2); (2, 0, 3)] (Some [0; 1]) None false false
     ↔ 0 ∈ [0; 1] ∧ 1 ∈ [0; 1])
  ∧ (((1, 0, 2) ∉ restrict_triples [(0, 0, 1); (1, 0, 2); (2, 0, 3)] (Some [0; 1]) None false false)
     ∧ ((1, 0, 2) ∉ restrict_triples [(0, 0, 1); (1, 0, 2); (2, 0, 3)] (Some [0; 1]) None true false)).
Proof.
  split.
  - apply (entity_selection_three_ways [(0, 0, 1); (1, 0, 2); (2, 0, 3)] [0; 1] false 0 0 1).
    rewrite !elem_of_cons. tauto.
  - apply (entity_selection_three_ways [(0, 0, 1); (1, 0, 2); (2, 0, 3)] [0; 1] false 1 0 2).
    + rewrite !elem_of_cons. tauto.
    + left. rewrite !elem_of_cons, !elem_of_nil. lia.
Defined.

Lemma filter_filter_and {A} (P Q R : A → Prop)
    `{∀ x, Decision (P x), ∀ x, Decision (Q x), ∀ x, Decision (R x)} (l : list A) :
  (∀ x, R x ↔ P x ∧ Q x) → filter P (filter Q l) = filter R l.
Proof.
  intros HR. induction l as [|x l IH]; [done|].
  rewrite (filter_cons Q), (filter_cons R).
  destruct (decide (Q x)) as [HQ|HQ].
  - rewrite filter_cons, IH. destruct (decide (P x)) as [HP|HP].
    + by rewrite decide_True by (by apply HR).
    + rewrite decide_False; [done|]. rewrite HR. tauto.
  - rewrite IH. rewrite decide_False; [done|]. rewrite HR. tauto.
Qed.

(** X3. Restrictions compose: restricting by entities and then by relations,
    or the other way round, is restricting by both at once, and restricting
    twice by the same selection is restricting once. *)
Theorem restrict_triples_compose (T : list triple) (entities relations : option (list Z))
    (ie ir b1 b2 : bool) :
  restrict_triples (restrict_triples T entities None ie b1) None relations b2 ir
  = restrict_triples T entities relations ie ir
  ∧ restrict_triples (restrict_triples T None relations b1 ir) entities None ie b2
    = restrict_triples T entities relations ie ir
  ∧ restrict_triples (restrict_triples T entities relations ie ir) entities relations ie ir
    = restrict_triples T entities relations ie ir.
Proof.
  rewrite !restrict_triples_filter.
  split; [|split]; apply filter_filter_and; intros [[h r] t]; simpl; tauto.
Qed.

(** ** Restricted factories *)

Lemma ids_in_range_filter (P : triple → Prop) `{∀ x, Decision (P x)}
    (rows : list triple) (ne nr : Z) :
  ids_in_range rows ne nr = true →
  ids_in_range (filter P rows) ne nr = true.
Proof.
  rewrite !ids_in_range_spec, !Forall_forall.
  intros Hall row Hrow%list_elem_of_filter. apply Hall, Hrow.
Qed.

Lemma raise_on_string_ids (ids : list Z) (label : string) :
  mapM (λ e, _raise_on_string e label) (inl <$> ids) = inr ids.
Proof.
  induction ids as [|i ids IH]; [done|].
  rewrite fmap_cons. cbn [mapM]. simpl _raise_on_string.
  change (mret i : outcome Z) with (inr i : outcome Z).
  rewrite outcome_bind_ret_l, IH. done.
Qed.

Lemma ensure_ids_Ints (ids : list Z) (label_to_id : gmap string Z) :
  _ensure_ids (Ints ids) label_to_id = inr ids.
Proof.
  unfold _ensure_ids. simpl elements.
  induction ids as [|i ids IH]; [done|].
  rewrite fmap_cons. cbn [mapM].
  change (mret i : outcome Z) with (inr i : outcome Z).
  rewrite outcome_bind_ret_l, IH. done.
Qed.

Lemma ensure_ids_Strs (labels : list string) (ids : list Z) (label_to_id : gmap string Z) :
  Forall2 (λ label i, label_to_id !! label = Some i) labels ids →
  _ensure_ids (Strs labels) label_to_id = inr ids.
Proof.
  unfold _ensure_ids. simpl elements.
  induction 1 as [|label i labels ids Hlabel _ IH]; [done|].
  rewrite fmap_cons. cbn [mapM]. rewrite Hlabel.
  change (mret i : outcome Z) with (inr i : outcome Z).
  rewrite outcome_bind_ret_l, IH. done.
Qed.

Lemma ensure_ids_missing (known : list string) (label : string) (rest : list string)
    (label_to_id : gmap string Z) :
  Forall (λ l, is_Some (label_to_id !! l)) known → label_to_id !! label = None →
  _ensure_ids (Strs (known ++ label :: rest)) label_to_id
  = inl (Later KeyErrorClass (MissingLabel label)).
Proof.
  unfold _ensure_ids. simpl elements. intros Hknown Hlabel.
  induction Hknown as [|l known [i Hl] _ IH].
  - simpl. rewrite Hlabel. done.
  - rewrite <- app_comm_cons, fmap_cons. cbn [mapM]. rewrite Hl.
    change (mret i : outcome Z) with (inr i : outcome Z).
    rewrite outcome_bind_ret_l, IH. done.
Qed.

Section restricted_factories.
Context (format_relative_comparison : Z → Z → result string).
Hypothesis Hformat :
  ∀ part total, total ≠ 0 → ¬ raises (format_relative_comparison part total).

Lemma format_returns (part total : Z) :
  total ≠ 0 → ∃ s, format_relative_comparison part total = inr s.
Proof.
  intros Htotal. destruct (format_relative_comparison part total) as [e|s] eqn:Hs.
  - destruct (Hformat part total Htotal). rewrite Hs. apply raises_inl.
  - by exists s.
Qed.

Lemma prepare_restriction_ids `{Restrictable F} (self : F)
    (to_ids : F → collection → outcome (list Z)) (key : string) (total : Z)
    (selection : option (list Z)) (invert : bool) (extra_metadata : gmap string pyval) :
  (∀ ids, to_ids self (Ints ids) = inr ids) →
  (is_Some selection → total ≠ 0) →
  CoreRestriction.prepare_restriction format_relative_comparison self to_ids key total
    (Ints <$> selection) invert extra_metadata
  = inr (match selection with
         | Some ids => <[key := PyInts ids]> extra_metadata
         | None => extra_metadata
         end, selection).
Proof.
  intros Hto Htotal. destruct selection as [ids|]; [|done].
  unfold CoreRestriction.prepare_restriction. simpl fmap. cbv iota.
  rewrite Hto, outcome_bind_ret_l.
  destruct (format_returns
              (if invert then total - Z.of_nat (length ids) else Z.of_nat (length ids)) total)
    as [s Hs]; [by apply Htotal|].
  rewrite Hs. done.
Qed.

(** What [new_with_restriction] of the base class computes once the IDs of
    the selections are known. *)
Lemma new_with_restriction_unfold `{Restrictable F} (self : F)
    (entities relations : option (list Z)) (ie ir : bool) :
  (∀ ids, self_entities_to_ids self (Ints ids) = inr ids) →
  (∀ ids, self_relations_to_ids self (Ints ids) = inr ids) →
  (is_Some entities → CoreTriplesFactory.num_entities (CoreTriplesFactory.base self) ≠ 0) →
  (is_Some relations → CoreTriplesFactory.num_relations (CoreTriplesFactory.base self) ≠ 0) →
  let rows :=
    restrict_triples (CoreTriplesFactory.mapped_triples (CoreTriplesFactory.base self))
      entities relations ie ir in
  CoreRestriction.new_with_restriction format_relative_comparison self
    (Ints <$> entities) (Ints <$> relations) ie ir
  = if bool_decide (rows = CoreTriplesFactory.mapped_triples (CoreTriplesFactory.base self))
    then inr self
    else lift (CoreTriplesFactory.self_clone_and_exchange_triples self (long_tensor rows)
                 (Some (match relations with
                        | Some ids => <["relation_restriction"%string := PyInts ids]>
                        | None => id
                        end
                          (match entities with
                           | Some ids => {["entity_restriction"%string := PyInts ids]}
                           | None => ∅
                           end)))
                 true None).
Proof.
  intros He Hr Hne Hnr rows. unfold CoreRestriction.new_with_restriction.
  rewrite prepare_restriction_ids by done. rewrite outcome_bind_ret_l.
  rewrite prepare_restriction_ids by done. rewrite outcome_bind_ret_l.
  fold rows. unfold CoreTriplesFactory.num_triples.
  destruct (decide (rows = CoreTriplesFactory.mapped_triples (CoreTriplesFactory.base self)))
    as [Heq|Hneq].
  - rewrite !bool_decide_eq_true_2; [done|done|by rewrite Heq].
  - rewrite !bool_decide_eq_false_2; [|done|].
    2:{ intros Hlen. apply Hneq. unfold rows in Hlen |- *.
        rewrite restrict_triples_filter in Hlen |- *. by apply filter_full_length. }
    destruct (format_returns (Z.of_nat (length rows))
                (Z.of_nat (length (CoreTriplesFactory.mapped_triples
                                     (CoreTriplesFactory.base self))))) as [s Hs].
    { intros Hzero. apply Hneq. unfold rows.
      destruct (CoreTriplesFactory.mapped_triples (CoreTriplesFactory.base self));
        [by rewrite restrict_triples_filter|simpl in Hzero; lia]. }
    rewrite Hs.
    by destruct entities, relations.
Qed.

(** X4. Restricting a constructed factory by IDs never raises (the logged
    comparisons are over nonzero totals): the result holds the restricted
    triples and has the counts and the flag of the factory; it is the factory
    itself when no triple is removed, and else a clone whose metadata records
    the selections under the keys that the factory's metadata does not have
    yet. *)
Theorem new_with_restriction_ids (self : CoreTriplesFactory.t)
    (entities relations : option (list Z)) (ie ir : bool) :
  well_formed self →
  (is_Some entities → CoreTriplesFactory.num_entities self ≠ 0) →
  (is_Some relations → CoreTriplesFactory.num_relations self ≠ 0) →
  ∃ f, CoreRestriction.new_with_restriction format_relative_comparison self
         (Ints <$> entities) (Ints <$> relations) ie ir = inr f
     ∧ CoreTriplesFactory.mapped_triples f
       = restrict_triples (CoreTriplesFactory.mapped_triples self) entities relations ie ir
     ∧ CoreTriplesFactory.num_entities f = CoreTriplesFactory.num_entities self
     ∧ CoreTriplesFactory.num_relations f = CoreTriplesFactory.num_relations self
     ∧ CoreTriplesFactory.create_inverse_triples f
       = CoreTriplesFactory.create_inverse_triples self
     ∧ well_formed f
     ∧ (CoreTriplesFactory.mapped_triples f = CoreTriplesFactory.mapped_triples self →
        f = self)
     ∧ (CoreTriplesFactory.mapped_triples f ≠ CoreTriplesFactory.mapped_triples self →
        ∀ key, CoreTriplesFactory.metadata f !! key =
          match CoreTriplesFactory.metadata self !! key with
          | Some v => Some v
          | None =>
              if decide (key = "entity_restriction"%string) then PyInts <$> entities
              else if decide (key = "relation_restriction"%string) then PyInts <$> relations
              else None
          end).
Proof.
  intros Hself Hne Hnr. pose proof (proj1 Hself) as Hrel.
  pose proof (well_formed_ids _ Hself) as Hvalid.
  rewrite (new_with_restriction_unfold (F := CoreTriplesFactory.t)); try done.
  2,3: intros ids; apply raise_on_string_ids.
  change (CoreTriplesFactory.base self) with self.
  set (rows := restrict_triples (CoreTriplesFactory.mapped_triples self)
                 entities relations ie ir).
  case_bool_decide as Hrows.
  - exists self. rewrite Hrows. do 5 (split; [done|]). split; [done|].
    split; [done|]. intros Hneq. by destruct Hneq.
  - simpl CoreTriplesFactory.self_clone_and_exchange_triples.
    destruct (clone_and_exchange_triples_long self rows
                (Some (match relations with
                       | Some ids => <["relation_restriction"%string := PyInts ids]>
                       | None => id
                       end
                         (match entities with
                          | Some ids => {["entity_restriction"%string := PyInts ids]}
                          | None => ∅
                          end))) true None) as (f & Hf & Hrows' & Hflag).
    { done. }
    { unfold rows. rewrite restrict_triples_filter. by apply ids_in_range_filter. }
    exists f. rewrite Hf. split; [done|]. split; [done|].
    pose proof (λ k, clone_and_exchange_triples_metadata _ _ _ _ k Hf) as Hmeta.
    pose proof (clone_and_exchange_triples_well_formed _ _ _ _ _ _ Hf) as Hwf.
    apply clone_and_exchange_triples_inr in Hf as (Hne' & _ & _ & Hnr' & _ & _).
    split; [done|]. split; [by rewrite Hnr', Hrel|]. split; [done|]. split; [done|].
    split; [by rewrite Hrows'|].
    intros _ key. rewrite (Hmeta key).
    destruct (CoreTriplesFactory.metadata self !! key); [done|].
    destruct entities as [E|], relations as [R|]; simpl;
      repeat case_decide; subst;
      rewrite ?lookup_insert_eq, ?lookup_insert_ne, ?lookup_singleton_eq,
        ?lookup_singleton_ne, ?lookup_empty by done; done.
Qed.

End restricted_factories.

Lemma new_with_restriction_ids_witness :
  ∃ f, CoreRestriction.new_with_restriction (λ _ _, inr ""%string) inverse_factory
         (Some (Ints [0; 1])) None false false = inr f
     ∧ CoreTriplesFactory.mapped_triples f = [(0, 0, 1)]
     ∧ CoreTriplesFactory.num_relations f = 2
     ∧ CoreTriplesFactory.metadata f !! "entity_restriction"%string = Some (PyInts [0; 1]).
Proof.
  destruct (new_with_restriction_ids (λ _ _, inr ""%string)
              (λ _ _ _, not_raises_inr _) inverse_factory (Some [0; 1]) None false false)
    as (f & Hf & Hrows & _ & Hnr & _ & _ & _ & Hmeta).
  - split; reflexivity.
  - intros _. simpl. lia.
  - intros [? [=]].
  - exists f. split; [exact Hf|]. split; [rewrite Hrows; reflexivity|].
    split; [rewrite Hnr; reflexivity|].
    rewrite Hmeta; [reflexivity|]. rewrite Hrows. vm_compute. discriminate.
Defined.

(** X5. Labels in a restriction: the method of the base class rejects a
    label with a [TypeError]; the method of [TriplesFactory] looks the labels
    up in its mapping, raises a [KeyError] for the first label that the
    mapping does not have, and otherwise restricts as it does for the IDs of
    the labels. *)
Theorem new_with_restriction_labels (format_relative_comparison : Z → Z → result string)
    (self : TriplesFactory.t) (labels : list string) (relations : option collection)
    (ie ir : bool) :
  (∀ (core : CoreTriplesFactory.t) label rest,
     CoreRestriction.new_with_restriction format_relative_comparison core
       (Some (Strs (label :: rest))) relations ie ir
     = inl (Later TypeErrorClass (CannotConvertIds "entity")))
  ∧ (∀ known label rest,
       labels = known ++ label :: rest →
       Forall (λ l, is_Some (TriplesFactory.entity_to_id self !! l)) known →
       TriplesFactory.entity_to_id self !! label = None →
       LabeledRestriction.new_with_restriction format_relative_comparison self
         (Some (Strs labels)) relations ie ir
       = inl (Later KeyErrorClass (MissingLabel label)))
  ∧ (∀ ids,
       Forall2 (λ label i, TriplesFactory.entity_to_id self !! label = Some i) labels ids →
       LabeledRestriction.new_with_restriction format_relative_comparison self
         (Some (Strs labels)) relations ie ir
       = LabeledRestriction.new_with_restriction format_relative_comparison self
           (Some (Ints ids)) relations ie ir).
Proof.
  split; [|split].
  - intros core label rest. done.
  - intros known label rest -> Hknown Hlabel.
    unfold LabeledRestriction.new_with_restriction, LabeledRestriction.convert,
      LabeledRestriction.entities_to_ids.
    fold (TriplesFactory.entity_to_id self).
    rewrite ensure_ids_missing by done. done.
  - intros ids Hids.
    unfold LabeledRestriction.new_with_restriction, LabeledRestriction.convert,
      LabeledRestriction.entities_to_ids.
    fold (TriplesFactory.entity_to_id self).
    rewrite (ensure_ids_Strs labels ids) by done. rewrite ensure_ids_Ints. done.
Qed.

(** ** Condensers *)

Lemma sorted_lookup_lt (u : list Z) (i j : nat) (a b : Z) :
  StronglySorted Z.lt u → (i < j)%nat → u !! i = Some a → u !! j = Some b → a < b.
Proof.
  intros Hs. revert i j.
  induction Hs as [|c u Hs IH Hall]; intros i j Hij Hi Hj; [done|].
  destruct i as [|i], j as [|j]; try lia; simpl in Hi, Hj.
  - injection Hi as <-. rewrite Forall_forall in Hall.
    apply Hall. by eapply list_elem_of_lookup_2.
  - apply (IH i j); [lia|done|done].
Qed.

Lemma filter_none {A} (P : A → Prop) `{∀ x, Decision (P x)} (l : list A) :
  Forall (λ x, ¬ P x) l → filter P l = [].
Proof.
  induction 1 as [|x l Hx _ IH]; [done|]. by rewrite filter_cons, decide_False, IH.
Qed.

Lemma filter_lt_sorted (u : list Z) (i : nat) (v : Z) :
  StronglySorted Z.lt u → u !! i = Some v → filter (λ w, w < v) u = take i u.
Proof.
  intros Hs. revert i. induction Hs as [|c u Hs IH Hall]; intros i Hi; [done|].
  destruct i as [|i]; simpl in Hi.
  - injection Hi as ->. rewrite filter_cons, decide_False by lia. simpl.
    apply filter_none. eapply Forall_impl; [exact Hall|]. intros w Hw. simpl in Hw. lia.
  - rewrite Forall_forall in Hall.
    rewrite filter_cons, decide_True by (apply Hall; by eapply list_elem_of_lookup_2).
    simpl. f_equal. by apply IH.
Qed.

Lemma rank_lookup (x : list Z) (i : nat) (v : Z) :
  unique_ids x !! i = Some v → rank x v = Z.of_nat i.
Proof.
  intros Hi. unfold rank.
  rewrite (filter_lt_sorted _ i) by first [apply unique_ids_sorted|done].
  rewrite length_take. apply lookup_lt_Some in Hi. lia.
Qed.

Lemma rank_position (x : list Z) (v : Z) :
  v ∈ x → ∃ i, unique_ids x !! i = Some v ∧ rank x v = Z.of_nat i.
Proof.
  intros Hv. apply (proj2 (elem_of_unique_ids x v)), list_elem_of_lookup in Hv as [i Hi].
  exists i. split; [done|]. by apply rank_lookup.
Qed.

Lemma rank_lt_iff (x : list Z) (u v : Z) :
  u ∈ x → v ∈ x → (u < v ↔ rank x u < rank x v).
Proof.
  intros (i & Hi & ->)%rank_position (j & Hj & ->)%rank_position.
  pose proof (unique_ids_sorted x) as Hs. split.
  - intros Huv. destruct (decide (i < j)%nat) as [|Hge]; [lia|]. exfalso.
    destruct (decide (i = j)) as [->|Hne].
    + rewrite Hi in Hj. injection Hj as ->. lia.
    + pose proof (sorted_lookup_lt _ j i v u Hs ltac:(lia) Hj Hi). lia.
  - intros Hij. apply (sorted_lookup_lt _ i j u v Hs); [lia|done|done].
Qed.

Lemma rank_image (x : list Z) (w : Z) :
  w ∈ rank x <$> x ↔ 0 ≤ w < Z.of_nat (length (unique_ids x)).
Proof.
  rewrite list_elem_of_fmap. split.
  - intros (v & -> & (i & Hi & ->)%rank_position). apply lookup_lt_Some in Hi. lia.
  - intros Hw.
    destruct (lookup_lt_is_Some_2 (unique_ids x) (Z.to_nat w)) as [v Hv]; [lia|].
    exists v. split.
    + rewrite (rank_lookup x _ v Hv). lia.
    + by eapply elem_of_unique_ids, list_elem_of_lookup_2.
Qed.

Lemma rank_contiguous (x : list Z) (k v : Z) :
  unique_ids x = seqZ 0 k → v ∈ x → rank x v = v.
Proof.
  intros Hu Hv. destruct (rank_position x v Hv) as (i & Hi & ->).
  rewrite Hu in Hi. apply lookup_seqZ in Hi. lia.
Qed.

Lemma mapM_result_fmap {A B} (f : A → result B) (g : A → B) (l : list A) :
  Forall (λ a, f a = inr (g a)) l → mapM_result f l = inr (g <$> l).
Proof.
  induction 1 as [|a l Ha _ IH]; [done|].
  cbn [mapM_result]. rewrite Ha, bind_ret_l, IH. done.
Qed.

Lemma mapM_result_fails {A B} (f : A → result B) (e : exn) (l : list A) :
  Forall (λ a, f a = inl e ∨ ∃ b, f a = inr b) l →
  Exists (λ a, f a = inl e) l → mapM_result f l = inl e.
Proof.
  induction 1 as [|a l Ha _ IH]; intros Hex; [by apply Exists_nil in Hex|].
  cbn [mapM_result]. destruct Ha as [Ha|[b Ha]]; rewrite Ha; [done|].
  rewrite bind_ret_l. apply Exists_cons in Hex as [Hex|Hex]; [congruence|].
  by rewrite IH.
Qed.

Lemma Condenser_make_unfold (x : list Z) (k : Z) :
  x ≠ [] → get_num_ids x = inr k → 0 ≤ k →
  Condenser.make x true =
    if bool_decide (unique_ids x = seqZ 0 k) then Condenser.empty
    else y ← scatter_ (replicate (Z.to_nat k) (-1)) (unique_ids x) (seqZ 0 k);
         Condenser.__init__ (Some y).
Proof.
  intros Hne Hk Hk0. unfold Condenser.make. simpl negb.
  rewrite bool_decide_eq_false_2.
  2:{ destruct x; [by destruct Hne|simpl; lia]. }
  simpl orb. cbv iota. rewrite Hk, bind_ret_l. unfold torch_arange, torch_full.
  rewrite (proj2 (Z.ltb_ge k 0)) by lia. by rewrite !bind_ret_l.
Qed.

(** The condensation that [make] builds when the IDs have gaps. *)
Lemma Condenser_make_gap (x : list Z) (k : Z) :
  x ≠ [] → Forall (λ v, 0 ≤ v) x → get_num_ids x = inr k → unique_ids x ≠ seqZ 0 k →
  ∃ y, Condenser.make x true = inr {| Condenser.condensation := Some y |}
     ∧ length y = Z.to_nat k ∧ 1 ≤ k
     ∧ (∀ v, v ∈ x → y !! Z.to_nat v = Some (rank x v))
     ∧ (∀ id, (id < length y)%nat → Z.of_nat id ∉ x → y !! id = Some (-1)).
Proof.
  intros Hne Hnonneg Hk Hgap.
  destruct (get_num_ids_spec x Hne) as (k' & Hk' & Hmax & Hbound).
  assert (k' = k) as -> by congruence.
  assert (1 ≤ k) as Hk1.
  { rewrite Forall_forall in Hnonneg. apply Hnonneg in Hmax. lia. }
  rewrite (Condenser_make_unfold x k) by (done || lia).
  rewrite bool_decide_eq_false_2 by done.
  assert (NoDup (unique_ids x)) as Hnodup by apply (sorted_unique_NoDup Z.compare).
  assert (Forall (λ i, 0 ≤ i < k) (unique_ids x)) as Hrange.
  { apply Forall_forall. intros v Hv. apply (proj1 (elem_of_unique_ids _ _)) in Hv.
    rewrite Forall_forall in Hnonneg. split; [by apply Hnonneg|by apply Hbound]. }
  assert (length (unique_ids x) ≤ Z.to_nat k)%nat as Hlen.
  { rewrite <- (length_seqZ 0 k). apply submseteq_length, NoDup_submseteq; [done|].
    intros v Hv. rewrite Forall_forall in Hrange. apply Hrange in Hv.
    apply elem_of_seqZ. lia. }
  destruct (scatter_spec (unique_ids x) (seqZ 0 k) (replicate (Z.to_nat k) (-1)))
    as (y & Hy & Hleny & Hset & Hkeep).
  { done. }
  { rewrite length_replicate, Z2Nat.id by lia. done. }
  { by rewrite length_seqZ. }
  rewrite length_replicate in Hleny.
  rewrite Hy, bind_ret_l.
  assert (∀ v, v ∈ x → y !! Z.to_nat v = Some (rank x v)) as Hpresent.
  { intros v (i & Hi & ->)%rank_position. apply (Hset i); [done|]. apply lookup_seqZ.
    apply lookup_lt_Some in Hi. lia. }
  assert (∀ id, (id < length y)%nat → Z.of_nat id ∉ x → y !! id = Some (-1)) as Habsent.
  { intros id Hid Hnot. rewrite Hkeep by (by rewrite elem_of_unique_ids).
    apply lookup_replicate_2. lia. }
  exists y. rewrite Condenser_init_Some.
  - done.
  - intros ->. simpl in Hleny. lia.
  - apply Forall_lookup. intros j v Hj.
    assert (j < length y)%nat as Hjlt by (by eapply lookup_lt_Some).
    destruct (decide (Z.of_nat j ∈ x)) as [Hin|Hout].
    + pose proof (Hpresent _ Hin) as Hv. rewrite Nat2Z.id, Hj in Hv. injection Hv as ->.
      pose proof (proj1 (rank_image x (rank x (Z.of_nat j)))) as Himg.
      specialize (Himg ltac:(apply list_elem_of_fmap; eauto)). lia.
    + rewrite (Habsent j Hjlt Hout) in Hj. injection Hj as <-. lia.
Qed.

Lemma tensor_getitem_nonneg (c : list Z) (i v : Z) :
  0 ≤ i → c !! Z.to_nat i = Some v → tensor_getitem c i = inr v.
Proof.
  intros Hi Hv. unfold tensor_getitem.
  rewrite (proj2 (Z.ltb_ge i 0)) by lia.
  apply lookup_lt_Some in Hv as Hlt.
  rewrite (proj2 (Z.leb_le 0 i)), (proj2 (Z.ltb_lt i _)) by lia. simpl. by rewrite Hv.
Qed.

Lemma Condenser_gap_not_contiguous (x : list Z) (k : Z) :
  get_num_ids x = inr k → x ≠ [] → (unique_ids x = seqZ 0 k ↔ contiguous x).
Proof.
  intros Hk Hne. destruct (get_num_ids_spec x Hne) as (k' & Hk' & Hmax & Hbound).
  assert (k' = k) as -> by congruence. split.
  - intros Heq. exists k. intros v.
    rewrite (proj1 (unique_ids_contiguous x k) Heq), elem_of_seqZ. lia.
  - intros [k' Hk'']. assert (k' = k) as ->.
    { pose proof (proj1 (Hk'' (k - 1)) Hmax) as Htop.
      assert (k' - 1 < k) by (apply Hbound, Hk''; lia). lia. }
    apply unique_ids_contiguous. intros v. rewrite Hk'', elem_of_seqZ. lia.
Qed.

(** What [make] returns, and what the condenser makes of IDs of its tensor. *)
Lemma Condenser_make_call (x : list Z) (enable : bool) :
  Forall (λ v, 0 ≤ v) x →
  ∃ c, Condenser.make x enable = inr c
     ∧ (Condenser.__bool__ c = true ↔ enable = true ∧ ¬ contiguous x)
     ∧ (∀ x', (enable = true → Forall (λ v, v ∈ x) x') →
          Condenser.__call__ c x' = inr ((if enable then rank x else id) <$> x'))
     ∧ (∀ n, Condenser_apply_to_num c n
             = inr (if Condenser.__bool__ c then Z.of_nat (length (unique_ids x)) else n)).
Proof.
  intros Hnonneg.
  destruct enable.
  2:{ exists {| Condenser.condensation := None |}. split; [done|].
      split; [split; [done|by intros []]|]. split; [|done].
      intros x' _. unfold Condenser.__call__. simpl. by rewrite list_fmap_id. }
  destruct (decide (x = [])) as [->|Hne].
  { exists {| Condenser.condensation := None |}. split; [done|].
    split; [split; [done|]|].
    { intros [_ Hgap]. destruct Hgap. exists 0. intros v. rewrite elem_of_nil. lia. }
    split; [|done].
    intros x' Hx'. specialize (Hx' eq_refl). destruct x' as [|v x']; [done|].
    apply Forall_cons in Hx' as [Hv _]. by apply elem_of_nil in Hv. }
  destruct (get_num_ids_spec x Hne) as (k & Hk & Hmax & Hbound).
  assert (1 ≤ k) as Hk1.
  { rewrite Forall_forall in Hnonneg. apply Hnonneg in Hmax. lia. }
  destruct (decide (unique_ids x = seqZ 0 k)) as [Hcont|Hgap].
  - exists {| Condenser.condensation := None |}.
    rewrite (Condenser_make_unfold x k), bool_decide_eq_true_2 by (done || lia).
    split; [done|]. split; [split; [done|]|].
    { intros [_ Hgap]. destruct Hgap. by apply (Condenser_gap_not_contiguous x k). }
    split; [|done].
    intros x' Hx'. specialize (Hx' eq_refl). unfold Condenser.__call__. simpl. f_equal.
    rewrite <- (list_fmap_id x') at 1. apply list_fmap_ext.
    intros i v Hv. rewrite Forall_forall in Hx'. symmetry.
    apply (rank_contiguous x k); [done|]. apply Hx'. by eapply list_elem_of_lookup_2.
  - destruct (Condenser_make_gap x k Hne Hnonneg Hk Hgap)
      as (y & Hy & Hlen & _ & Hpresent & Habsent).
    exists {| Condenser.condensation := Some y |}. split; [done|].
    split; [split; [intros _; split; [done|]|done]|].
    { intros Hc. by apply Hgap, (Condenser_gap_not_contiguous x k). }
    split.
    + intros x' Hx'. specialize (Hx' eq_refl). unfold Condenser.__call__. simpl.
      rewrite (mapM_result_fmap _ (rank x)).
      2:{ eapply Forall_impl; [exact Hx'|]. intros v Hv. simpl in Hv.
          rewrite Forall_forall in Hnonneg.
          apply tensor_getitem_nonneg; [by apply Hnonneg|by apply Hpresent]. }
      rewrite bind_ret_l.
      rewrite (proj2 (existsb_false_Forall _ _)); [done|].
      apply Forall_fmap. eapply Forall_impl; [exact Hx'|]. intros v Hv. simpl in Hv |- *.
      apply Z.ltb_ge. destruct (rank_position x v Hv) as (i & _ & ->). lia.
    + intros n. unfold Condenser_apply_to_num. simpl.
      assert (y ≠ []) as Hyne by (intros ->; simpl in Hlen; lia).
      destruct (get_num_ids_spec y Hyne) as (m & Hm & Hmmax & Hmbound).
      rewrite Hm. f_equal.
      (* the largest entry is the rank of the largest ID *)
      assert (∀ w, w ∈ y → w < Z.of_nat (length (unique_ids x))) as Hubound.
      { intros w [j Hj]%list_elem_of_lookup.
        assert (j < length y)%nat as Hjlt by (by eapply lookup_lt_Some).
        destruct (decide (Z.of_nat j ∈ x)) as [Hin|Hout].
        - pose proof (Hpresent _ Hin) as Hv. rewrite Nat2Z.id, Hj in Hv. injection Hv as ->.
          destruct (rank_position x _ Hin) as (i & Hi & ->).
          apply lookup_lt_Some in Hi. lia.
        - rewrite (Habsent j Hjlt Hout) in Hj. injection Hj as <-. lia. }
      assert (rank x (k - 1) ∈ y) as Htop.
      { eapply list_elem_of_lookup_2. by apply Hpresent. }
      destruct (rank_position x (k - 1) Hmax) as (i & Hi & Hri).
      assert (Z.of_nat (length (unique_ids x)) - 1 ≤ rank x (k - 1)) as Hlast.
      { rewrite Hri.
        destruct (decide (S i < length (unique_ids x))%nat) as [Hlt|]; [|lia].
        destruct (lookup_lt_is_Some_2 (unique_ids x) (S i) Hlt) as [w Hw].
        pose proof (sorted_lookup_lt _ i (S i) _ _ (unique_ids_sorted x) ltac:(lia) Hi Hw).
        assert (w < k); [|lia].
        by eapply Hbound, elem_of_unique_ids, list_elem_of_lookup_2. }
      apply Hmbound in Htop. apply Hubound in Hmmax. lia.
Qed.

Lemma unique_ids_nonempty (x : list Z) : x ≠ [] → unique_ids x ≠ [].
Proof.
  destruct x as [|v x]; [done|]. intros _ Hnil.
  assert (v ∈ unique_ids (v :: x)) as Hv by (apply elem_of_unique_ids; left).
  rewrite Hnil in Hv. by apply elem_of_nil in Hv.
Qed.

(** The largest ID gets the largest new ID. *)
Lemma rank_top (x : list Z) (k : Z) :
  get_num_ids x = inr k → x ≠ [] →
  rank x (k - 1) = Z.of_nat (length (unique_ids x)) - 1.
Proof.
  intros Hk Hne. destruct (get_num_ids_spec x Hne) as (k' & Hk' & Hmax & Hbound).
  assert (k' = k) as -> by congruence.
  destruct (rank_position x (k - 1) Hmax) as (i & Hi & ->).
  apply lookup_lt_Some in Hi as Hlt.
  destruct (decide (S i < length (unique_ids x))%nat) as [Hnext|]; [|lia].
  destruct (lookup_lt_is_Some_2 (unique_ids x) (S i) Hnext) as [w Hw].
  pose proof (sorted_lookup_lt _ i (S i) _ _ (unique_ids_sorted x) ltac:(lia) Hi Hw).
  assert (w < k); [|lia].
  by eapply Hbound, elem_of_unique_ids, list_elem_of_lookup_2.
Qed.

(** X6. A condenser made from a tensor of IDs, applied to IDs of that tensor,
    replaces every ID by the number of distinct smaller IDs of the tensor:
    the order of the IDs is kept, and the new IDs of the tensor are exactly
    [0..m-1] for [m] distinct IDs. *)
Theorem Condenser_call_after_make (x x' : list Z) :
  Forall (λ v, 0 ≤ v) x → Forall (λ v, v ∈ x) x' →
  ∃ c, Condenser.make x true = inr c
     ∧ Condenser.__call__ c x' = inr (rank x <$> x')
     ∧ (∀ u v, u ∈ x → v ∈ x → (u < v ↔ rank x u < rank x v))
     ∧ (∀ w, w ∈ rank x <$> x ↔ 0 ≤ w < Z.of_nat (length (unique_ids x))).
Proof.
  intros Hnonneg Hx'.
  destruct (Condenser_make_call x true Hnonneg) as (c & Hc & _ & Hcall & _).
  exists c. split; [done|]. split; [by apply Hcall|].
  split; [apply rank_lt_iff|apply rank_image].
Qed.

Lemma Condenser_call_after_make_witness :
  ∃ c, Condenser.make [5; 2; 0; 2] true = inr c
     ∧ Condenser.__call__ c [2; 5] = inr [1; 2]
     ∧ (2 < 5 ↔ rank [5; 2; 0; 2] 2 < rank [5; 2; 0; 2] 5).
Proof.
  destruct (Condenser_call_after_make [5; 2; 0; 2] [2; 5]) as (c & Hc & Hcall & Hlt & _).
  - repeat constructor; lia.
  - repeat constructor; rewrite !elem_of_cons; lia.
  - exists c. split; [exact Hc|]. split; [exact Hcall|].
    apply Hlt; rewrite !elem_of_cons; lia.
Defined.

Lemma tensor_getitem_total (c : list Z) (i : Z) :
  tensor_getitem c i = inl (IndexError IndexOutOfBounds) ∨ ∃ v, tensor_getitem c i = inr v.
Proof.
  unfold tensor_getitem. destruct (_ && _); [|by left].
  destruct (c !! _); [right; eauto|by left].
Qed.

Lemma tensor_getitem_in_range (c : list Z) (i : Z) :
  - Z.of_nat (length c) ≤ i < Z.of_nat (length c) →
  ∃ v, tensor_getitem c i = inr v
     ∧ c !! Z.to_nat (if i <? 0 then i + Z.of_nat (length c) else i) = Some v.
Proof.
  intros Hi. unfold tensor_getitem.
  set (j := if i <? 0 then i + Z.of_nat (length c) else i).
  assert (0 ≤ j < Z.of_nat (length c)) as Hj.
  { unfold j. destruct (Z.ltb_spec i 0); lia. }
  rewrite (proj2 (Z.leb_le 0 j)), (proj2 (Z.ltb_lt j _)) by lia. simpl.
  destruct (lookup_lt_is_Some_2 c (Z.to_nat j)) as [v Hv]; [lia|].
  rewrite Hv. eauto.
Qed.

(** X7. Applying a condenser with a condensation to IDs that its tensor did
    not have: an ID beyond the largest one raises an [IndexError], an absent
    ID below it a [ValueError]; the ID [-1] is not rejected but indexes from
    the end, and is mapped like the largest ID. *)
Theorem Condenser_call_absent (x ids : list Z) (v : Z) :
  x ≠ [] → Forall (λ v, 0 ≤ v) x → ¬ contiguous x → v ∉ x → v ∈ ids →
  ∃ c k, Condenser.make x true = inr c ∧ get_num_ids x = inr k
     ∧ (k ≤ v → Condenser.__call__ c ids = inl (IndexError IndexOutOfBounds))
     ∧ (0 ≤ v < k → Forall (λ u, - k ≤ u < k) ids →
        Condenser.__call__ c ids = inl (ValueError IdsWithoutMap))
     ∧ Condenser.__call__ c [-1] = inr [Z.of_nat (length (unique_ids x)) - 1].
Proof.
  intros Hne Hnonneg Hgap Hv Hin.
  destruct (get_num_ids_spec x Hne) as (k & Hk & Hmax & Hbound).
  assert (unique_ids x ≠ seqZ 0 k) as Hgap'.
  { intros Heq. by apply Hgap, (Condenser_gap_not_contiguous x k). }
  destruct (Condenser_make_gap x k Hne Hnonneg Hk Hgap')
    as (y & Hy & Hlen & Hk1 & Hpresent & Habsent).
  exists {| Condenser.condensation := Some y |}, k. split; [done|]. split; [done|].
  unfold Condenser.__call__. simpl. split; [|split].
  - intros Hbig. rewrite (mapM_result_fails _ (IndexError IndexOutOfBounds)); [done| |].
    + apply Forall_forall. intros u _. apply tensor_getitem_total.
    + apply Exists_exists. exists v. split; [done|]. unfold tensor_getitem.
      rewrite (proj2 (Z.ltb_ge v 0)) by lia.
      rewrite (proj2 (Z.ltb_ge v _)) by lia. by rewrite andb_false_r.
  - intros Hsmall Hrange.
    set (g := λ u, default 0 (y !! Z.to_nat (if u <? 0 then u + Z.of_nat (length y) else u))).
    rewrite (mapM_result_fmap _ g).
    2:{ eapply Forall_impl; [exact Hrange|]. intros u Hu. simpl in Hu.
        destruct (tensor_getitem_in_range y u) as (w & -> & Hw); [lia|].
        unfold g. by rewrite Hw. }
    rewrite bind_ret_l.
    assert (existsb (λ w, w <? 0) (g <$> ids) = true) as ->; [|done].
    apply existsb_exists. exists (g v). split.
    + apply list_elem_of_In, list_elem_of_fmap. eauto.
    + unfold g. rewrite (proj2 (Z.ltb_ge v 0)) by lia.
      rewrite Habsent; [done|lia|]. by rewrite Z2Nat.id by lia.
  - destruct (tensor_getitem_in_range y (-1)) as (w & Hw & Hlookup); [lia|].
    rewrite Hw, bind_ret_l. simpl in Hlookup.
    replace (Z.to_nat (-1 + Z.of_nat (length y))) with (Z.to_nat (k - 1)) in Hlookup by lia.
    rewrite (Hpresent _ Hmax) in Hlookup. injection Hlookup as <-.
    rewrite (rank_top x k Hk Hne).
    assert (length (unique_ids x) ≠ 0%nat) as Hlen0.
    { pose proof (unique_ids_nonempty x Hne). by destruct (unique_ids x). }
    simpl. rewrite (proj2 (Z.ltb_ge _ 0)) by lia. done.
Qed.

Lemma not_contiguous_gap : ¬ contiguous [5; 2; 0; 2].
Proof.
  intros [k Hk].
  assert (5 < k) as H5 by (apply Hk; rewrite !elem_of_cons; lia).
  assert (1 ∈ [5; 2; 0; 2]) as H1 by (apply Hk; lia).
  rewrite !elem_of_cons, elem_of_nil in H1. lia.
Qed.

Lemma Condenser_call_absent_witness :
  ∃ c, Condenser.make [5; 2; 0; 2] true = inr c
     ∧ Condenser.__call__ c [2; 3] = inl (ValueError IdsWithoutMap)
     ∧ Condenser.__call__ c [-1] = inr [2].
Proof.
  destruct (Condenser_call_absent [5; 2; 0; 2] [2; 3] 3)
    as (c & k & Hc & Hk & _ & Hvalue & Hlast).
  - discriminate.
  - repeat constructor; lia.
  - apply not_contiguous_gap.
  - rewrite !elem_of_cons, elem_of_nil. lia.
  - rewrite !elem_of_cons. lia.
  - exists c. split; [exact Hc|]. injection Hk as <-. split; [|exact Hlast].
    apply Hvalue; [simpl; lia|]. repeat constructor; simpl; lia.
Defined.

(** X8. The IDs that a condenser returns need no condensing: [make] on them
    gives the identity condenser.  [apply_to_num] keeps the given number
    when the IDs of the tensor were already [0..k-1], whatever the number,
    and is the number of distinct IDs otherwise. *)
Theorem Condenser_make_idempotent (x : list Z) (n : Z) :
  Forall (λ v, 0 ≤ v) x →
  ∃ c, Condenser.make x true = inr c
     ∧ Condenser.make (rank x <$> x) true = inr {| Condenser.condensation := None |}
     ∧ (contiguous x → Condenser_apply_to_num c n = inr n)
     ∧ (¬ contiguous x →
        Condenser_apply_to_num c n = inr (Z.of_nat (length (unique_ids x)))).
Proof.
  intros Hnonneg.
  destruct (Condenser_make_call x true Hnonneg) as (c & Hc & Hbool & _ & Hnum).
  exists c. split; [done|]. split; [|split].
  - destruct (Condenser_make_call (rank x <$> x) true) as (c2 & Hc2 & Hbool2 & _).
    { apply Forall_forall. intros w Hw%rank_image. lia. }
    rewrite Hc2. destruct c2 as [[y|]]; [|done].
    destruct (proj1 Hbool2 eq_refl) as [_ Hgap]. destruct Hgap.
    exists (Z.of_nat (length (unique_ids x))). apply rank_image.
  - intros Hcont. rewrite Hnum. destruct (Condenser.__bool__ c); [|done].
    by destruct (proj1 Hbool eq_refl).
  - intros Hgap. rewrite Hnum.
    assert (Condenser.__bool__ c = true) as -> by (by apply Hbool). done.
Qed.

Lemma Condenser_make_idempotent_witness :
  ∃ c, Condenser.make [5; 2; 0; 2] true = inr c
     ∧ Condenser.make (rank [5; 2; 0; 2] <$> [5; 2; 0; 2]) true
       = inr {| Condenser.condensation := None |}
     ∧ Condenser_apply_to_num c 7 = inr 3.
Proof.
  destruct (Condenser_make_idempotent [5; 2; 0; 2] 7) as (c & Hc & Hidem & _ & Hnum).
  - repeat constructor; lia.
  - exists c. split; [exact Hc|]. split; [exact Hidem|].
    apply Hnum, not_contiguous_gap.
Defined.

(** ** Condensers of triples *)

Lemma head_tail_columns_cons (h r t : Z) (T : list triple) :
  TripleCondenser.head_tail_columns ((h, r, t) :: T)
  = h :: t :: TripleCondenser.head_tail_columns T.
Proof. done. Qed.

Lemma elem_of_head_tail_columns (T : list triple) (e : Z) :
  e ∈ TripleCondenser.head_tail_columns T ↔ ∃ h r t, (h, r, t) ∈ T ∧ (e = h ∨ e = t).
Proof.
  induction T as [|[[h r] t] T IH].
  - split; [by intros ?%elem_of_nil|]. intros (? & ? & ? & ?%elem_of_nil & _). done.
  - rewrite head_tail_columns_cons, !elem_of_cons, IH. split.
    + intros [->|[->|(h' & r' & t' & Hin & He)]].
      * exists h, r, t. split; [left|]; auto.
      * exists h, r, t. split; [left|]; auto.
      * exists h', r', t'. split; [by right|done].
    + intros (h' & r' & t' & [[= -> -> ->]|Hin]%elem_of_cons & He).
      * destruct He; auto.
      * right; right. eauto 6.
Qed.

Lemma elem_of_relation_column (T : list triple) (e : Z) :
  e ∈ TripleCondenser.relation_column T ↔ ∃ h t, (h, e, t) ∈ T.
Proof.
  unfold TripleCondenser.relation_column. rewrite list_elem_of_fmap. split.
  - intros ([[h r] t] & -> & Hin). eauto.
  - intros (h & t & Hin). by exists (h, e, t).
Qed.

Lemma head_tail_columns_fmap (f g : Z → Z) (T : list triple) :
  TripleCondenser.head_tail_columns ((λ '(h, r, t), (f h, g r, f t)) <$> T)
  = f <$> TripleCondenser.head_tail_columns T.
Proof.
  induction T as [|[[h r] t] T IH]; [done|].
  rewrite fmap_cons, !head_tail_columns_cons, !fmap_cons, IH. done.
Qed.

Lemma stack_columns (f g : Z → Z) (T : list triple) :
  zip_with (λ '(h, t) r, (h, r, t))
    (TripleCondenser.rows2 (f <$> TripleCondenser.head_tail_columns T))
    (g <$> TripleCondenser.relation_column T)
  = (λ '(h, r, t), (f h, g r, f t)) <$> T.
Proof.
  induction T as [|[[h r] t] T IH]; [done|].
  rewrite head_tail_columns_cons. unfold TripleCondenser.relation_column in *.
  rewrite !fmap_cons. cbn [TripleCondenser.rows2 zip_with]. by rewrite IH.
Qed.

Lemma condensed_row_fmap (T T' : list triple) (entities relations : bool) :
  condensed_row T entities relations <$> T'
  = (λ '(h, r, t),
       ((if entities then rank (TripleCondenser.head_tail_columns T) else id) h,
        (if relations then rank (TripleCondenser.relation_column T) else id) r,
        (if entities then rank (TripleCondenser.head_tail_columns T) else id) t)) <$> T'.
Proof.
  apply list_fmap_ext. intros _ [[h r] t] _. unfold condensed_row.
  by destruct entities, relations.
Qed.

Lemma row_nonneg_columns (T : list triple) :
  Forall row_nonneg T →
  Forall (λ v, 0 ≤ v) (TripleCondenser.head_tail_columns T)
  ∧ Forall (λ v, 0 ≤ v) (TripleCondenser.relation_column T).
Proof.
  rewrite !Forall_forall. intros Hall. split.
  - intros e (h & r & t & Hin%Hall & He)%elem_of_head_tail_columns.
    simpl in Hin. destruct He; lia.
  - intros e (h & t & Hin%Hall)%elem_of_relation_column. simpl in Hin. lia.
Qed.

(** What [TripleCondenser.make] returns: its two condensers, and what it
    makes of triples whose IDs occur in the triples it was made from. *)
Lemma TripleCondenser_make_call (T : list triple) (entities relations : bool) :
  Forall row_nonneg T →
  ∃ c, TripleCondenser.make T entities relations = inr c
     ∧ (Condenser.__bool__ (TripleCondenser.entities c) = true
        ↔ entities = true ∧ ¬ contiguous (TripleCondenser.head_tail_columns T))
     ∧ (Condenser.__bool__ (TripleCondenser.relations c) = true
        ↔ relations = true ∧ ¬ contiguous (TripleCondenser.relation_column T))
     ∧ (∀ n, Condenser_apply_to_num (TripleCondenser.entities c) n
             = inr (if Condenser.__bool__ (TripleCondenser.entities c)
                    then Z.of_nat (length (unique_ids (TripleCondenser.head_tail_columns T)))
                    else n))
     ∧ (∀ n, Condenser_apply_to_num (TripleCondenser.relations c) n
             = inr (if Condenser.__bool__ (TripleCondenser.relations c)
                    then Z.of_nat (length (unique_ids (TripleCondenser.relation_column T)))
                    else n))
     ∧ (∀ T', Forall (covered T entities relations) T' →
          TripleCondenser.__call__ c T' = inr (condensed_row T entities relations <$> T')).
Proof.
  intros [HE HR]%row_nonneg_columns.
  destruct (Condenser_make_call _ entities HE) as (ce & Hce & Hbe & Hcalle & Hnume).
  destruct (Condenser_make_call _ relations HR) as (cr & Hcr & Hbr & Hcallr & Hnumr).
  exists {| TripleCondenser.entities := ce; TripleCondenser.relations := cr |}.
  split; [unfold TripleCondenser.make; by rewrite Hce, bind_ret_l, Hcr, bind_ret_l|].
  simpl. do 4 (split; [done|]).
  intros T' Hcov. rewrite Forall_forall in Hcov.
  assert (Condenser.__call__ ce (TripleCondenser.head_tail_columns T')
          = inr ((if entities then rank (TripleCondenser.head_tail_columns T) else id)
                   <$> TripleCondenser.head_tail_columns T')) as He'.
  { apply Hcalle. intros He. apply Forall_forall.
    intros e (h & r & t & Hin%Hcov & Heq)%elem_of_head_tail_columns.
    simpl in Hin. destruct Hin as [[Hh Ht] _]; [done|]. by destruct Heq as [->| ->]. }
  assert (Condenser.__call__ cr (TripleCondenser.relation_column T')
          = inr ((if relations then rank (TripleCondenser.relation_column T) else id)
                   <$> TripleCondenser.relation_column T')) as Hr'.
  { apply Hcallr. intros Hr. apply Forall_forall.
    intros e (h & t & Hin%Hcov)%elem_of_relation_column.
    simpl in Hin. by apply Hin. }
  rewrite condensed_row_fmap, <- stack_columns.
  unfold TripleCondenser.__call__, TripleCondenser.__bool__.
  cbn [TripleCondenser.entities TripleCondenser.relations].
  destruct (Condenser.__bool__ ce) eqn:Hbce; [|destruct (Condenser.__bool__ cr) eqn:Hbcr].
  - rewrite Hbce. cbn [negb]. by rewrite He', bind_ret_l, Hr', bind_ret_l.
  - cbn [negb]. by rewrite He', bind_ret_l, Hr', bind_ret_l.
  - cbn [negb]. f_equal.
    destruct ce as [[ye|]]; [done|]. destruct cr as [[yr|]]; [done|].
    unfold Condenser.__call__ in He', Hr'. simpl in He', Hr'.
    injection He' as <-. injection Hr' as <-.
    rewrite <- (list_fmap_id (TripleCondenser.head_tail_columns T')).
    rewrite <- (list_fmap_id (TripleCondenser.relation_column T')).
    rewrite stack_columns. rewrite <- (list_fmap_id T') at 1.
    apply list_fmap_ext. by intros _ [[h r] t] _.
Qed.

(** X9. A triple condenser made from triples and applied to triples whose
    IDs occur in them (the triples themselves, or others, as the evaluation
    triples that share the condenser of the inference triples) never raises:
    on each condensed axis an ID becomes the number of distinct smaller IDs
    of the axis, the other axis is kept, and the rows keep their order.  The
    entity IDs of the condensed triples are exactly [0..m-1]. *)
Theorem TripleCondenser_call_after_make (T T' : list triple) (entities relations : bool) :
  Forall row_nonneg T → Forall (covered T entities relations) T' →
  ∃ c, TripleCondenser.make T entities relations = inr c
     ∧ TripleCondenser.__call__ c T = inr (condensed_row T entities relations <$> T)
     ∧ TripleCondenser.__call__ c T' = inr (condensed_row T entities relations <$> T')
     ∧ (entities = true →
        ∀ e, e ∈ TripleCondenser.head_tail_columns (condensed_row T entities relations <$> T)
             ↔ 0 ≤ e < Z.of_nat (length (unique_ids (TripleCondenser.head_tail_columns T)))).
Proof.
  intros Hnonneg Hcov.
  destruct (TripleCondenser_make_call T entities relations Hnonneg)
    as (c & Hc & _ & _ & _ & _ & Hcall).
  exists c. split; [done|]. split; [|split; [by apply Hcall|]].
  - apply Hcall, Forall_forall. intros [[h r] t] Hin. split.
    + intros _. split; apply elem_of_head_tail_columns; exists h, r, t; auto.
    + intros _. apply elem_of_relation_column. eauto.
  - intros -> e. rewrite condensed_row_fmap, head_tail_columns_fmap. apply rank_image.
Qed.

Lemma TripleCondenser_call_after_make_witness :
  ∃ c, TripleCondenser.make [(0, 0, 5); (5, 1, 2)] true false = inr c
     ∧ TripleCondenser.__call__ c [(0, 0, 5); (5, 1, 2)] = inr [(0, 0, 2); (2, 1, 1)]
     ∧ TripleCondenser.__call__ c [(2, 7, 0)] = inr [(1, 7, 0)].
Proof.
  destruct (TripleCondenser_call_after_make [(0, 0, 5); (5, 1, 2)] [(2, 7, 0)] true false)
    as (c & Hc & Hself & Hother & _).
  - repeat constructor; simpl; lia.
  - repeat constructor; try done; simpl; rewrite !elem_of_cons; lia.
  - exists c. split; [exact Hc|]. split; [exact Hself|exact Hother].
Defined.

(** ** Condensed factories *)

Lemma well_formed_nonneg (self : CoreTriplesFactory.t) :
  well_formed self → Forall row_nonneg (CoreTriplesFactory.mapped_triples self).
Proof.
  intros Hvalid%well_formed_rows.
  eapply Forall_impl; [exact Hvalid|]. intros [[h r] t]. simpl. lia.
Qed.

Lemma contiguous_nil : contiguous [].
Proof. exists 0. intros v. rewrite elem_of_nil. lia. Qed.

(** X10. [condense] of a constructed factory of the base class, for
    entities: when the entity IDs of the triples are exactly [0..k-1] (or
    there is no triple) the factory itself is returned, also when it
    declares more than [k] entities; otherwise the relation count of the
    factory, inverse relations included, is passed on as the number of real
    relations: when it is within 64 bits, the result holds the condensed
    triples, declares as many entities as occur, every one of which occurs,
    and keeps flag and metadata, and when it is not, the constructor raises
    a [RuntimeError]. *)
Theorem CoreTriplesFactory_condense (self : CoreTriplesFactory.t) :
  well_formed self →
  (contiguous (TripleCondenser.head_tail_columns (CoreTriplesFactory.mapped_triples self)) →
   CoreCondensation.condense self true false = inr self)
  ∧ (¬ contiguous (TripleCondenser.head_tail_columns
                     (CoreTriplesFactory.mapped_triples self)) →
     ¬ int64 (CoreTriplesFactory.num_relations self) →
     CoreCondensation.condense self true false
     = inl (RuntimeError (ScalarOverflow torch_int64
                            (CoreTriplesFactory.num_relations self))))
  ∧ (¬ contiguous (TripleCondenser.head_tail_columns
                     (CoreTriplesFactory.mapped_triples self)) →
     int64 (CoreTriplesFactory.num_relations self) →
     ∃ f, CoreCondensation.condense self true false = inr f
        ∧ CoreTriplesFactory.mapped_triples f
          = condensed_row (CoreTriplesFactory.mapped_triples self) true false
              <$> CoreTriplesFactory.mapped_triples self
        ∧ CoreTriplesFactory.num_entities f
          = Z.of_nat (length (unique_ids (TripleCondenser.head_tail_columns
                                            (CoreTriplesFactory.mapped_triples self))))
        ∧ (∀ e, e ∈ TripleCondenser.head_tail_columns (CoreTriplesFactory.mapped_triples f)
                ↔ 0 ≤ e < CoreTriplesFactory.num_entities f)
        ∧ CoreTriplesFactory.real_num_relations f = CoreTriplesFactory.num_relations self
        ∧ CoreTriplesFactory.num_relations f
          = KGInfo.num_relations (CoreTriplesFactory.num_relations self)
              (CoreTriplesFactory.create_inverse_triples self)
        ∧ CoreTriplesFactory.create_inverse_triples f
          = CoreTriplesFactory.create_inverse_triples self
        ∧ CoreTriplesFactory.metadata f = CoreTriplesFactory.metadata self).
Proof.
  intros Hwf. pose proof (well_formed_nonneg self Hwf) as Hnonneg.
  set (T := CoreTriplesFactory.mapped_triples self) in *.
  destruct (TripleCondenser_make_call T true false Hnonneg)
    as (c & Hc & Hbe & Hbr & Hnume & Hnumr & Hcall).
  assert (Condenser.__bool__ (TripleCondenser.relations c) = false) as Hbr'.
  { destruct (Condenser.__bool__ (TripleCondenser.relations c)); [|done].
    by destruct (proj1 Hbr eq_refl). }
  unfold CoreCondensation.condense, CoreCondensation.make_condenser. fold T.
  rewrite Hc, bind_ret_l.
  pose proof (proj1 Hwf) as Hrel. pose proof (well_formed_rows self Hwf) as Hvalid.
  fold T in Hvalid. rewrite Forall_forall in Hvalid.
  destruct (well_formed_int64 self Hwf) as [Hne64 Hnr64].
  assert (int64 (Z.of_nat (length (unique_ids (TripleCondenser.head_tail_columns T)))))
    as Hcount.
  { eapply int64_bounded; [|exact Hne64]. apply unique_ids_length_bound.
    intros v (h & r & t & Hin & Hv)%elem_of_head_tail_columns.
    pose proof (Hvalid _ Hin) as Hrow. simpl in Hrow. destruct Hv; subst; lia. }
  assert (∀ h r t, (h, r, t) ∈ T →
            0 ≤ rank (TripleCondenser.head_tail_columns T) h
              < Z.of_nat (length (unique_ids (TripleCondenser.head_tail_columns T)))
            ∧ 0 ≤ rank (TripleCondenser.head_tail_columns T) t
              < Z.of_nat (length (unique_ids (TripleCondenser.head_tail_columns T))))
    as Hranks.
  { intros h r t Hin.
    assert (h ∈ TripleCondenser.head_tail_columns T) as Hh.
    { apply elem_of_head_tail_columns. exists h, r, t. auto. }
    assert (t ∈ TripleCondenser.head_tail_columns T) as Ht.
    { apply elem_of_head_tail_columns. exists h, r, t. auto. }
    split.
    - apply (proj1 (rank_image _ (rank _ h))), list_elem_of_fmap; eauto.
    - apply (proj1 (rank_image _ (rank _ t))), list_elem_of_fmap; eauto. }
  assert (¬ contiguous (TripleCondenser.head_tail_columns T) →
          CoreCondensation.apply_condenser self c
          = CoreTriplesFactory.__init__
              (long_tensor (condensed_row T true false <$> T))
              (Z.of_nat (length (unique_ids (TripleCondenser.head_tail_columns T))))
              (CoreTriplesFactory.num_relations self)
              (CoreTriplesFactory.create_inverse_triples self)
              (Some (CoreTriplesFactory.metadata self))) as Hcondense.
  { intros Hgap.
    unfold CoreCondensation.apply_condenser, TripleCondenser.__bool__. fold T.
    assert (Condenser.__bool__ (TripleCondenser.entities c) = true) as Hbe'
      by (by apply Hbe).
    rewrite Hbe'. cbn [orb negb].
    rewrite Hcall, bind_ret_l.
    2:{ apply Forall_forall. intros [[h r] t] Hin. split; [|done].
        intros _. split; apply elem_of_head_tail_columns; exists h, r, t; auto. }
    by rewrite Hnume, Hbe', bind_ret_l, Hnumr, Hbr', bind_ret_l. }
  split; [|split].
  - intros Hcont.
    unfold CoreCondensation.apply_condenser, TripleCondenser.__bool__.
    assert (Condenser.__bool__ (TripleCondenser.entities c) = false) as ->.
    { destruct (Condenser.__bool__ (TripleCondenser.entities c)); [|done].
      by destruct (proj1 Hbe eq_refl). }
    by rewrite Hbr'.
  - intros Hgap Hbig. rewrite (Hcondense Hgap).
    apply CoreTriplesFactory_init_overflow_relations; [|done| |done].
    + apply Forall_fmap, Forall_forall. intros [[h r] t] Hin. simpl.
      pose proof (Hvalid _ Hin) as Hrow. simpl in Hrow.
      pose proof (Hranks _ _ _ Hin). lia.
    + apply Forall_fmap, Forall_forall. intros [[h r] t] Hin. simpl.
      pose proof (Hranks _ _ _ Hin). lia.
  - intros Hgap Hfits. rewrite (Hcondense Hgap).
    rewrite CoreTriplesFactory_init_long; [|
      |done|done].
    + eexists. split; [done|]. simpl. split; [done|]. split; [done|].
      split; [|done].
      intros e. rewrite condensed_row_fmap, head_tail_columns_fmap. apply rank_image.
    + apply ids_in_range_spec, Forall_fmap, Forall_forall.
      intros [[h r] t] Hin. simpl.
      pose proof (Hvalid _ Hin) as Hrow. simpl in Hrow.
      pose proof (Hranks _ _ _ Hin).
      split; [lia|]. split; [|lia].
      rewrite Hrel. unfold KGInfo.num_relations.
      destruct (CoreTriplesFactory.create_inverse_triples self); lia.
Qed.

Lemma CoreTriplesFactory_condense_witness :
  CoreCondensation.condense restricted_factory true false = inr restricted_factory
  ∧ ∃ f, CoreCondensation.condense (gap_factory true) true false = inr f
       ∧ CoreTriplesFactory.mapped_triples f = [(0, 0, 2); (2, 1, 1)]
       ∧ CoreTriplesFactory.num_entities f = 3
       ∧ CoreTriplesFactory.real_num_relations f = 4
       ∧ CoreTriplesFactory.num_relations f = 8.
Proof.
  split.
  - apply (CoreTriplesFactory_condense restricted_factory); [by split|].
    exists 2. intros v. simpl. rewrite !elem_of_cons, elem_of_nil. lia.
  - destruct (proj2 (proj2 (CoreTriplesFactory_condense (gap_factory true)
                              ltac:(by split))))
      as (f & Hf & Hrows & Hne & _ & Hreal & Hnr & _).
    + intros [k Hk]. simpl in Hk.
      assert (5 < k) as H5 by (apply Hk; rewrite !elem_of_cons; lia).
      assert (1 ∈ [0; 5; 5; 2]) as H1 by (apply Hk; lia).
      rewrite !elem_of_cons, elem_of_nil in H1. lia.
    + unfold int64. simpl. lia.
    + exists f. split; [exact Hf|]. split; [exact Hrows|]. split; [exact Hne|].
      split; [exact Hreal|exact Hnr].
Defined.

(** ** Condensed labelings *)

Lemma nonnegative_positions_from (o : nat) (c : list Z) :
  let G := imap (λ i v, (Z.of_nat (o + i), v)) c
             ≫= (λ '(i, v), if 0 <=? v then [i] else []) in
  StronglySorted Z.lt G
  ∧ ∀ i, i ∈ G ↔ ∃ j v, i = Z.of_nat (o + j) ∧ c !! j = Some v ∧ 0 ≤ v.
Proof.
  revert o. induction c as [|w c IH]; intros o G.
  { split; [constructor|]. intros i. split; [by intros ?%elem_of_nil|].
    by intros (j & v & _ & ? & _). }
  assert (G = (if 0 <=? w then [Z.of_nat o] else [])
              ++ (imap (λ i v, (Z.of_nat (S o + i), v)) c
                    ≫= (λ '(i, v), if 0 <=? v then [i] else []))) as ->.
  { unfold G. rewrite imap_cons, bind_cons, Nat.add_0_r. do 2 f_equal.
    apply imap_ext. intros i v _. simpl. do 2 f_equal. lia. }
  destruct (IH (S o)) as [Hsorted Helem]. split.
  - apply StronglySorted_app. split; [|split; [|done]].
    + intros a b Ha Hb. apply Helem in Hb as (j & v & -> & _).
      destruct (0 <=? w); [|by apply elem_of_nil in Ha].
      apply list_elem_of_singleton in Ha as ->. lia.
    + destruct (0 <=? w); repeat constructor.
  - intros i. rewrite elem_of_app, Helem. split.
    + intros [Hi|(j & v & -> & Hj & Hv)].
      * destruct (Z.leb_spec 0 w); [|by apply elem_of_nil in Hi].
        apply list_elem_of_singleton in Hi as ->. exists 0%nat, w.
        split; [f_equal; lia|done].
      * exists (S j), v. split; [f_equal; lia|done].
    + intros ([|j] & v & -> & Hj & Hv); simpl in Hj.
      * injection Hj as ->. left. rewrite (proj2 (Z.leb_le 0 v)) by done.
        rewrite Nat.add_0_r. by left.
      * right. exists j, v. split; [f_equal; lia|done].
Qed.

Lemma nonnegative_positions_spec (c : list Z) :
  StronglySorted Z.lt (nonnegative_positions c)
  ∧ ∀ i, i ∈ nonnegative_positions c ↔ ∃ v, 0 ≤ i ∧ c !! Z.to_nat i = Some v ∧ 0 ≤ v.
Proof.
  destruct (nonnegative_positions_from 0 c) as [Hsorted Helem]. split; [done|].
  intros i. unfold nonnegative_positions. rewrite (Helem i). split.
  - intros (j & v & -> & Hj & Hv). exists v. split; [lia|]. by rewrite Nat2Z.id.
  - intros (v & Hi & Hj & Hv). exists (Z.to_nat i), v. split; [simpl; lia|done].
Qed.

Lemma dict_of_pairs_from (pairs : list (string * Z)) (m : gmap string Z) (l : string) (i : Z) :
  NoDup pairs.*1 →
  foldl (λ m '(label, i), <[label := i]> m) m pairs !! l = Some i
  ↔ (l, i) ∈ pairs ∨ ((l ∉ pairs.*1) ∧ m !! l = Some i).
Proof.
  revert m. induction pairs as [|[l' i'] pairs IH]; intros m Hnodup.
  { simpl. rewrite elem_of_nil. split; [intros ?; right; split; [apply not_elem_of_nil|done]|].
    intros [[]|[_ ?]]; done. }
  rewrite fmap_cons in Hnodup. apply NoDup_cons in Hnodup as [Hl' Hnodup].
  cbn [foldl]. rewrite IH by done. rewrite fmap_cons, not_elem_of_cons, elem_of_cons.
  simpl. split.
  - intros [Hin|[Hnot Hm]]; [by left; right|].
    destruct (decide (l = l')) as [->|Hne].
    + rewrite lookup_insert_eq in Hm. injection Hm as ->. by left; left.
    + rewrite lookup_insert_ne in Hm by done. by right.
  - intros [[[= -> ->]|Hin]|[[Hne Hnot] Hm]].
    + right. split; [done|]. apply lookup_insert_eq.
    + by left.
    + right. split; [done|]. by rewrite lookup_insert_ne.
Qed.

Lemma dict_of_pairs_lookup (pairs : list (string * Z)) (l : string) (i : Z) :
  NoDup pairs.*1 → dict_of_pairs pairs !! l = Some i ↔ (l, i) ∈ pairs.
Proof.
  intros Hnodup. unfold dict_of_pairs. rewrite dict_of_pairs_from by done.
  rewrite lookup_empty. split; [intros [?|[_ ?]]; done|by left].
Qed.

Lemma inverse_inj (m : gmap string Z) (i j : Z) (l : string) :
  Labeling.inverse m !! i = Some l → Labeling.inverse m !! j = Some l → i = j.
Proof. intros Hi%inverse_Some Hj%inverse_Some. congruence. Qed.

Lemma inverse_None (m : gmap string Z) (i : Z) :
  Labeling.inverse m !! i = None ↔ ∀ l, m !! l ≠ Some i.
Proof.
  split.
  - intros Hnone l Hl. apply inverse_is_Some in Hl as [l' Hl']. congruence.
  - intros Hnot. destruct (Labeling.inverse m !! i) as [l|] eqn:Hl; [|done].
    apply inverse_Some in Hl. by destruct (Hnot l).
Qed.

(** Inverting the inverse of a mapping, as the identity condenser does. *)
Lemma reinverted_lookup (m : gmap string Z) (l : string) (i : Z) :
  dict_of_pairs (prod_swap <$> map_to_list (Labeling.inverse m)) !! l = Some i
  ↔ Labeling.inverse m !! i = Some l.
Proof.
  rewrite dict_of_pairs_lookup.
  - rewrite list_elem_of_fmap. split.
    + intros ([i' l'] & [= -> ->] & Hin). by apply elem_of_map_to_list.
    + intros Hin. exists (i, l). split; [done|]. by apply elem_of_map_to_list.
  - rewrite <- list_fmap_compose. apply NoDup_fmap_2_strong; [|apply NoDup_map_to_list].
    intros [i1 l1] [i2 l2] H1%elem_of_map_to_list H2%elem_of_map_to_list Heq.
    simpl in Heq. subst l2. f_equal. by eapply inverse_inj.
Qed.

Lemma reinverted_invert (m : gmap string Z) :
  Labeling.inverse
    (dict_of_pairs (prod_swap <$> map_to_list (Labeling.inverse m)))
  = Labeling.inverse m.
Proof.
  apply map_eq. intros i.
  destruct (Labeling.inverse m !! i) as [l|] eqn:Hl.
  - destruct (inverse_is_Some _ i l (proj2 (reinverted_lookup m l i) Hl))
      as [l' Hl'].
    rewrite Hl'. apply inverse_Some, reinverted_lookup in Hl'. congruence.
  - apply inverse_None. intros l Hl'%reinverted_lookup. congruence.
Qed.

Lemma Labeling_max_id_spec (m : gmap string Z) (k : Z) :
  Labeling.max_id (Labeling.built m) = inr k
  ↔ (∃ l, m !! l = Some (k - 1)) ∧ (∀ l i, m !! l = Some i → i < k).
Proof.
  unfold Labeling.max_id. simpl.
  assert (∀ i, i ∈ (map_to_list m).*2 ↔ ∃ l, m !! l = Some i) as Hvalues.
  { intros i. rewrite list_elem_of_fmap. split.
    - intros ([l i'] & -> & Hin%elem_of_map_to_list). eauto.
    - intros [l Hl]. exists (l, i). split; [done|]. by apply elem_of_map_to_list. }
  destruct ((map_to_list m).*2) as [|v vs] eqn:Hvs.
  - split; [discriminate|]. intros [[l Hl] _].
    assert (k - 1 ∈ []) as Hin by (apply Hvalues; eauto). by apply elem_of_nil in Hin.
  - destruct (foldl_max_spec v vs) as [Hin Hle]. split.
    + intros [= <-]. split.
      * apply Hvalues. by replace (foldl Z.max v vs + 1 - 1) with (foldl Z.max v vs) by lia.
      * intros l i Hl. assert (i ≤ foldl Z.max v vs); [|lia].
        apply Hle, Hvalues. eauto.
    + intros [Htop Hbound]. f_equal.
      apply Hvalues in Htop. apply Hle in Htop.
      apply Hvalues in Hin as [l Hl]. apply Hbound in Hl. lia.
Qed.

Lemma TriplesFactory_init_built mt e r civ md ne nr tf :
  TriplesFactory.__init__ mt e r civ md ne nr = inr tf →
  TriplesFactory.entity_labeling tf = Labeling.built e
  ∧ TriplesFactory.relation_labeling tf = Labeling.built r
  ∧ Labeling.max_id (Labeling.built e)
    = inr (CoreTriplesFactory.num_entities (TriplesFactory.core tf))
  ∧ Labeling.max_id (Labeling.built r)
    = inr (CoreTriplesFactory.real_num_relations (TriplesFactory.core tf))
  ∧ CoreTriplesFactory.create_inverse_triples (TriplesFactory.core tf) = civ
  ∧ CoreTriplesFactory.__init__ mt
      (CoreTriplesFactory.num_entities (TriplesFactory.core tf))
      (CoreTriplesFactory.real_num_relations (TriplesFactory.core tf)) civ md
    = inr (TriplesFactory.core tf)
  ∧ NoDup (map_to_list e).*2 ∧ NoDup (map_to_list r).*2.
Proof.
  unfold TriplesFactory.__init__. intros H.
  apply bind_inr in H as (le & [Hinje ->]%Labeling_post_init_inr & H).
  apply bind_inr in H as (me & Hme & H). apply bind_inr in H as (ne' & Hne & H).
  apply bind_inr in H as (lr & [Hinjr ->]%Labeling_post_init_inr & H).
  apply bind_inr in H as (mr & Hmr & H). apply bind_inr in H as (nr' & Hnr & H).
  apply bind_inr in H as (c & Hc & [= <-]). simpl.
  assert (ne' = me) as ->.
  { unfold TriplesFactory.check_count in Hne. destruct ne as [n|]; [|by injection Hne].
    case_bool_decide as Hn; [discriminate|]. by injection Hne as <-. }
  assert (nr' = mr) as ->.
  { unfold TriplesFactory.check_count in Hnr. destruct nr as [n|]; [|by injection Hnr].
    case_bool_decide as Hn; [discriminate|]. by injection Hnr as <-. }
  pose proof Hc as Hc'.
  apply CoreTriplesFactory_init_inr in Hc as (_ & _ & _ & _ & ->). simpl. done.
Qed.

Lemma TriplesFactory_init_nonneg mt e r civ md ne nr tf :
  TriplesFactory.__init__ mt e r civ md ne nr = inr tf →
  Forall row_nonneg (CoreTriplesFactory.mapped_triples (TriplesFactory.core tf)).
Proof.
  intros (_ & _ & _ & _ & _ & Hc & _)%TriplesFactory_init_built.
  by apply CoreTriplesFactory_init_constructed in Hc as [? _].
Qed.

(** The factory of a labeled factory is in the state of a constructed
    factory, unless its tensor was a [uint8] tensor compared with a negative
    count. *)
Lemma TriplesFactory_init_well_formed mt e r civ md ne nr tf :
  TriplesFactory.__init__ mt e r civ md ne nr = inr tf →
  (t_dtype mt = torch_uint8 →
   0 ≤ CoreTriplesFactory.num_entities (TriplesFactory.core tf)
   ∧ 0 ≤ CoreTriplesFactory.real_num_relations (TriplesFactory.core tf)) →
  well_formed (TriplesFactory.core tf).
Proof.
  intros (_ & _ & _ & _ & _ & Hc & _)%TriplesFactory_init_built Hguard.
  by eapply CoreTriplesFactory_init_well_formed_dtype.
Qed.

(** The label mapping that a condenser with a condensation makes of the
    inverse mapping of a labeling. *)
Lemma Condenser_make_apply_to_map (x : list Z) (id_to_label : gmap Z string) :
  Forall (λ v, 0 ≤ v) x → ¬ contiguous x →
  (∀ v, v ∈ x → is_Some (id_to_label !! v)) →
  (∀ u v l, id_to_label !! u = Some l → id_to_label !! v = Some l → u = v) →
  ∃ c new, Condenser.make x true = inr c ∧ Condenser.__bool__ c = true
     ∧ Condenser_apply_to_map c id_to_label = inr new
     ∧ ∀ l i, new !! l = Some i
              ↔ ∃ v, v ∈ x ∧ id_to_label !! v = Some l ∧ i = rank x v.
Proof.
  intros Hnonneg Hgap Hlabels Hinj.
  assert (x ≠ []) as Hne by (intros ->; apply Hgap, contiguous_nil).
  destruct (get_num_ids_spec x Hne) as (k & Hk & Hmax & Hbound).
  assert (unique_ids x ≠ seqZ 0 k) as Hgap'.
  { intros Heq. by apply Hgap, (Condenser_gap_not_contiguous x k). }
  destruct (Condenser_make_gap x k Hne Hnonneg Hk Hgap')
    as (y & Hy & Hlen & Hk1 & Hpresent & Habsent).
  destruct (Condenser_make_call x true Hnonneg) as (c & Hc & _ & _ & Hnum).
  rewrite Hy in Hc. injection Hc as <-.
  specialize (Hnum 0). unfold Condenser_apply_to_num in Hnum. simpl in Hnum.
  set (m := Z.of_nat (length (unique_ids x))) in *.
  assert (nonnegative_positions y = unique_ids x) as Hold.
  { destruct (nonnegative_positions_spec y) as [Hsorted Helem].
    apply (strictly_sorted_ext Z.compare); [done|apply unique_ids_sorted|].
    intros i. rewrite Helem, elem_of_unique_ids. split.
    - intros (v & Hi & Hv & Hv0). destruct (decide (i ∈ x)) as [|Hout]; [done|].
      rewrite Habsent in Hv.
      + injection Hv as <-. lia.
      + by eapply lookup_lt_Some.
      + by rewrite Z2Nat.id.
    - intros Hi. exists (rank x i). rewrite Forall_forall in Hnonneg.
      split; [by apply Hnonneg|]. split; [by apply Hpresent|].
      destruct (rank_position x i Hi) as (j & _ & ->). lia. }
  set (g := λ p : Z * Z, (default ""%string (id_to_label !! p.1), p.2)).
  exists {| Condenser.condensation := Some y |}, (dict_of_pairs (g <$> zip (unique_ids x) (seqZ 0 m))).
  split; [done|]. split; [done|]. split.
  - unfold Condenser_apply_to_map. simpl. rewrite Hnum. simpl lift.
    rewrite outcome_bind_ret_l, Hold.
    rewrite (mapM_outcome_inr _ g).
    2:{ intros [old new] Hin%elem_of_zip_l. apply (proj1 (elem_of_unique_ids _ _)) in Hin.
        destruct (Hlabels old Hin) as [l Hl]. unfold g. simpl. by rewrite Hl. }
    rewrite outcome_bind_ret_l, bool_decide_eq_false_2; [done|].
    rewrite length_seqZ. unfold m. lia.
  - intros l i. rewrite dict_of_pairs_lookup.
    + rewrite list_elem_of_fmap. split.
      * intros ([old new] & [= -> ->] & Hin). apply elem_of_lookup_zip_with in Hin
          as (j & old' & new' & [= <- <-] & Hj & Hseq).
        apply lookup_seqZ in Hseq as [-> _].
        assert (old ∈ x) as Hx
          by (by eapply (proj1 (elem_of_unique_ids _ _)), list_elem_of_lookup_2).
        destruct (Hlabels old Hx) as [l Hl]. exists old. rewrite Hl. simpl.
        split; [done|]. split; [done|]. rewrite (rank_lookup x j old Hj). lia.
      * intros (v & Hv & Hl & ->). destruct (rank_position x v Hv) as (j & Hj & Hr).
        exists (v, rank x v). split; [unfold g; simpl; by rewrite Hl|].
        apply elem_of_lookup_zip_with. exists j, v, (rank x v). split; [done|].
        split; [done|]. apply lookup_seqZ. apply lookup_lt_Some in Hj. unfold m. lia.
    + rewrite <- list_fmap_compose.
      assert (fst ∘ g = (λ old, default ""%string (id_to_label !! old)) ∘ fst) as ->
        by done.
      rewrite list_fmap_compose, fst_zip by (rewrite length_seqZ; unfold m; lia).
      apply NoDup_fmap_2_strong; [|apply (sorted_unique_NoDup Z.compare)].
      intros u v Hu Hv Heq.
      apply (proj1 (elem_of_unique_ids _ _)) in Hu, Hv.
      destruct (Hlabels u Hu) as [lu Hlu]. destruct (Hlabels v Hv) as [lv Hlv].
      rewrite Hlu, Hlv in Heq. simpl in Heq. subst lv. by eapply Hinj.
Qed.

Lemma label_triples_fmap (tf : TriplesFactory.t) (M : list triple) (ue : string)
    (ur : option string) :
  TriplesFactory.label_triples tf M ue ur
  = (λ '(h, r, t),
       (default ue (Labeling.id_to_label (TriplesFactory.entity_labeling tf) !! h),
        default (default ue ur)
          (Labeling.id_to_label (TriplesFactory.relation_labeling tf) !! r),
        default ue (Labeling.id_to_label (TriplesFactory.entity_labeling tf) !! t)))
      <$> M.
Proof.
  destruct M as [|row M]; [done|]. unfold TriplesFactory.label_triples, Labeling.label.
  rewrite <- !list_fmap_compose, zip3_fmap. apply list_fmap_ext. by intros _ [[h r] t] _.
Qed.

(** [condense] of a constructed labeled factory whose entity IDs have gaps
    and all have labels: the call of the constructor that it ends with. *)
Lemma labeled_condense_unfold mt e r civ md ne nr tf :
  TriplesFactory.__init__ mt e r civ md ne nr = inr tf →
  ¬ contiguous (TripleCondenser.head_tail_columns
                  (CoreTriplesFactory.mapped_triples (TriplesFactory.core tf))) →
  (∀ v, v ∈ TripleCondenser.head_tail_columns
              (CoreTriplesFactory.mapped_triples (TriplesFactory.core tf)) →
        ∃ l, e !! l = Some v) →
  ∃ new,
    LabeledCondensation.condense tf true false
    = lift (TriplesFactory.__init__
              (long_tensor (condensed_row (CoreTriplesFactory.mapped_triples
                                             (TriplesFactory.core tf)) true false
                              <$> CoreTriplesFactory.mapped_triples (TriplesFactory.core tf)))
              new
              (dict_of_pairs (prod_swap <$> map_to_list (Labeling.inverse r)))
              civ (Some (CoreTriplesFactory.metadata (TriplesFactory.core tf)))
              (Some (Z.of_nat (length (unique_ids
                                         (TripleCondenser.head_tail_columns
                                            (CoreTriplesFactory.mapped_triples
                                               (TriplesFactory.core tf)))))))
              (Some (CoreTriplesFactory.num_relations (TriplesFactory.core tf))))
    ∧ ∀ l i, new !! l = Some i
             ↔ ∃ v, v ∈ TripleCondenser.head_tail_columns
                          (CoreTriplesFactory.mapped_triples (TriplesFactory.core tf))
                    ∧ Labeling.inverse e !! v = Some l
                    ∧ i = rank (TripleCondenser.head_tail_columns
                                  (CoreTriplesFactory.mapped_triples (TriplesFactory.core tf)))
                            v.
Proof.
  intros Hbuilt Hgap Hlabels.
  destruct (TriplesFactory_init_built _ _ _ _ _ _ _ _ Hbuilt)
    as (He & Hr & _ & _ & Hciv & _).
  pose proof (TriplesFactory_init_nonneg _ _ _ _ _ _ _ _ Hbuilt) as Hnonneg.
  set (T := CoreTriplesFactory.mapped_triples (TriplesFactory.core tf)) in *.
  set (E := TripleCondenser.head_tail_columns T) in *.
  destruct (row_nonneg_columns T Hnonneg) as [HE _]. fold E in HE.
  destruct (Condenser_make_apply_to_map E (Labeling.inverse e) HE Hgap)
    as (ce & new & Hce & Hbce & Hmap & Hnew).
  { intros v [l Hl]%Hlabels. by eapply inverse_is_Some. }
  { intros u v l. apply inverse_inj. }
  destruct (Condenser_make_call E true HE) as (ce' & Hce' & _ & _ & Hnum).
  rewrite Hce in Hce'. injection Hce' as <-. rewrite Hbce in Hnum.
  destruct (TripleCondenser_make_call T true false Hnonneg)
    as (c & Hc & _ & _ & _ & _ & Hcall).
  assert (c = {| TripleCondenser.entities := ce;
                 TripleCondenser.relations := {| Condenser.condensation := None |} |}) as ->.
  { unfold TripleCondenser.make in Hc. fold E in Hc. rewrite Hce, bind_ret_l in Hc.
    by injection Hc as <-. }
  exists new. split; [|done].
  unfold LabeledCondensation.condense, CoreCondensation.make_condenser. fold T.
  rewrite Hc. simpl lift. rewrite outcome_bind_ret_l.
  unfold LabeledCondensation.apply_condenser, TripleCondenser.__bool__.
  cbn [TripleCondenser.entities TripleCondenser.relations]. rewrite Hbce. cbv iota.
  rewrite Hbce. cbn [negb]. fold T. rewrite Hcall.
  2:{ apply Forall_forall. intros [[h r0] t] Hin. split; [|done].
      intros _. split; apply elem_of_head_tail_columns; exists h, r0, t; auto. }
  simpl lift. rewrite outcome_bind_ret_l.
  rewrite He, Hr. cbn [Labeling.id_to_label Labeling.built].
  rewrite Hmap, outcome_bind_ret_l.
  unfold Condenser_apply_to_map at 1. cbn [Condenser.condensation].
  change (mret ?x : outcome _) with (inr x : outcome (gmap string Z)).
  rewrite outcome_bind_ret_l.
  rewrite Hnum. simpl lift. rewrite outcome_bind_ret_l.
  unfold Condenser_apply_to_num. cbn [Condenser.condensation].
  simpl lift. rewrite outcome_bind_ret_l. by rewrite Hciv.
Qed.

Lemma check_count_same (n : Z) : TriplesFactory.check_count (Some n) n = inr n.
Proof.
  unfold TriplesFactory.check_count. by rewrite bool_decide_eq_false_2 by (by intros []).
Qed.

Lemma rank_inj (x : list Z) (u v : Z) : u ∈ x → v ∈ x → rank x u = rank x v → u = v.
Proof.
  intros Hu Hv Heq. destruct (Z.lt_trichotomy u v) as [Hlt|[->|Hlt]]; [|done|].
  - apply (rank_lt_iff x u v Hu Hv) in Hlt. lia.
  - apply (rank_lt_iff x v u Hv Hu) in Hlt. lia.
Qed.

Lemma reinverted_max_id (r : gmap string Z) (k : Z) :
  Labeling.max_id (Labeling.built r) = inr k →
  Labeling.max_id
    (Labeling.built
       (dict_of_pairs (prod_swap <$> map_to_list (Labeling.inverse r)))) = inr k.
Proof.
  rewrite !Labeling_max_id_spec. intros [[l Hl] Hbound]. split.
  - destruct (inverse_is_Some _ _ _ Hl) as [l' Hl'].
    exists l'. by apply reinverted_lookup.
  - intros l' i Hl'%reinverted_lookup%inverse_Some. by eapply Hbound.
Qed.

Lemma condensed_max_id (E : list Z) (e new : gmap string Z) :
  Forall (λ v, 0 ≤ v) E → E ≠ [] →
  (∀ v, v ∈ E → ∃ l, e !! l = Some v) →
  (∀ l i, new !! l = Some i
          ↔ ∃ v, v ∈ E ∧ Labeling.inverse e !! v = Some l ∧ i = rank E v) →
  Labeling.max_id (Labeling.built new)
  = inr (Z.of_nat (length (unique_ids E))).
Proof.
  intros Hnonneg Hne Hlabels Hnew. apply Labeling_max_id_spec. split.
  - destruct (get_num_ids_spec E Hne) as (k & Hk & Hmax & _).
    destruct (Hlabels _ Hmax) as [l Hl].
    destruct (inverse_is_Some _ _ _ Hl) as [l' Hl'].
    exists l'. apply Hnew. exists (k - 1). split; [done|]. split; [done|].
    symmetry. by apply rank_top.
  - intros l i (v & Hv & _ & ->)%Hnew.
    pose proof (proj1 (rank_image E (rank E v)) ltac:(apply list_elem_of_fmap; eauto)).
    lia.
Qed.

(** X11. Condensing the entities of a constructed labeled factory without
    inverse triples, whose entity IDs have gaps and all have labels, never
    raises and keeps the labeled triples: the result holds the condensed
    triples, declares as many entities as occur, and labels its triples as
    the factory labels its own.  (A factory built from a [uint8] tensor is
    taken with a number of relations that is not negative, the bound that
    its relation IDs were compared with.) *)
Theorem TriplesFactory_condense_keeps_labels mt e r md ne nr tf
    (unknown_entity_label : string) (unknown_relation_label : option string) :
  TriplesFactory.__init__ mt e r false md ne nr = inr tf →
  (t_dtype mt = torch_uint8 →
   0 ≤ CoreTriplesFactory.real_num_relations (TriplesFactory.core tf)) →
  ¬ contiguous (TripleCondenser.head_tail_columns
                  (CoreTriplesFactory.mapped_triples (TriplesFactory.core tf))) →
  (∀ v, v ∈ TripleCondenser.head_tail_columns
              (CoreTriplesFactory.mapped_triples (TriplesFactory.core tf)) →
        ∃ l, e !! l = Some v) →
  ∃ tf', LabeledCondensation.condense tf true false = inr tf'
       ∧ CoreTriplesFactory.mapped_triples (TriplesFactory.core tf')
         = condensed_row (CoreTriplesFactory.mapped_triples (TriplesFactory.core tf))
             true false
           <$> CoreTriplesFactory.mapped_triples (TriplesFactory.core tf)
       ∧ CoreTriplesFactory.num_entities (TriplesFactory.core tf')
         = Z.of_nat (length (unique_ids
                               (TripleCondenser.head_tail_columns
                                  (CoreTriplesFactory.mapped_triples
                                     (TriplesFactory.core tf)))))
       ∧ TriplesFactory.label_triples tf'
           (CoreTriplesFactory.mapped_triples (TriplesFactory.core tf'))
           unknown_entity_label unknown_relation_label
         = TriplesFactory.label_triples tf
             (CoreTriplesFactory.mapped_triples (TriplesFactory.core tf))
             unknown_entity_label unknown_relation_label.
Proof.
  intros Hbuilt Hguard Hgap Hlabels.
  destruct (labeled_condense_unfold _ _ _ _ _ _ _ _ Hbuilt Hgap Hlabels)
    as (new & -> & Hnew).
  destruct (TriplesFactory_init_built _ _ _ _ _ _ _ _ Hbuilt)
    as (He & Hr & Hmaxe & Hmaxr & Hciv & Hcore & _ & _).
  pose proof (TriplesFactory_init_nonneg _ _ _ _ _ _ _ _ Hbuilt) as Hnonneg.
  set (T := CoreTriplesFactory.mapped_triples (TriplesFactory.core tf)) in *.
  set (E := TripleCondenser.head_tail_columns T) in *.
  destruct (row_nonneg_columns T Hnonneg) as [HE _]. fold E in HE.
  assert (E ≠ []) as HEne by (intros Hnil; apply Hgap; rewrite Hnil; apply contiguous_nil).
  assert (∀ v, v ∈ E →
            0 ≤ v < CoreTriplesFactory.num_entities (TriplesFactory.core tf)) as Hbelow.
  { intros v Hv. rewrite Forall_forall in HE. split; [by apply HE|].
    destruct (Hlabels v Hv) as [l Hl].
    apply Labeling_max_id_spec in Hmaxe as [_ Hbound]. by eapply Hbound. }
  assert (well_formed (TriplesFactory.core tf)) as Hwf.
  { eapply TriplesFactory_init_well_formed; [exact Hbuilt|]. intros Hd.
    split; [|by apply Hguard].
    destruct E as [|v E'] eqn:HEeq; [done|].
    pose proof (Hbelow v ltac:(left)). lia. }
  pose proof (proj1 Hwf) as Hrel. rewrite Hciv in Hrel. simpl in Hrel.
  pose proof (well_formed_rows _ Hwf) as Hvalid. fold T in Hvalid.
  destruct (well_formed_int64 _ Hwf) as [Hne64 Hnr64].
  unfold TriplesFactory.__init__.
  rewrite (Labeling_post_init_built new), bind_ret_l.
  2:{ intros l1 l2 i (v1 & Hv1 & Hl1 & ->)%Hnew (v2 & Hv2 & Hl2 & Hrank)%Hnew.
      apply rank_inj in Hrank; [|done|done]. subst v2. congruence. }
  rewrite (condensed_max_id E e new HE HEne Hlabels Hnew), bind_ret_l.
  rewrite check_count_same, bind_ret_l.
  rewrite (Labeling_post_init_built
             (dict_of_pairs (prod_swap <$> map_to_list (Labeling.inverse r)))), bind_ret_l.
  2:{ intros l1 l2 i Hl1%reinverted_lookup Hl2%reinverted_lookup. congruence. }
  rewrite (reinverted_max_id r _ Hmaxr), bind_ret_l.
  rewrite Hrel, check_count_same, bind_ret_l, CoreTriplesFactory_init_long.
  2:{ apply ids_in_range_spec, Forall_fmap, Forall_forall.
      intros [[h r0] t] Hin. simpl.
      rewrite Forall_forall in Hvalid.
      pose proof (Hvalid _ Hin) as Hrow. simpl in Hrow. fold T E.
      assert (h ∈ E) as Hh by (apply elem_of_head_tail_columns; exists h, r0, t; auto).
      assert (t ∈ E) as Ht by (apply elem_of_head_tail_columns; exists h, r0, t; auto).
      pose proof (proj1 (rank_image _ (rank _ h)) ltac:(apply list_elem_of_fmap; eauto)).
      pose proof (proj1 (rank_image _ (rank _ t)) ltac:(apply list_elem_of_fmap; eauto)).
      lia. }
  2:{ eapply int64_bounded; [|exact Hne64]. apply unique_ids_length_bound.
      intros v Hv. by apply Hbelow. }
  2:{ done. }
  rewrite bind_ret_l. simpl lift. eexists. split; [reflexivity|]. simpl.
  split; [done|]. split; [done|].
  rewrite !label_triples_fmap, <- list_fmap_compose. simpl.
  rewrite He, Hr. simpl. rewrite reinverted_invert.
  apply list_fmap_ext. intros _ [[h r0] t] Hin%list_elem_of_lookup_2. simpl.
  fold T E.
  assert (∀ v, v ∈ E →
            Labeling.inverse new !! rank E v = Labeling.inverse e !! v)
    as Hsame.
  { intros v Hv. destruct (Hlabels v Hv) as [l Hl].
    destruct (inverse_is_Some _ _ _ Hl) as [lv Hlv]. rewrite Hlv.
    assert (new !! lv = Some (rank E v)) as Hnewl by (apply Hnew; eauto).
    destruct (inverse_is_Some _ _ _ Hnewl) as [l' Hl']. rewrite Hl'.
    apply inverse_Some, Hnew in Hl' as (u & Hu & Hul & Hrank).
    apply rank_inj in Hrank; [|done|done]. subst u. congruence. }
  rewrite !Hsame; [done| |];
    apply elem_of_head_tail_columns; exists h, r0, t; auto.
Qed.

Lemma TriplesFactory_condense_keeps_labels_witness :
  ∃ tf tf',
    TriplesFactory.__init__ gap_triples gap_labels {[ "likes"%string := 0 ]} false None
      None None = inr tf
    ∧ LabeledCondensation.condense tf true false = inr tf'
    ∧ CoreTriplesFactory.mapped_triples (TriplesFactory.core tf') = [(0, 0, 1)]
    ∧ TriplesFactory.label_triples tf'
        (CoreTriplesFactory.mapped_triples (TriplesFactory.core tf')) "[UNKNOWN]" None
      = TriplesFactory.label_triples tf
          (CoreTriplesFactory.mapped_triples (TriplesFactory.core tf)) "[UNKNOWN]" None.
Proof.
  destruct (TriplesFactory.__init__ gap_triples gap_labels {[ "likes"%string := 0 ]} false
              None None None) as [err|tf] eqn:Hbuilt.
  { vm_compute in Hbuilt. discriminate. }
  assert (CoreTriplesFactory.mapped_triples (TriplesFactory.core tf) = [(0, 0, 2)]) as HT.
  { vm_compute in Hbuilt. by injection Hbuilt as <-. }
  destruct (TriplesFactory_condense_keeps_labels _ _ _ _ _ _ _ "[UNKNOWN]" None Hbuilt)
    as (tf' & Hcond & Hrows & _ & Hsame).
  - discriminate.
  - rewrite HT. intros [k Hk]. simpl in Hk.
    assert (2 < k) as H2 by (apply Hk; rewrite !elem_of_cons; lia).
    assert (1 ∈ [0; 2]) as H1 by (apply Hk; lia).
    rewrite !elem_of_cons, elem_of_nil in H1. lia.
  - rewrite HT. simpl. intros v. rewrite !elem_of_cons, elem_of_nil.
    intros [->|[->|[]]]; [by exists "a"%string|by exists "c"%string].
  - exists tf, tf'. split; [reflexivity|]. split; [exact Hcond|].
    split; [|exact Hsame]. rewrite Hrows, HT. reflexivity.
Defined.

(** X12. Condensing the entities of a constructed labeled factory with
    inverse triples, whose entity IDs have gaps and all have labels, raises a
    [ValueError]: the constructor is given the relation count of the factory,
    which includes the inverse relations, and rejects it as different from
    the count of the relation labeling. *)
Theorem TriplesFactory_condense_with_inverses mt e r md ne nr tf :
  TriplesFactory.__init__ mt e r true md ne nr = inr tf →
  ¬ contiguous (TripleCondenser.head_tail_columns
                  (CoreTriplesFactory.mapped_triples (TriplesFactory.core tf))) →
  (∀ v, v ∈ TripleCondenser.head_tail_columns
              (CoreTriplesFactory.mapped_triples (TriplesFactory.core tf)) →
        ∃ l, e !! l = Some v) →
  LabeledCondensation.condense tf true false
  = inl (Earlier (ValueError
                    (LabelingCountMismatch
                       (CoreTriplesFactory.real_num_relations (TriplesFactory.core tf))
                       (CoreTriplesFactory.num_relations (TriplesFactory.core tf)))))
  ∧ CoreTriplesFactory.num_relations (TriplesFactory.core tf)
    = 2 * CoreTriplesFactory.real_num_relations (TriplesFactory.core tf).
Proof.
  intros Hbuilt Hgap Hlabels.
  destruct (labeled_condense_unfold _ _ _ _ _ _ _ _ Hbuilt Hgap Hlabels)
    as (new & -> & Hnew).
  destruct (TriplesFactory_init_built _ _ _ _ _ _ _ _ Hbuilt)
    as (He & Hr & _ & Hmaxr & Hciv & Hcore & _ & _).
  pose proof (TriplesFactory_init_nonneg _ _ _ _ _ _ _ _ Hbuilt) as Hnonneg.
  apply CoreTriplesFactory_init_constructed in Hcore as (_ & _ & Hconv & Hvalid & Hrel).
  set (T := CoreTriplesFactory.mapped_triples (TriplesFactory.core tf)) in *.
  set (E := TripleCondenser.head_tail_columns T) in *.
  destruct (row_nonneg_columns T Hnonneg) as [HE _]. fold E in HE.
  assert (E ≠ []) as HEne by (intros Hnil; apply Hgap; rewrite Hnil; apply contiguous_nil).
  simpl in Hrel.
  assert (CoreTriplesFactory.real_num_relations (TriplesFactory.core tf) ≠ 0) as Hreal.
  { intros Hzero. rewrite Hzero in Hvalid.
    assert (operand_value (t_dtype mt) 0 = 0) as Hop
        by (unfold operand_value; by destruct (t_dtype mt)).
    rewrite Hop in Hvalid.
    destruct T as [|[[h r0] t] T'] eqn:HT; [done|].
    apply Forall_cons in Hvalid as [Hrow _]. simpl in Hrow. lia. }
  split; [|lia].
  unfold TriplesFactory.__init__.
  rewrite (Labeling_post_init_built new), bind_ret_l.
  2:{ intros l1 l2 i (v1 & Hv1 & Hl1 & ->)%Hnew (v2 & Hv2 & Hl2 & Hrank)%Hnew.
      apply rank_inj in Hrank; [|done|done]. subst v2. congruence. }
  rewrite (condensed_max_id E e new HE HEne Hlabels Hnew), bind_ret_l.
  rewrite check_count_same, bind_ret_l.
  rewrite (Labeling_post_init_built
             (dict_of_pairs (prod_swap <$> map_to_list (Labeling.inverse r)))), bind_ret_l.
  2:{ intros l1 l2 i Hl1%reinverted_lookup Hl2%reinverted_lookup. congruence. }
  rewrite (reinverted_max_id r _ Hmaxr), bind_ret_l.
  unfold TriplesFactory.check_count. rewrite bool_decide_eq_true_2 by lia. done.
Qed.

Lemma TriplesFactory_condense_with_inverses_witness :
  ∃ tf,
    TriplesFactory.__init__ gap_triples gap_labels {[ "likes"%string := 0 ]} true None
      None None = inr tf
    ∧ LabeledCondensation.condense tf true false
      = inl (Earlier (ValueError (LabelingCountMismatch 1 2))).
Proof.
  destruct (TriplesFactory.__init__ gap_triples gap_labels {[ "likes"%string := 0 ]} true
              None None None) as [err|tf] eqn:Hbuilt.
  { vm_compute in Hbuilt. discriminate. }
  assert (TriplesFactory.core tf
          = {| CoreTriplesFactory.num_entities := 3;
               CoreTriplesFactory.real_num_relations := 1;
               CoreTriplesFactory.num_relations := 2;
               CoreTriplesFactory.create_inverse_triples := true;
               CoreTriplesFactory.mapped_triples := [(0, 0, 2)];
               CoreTriplesFactory.metadata := ∅ |}) as HT.
  { vm_compute in Hbuilt. by injection Hbuilt as <-. }
  destruct (TriplesFactory_condense_with_inverses _ _ _ _ _ _ _ Hbuilt) as [Hraise _].
  - rewrite HT. intros [k Hk]. simpl in Hk.
    assert (2 < k) as H2 by (apply Hk; rewrite !elem_of_cons; lia).
    assert (1 ∈ [0; 2]) as H1 by (apply Hk; lia).
    rewrite !elem_of_cons, elem_of_nil in H1. lia.
  - rewrite HT. simpl. intros v. rewrite !elem_of_cons, elem_of_nil.
    intros [->|[->|[]]]; [by exists "a"%string|by exists "c"%string].
  - exists tf. split; [reflexivity|]. rewrite Hraise, HT. reflexivity.
Defined.

(** ** Further constructors and conversions *)

Lemma init_long_raises rows ne nr civ md :
  ids_in_range rows ne nr = false →
  raises (CoreTriplesFactory.__init__ (long_tensor rows) ne nr civ md).
Proof.
  intros Hinvalid. apply CoreTriplesFactory_init_raises. left.
  unfold invalid_input. do 3 right. simpl. rewrite rows3_flatten3.
  by apply ids_in_range_false.
Qed.

Lemma head_tail_columns_nonempty (T : list triple) :
  T ≠ [] → TripleCondenser.head_tail_columns T ≠ [].
Proof. by destruct T as [|[[h r] t] T]. Qed.

Lemma relation_column_nonempty (T : list triple) :
  T ≠ [] → TripleCondenser.relation_column T ≠ [].
Proof. by destruct T as [|[[h r] t] T]. Qed.

(** X13. [create] without counts, on a nonempty tensor: the counts that it
    infers are one more than the largest entity ID and relation ID.  When
    no ID is negative and the inferred counts are within 64 bits, it never
    raises and the counts are the smallest that the constructor accepts, so
    that it raises for any smaller given count; when no ID is negative and
    an inferred count is beyond 64 bits (an ID is [2 ^ 63 - 1]), it raises a
    [RuntimeError]; when some ID is negative it raises. *)
Theorem CoreTriplesFactory_create_infers (T : list triple) (civ : bool)
    (md : option (gmap string pyval)) :
  T ≠ [] →
  ∃ ne nr,
    get_num_ids (TripleCondenser.head_tail_columns T) = inr ne
    ∧ get_num_ids (TripleCondenser.relation_column T) = inr nr
    ∧ (ne - 1 ∈ TripleCondenser.head_tail_columns T)
    ∧ (nr - 1 ∈ TripleCondenser.relation_column T)
    ∧ (Forall row_nonneg T → int64 ne → int64 nr →
       ∃ f,
         CoreConstruction.create T None None civ md = inr f
         ∧ CoreTriplesFactory.num_entities f = ne
         ∧ CoreTriplesFactory.real_num_relations f = nr
         ∧ CoreTriplesFactory.mapped_triples f = T
         ∧ ∀ ne' nr', ne' < ne ∨ nr' < nr →
             raises (CoreConstruction.create T (Some ne') (Some nr') civ md))
    ∧ (Forall row_nonneg T → ¬ (int64 ne ∧ int64 nr) →
       ∃ count, CoreConstruction.create T None None civ md
                = inl (RuntimeError (ScalarOverflow torch_int64 count))
              ∧ (count = ne ∨ count = nr) ∧ 2 ^ 63 ≤ count)
    ∧ (¬ Forall row_nonneg T → raises (CoreConstruction.create T None None civ md)).
Proof.
  intros Hne.
  destruct (get_num_ids_spec _ (head_tail_columns_nonempty T Hne))
    as (ne & Hnum_e & Hmax_e & Hbound_e).
  destruct (get_num_ids_spec _ (relation_column_nonempty T Hne))
    as (nr & Hnum_r & Hmax_r & Hbound_r).
  exists ne, nr. do 4 (split; [done|]).
  unfold CoreConstruction.create, ret. cbv beta iota. rewrite Hnum_e, Hnum_r.
  assert (Forall row_nonneg T → Forall (row_in_bounds ne nr) T) as Hbounds.
  { intros Hnonneg. apply Forall_forall. intros [[h r] t] Hin.
    rewrite Forall_forall in Hnonneg. pose proof (Hnonneg _ Hin) as Hrow.
    simpl in Hrow |- *.
    assert (h < ne) by (apply Hbound_e, elem_of_head_tail_columns; exists h, r, t; auto).
    assert (t < ne) by (apply Hbound_e, elem_of_head_tail_columns; exists h, r, t; auto).
    assert (r < nr) by (apply Hbound_r, elem_of_relation_column; eauto).
    lia. }
  split; [|split].
  - intros Hnonneg Hne64 Hnr64.
    assert (ids_in_range T ne nr = true) as Hvalid
        by (by apply ids_in_range_spec, Hbounds).
    eexists.
    split; [rewrite !bind_ret_l; by apply CoreTriplesFactory_init_long|].
    simpl. do 3 (split; [done|]).
    intros ne' nr' Hsmall. apply init_long_raises.
    apply ids_in_range_false. destruct Hsmall as [Hsmall|Hsmall].
    + apply elem_of_head_tail_columns in Hmax_e as (h & r & t & Hin & Heq).
      exists h, r, t. split; [done|]. lia.
    + apply elem_of_relation_column in Hmax_r as (h & t & Hin).
      exists h, (nr - 1), t. split; [done|]. lia.
  - intros Hnonneg Hbig. rewrite !bind_ret_l.
    pose proof (Hbounds Hnonneg) as Hrows.
    assert (0 ≤ ne - 1) as Hne0.
    { apply elem_of_head_tail_columns in Hmax_e as (h & r & t & Hin & Heq).
      rewrite Forall_forall in Hnonneg. pose proof (Hnonneg _ Hin) as Hrow.
      simpl in Hrow. lia. }
    assert (0 ≤ nr - 1) as Hnr0.
    { apply elem_of_relation_column in Hmax_r as (h & t & Hin).
      rewrite Forall_forall in Hnonneg. pose proof (Hnonneg _ Hin) as Hrow.
      simpl in Hrow. lia. }
    destruct (decide (int64 ne)) as [Hne64|Hne64].
    + exists nr. assert (¬ int64 nr) as Hnr64 by tauto.
      split; [|split; [by right|unfold int64 in Hnr64; lia]].
      apply CoreTriplesFactory_init_overflow_relations; [done|done| |done].
      eapply Forall_impl; [exact Hrows|]. intros [[h r] t]. simpl. lia.
    + exists ne. split; [|split; [by left|unfold int64 in Hne64; lia]].
      by apply CoreTriplesFactory_init_overflow.
  - intros Hneg. rewrite !bind_ret_l. apply init_long_raises.
    apply ids_in_range_false.
    apply not_Forall_Exists in Hneg; [|apply _].
    apply Exists_exists in Hneg as ([[h r] t] & Hin & Hrow). simpl in Hrow.
    exists h, r, t. split; [done|]. lia.
Qed.

Lemma CoreTriplesFactory_create_infers_witness :
  (∃ f, CoreConstruction.create [(0, 0, 5); (5, 1, 2)] None None true None = inr f
      ∧ CoreTriplesFactory.num_entities f = 6
      ∧ CoreTriplesFactory.real_num_relations f = 2
      ∧ raises (CoreConstruction.create [(0, 0, 5); (5, 1, 2)] (Some 5) (Some 2) true None))
  ∧ ∃ count, CoreConstruction.create [(2 ^ 63 - 1, 0, 0)] None None false None
             = inl (RuntimeError (ScalarOverflow torch_int64 count)).
Proof.
  split.
  - destruct (CoreTriplesFactory_create_infers [(0, 0, 5); (5, 1, 2)] true None
                ltac:(discriminate))
      as (ne & nr & Hne & Hnr & _ & _ & Hfits & _).
    injection Hne as <-. injection Hnr as <-.
    destruct Hfits as (f & Hf & Hfe & Hfr & _ & Hsmall).
    + repeat constructor; simpl; lia.
    + unfold int64. simpl. lia.
    + unfold int64. simpl. lia.
    + exists f. split; [exact Hf|]. split; [exact Hfe|]. split; [exact Hfr|].
      apply Hsmall. left. simpl. lia.
  - destruct (CoreTriplesFactory_create_infers [(2 ^ 63 - 1, 0, 0)] false None
                ltac:(discriminate))
      as (ne & nr & Hne & Hnr & _ & _ & _ & Hbig & _).
    injection Hne as <-. injection Hnr as <-.
    destruct Hbig as (count & Hcount & _).
    + repeat constructor; simpl; lia.
    + unfold int64. simpl. lia.
    + by exists count.
Defined.

Lemma forallb_zip_same (l : list Z) :
  forallb (λ '(a, b), bool_decide (a = b)) (zip l l) = true.
Proof.
  induction l as [|a l IH]; [done|]. simpl. by rewrite bool_decide_eq_true_2, IH.
Qed.

(** X14. [to_core_triples_factory] of a labeled factory in the state that
    the constructor leaves passes the relation count of the factory on as
    the number of real relations.  When that count is within 64 bits it
    does not raise and keeps the triples, the number of entities, the flag
    and the metadata, and the result is equal ([==]) to the factory's own
    attributes exactly when there are no inverse triples (or no relations);
    when the count, doubled for the inverse triples, is beyond 64 bits, the
    constructor raises a [RuntimeError]. *)
Theorem to_core_triples_factory_counts (tf : TriplesFactory.t) :
  well_formed (TriplesFactory.core tf) →
  (¬ int64 (CoreTriplesFactory.num_relations (TriplesFactory.core tf)) →
   LabeledConstruction.to_core_triples_factory tf
   = inl (RuntimeError (ScalarOverflow torch_int64
                          (CoreTriplesFactory.num_relations (TriplesFactory.core tf)))))
  ∧ (int64 (CoreTriplesFactory.num_relations (TriplesFactory.core tf)) →
  ∃ f, LabeledConstruction.to_core_triples_factory tf = inr f
     ∧ CoreTriplesFactory.mapped_triples f
       = CoreTriplesFactory.mapped_triples (TriplesFactory.core tf)
     ∧ CoreTriplesFactory.num_entities f
       = CoreTriplesFactory.num_entities (TriplesFactory.core tf)
     ∧ CoreTriplesFactory.create_inverse_triples f
       = CoreTriplesFactory.create_inverse_triples (TriplesFactory.core tf)
     ∧ CoreTriplesFactory.metadata f = CoreTriplesFactory.metadata (TriplesFactory.core tf)
     ∧ CoreTriplesFactory.real_num_relations f
       = CoreTriplesFactory.num_relations (TriplesFactory.core tf)
     ∧ CoreTriplesFactory.num_relations f
       = KGInfo.num_relations (CoreTriplesFactory.num_relations (TriplesFactory.core tf))
           (CoreTriplesFactory.create_inverse_triples (TriplesFactory.core tf))
     ∧ (CoreConstruction.__eq__ f (TriplesFactory.core tf) = true
        ↔ CoreTriplesFactory.create_inverse_triples (TriplesFactory.core tf) = false
          ∨ CoreTriplesFactory.num_relations (TriplesFactory.core tf) = 0)).
Proof.
  intros Hwf. pose proof (proj1 Hwf) as Hrel.
  pose proof (well_formed_rows _ Hwf) as Hvalid.
  destruct (well_formed_int64 _ Hwf) as [Hne64 _].
  unfold LabeledConstruction.to_core_triples_factory. split.
  { intros Hbig. apply CoreTriplesFactory_init_overflow_relations; [|done| |done].
    - by apply well_formed_nonneg.
    - eapply Forall_impl; [exact Hvalid|]. intros [[h r] t]. simpl. lia. }
  intros Hfits. rewrite CoreTriplesFactory_init_long; [| |done|done].
  - eexists. split; [reflexivity|]. simpl. do 6 (split; [done|]).
    unfold CoreConstruction.__eq__. simpl.
    rewrite forallb_zip_same, !andb_true_r.
    rewrite (bool_decide_eq_true_2 (_ = _ :> Z)) by done.
    rewrite (bool_decide_eq_true_2 (_ = _ :> nat)) by done.
    rewrite (bool_decide_eq_true_2 (_ = _ :> bool)) by done.
    rewrite !andb_true_r, andb_true_l, bool_decide_eq_true.
    unfold KGInfo.num_relations.
    destruct (CoreTriplesFactory.create_inverse_triples (TriplesFactory.core tf));
      split; intros H; try (destruct H as [H|H]); try done; try lia; auto.
  - apply ids_in_range_spec.
    eapply Forall_impl; [exact Hvalid|]. intros [[h r] t]. simpl.
    rewrite Hrel. unfold KGInfo.num_relations.
    destruct (CoreTriplesFactory.create_inverse_triples (TriplesFactory.core tf)); lia.
Qed.

Lemma to_core_triples_factory_counts_witness :
  ∃ f, LabeledConstruction.to_core_triples_factory factory_ab_inverse = inr f
     ∧ CoreTriplesFactory.real_num_relations f = 2
     ∧ CoreTriplesFactory.num_relations f = 4
     ∧ CoreConstruction.__eq__ f (TriplesFactory.core factory_ab_inverse) = false.
Proof.
  destruct (proj2 (to_core_triples_factory_counts factory_ab_inverse
                     ltac:(split; reflexivity)))
    as (f & Hf & _ & _ & _ & _ & Hreal & Hnr & Heq).
  - unfold int64. simpl. lia.
  - exists f. split; [exact Hf|]. split; [exact Hreal|]. split; [exact Hnr|].
    destruct (CoreConstruction.__eq__ f (TriplesFactory.core factory_ab_inverse)); [|done].
    destruct (proj1 Heq eq_refl) as [H|H]; simpl in H; discriminate.
Defined.

(** X15. The state that is stored with the triples holds the number of real
    relations: constructing a factory from the state and the triples of a
    constructed factory, as loading does with what was stored, gives the
    factory back. *)
Theorem binary_state_round_trip (self : CoreTriplesFactory.t) :
  well_formed self →
  CoreConstruction.from_binary_state (CoreConstruction._get_binary_state self)
    (long_tensor (CoreTriplesFactory.mapped_triples self)) = inr self.
Proof.
  intros Hwf. pose proof (proj1 Hwf) as Hrel.
  pose proof (well_formed_ids _ Hwf) as Hvalid.
  destruct (well_formed_int64 _ Hwf) as [Hne64 Hnr64].
  unfold CoreConstruction.from_binary_state. simpl.
  rewrite CoreTriplesFactory_init_long by done. f_equal.
  destruct self. simpl in *. by rewrite Hrel.
Qed.

Lemma binary_state_round_trip_witness :
  CoreConstruction.from_binary_state (CoreConstruction._get_binary_state inverse_factory)
    (long_tensor [(0, 0, 1); (1, 0, 2); (2, 0, 0)]) = inr inverse_factory.
Proof. apply (binary_state_round_trip inverse_factory). by split. Defined.

(** ** Adding labels *)

Lemma elem_of_values (m : gmap string Z) (i : Z) :
  i ∈ (map_to_list m).*2 ↔ ∃ l, m !! l = Some i.
Proof.
  rewrite list_elem_of_fmap. split.
  - intros ([l i'] & -> & Hin%elem_of_map_to_list). eauto.
  - intros [l Hl]. exists (l, i). split; [done|]. by apply elem_of_map_to_list.
Qed.

Lemma strongly_sorted_filter {A} (R : relation A) (P : A → Prop) `{∀ x, Decision (P x)}
    (l : list A) :
  StronglySorted R l → StronglySorted R (filter P l).
Proof.
  induction 1 as [|x l Hs IH Hall]; [constructor|]. rewrite filter_cons.
  destruct (decide (P x)); [|done]. constructor; [done|].
  rewrite Forall_forall in Hall. apply Forall_forall.
  intros y Hy%list_elem_of_filter. apply Hall, Hy.
Qed.

Lemma check_labeling_spec (name : string) (ids : list Z) (m : gmap string Z) :
  ((∀ v, v ∈ ids → ∃ l, m !! l = Some v) → CoreConstruction.check_labeling name ids m = inr ())
  ∧ (∀ v, v ∈ ids → (∀ l, m !! l ≠ Some v) →
       ∃ diff, CoreConstruction.check_labeling name ids m
               = inl (Later ValueErrorClass (IdsNotInLabeling name diff))
             ∧ StronglySorted Z.lt diff
             ∧ ∀ u, u ∈ diff ↔ u ∈ ids ∧ ∀ l, m !! l ≠ Some u).
Proof.
  unfold CoreConstruction.check_labeling. split.
  - intros Hcov.
    assert (forallb (λ i, bool_decide (i ∈ (map_to_list m).*2)) (unique_ids ids) = true)
      as ->; [|done].
    apply forallb_forall. intros i Hi%list_elem_of_In.
    apply (proj1 (elem_of_unique_ids _ _)) in Hi.
    apply bool_decide_eq_true, elem_of_values. by apply Hcov.
  - intros v Hv Hnot.
    assert (forallb (λ i, bool_decide (i ∈ (map_to_list m).*2)) (unique_ids ids) = false)
      as ->.
    { apply not_true_iff_false. intros Hall.
      rewrite forallb_forall in Hall.
      specialize (Hall v ltac:(by apply list_elem_of_In, elem_of_unique_ids)).
      apply bool_decide_eq_true, elem_of_values in Hall as [l Hl]. by destruct (Hnot l). }
    simpl. eexists. split; [reflexivity|]. split.
    + apply strongly_sorted_filter, unique_ids_sorted.
    + intros u. rewrite list_elem_of_filter, elem_of_unique_ids, elem_of_values.
      split.
      * intros [Hu Hin]. split; [done|]. intros l Hl. apply Hu. eauto.
      * intros [Hin Hu]. split; [|done]. intros [l Hl]. by destruct (Hu l).
Qed.

Lemma Labeling_max_id_nonempty (m : gmap string Z) (l : string) (i : Z) :
  m !! l = Some i → ∃ k, Labeling.max_id (Labeling.built m) = inr k.
Proof.
  intros Hl. unfold Labeling.max_id. simpl.
  destruct ((map_to_list m).*2) as [|v vs] eqn:Hvs; [|eauto].
  assert (i ∈ (map_to_list m).*2) as Hin by (apply elem_of_values; eauto).
  rewrite Hvs in Hin. by apply elem_of_nil in Hin.
Qed.

(** X16. [with_labels] on a constructed factory with triples: an entity ID
    of the triples that no label of the new entity mapping has raises a
    [ValueError] that lists exactly the entity IDs without a label; with all
    entity IDs labeled, the same holds for the relation IDs; with all IDs
    labeled, a mapping in which two labels share an ID raises the
    [ValueError] of a mapping that is not bijective (the entity mapping
    first); with all IDs labeled and one label per ID the counts are those
    of the mappings (one more than their largest ID), not those of the
    factory: when they are within 64 bits the labeled factory is returned,
    with the triples, the flag and the metadata of the factory and the given
    mappings, and when one is not the constructor raises a
    [RuntimeError]. *)
Theorem with_labels_checks (self : CoreTriplesFactory.t)
    (entity_to_id relation_to_id : gmap string Z) :
  well_formed self → CoreTriplesFactory.mapped_triples self ≠ [] →
  (∀ v, v ∈ TripleCondenser.head_tail_columns (CoreTriplesFactory.mapped_triples self) →
        (∀ l, entity_to_id !! l ≠ Some v) →
        ∃ diff, CoreConstruction.with_labels self entity_to_id relation_to_id
                = inl (Later ValueErrorClass (IdsNotInLabeling "entity" diff))
              ∧ ∀ u, u ∈ diff
                     ↔ u ∈ TripleCondenser.head_tail_columns
                             (CoreTriplesFactory.mapped_triples self)
                       ∧ ∀ l, entity_to_id !! l ≠ Some u)
  ∧ ((∀ v, v ∈ TripleCondenser.head_tail_columns (CoreTriplesFactory.mapped_triples self) →
           ∃ l, entity_to_id !! l = Some v) →
     (∀ v, v ∈ TripleCondenser.relation_column (CoreTriplesFactory.mapped_triples self) →
           (∀ l, relation_to_id !! l ≠ Some v) →
           ∃ diff, CoreConstruction.with_labels self entity_to_id relation_to_id
                   = inl (Later ValueErrorClass (IdsNotInLabeling "relation" diff))
                 ∧ ∀ u, u ∈ diff
                        ↔ u ∈ TripleCondenser.relation_column
                                (CoreTriplesFactory.mapped_triples self)
                          ∧ ∀ l, relation_to_id !! l ≠ Some u)
     ∧ ((∀ v, v ∈ TripleCondenser.relation_column (CoreTriplesFactory.mapped_triples self) →
              ∃ l, relation_to_id !! l = Some v) →
        (¬ NoDup (map_to_list entity_to_id).*2 →
         CoreConstruction.with_labels self entity_to_id relation_to_id
         = inl (Earlier (ValueError
                           (MappingNotBijective
                              (length (remove_dups (map_to_list entity_to_id).*2))
                              (size entity_to_id)))))
        ∧ (NoDup (map_to_list entity_to_id).*2 →
           ¬ NoDup (map_to_list relation_to_id).*2 →
           CoreConstruction.with_labels self entity_to_id relation_to_id
           = inl (Earlier (ValueError
                             (MappingNotBijective
                                (length (remove_dups (map_to_list relation_to_id).*2))
                                (size relation_to_id)))))
        ∧ (NoDup (map_to_list entity_to_id).*2 →
           NoDup (map_to_list relation_to_id).*2 →
           ∃ ke kr,
             Labeling.max_id (Labeling.built entity_to_id) = inr ke
             ∧ Labeling.max_id (Labeling.built relation_to_id) = inr kr
             ∧ (¬ (int64 ke ∧ int64 kr) →
                ∃ count, CoreConstruction.with_labels self entity_to_id relation_to_id
                         = inl (Earlier (RuntimeError (ScalarOverflow torch_int64 count)))
                       ∧ (count = ke ∨ count = kr))
             ∧ (int64 ke → int64 kr →
                ∃ tf, CoreConstruction.with_labels self entity_to_id relation_to_id = inr tf
                    ∧ CoreTriplesFactory.mapped_triples (TriplesFactory.core tf)
                      = CoreTriplesFactory.mapped_triples self
                    ∧ TriplesFactory.entity_to_id tf = entity_to_id
                    ∧ TriplesFactory.relation_to_id tf = relation_to_id
                    ∧ CoreTriplesFactory.create_inverse_triples (TriplesFactory.core tf)
                      = CoreTriplesFactory.create_inverse_triples self
                    ∧ CoreTriplesFactory.metadata (TriplesFactory.core tf)
                      = CoreTriplesFactory.metadata self
                    ∧ CoreTriplesFactory.num_entities (TriplesFactory.core tf) = ke
                    ∧ CoreTriplesFactory.real_num_relations (TriplesFactory.core tf)
                      = kr)))).
Proof.
  intros Hwf Hne. pose proof (well_formed_nonneg self Hwf) as Hnonneg.
  unfold CoreConstruction.with_labels.
  generalize dependent (CoreTriplesFactory.mapped_triples self). intros T Hne Hnonneg.
  split.
  - intros v Hv Hnot.
    destruct (proj2 (check_labeling_spec "entity" _ entity_to_id) v Hv Hnot)
      as (diff & -> & _ & Hdiff).
    by exists diff.
  - intros Hcov_e.
    rewrite (proj1 (check_labeling_spec "entity" _ entity_to_id) Hcov_e).
    rewrite outcome_bind_ret_l. split.
    + intros v Hv Hnot.
      destruct (proj2 (check_labeling_spec "relation" _ relation_to_id) v Hv Hnot)
        as (diff & -> & _ & Hdiff).
      by exists diff.
    + intros Hcov_r.
      rewrite (proj1 (check_labeling_spec "relation" _ relation_to_id) Hcov_r).
      rewrite outcome_bind_ret_l.
      assert (∃ h r t, (h, r, t) ∈ T) as (h & r & t & Hin0).
      { clear -Hne. destruct T as [|[[h r] t] T']; [done|]. exists h, r, t. left. }
      destruct (Hcov_e h) as [lh Hlh];
        [apply elem_of_head_tail_columns; exists h, r, t; auto|].
      destruct (Hcov_r r) as [lr Hlr]; [apply elem_of_relation_column; eauto|].
      destruct (Labeling_max_id_nonempty _ _ _ Hlh) as [ke Hke].
      destruct (Labeling_max_id_nonempty _ _ _ Hlr) as [kr Hkr].
      pose proof (proj1 (Labeling_max_id_spec _ _) Hke) as [_ Hbound_e].
      pose proof (proj1 (Labeling_max_id_spec _ _) Hkr) as [_ Hbound_r].
      unfold TriplesFactory.__init__.
      split; [|split].
      * intros Hdup.
        rewrite (proj2 (Labeling_post_init_inl entity_to_id _) (conj Hdup eq_refl)).
        done.
      * intros Hinj_e Hdup.
        rewrite (proj2 (Labeling_post_init_inr entity_to_id _) (conj Hinj_e eq_refl)).
        rewrite bind_ret_l, Hke, bind_ret_l. simpl TriplesFactory.check_count.
        rewrite bind_ret_l.
        rewrite (proj2 (Labeling_post_init_inl relation_to_id _) (conj Hdup eq_refl)).
        done.
      * intros Hinj_e Hinj_r. exists ke, kr. do 2 (split; [done|]).
        rewrite (proj2 (Labeling_post_init_inr entity_to_id _) (conj Hinj_e eq_refl)).
        rewrite bind_ret_l, Hke, bind_ret_l. simpl TriplesFactory.check_count.
        rewrite bind_ret_l.
        rewrite (proj2 (Labeling_post_init_inr relation_to_id _) (conj Hinj_r eq_refl)).
        rewrite bind_ret_l, Hkr, bind_ret_l, bind_ret_l.
        assert (Forall (row_in_bounds ke kr) T) as Hrows.
        { apply Forall_forall. intros [[h' r'] t'] Hin.
          rewrite Forall_forall in Hnonneg. pose proof (Hnonneg _ Hin) as Hrow.
          simpl in Hrow |- *.
          destruct (Hcov_e h') as [l1 Hl1];
            [apply elem_of_head_tail_columns; exists h', r', t'; auto|].
          destruct (Hcov_e t') as [l2 Hl2];
            [apply elem_of_head_tail_columns; exists h', r', t'; auto|].
          destruct (Hcov_r r') as [l3 Hl3]; [apply elem_of_relation_column; eauto|].
          apply Hbound_e in Hl1, Hl2. apply Hbound_r in Hl3. lia. }
        split.
        -- intros Hbig. destruct (decide (int64 ke)) as [Hke64|Hke64].
           ++ exists kr. split; [|by right].
              rewrite CoreTriplesFactory_init_overflow_relations; [done|done|done| |tauto].
              eapply Forall_impl; [exact Hrows|]. intros [[h' r'] t']. simpl. lia.
           ++ exists ke. split; [|by left].
              by rewrite CoreTriplesFactory_init_overflow.
        -- intros Hke64 Hkr64.
           rewrite CoreTriplesFactory_init_long; [|by apply ids_in_range_spec|done|done].
           rewrite bind_ret_l. simpl lift. eexists. split; [reflexivity|]. done.
Qed.

Lemma with_labels_checks_witness :
  (∃ tf, CoreConstruction.with_labels inverse_factory
           {[ "a"%string := 0; "b"%string := 1; "c"%string := 2; "d"%string := 7 ]}
           {[ "likes"%string := 0 ]} = inr tf
       ∧ CoreTriplesFactory.num_entities (TriplesFactory.core tf) = 8
       ∧ CoreTriplesFactory.num_entities inverse_factory = 3)
  ∧ CoreConstruction.with_labels inverse_factory
      {[ "a"%string := 0; "b"%string := 1; "c"%string := 2; "d"%string := 2 ]}
      {[ "likes"%string := 0 ]}
    = inl (Earlier (ValueError (MappingNotBijective 3 4))).
Proof.
  split.
  - destruct (with_labels_checks inverse_factory
                {[ "a"%string := 0; "b"%string := 1; "c"%string := 2; "d"%string := 7 ]}
                {[ "likes"%string := 0 ]} ltac:(by split) ltac:(discriminate))
      as [_ Hcovered].
    destruct Hcovered as [_ Hboth].
    + simpl. intros v. rewrite !elem_of_cons, elem_of_nil.
      intros [->|[->|[->|[->|[->|[->|[]]]]]]];
        first [by exists "a"%string|by exists "b"%string|by exists "c"%string].
    + destruct Hboth as (_ & _ & Hinj).
      * simpl. intros v. rewrite !elem_of_cons, elem_of_nil.
        intros [->|[->|[->|[]]]]; by exists "likes"%string.
      * destruct Hinj as (ke & kr & Hke & Hkr & _ & Hfits).
        -- apply (bool_decide_unpack _). by vm_compute.
        -- apply (bool_decide_unpack _). by vm_compute.
        -- vm_compute in Hke. injection Hke as <-.
           vm_compute in Hkr. injection Hkr as <-.
           destruct Hfits as (tf & Htf & _ & _ & _ & _ & _ & Hmax & _).
           ++ unfold int64. lia.
           ++ unfold int64. lia.
           ++ exists tf. split; [exact Htf|]. split; [exact Hmax|reflexivity].
  - destruct (with_labels_checks inverse_factory
                {[ "a"%string := 0; "b"%string := 1; "c"%string := 2; "d"%string := 2 ]}
                {[ "likes"%string := 0 ]} ltac:(by split) ltac:(discriminate))
      as [_ Hcovered].
    destruct Hcovered as [_ Hboth].
    + simpl. intros v. rewrite !elem_of_cons, elem_of_nil.
      intros [->|[->|[->|[->|[->|[->|[]]]]]]];
        first [by exists "a"%string|by exists "b"%string|by exists "c"%string].
    + destruct Hboth as (Hdup & _).
      * simpl. intros v. rewrite !elem_of_cons, elem_of_nil.
        intros [->|[->|[->|[]]]]; by exists "likes"%string.
      * rewrite Hdup; [reflexivity|].
        intros Hnodup. apply (bool_decide_pack _) in Hnodup.
        vm_compute in Hnodup. done.
Defined.


(** * Properties of the label mappings *)

(** ** The order of the labels *)

Lemma string_compare_refl (s : string) : String.compare s s = Eq.
Proof.
  induction s as [|a s IH]; simpl; [done|].
  unfold Ascii.compare. by rewrite N.compare_refl.
Qed.

Lemma ascii_compare_lt_trans (a b c : Ascii.ascii) :
  Ascii.compare a b = Lt → Ascii.compare b c = Lt → Ascii.compare a c = Lt.
Proof.
  unfold Ascii.compare. rewrite !N.compare_lt_iff. lia.
Qed.

Lemma string_compare_lt_trans (s1 s2 s3 : string) :
  String.compare s1 s2 = Lt → String.compare s2 s3 = Lt → String.compare s1 s3 = Lt.
Proof.
  revert s2 s3. induction s1 as [|a1 s1 IH]; intros [|a2 s2] [|a3 s3]; simpl; try done.
  destruct (Ascii.compare a1 a2) eqn:H12; try done.
  - apply Ascii.compare_eq_iff in H12 as ->.
    destruct (Ascii.compare a2 a3); try done. apply IH.
  - intros _. destruct (Ascii.compare a2 a3) eqn:H23; try done.
    + apply Ascii.compare_eq_iff in H23 as <-. by rewrite H12.
    + by rewrite (ascii_compare_lt_trans _ _ _ H12 H23).
Qed.

#[global] Instance string_compare_strict : StrictCompare String.compare.
Proof.
  split.
  - intros x y. split; [apply String.compare_eq_iff|intros ->; apply string_compare_refl].
  - intros x y. apply String.compare_antisym.
  - apply string_compare_lt_trans.
Qed.

#[global] Instance bool_compare_strict : StrictCompare Bool.compare.
Proof.
  split.
  - by intros [] [].
  - by intros [] [].
  - by intros [] [] [].
Qed.

Lemma strongly_sorted_lookup {A} (R : relation A) (u : list A) (i j : nat) (a b : A) :
  StronglySorted R u → (i < j)%nat → u !! i = Some a → u !! j = Some b → R a b.
Proof.
  intros Hs. revert i j.
  induction Hs as [|c u Hs IH Hall]; intros i j Hij Hi Hj; [done|].
  destruct i as [|i], j as [|j]; try lia; simpl in Hi, Hj.
  - injection Hi as <-. rewrite Forall_forall in Hall.
    apply Hall. by eapply list_elem_of_lookup_2.
  - apply (IH i j); [lia|done|done].
Qed.

(** ** Enumerations *)

Lemma enumerate_from_notin (labels : list string) (l : string) (m0 : gmap string Z)
    (f : nat → nat) :
  l ∉ labels →
  foldl (λ m '(i, label), <[label := Z.of_nat i]> m) m0
    (imap (λ i x, (f i, x)) labels) !! l = m0 !! l.
Proof.
  revert m0 f. induction labels as [|x labels IH]; intros m0 f Hnotin; [done|].
  apply not_elem_of_cons in Hnotin as [Hne Hnotin]. simpl.
  rewrite (IH _ (f ∘ S)) by done. by rewrite lookup_insert_ne.
Qed.

Lemma enumerate_from_lookup (labels : list string) (l : string) (j : nat)
    (m0 : gmap string Z) (f : nat → nat) :
  NoDup labels → labels !! j = Some l →
  foldl (λ m '(i, label), <[label := Z.of_nat i]> m) m0
    (imap (λ i x, (f i, x)) labels) !! l = Some (Z.of_nat (f j)).
Proof.
  intros Hnodup. revert j m0 f.
  induction Hnodup as [|x labels Hx Hnodup IH]; intros j m0 f Hj; [done|].
  destruct j as [|j]; simpl in Hj |- *.
  - injection Hj as ->. rewrite (enumerate_from_notin _ _ _ (f ∘ S)) by done.
    by rewrite lookup_insert_eq.
  - by rewrite (IH j _ (f ∘ S)).
Qed.

Lemma enumerate_mapping_unfold (labels : list string) :
  enumerate_mapping labels
  = foldl (λ m '(i, label), <[label := Z.of_nat i]> m) ∅ (imap (λ i x, (id i, x)) labels).
Proof. done. Qed.

Lemma enumerate_mapping_lookup (labels : list string) (l : string) (z : Z) :
  NoDup labels →
  enumerate_mapping labels !! l = Some z ↔ ∃ i, labels !! i = Some l ∧ z = Z.of_nat i.
Proof.
  intros Hnodup. rewrite enumerate_mapping_unfold. split.
  - intros Hz. destruct (decide (l ∈ labels)) as [Hin|Hnotin].
    + apply list_elem_of_lookup in Hin as [i Hi]. exists i. split; [done|].
      rewrite (enumerate_from_lookup labels l i ∅ id Hnodup Hi) in Hz.
      by injection Hz.
    + by rewrite (enumerate_from_notin labels l ∅ id Hnotin), lookup_empty in Hz.
  - intros (i & Hi & ->).
    apply (enumerate_from_lookup labels l i ∅ id Hnodup Hi).
Qed.

Lemma enumerate_mapping_size (labels : list string) :
  NoDup labels → size (enumerate_mapping labels) = length labels.
Proof.
  intros Hnodup.
  assert (dom (enumerate_mapping labels) = (list_to_set labels : gset string)) as Hdom.
  { apply set_eq. intros l. rewrite elem_of_dom, elem_of_list_to_set. split.
    - intros [z (i & Hi & _)%enumerate_mapping_lookup]; [|done].
      by eapply list_elem_of_lookup_2.
    - intros [i Hi]%list_elem_of_lookup. exists (Z.of_nat i).
      apply enumerate_mapping_lookup; eauto. }
  rewrite <- size_dom, Hdom. by apply size_list_to_set.
Qed.

Lemma elem_of_entity_labels (triples : list ltriple) (l : string) :
  l ∈ ((λ '(h, _, _), h) <$> triples) ++ ((λ '(_, _, t), t) <$> triples)
  ↔ entity_of triples l.
Proof.
  rewrite elem_of_app, !list_elem_of_fmap. unfold entity_of. split.
  - intros [([[h r] t] & -> & Hin)|([[h r] t] & -> & Hin)]; exists h, r, t; eauto.
  - intros (h & r & t & Hin & [->| ->]); [left|right]; by exists (h, r, t).
Qed.

(** X17. [create_entity_mapping] gives an ID to exactly the labels that are
    the head or the tail of a triple; the IDs are exactly [0..n-1] for the
    [n] labels of the mapping, distinct labels have distinct IDs, and the
    IDs ascend with the labels in the order of the strings.  The mapping
    depends only on the set of entity labels: not on the order of the
    triples, their repetitions or their relations. *)
Theorem create_entity_mapping_enumerates (triples : list ltriple) :
  let m := create_entity_mapping triples in
  (∀ l, is_Some (m !! l) ↔ entity_of triples l)
  ∧ (∀ i, (∃ l, m !! l = Some i) ↔ 0 ≤ i < Z.of_nat (size m))
  ∧ (∀ l1 l2 i1 i2, m !! l1 = Some i1 → m !! l2 = Some i2 →
       (i1 < i2 ↔ String.compare l1 l2 = Lt) ∧ (i1 = i2 ↔ l1 = l2))
  ∧ (∀ triples', (∀ l, entity_of triples' l ↔ entity_of triples l) →
       create_entity_mapping triples' = m).
Proof.
  unfold create_entity_mapping. cbv zeta.
  set (labels := ((λ '(h, _, _), h) <$> triples) ++ ((λ '(_, _, t), t) <$> triples)).
  set (u := sorted_unique String.compare labels).
  assert (StronglySorted (cmp_lt String.compare) u) as Hsorted
    by apply sorted_unique_sorted, _.
  assert (NoDup u) as Hnodup by apply sorted_unique_NoDup, _.
  assert (∀ l, l ∈ u ↔ entity_of triples l) as Hin.
  { intros l. unfold u. rewrite elem_of_sorted_unique by apply _.
    apply elem_of_entity_labels. }
  split; [|split; [|split]].
  - intros l. rewrite <- Hin. split.
    + intros [z (i & Hi & _)%enumerate_mapping_lookup]; [|done].
      by eapply list_elem_of_lookup_2.
    + intros [i Hi]%list_elem_of_lookup. exists (Z.of_nat i).
      apply enumerate_mapping_lookup; eauto.
  - intros i. rewrite enumerate_mapping_size by done. split.
    + intros [l (j & Hj & ->)%enumerate_mapping_lookup]; [|done].
      apply lookup_lt_Some in Hj. lia.
    + intros Hi. destruct (lookup_lt_is_Some_2 u (Z.to_nat i)) as [l Hl]; [lia|].
      exists l. apply enumerate_mapping_lookup; [done|].
      exists (Z.to_nat i). split; [done|lia].
  - intros l1 l2 i1 i2 (j1 & Hj1 & ->)%enumerate_mapping_lookup
      (j2 & Hj2 & ->)%enumerate_mapping_lookup; [|done..].
    assert (∀ a b la lb, u !! a = Some la → u !! b = Some lb → (a < b)%nat →
              String.compare la lb = Lt) as Hlt.
    { intros a b la lb Ha Hb Hab.
      apply (strongly_sorted_lookup _ u a b la lb Hsorted Hab Ha Hb). }
    split; split.
    + intros Hlt12. apply (Hlt j1 j2); [done|done|lia].
    + intros Hcmp. destruct (Nat.lt_trichotomy j1 j2) as [?|[->|Hgt]]; [lia|..].
      * rewrite Hj1 in Hj2. injection Hj2 as ->.
        by rewrite string_compare_refl in Hcmp.
      * pose proof (Hlt j2 j1 l2 l1 Hj2 Hj1 Hgt) as Hcmp'.
        rewrite String.compare_antisym, Hcmp' in Hcmp. done.
    + intros Heq. assert (j1 = j2) as -> by lia. congruence.
    + intros ->. f_equal. by eapply NoDup_lookup.
  - intros triples' Hsame. f_equal.
    apply (strictly_sorted_ext String.compare); [apply sorted_unique_sorted, _|done|].
    intros l. rewrite elem_of_sorted_unique by apply _.
    rewrite elem_of_entity_labels, Hsame. symmetry. apply Hin.
Qed.

(** ** All labels of a labeling *)

Lemma all_labels_unfold (m : gmap string Z) (k : Z) :
  Labeling.max_id (Labeling.built m) = inr k →
  Labeling_all_labels (Labeling.built m)
  = inr ((λ i, default "unknown"%string (Labeling.inverse m !! i)) <$> seqZ 0 k).
Proof. unfold Labeling_all_labels. by intros ->. Qed.

Lemma all_labels_lookup (m : gmap string Z) (k : Z) (j : nat) :
  Z.of_nat j < k →
  ((λ i, default "unknown"%string (Labeling.inverse m !! i)) <$> seqZ 0 k) !! j
  = Some (default "unknown"%string (Labeling.inverse m !! Z.of_nat j)).
Proof. intros Hj. by rewrite list_lookup_fmap, lookup_seqZ_lt. Qed.

Lemma inverse_unique (m : gmap string Z) (i : Z) (l : string) :
  m !! l = Some i → (∀ l', m !! l' = Some i → l' = l) →
  Labeling.inverse m !! i = Some l.
Proof.
  intros Hl Huniq. destruct (inverse_is_Some m i l Hl) as [l' Hl'].
  rewrite Hl'. f_equal. by apply Huniq, inverse_Some.
Qed.

Lemma values_NoDup_inj (m : gmap string Z) (l1 l2 : string) (i : Z) :
  NoDup (map_to_list m).*2 → m !! l1 = Some i → m !! l2 = Some i → l1 = l2.
Proof.
  intros Hnodup H1%elem_of_map_to_list H2%elem_of_map_to_list.
  apply list_elem_of_lookup in H1 as [a Ha], H2 as [b Hb].
  assert (a = b) as ->.
  { apply (NoDup_lookup _ a b i Hnodup); rewrite list_lookup_fmap; [by rewrite Ha|by rewrite Hb]. }
  congruence.
Qed.

(** X18. A labeling is constructed exactly from a mapping with one label per
    ID; two labels on one ID raise the [ValueError] of a mapping that is not
    bijective.  On a constructed labeling, [Labeling.all_labels] raises the
    [ValueError] of [max] when there are no labels.  Otherwise it returns
    one entry for each of the IDs [0..max_id-1] (none if all IDs are
    negative): at an ID with a label that label, at an ID without label the
    string [unknown]; labels with a negative ID are not listed.  If the IDs
    of the mapping are a rearrangement of [0..n-1], the list has the [n]
    labels in the order of their IDs, and enumerating it gives the mapping
    back. *)
Theorem Labeling_all_labels_spec (m : gmap string Z) :
  (¬ NoDup (map_to_list m).*2 →
   Labeling.__post_init__ m
   = inl (ValueError (MappingNotBijective (length (remove_dups (map_to_list m).*2))
                        (size m))))
  ∧ (NoDup (map_to_list m).*2 → ∃ self, Labeling.__post_init__ m = inr self)
  ∧ ∀ self, Labeling.__post_init__ m = inr self →
      (m = ∅ → Labeling_all_labels self = inl (ValueError EmptySequence))
      ∧ (m ≠ ∅ → ∃ labels k,
           Labeling_all_labels self = inr labels
           ∧ Labeling.max_id self = inr k
           ∧ length labels = Z.to_nat k
           ∧ (∀ i l, 0 ≤ i → m !! l = Some i → labels !! Z.to_nat i = Some l)
           ∧ (∀ i, 0 ≤ i < k → (∀ l, m !! l ≠ Some i) →
                labels !! Z.to_nat i = Some "unknown"%string))
      ∧ (∀ n, 0 < n → (map_to_list m).*2 ≡ₚ seqZ 0 n →
           ∃ labels,
             Labeling_all_labels self = inr labels
             ∧ Z.of_nat (length labels) = n
             ∧ (∀ i l, labels !! i = Some l ↔ m !! l = Some (Z.of_nat i))
             ∧ enumerate_mapping labels = m).
Proof.
  split; [|split].
  { intros Hdup. by apply Labeling_post_init_inl. }
  { intros Hnodup. exists (Labeling.built m). by apply Labeling_post_init_inr. }
  intros self [Hinj ->]%Labeling_post_init_inr.
  split; [|split].
  - intros ->. done.
  - intros Hne.
    destruct (map_choose m Hne) as (l0 & i0 & Hl0).
    destruct (Labeling_max_id_nonempty m l0 i0 Hl0) as [k Hk].
    pose proof (proj1 (Labeling_max_id_spec m k) Hk) as [_ Hbelow].
    eexists _, k. split; [by apply all_labels_unfold|]. split; [done|].
    split; [by rewrite length_fmap, length_seqZ|]. split.
    + intros i l Hi Hl. pose proof (Hbelow l i Hl).
      rewrite all_labels_lookup by lia. rewrite Z2Nat.id by lia.
      rewrite (inverse_unique m i l); [done|done|].
      intros l' Hl'. by apply (values_NoDup_inj m l' l i).
    + intros i Hi Hnone. rewrite all_labels_lookup by lia. rewrite Z2Nat.id by lia.
      by rewrite (proj2 (inverse_None m i) Hnone).
  - intros n Hn Hperm.
    assert (∀ i, (∃ l, m !! l = Some i) ↔ 0 ≤ i < n) as Hids.
    { intros i. rewrite <- elem_of_values, Hperm, elem_of_seqZ. lia. }
    assert (NoDup (map_to_list m).*2) as Hnodup by (rewrite Hperm; apply NoDup_seqZ).
    assert (Labeling.max_id (Labeling.built m) = inr n) as Hk.
    { apply Labeling_max_id_spec. split.
      - apply Hids. lia.
      - intros l i Hl. apply (proj1 (Hids i)). eauto. }
    set (labels := (λ i, default "unknown"%string (Labeling.inverse m !! i))
                     <$> seqZ 0 n).
    assert (length labels = Z.to_nat n) as Hlen
      by (unfold labels; by rewrite length_fmap, length_seqZ).
    assert (∀ i l, labels !! i = Some l ↔ m !! l = Some (Z.of_nat i)) as Hlookup.
    { intros i l. split.
      - intros Hi. pose proof (lookup_lt_Some _ _ _ Hi) as Hlt.
        unfold labels in Hi. rewrite all_labels_lookup in Hi by lia.
        destruct (proj2 (Hids (Z.of_nat i))) as [l' Hl']; [lia|].
        rewrite (inverse_unique m _ l' Hl') in Hi.
        * simpl in Hi. by injection Hi as <-.
        * intros l'' Hl''. by apply (values_NoDup_inj m l'' l' (Z.of_nat i)).
      - intros Hl. pose proof (proj1 (Hids (Z.of_nat i))) as Hrange.
        unfold labels. rewrite all_labels_lookup by (apply Hrange; eauto).
        rewrite (inverse_unique m _ l Hl); [done|].
        intros l' Hl'. by apply (values_NoDup_inj m l' l (Z.of_nat i)). }
    exists labels. split; [by apply all_labels_unfold|]. split; [lia|].
    split; [done|].
    assert (NoDup labels) as Hnd.
    { apply NoDup_alt. intros a b l Ha%Hlookup Hb%Hlookup.
      rewrite Ha in Hb. injection Hb as Hb. lia. }
    apply map_eq. intros l. apply option_eq. intros z.
    rewrite enumerate_mapping_lookup by done. split.
    + intros (i & Hi%Hlookup & ->). done.
    + intros Hl. destruct (proj1 (Hids z)) as [Hz0 Hzn]; [eauto|].
      exists (Z.to_nat z). split; [|lia]. apply Hlookup. by rewrite Z2Nat.id.
Qed.

Lemma Labeling_all_labels_spec_witness :
  Labeling.__post_init__ shared_id
  = inl (ValueError (MappingNotBijective 1 2))
  ∧ Labeling_all_labels (Labeling.built ∅) = inl (ValueError EmptySequence)
  ∧ Labeling_all_labels (Labeling.built labels_with_gap)
    = inr ["a"; "unknown"; "c"]%string
  ∧ ∃ labels,
      Labeling_all_labels (Labeling.built two_labels) = inr labels
      ∧ Z.of_nat (length labels) = 2
      ∧ (∀ i l, labels !! i = Some l ↔ two_labels !! l = Some (Z.of_nat i))
      ∧ enumerate_mapping labels = two_labels.
Proof.
  split; [|split; [|split]].
  - rewrite (proj1 (Labeling_all_labels_spec shared_id)); [reflexivity|].
    intros Hnodup. apply (bool_decide_pack _) in Hnodup. vm_compute in Hnodup. done.
  - by apply (proj1 (proj2 (proj2 (Labeling_all_labels_spec ∅)) (Labeling.built ∅) ltac:(by vm_compute))).
  - destruct (proj1 (proj2 (proj2 (proj2 (Labeling_all_labels_spec labels_with_gap))
                              (Labeling.built labels_with_gap) ltac:(by vm_compute))))
      as (labels & k & Hall & Hmax & Hlen & _ & _).
    { intros Heq. by apply (f_equal (λ m : gmap string Z, m !! "a"%string)) in Heq. }
    rewrite Hall. vm_compute in Hall. done.
  - apply (proj2 (proj2 (proj2 (proj2 (Labeling_all_labels_spec two_labels))
                           (Labeling.built two_labels) ltac:(by vm_compute))) 2); [lia|].
    vm_compute. reflexivity.
Defined.

(** ** Suffixes of strings *)

Lemma string_append_nil_r (s : string) : s +:+ "" = s.
Proof. induction s as [|a s IH]; [done|]. change (String a (s +:+ "") = String a s). by rewrite IH. Qed.

Lemma string_append_assoc (s1 s2 s3 : string) : (s1 +:+ s2) +:+ s3 = s1 +:+ s2 +:+ s3.
Proof.
  induction s1 as [|a s1 IH]; [done|].
  change (String a ((s1 +:+ s2) +:+ s3) = String a (s1 +:+ s2 +:+ s3)). by rewrite IH.
Qed.

Lemma string_length_append (s1 s2 : string) :
  String.length (s1 +:+ s2) = (String.length s1 + String.length s2)%nat.
Proof.
  induction s1 as [|a s1 IH]; [done|].
  change (S (String.length (s1 +:+ s2)) = S (String.length s1 + String.length s2)).
  by rewrite IH.
Qed.

Lemma string_rev_app_spec (s1 s2 : string) : String.rev_app s1 s2 = String.rev s1 +:+ s2.
Proof.
  revert s2. induction s1 as [|a s1 IH]; intros s2; [done|].
  unfold String.rev. simpl. rewrite !IH, string_append_assoc. done.
Qed.

Lemma string_rev_cons (a : Ascii.ascii) (s : string) :
  String.rev (String a s) = String.rev s +:+ String a "".
Proof. unfold String.rev at 1. simpl. apply string_rev_app_spec. Qed.

Lemma string_rev_append (s1 s2 : string) :
  String.rev (s1 +:+ s2) = String.rev s2 +:+ String.rev s1.
Proof.
  induction s1 as [|a s1 IH].
  - change (String.rev s2 = String.rev s2 +:+ ""). by rewrite string_append_nil_r.
  - change (String.rev (String a (s1 +:+ s2)) = String.rev s2 +:+ String.rev (String a s1)).
    by rewrite !string_rev_cons, IH, string_append_assoc.
Qed.

Lemma string_rev_involutive (s : string) : String.rev (String.rev s) = s.
Proof.
  induction s as [|a s IH]; [done|].
  by rewrite string_rev_cons, string_rev_append, IH.
Qed.

Lemma string_prefix_spec (p s : string) : String.prefix p s = true ↔ ∃ t, s = p +:+ t.
Proof.
  revert s. induction p as [|a p IH]; intros s.
  - split; [intros _; by exists s|]. by destruct s.
  - destruct s as [|b s]; simpl.
    + split; [done|]. by intros [t Ht].
    + destruct (Ascii.ascii_dec a b) as [->|Hne].
      * rewrite IH. split; intros [t Ht]; exists t.
        -- by rewrite Ht.
        -- by injection Ht.
      * split; [done|]. intros [t Ht]. injection Ht as Hab _. by destruct Hne.
Qed.

Lemma endswith_spec (s suffix : string) :
  endswith s suffix = true ↔ ∃ t, s = t +:+ suffix.
Proof.
  unfold endswith. rewrite string_prefix_spec. split.
  - intros [t Ht]. exists (String.rev t).
    by rewrite <- (string_rev_involutive s), Ht, string_rev_append, string_rev_involutive.
  - intros [t ->]. exists (String.rev t). apply string_rev_append.
Qed.

Lemma string_substring_append (t s : string) :
  String.substring 0 (String.length t) (t +:+ s) = t.
Proof.
  induction t as [|a t IH]; [by destruct s|].
  change (String a (String.substring 0 (String.length t) (t +:+ s)) = String a t).
  by rewrite IH.
Qed.

Lemma string_append_inj_r (s1 s2 t : string) : s1 +:+ t = s2 +:+ t → s1 = s2.
Proof.
  intros Heq. apply (f_equal String.rev) in Heq. rewrite !string_rev_append in Heq.
  apply (inj _) in Heq. by rewrite <- (string_rev_involutive s1), Heq, string_rev_involutive.
Qed.

(** ** The sort key of the relation labels *)

Lemma sub_inverse_suffix_inverse (r : string) :
  sub_inverse_suffix (r +:+ INVERSE_SUFFIX) = r.
Proof.
  unfold sub_inverse_suffix. cbv zeta.
  rewrite (proj2 (endswith_spec _ _)) by eauto.
  rewrite string_length_append, Nat.add_sub. apply string_substring_append.
Qed.

Lemma sub_inverse_suffix_endswith (x : string) :
  endswith x INVERSE_SUFFIX = true → x = sub_inverse_suffix x +:+ INVERSE_SUFFIX.
Proof.
  intros Hx. destruct (proj1 (endswith_spec _ _) Hx) as [t ->].
  by rewrite sub_inverse_suffix_inverse.
Qed.

Lemma sub_inverse_suffix_other (x : string) :
  endswith x INVERSE_SUFFIX = false →
  sub_inverse_suffix x = x ∨ ends_with_newline (sub_inverse_suffix x).
Proof.
  intros Hx. unfold sub_inverse_suffix. cbv zeta. rewrite Hx.
  destruct (endswith x (INVERSE_SUFFIX +:+ newline)); [right|by left].
  apply endswith_spec. eauto.
Qed.

(** ** Sorting by a key *)

Section sort_by_key_facts.
Context {A K : Type} (cmp : K → K → comparison) `{!StrictCompare cmp} (key : A → K).

Lemma insert_by_key_perm (x : A) (l : list A) : insert_by_key cmp key x l ≡ₚ x :: l.
Proof.
  induction l as [|y l IH]; [done|]. simpl.
  destruct (cmp (key x) (key y)); [done|done|].
  rewrite IH. apply Permutation_swap.
Qed.

Lemma sorted_by_key_perm (l : list A) : sorted_by_key cmp key l ≡ₚ l.
Proof.
  induction l as [|x l IH]; [done|]. simpl.
  by rewrite insert_by_key_perm, IH.
Qed.

Lemma key_le_trans (x y z : A) :
  key_le cmp key x y → key_le cmp key y z → key_le cmp key x z.
Proof.
  unfold key_le. intros Hxy Hyz.
  destruct (cmp (key x) (key y)) eqn:H1; [| |done].
  - apply compare_eq in H1. by rewrite H1.
  - destruct (cmp (key y) (key z)) eqn:H2; [| |done].
    + apply compare_eq in H2. rewrite <- H2, H1. done.
    + by rewrite (compare_lt_trans _ _ _ H1 H2).
Qed.

Lemma insert_by_key_sorted (x : A) (l : list A) :
  StronglySorted (key_le cmp key) l →
  StronglySorted (key_le cmp key) (insert_by_key cmp key x l).
Proof.
  induction 1 as [|y l Hs IH Hall]; [by repeat constructor|]. simpl.
  assert (∀ z, key_le cmp key x y → z ∈ y :: l → key_le cmp key x z) as Hx.
  { intros z Hxy [->|Hz]%elem_of_cons; [done|].
    rewrite Forall_forall in Hall. by eapply key_le_trans; [|apply Hall]. }
  destruct (cmp (key x) (key y)) eqn:Hcmp.
  - constructor; [by constructor|]. apply Forall_forall. intros z Hz.
    apply Hx; [|done]. unfold key_le. by rewrite Hcmp.
  - constructor; [by constructor|]. apply Forall_forall. intros z Hz.
    apply Hx; [|done]. unfold key_le. by rewrite Hcmp.
  - constructor; [done|]. apply Forall_forall. intros z Hz.
    rewrite insert_by_key_perm in Hz. apply elem_of_cons in Hz as [->|Hz].
    + unfold key_le. by rewrite (compare_antisym (cmp:=cmp)), Hcmp.
    + rewrite Forall_forall in Hall. by apply Hall.
Qed.

Lemma sorted_by_key_sorted (l : list A) :
  StronglySorted (key_le cmp key) (sorted_by_key cmp key l).
Proof.
  induction l as [|x l IH]; [constructor|]. simpl. by apply insert_by_key_sorted.
Qed.

End sort_by_key_facts.

Lemma sub_inverse_suffix_base (r : string) :
  endswith r INVERSE_SUFFIX = false → ¬ ends_with_newline r → sub_inverse_suffix r = r.
Proof.
  intros Hr Hnl. unfold sub_inverse_suffix. cbv zeta. rewrite Hr.
  destruct (endswith r (INVERSE_SUFFIX +:+ newline)) eqn:Hr'; [|done].
  destruct Hnl. apply endswith_spec.
  apply endswith_spec in Hr' as [t ->].
  exists (t +:+ INVERSE_SUFFIX). by rewrite string_append_assoc.
Qed.

Lemma relation_key_between (r : string) (x : string) :
  key_le (lex String.compare Bool.compare) relation_key r x →
  key_le (lex String.compare Bool.compare) relation_key x (r +:+ INVERSE_SUFFIX) →
  endswith r INVERSE_SUFFIX = false → ¬ ends_with_newline r →
  x = r ∨ x = r +:+ INVERSE_SUFFIX.
Proof.
  unfold key_le, relation_key, lex. simpl.
  intros Hrx Hxr Hr Hnl.
  rewrite sub_inverse_suffix_inverse in Hxr.
  rewrite sub_inverse_suffix_base in Hrx by done.
  assert (sub_inverse_suffix x = r) as Hx.
  { destruct (String.compare r (sub_inverse_suffix x)) eqn:H1; [|..|done].
    - symmetry. by apply compare_eq in H1.
    - rewrite (compare_antisym (cmp:=String.compare)), H1 in Hxr. by simpl in Hxr. }
  destruct (endswith x INVERSE_SUFFIX) eqn:Hend.
  - right. rewrite <- Hx. by apply sub_inverse_suffix_endswith.
  - left. destruct (sub_inverse_suffix_other x Hend) as [Heq|Hnl']; [congruence|].
    by rewrite Hx in Hnl'.
Qed.

(** X19. [create_relation_mapping] gives an ID to exactly the given
    relation labels; the IDs are exactly [0..n-1] for the [n] labels of the
    mapping, and distinct labels have distinct IDs.  If a label that does
    not end with the inverse suffix (nor with a line feed) is given together
    with the label of its inverse, the inverse has the next ID. *)
Theorem create_relation_mapping_inverse_follows (relations : list string) :
  let m := create_relation_mapping relations in
  (∀ l, is_Some (m !! l) ↔ l ∈ relations)
  ∧ (∀ i, (∃ l, m !! l = Some i) ↔ 0 ≤ i < Z.of_nat (size m))
  ∧ (∀ l1 l2 i, m !! l1 = Some i → m !! l2 = Some i → l1 = l2)
  ∧ (∀ r, r ∈ relations → r +:+ INVERSE_SUFFIX ∈ relations →
       endswith r INVERSE_SUFFIX = false → ¬ ends_with_newline r →
       ∃ i, m !! r = Some i ∧ m !! (r +:+ INVERSE_SUFFIX) = Some (i + 1)).
Proof.
  unfold create_relation_mapping. cbv zeta.
  change (λ x, (sub_inverse_suffix x, endswith x INVERSE_SUFFIX)) with relation_key.
  set (cmp := lex String.compare Bool.compare).
  set (u := sorted_by_key cmp relation_key (remove_dups relations)).
  assert (u ≡ₚ remove_dups relations) as Hperm by apply sorted_by_key_perm.
  assert (NoDup u) as Hnodup by (rewrite Hperm; apply NoDup_remove_dups).
  assert (∀ l, l ∈ u ↔ l ∈ relations) as Hin
    by (intros l; by rewrite Hperm, elem_of_remove_dups).
  assert (StronglySorted (key_le cmp relation_key) u) as Hsorted
    by apply sorted_by_key_sorted, _.
  split; [|split; [|split]].
  - intros l. rewrite <- Hin. split.
    + intros [z (i & Hi & _)%enumerate_mapping_lookup]; [|done].
      by eapply list_elem_of_lookup_2.
    + intros [i Hi]%list_elem_of_lookup. exists (Z.of_nat i).
      apply enumerate_mapping_lookup; eauto.
  - intros i. rewrite enumerate_mapping_size by done. split.
    + intros [l (j & Hj & ->)%enumerate_mapping_lookup]; [|done].
      apply lookup_lt_Some in Hj. lia.
    + intros Hi. destruct (lookup_lt_is_Some_2 u (Z.to_nat i)) as [l Hl]; [lia|].
      exists l. apply enumerate_mapping_lookup; [done|].
      exists (Z.to_nat i). split; [done|lia].
  - intros l1 l2 i (j1 & Hj1 & ->)%enumerate_mapping_lookup
      (j2 & Hj2 & Heq)%enumerate_mapping_lookup; [|done..].
    assert (j1 = j2) as -> by lia. congruence.
  - intros r Hr Hinv Hend Hnl.
    apply Hin, list_elem_of_lookup in Hr as [i Hi].
    apply Hin, list_elem_of_lookup in Hinv as [j Hj].
    assert (endswith (r +:+ INVERSE_SUFFIX) INVERSE_SUFFIX = true) as Hend'
      by (apply endswith_spec; eauto).
    assert (r ≠ r +:+ INVERSE_SUFFIX) as Hne by (intros Heq; congruence).
    assert (i ≠ j) as Hij by (intros ->; congruence).
    assert (i < j)%nat as Hlt.
    { destruct (Nat.lt_trichotomy i j) as [?|[?|Hgt]]; [done..|].
      pose proof (strongly_sorted_lookup _ u j i _ _ Hsorted Hgt Hj Hi) as Hle.
      unfold key_le, relation_key, cmp, lex in Hle. simpl in Hle.
      rewrite sub_inverse_suffix_inverse, sub_inverse_suffix_base in Hle by done.
      rewrite string_compare_refl, Hend, Hend' in Hle. by destruct Hle. }
    exists (Z.of_nat i). split; [apply enumerate_mapping_lookup; eauto|].
    apply enumerate_mapping_lookup; [done|]. exists j. split; [done|].
    destruct (decide (j = S i)) as [->|Hgap]; [lia|].
    destruct (lookup_lt_is_Some_2 u (S i)) as [y Hy].
    { apply lookup_lt_Some in Hj. lia. }
    destruct (relation_key_between r y) as [->| ->]; try done.
    + apply (strongly_sorted_lookup _ u i (S i) _ _ Hsorted); [lia|done..].
    + apply (strongly_sorted_lookup _ u (S i) j _ _ Hsorted); [lia|done..].
    + pose proof (NoDup_lookup _ _ _ _ Hnodup Hi Hy). lia.
    + pose proof (NoDup_lookup _ _ _ _ Hnodup Hj Hy). lia.
Qed.

Lemma create_relation_mapping_inverse_follows_witness :
  ∃ i, create_relation_mapping example_relations !! "likes"%string = Some i
       ∧ create_relation_mapping example_relations !! "likes_inverse"%string = Some (i + 1).
Proof.
  apply (proj2 (proj2 (proj2 (create_relation_mapping_inverse_follows example_relations)))
           "likes"%string).
  - apply (bool_decide_unpack _). vm_compute. exact I.
  - apply (bool_decide_unpack _). vm_compute. exact I.
  - vm_compute. reflexivity.
  - unfold ends_with_newline. vm_compute. discriminate.
Defined.

(** ** Mapping labeled triples *)

(** X20. [_map_triples_elements_to_ids] returns the rows of IDs in ascending
    order without repetition: exactly the rows of the given triples whose
    three labels have an ID that is not negative.  A triple with a label
    that is not in the mappings is left out without an error, so the result
    has at most as many rows as there are triples, and it depends only on
    the set of the given triples, not on their order or repetitions. *)
Theorem map_triples_elements_to_ids_set (T : list ltriple) (e r : gmap string Z) :
  let M := _map_triples_elements_to_ids T e r in
  StronglySorted (cmp_lt triple_compare) M
  ∧ (∀ row, row ∈ M ↔
       row_nonneg row ∧ ∃ labeled, labeled ∈ T ∧ row = mapped_row e r labeled)
  ∧ (∀ h rel t, (h, rel, t) ∈ T →
       e !! h = None ∨ r !! rel = None ∨ e !! t = None →
       mapped_row e r (h, rel, t) ∉ M)
  ∧ (length M ≤ length T)%nat
  ∧ (∀ T', (∀ labeled, labeled ∈ T' ↔ labeled ∈ T) →
       _map_triples_elements_to_ids T' e r = M).
Proof.
  cbv zeta. split; [apply map_triples_elements_to_ids_sorted|].
  split; [apply elem_of_map_triples_elements_to_ids|]. split; [|split].
  - intros h rel t _ Hnone [Hnonneg _]%elem_of_map_triples_elements_to_ids.
    unfold mapped_row, row_nonneg, get_id in Hnonneg.
    destruct Hnonneg as (Hh & Hrel & Ht).
    destruct Hnone as [Hn|[Hn|Hn]]; rewrite Hn in *; simpl in *; lia.
  - rewrite map_triples_elements_to_ids_unfold. unfold np_unique_rows.
    rewrite <- (length_fmap (mapped_row e r) T).
    etrans; [|apply (length_filter row_nonneg)].
    apply submseteq_length, NoDup_submseteq; [apply sorted_unique_NoDup, _|].
    intros row. by rewrite elem_of_sorted_unique by apply _.
  - intros T' Hsame.
    apply (strictly_sorted_ext triple_compare);
      [apply map_triples_elements_to_ids_sorted..|].
    intros row. rewrite !elem_of_map_triples_elements_to_ids.
    split; intros (Hnonneg & labeled & Hin & ->); (split; [done|]);
      exists labeled; (split; [by apply Hsame|done]).
Qed.

(** * Properties of the training instances *)

(** ** Batches with the incomplete batch kept *)

Lemma batch_sampler_loop_keep (b : nat) (batch sampler : list nat) :
  (length batch < b)%nat →
  concat (batch_sampler_loop b false batch sampler) = batch ++ sampler
  ∧ Forall (λ B, (0 < length B ≤ b)%nat) (batch_sampler_loop b false batch sampler)
  ∧ (∀ i B, batch_sampler_loop b false batch sampler !! i = Some B →
       (S i < length (batch_sampler_loop b false batch sampler))%nat → length B = b)
  ∧ length (batch_sampler_loop b false batch sampler)
    = ((length batch + length sampler + b - 1) `div` b)%nat.
Proof.
  revert batch. induction sampler as [|idx sampler IH]; intros batch Hlt.
  - cbn [batch_sampler_loop orb]. case_bool_decide as Hnil.
    + subst batch. simpl. split; [done|]. split; [constructor|]. split; [done|].
      symmetry. apply Nat.div_small. lia.
    + assert (0 < length batch)%nat by (destruct batch; [done|simpl; lia]).
      simpl. split; [by rewrite !app_nil_r|]. split; [repeat constructor; lia|].
      split; [intros i B _ Hi; lia|].
      replace (length batch + 0 + b - 1)%nat with (1 * b + (length batch - 1))%nat by lia.
      rewrite Nat.div_add_l by lia. rewrite Nat.div_small by lia. done.
  - cbn [batch_sampler_loop]. case_bool_decide as Hfull.
    + destruct (IH []) as (Hcat & Hall & Hpos & Hlen); [simpl; lia|].
      rewrite length_app in Hfull. simpl in Hfull.
      split; [|split; [|split]].
      * simpl concat. rewrite Hcat. simpl. by rewrite <- app_assoc.
      * constructor; [rewrite length_app; simpl; lia|done].
      * intros [|i] B HB Hi; simpl in HB.
        -- injection HB as <-. rewrite length_app. simpl. lia.
        -- apply (Hpos i B HB). simpl in Hi. lia.
      * cbn [length]. rewrite Hlen. simpl.
        replace (length batch + S (length sampler) + b - 1)%nat
          with (1 * b + (length sampler + b - 1))%nat by lia.
        rewrite Nat.div_add_l by lia. done.
    + rewrite length_app in Hfull. simpl in Hfull.
      destruct (IH (batch ++ [idx])) as (Hcat & Hall & Hpos & Hlen).
      { rewrite length_app. simpl. lia. }
      split; [|split; [done|split; [done|]]].
      * by rewrite Hcat, <- app_assoc.
      * rewrite Hlen, length_app. simpl. f_equal. lia.
Qed.

Lemma elem_of_concat_1 {A} (x : A) (ls : list (list A)) :
  x ∈ concat ls → ∃ l, l ∈ ls ∧ x ∈ l.
Proof.
  induction ls as [|l ls IH]; simpl; [by intros ?%elem_of_nil|].
  intros [Hx|Hx]%elem_of_app.
  - exists l. split; [left|done].
  - destruct (IH Hx) as (l' & Hl' & Hx'). exists l'. split; [by right|done].
Qed.

Lemma ceil_div_spec (n b : Z) :
  0 ≤ n → 0 < b →
  (n + b - 1) `div` b = n `div` b + (if bool_decide (n `mod` b = 0) then 0 else 1).
Proof.
  intros Hn Hb.
  pose proof (Z.div_mod n b ltac:(lia)) as Hdm.
  pose proof (Z.mod_pos_bound n b Hb) as Hmod.
  case_bool_decide as Hzero.
  - symmetry. apply (Z.div_unique _ _ _ (b - 1)); lia.
  - symmetry. apply (Z.div_unique _ _ _ (n `mod` b - 1)); lia.
Qed.

(** X21. With [drop_last=False] and a positive batch size [b], one epoch of
    [BatchedSLCWAInstances] over a workload of [m >= 1] indices cuts the
    random permutation of the workload into consecutive batches: every
    index of the workload is in exactly one batch, there are [ceil(m / b)]
    batches, none is empty, and all but the last one hold exactly [b]
    indices.  On an empty workload the random sampler raises a
    [ValueError].  [__len__] reports [ceil(n / b)] for [n] triples, the
    number of batches when the epoch is iterated as one workload that is
    not empty. *)
Theorem BatchedSLCWAInstances_keeps_last
    (split_workload : nat → range) (randperm : nat → list nat)
    (self : BaseBatchedSLCWAInstances.t) :
  let n := length (BaseBatchedSLCWAInstances.mapped_triples self) in
  let b := BaseBatchedSLCWAInstances.batch_size self in
  let m := range_len (split_workload n) in
  0 < b →
  BaseBatchedSLCWAInstances.drop_last self = false →
  randperm m ≡ₚ seq 0 m →
  BaseBatchedSLCWAInstances.__len__ self = inr ((Z.of_nat n + b - 1) `div` b)
  ∧ (m = 0%nat →
     BatchedSLCWAInstances.iter_triple_ids split_workload randperm self
     = inl (ValueError (InvalidNumSamples 0)))
  ∧ ((0 < m)%nat →
     ∃ batches,
       BatchedSLCWAInstances.iter_triple_ids split_workload randperm self = inr batches
       ∧ concat batches = randperm m
       ∧ (∀ i, (i < m)%nat → ∃ k batch, batches !! k = Some batch ∧ i ∈ batch)
       ∧ NoDup (concat batches)
       ∧ Z.of_nat (length batches) = (Z.of_nat m + b - 1) `div` b
       ∧ Forall (λ batch, 0 < Z.of_nat (length batch) ≤ b) batches
       ∧ (∀ k batch, batches !! k = Some batch → (S k < length batches)%nat →
            Z.of_nat (length batch) = b)).
Proof.
  intros n b m Hb Hdrop Hperm. split; [|split].
  - unfold BaseBatchedSLCWAInstances.__len__. fold n b.
    rewrite bool_decide_eq_false_2 by lia. rewrite Hdrop, andb_true_r.
    rewrite ceil_div_spec by lia. case_bool_decide; simpl; f_equal; lia.
  - intros Hm. unfold BatchedSLCWAInstances.iter_triple_ids, RandomSampler. fold n m.
    rewrite bool_decide_eq_true_2 by done. by rewrite Hm.
  - intros Hwork.
    unfold BatchedSLCWAInstances.iter_triple_ids, BatchSampler. fold n b m.
    rewrite (proj2 (RandomSampler_inr randperm (split_workload n) (randperm m)))
      by (by split).
    rewrite bind_ret_l.
    rewrite Hdrop, (proj2 (Z.leb_gt b 0)) by lia.
    eexists. split; [reflexivity|].
    destruct (batch_sampler_loop_keep (Z.to_nat b) [] (randperm m))
      as (Hcat & Hall & Hpos & Hlen); [simpl; lia|].
    assert (length (randperm m) = m) as Hm by (by rewrite Hperm, length_seq).
    simpl in Hcat, Hlen. rewrite Hm in Hlen.
    split; [done|]. split; [|split; [|split; [|split]]].
    + intros i Hi.
      assert (i ∈ concat (batch_sampler_loop (Z.to_nat b) false [] (randperm m))) as Hin.
      { rewrite Hcat, Hperm. apply elem_of_seq. lia. }
      apply elem_of_concat_1 in Hin as (batch & [k Hk]%list_elem_of_lookup & Hi').
      by exists k, batch.
    + rewrite Hcat, Hperm. apply NoDup_seq.
    + rewrite Hlen.
      replace (m + Z.to_nat b - 1)%nat with (Z.to_nat (Z.of_nat m + b - 1)) by lia.
      rewrite <- Z2Nat.inj_div by lia. rewrite Z2Nat.id; [done|].
      apply Z.div_pos; lia.
    + eapply Forall_impl; [exact Hall|]. simpl. intros batch. lia.
    + intros k batch Hk Hlast. rewrite (Hpos k batch Hk Hlast). lia.
Qed.

Lemma BatchedSLCWAInstances_keeps_last_witness :
  BaseBatchedSLCWAInstances.__len__ five_triples_kept = inr 3
  ∧ ∃ batches,
      BatchedSLCWAInstances.iter_triple_ids whole_workload descending five_triples_kept
      = inr batches
      ∧ concat batches = descending 5
      ∧ Z.of_nat (length batches) = 3.
Proof.
  destruct (BatchedSLCWAInstances_keeps_last whole_workload descending five_triples_kept)
    as (Hlen & _ & Hbatches).
  - simpl. lia.
  - reflexivity.
  - simpl. unfold descending. by rewrite reverse_Permutation.
  - destruct Hbatches as (batches & Hiter & Hcat & _ & _ & Hcount & _).
    { unfold range_len. simpl. lia. }
    split; [exact Hlen|]. exists batches. split; [exact Hiter|].
    split; [exact Hcat|exact Hcount].
Defined.

(** ** LCWA instances of any target *)

Lemma sum_indicator_filter {A} (P : A → Prop) `{∀ x, Decision (P x)} (l : list A) :
  sum_list_with (λ x, if decide (P x) then 1 else 0)%nat l = length (filter P l).
Proof.
  induction l as [|x l IH]; [done|]. rewrite filter_cons. simpl.
  destruct (decide (P x)); simpl; by rewrite IH.
Qed.

Lemma lcwa_entries_any (target : TargetColumn) (T : list triple) (u : list (Z * Z)) :
  zip (zip ((λ p, default 0%nat (fst <$> list_find (λ q, q = p) u))
              <$> (other_columns target <$> T))
           (Z.to_nat <$> (target_column target <$> T)))
      (replicate (length T) 1%nat)
  = (λ row, (default 0%nat (fst <$> list_find (λ q, q = other_columns target row) u),
             Z.to_nat (target_column target row), 1%nat)) <$> T.
Proof.
  rewrite replicate_length_fmap, <- !list_fmap_compose. apply zip3_fmap.
Qed.

Lemma lcwa_cell_any (target : TargetColumn) (T : list triple) (size : Z) (i j : nat)
    (p : Z * Z) :
  (∀ row, row ∈ T → 0 ≤ target_column target row < size) →
  sorted_unique pair_compare (other_columns target <$> T) !! i = Some p →
  sum_list_with (λ '(i', j', v), if decide (i' = i ∧ j' = j) then v else 0%nat)
    ((λ row,
        (default 0%nat
           (fst <$> list_find (λ q, q = other_columns target row)
                      (sorted_unique pair_compare (other_columns target <$> T))),
         Z.to_nat (target_column target row), 1%nat)) <$> T)
  = multiplicity target T p (Z.of_nat j).
Proof.
  intros Hrange Hi.
  set (u := sorted_unique pair_compare (other_columns target <$> T)) in *.
  assert (NoDup u) as Hu by apply (sorted_unique_NoDup pair_compare).
  unfold multiplicity. rewrite sum_list_with_fmap, <- sum_indicator_filter.
  apply sum_list_with_ext_elem. intros row Hrow. simpl.
  pose proof (Hrange _ Hrow) as Ht.
  assert (other_columns target row ∈ u) as Hin.
  { apply (elem_of_sorted_unique pair_compare), list_elem_of_fmap. by exists row. }
  apply list_elem_of_lookup in Hin as [i' Hi'].
  rewrite (unique_position u _ i' Hu Hi').
  destruct (decide (i' = i ∧ Z.to_nat (target_column target row) = j)) as [[-> <-]|Hne].
  - rewrite decide_True; [done|]. split; [congruence|lia].
  - rewrite decide_False; [done|]. intros [Hp Hj]. apply Hne. split.
    + rewrite <- Hp in Hi. by eapply NoDup_lookup.
    + lia.
Qed.

(** X22. [LCWAInstances.from_triples] for any target column and any triples,
    repeated ones included.  If the IDs of the target column lie below the
    size of the target axis (the number of relations for the relation
    target, else the number of entities), it returns instances whose pairs
    are the distinct combinations of the two other columns in ascending
    order, and whose compressed matrix has one row per pair and one column
    per target ID: the entry of a pair at a target ID is the number of the
    given triples with that pair and that target, so a repeated triple
    counts more than once, up to [2 ^ 24], where the sum of [float32] ones
    stays.  If the size is negative or a target ID lies outside
    [0..size-1], a [ValueError] is raised. *)
Theorem LCWAInstances_from_triples_counts
    (T : list triple) (ne nr : Z) (target : option TargetColumn) :
  let tc := get_target_column target in
  let size := target_size tc ne nr in
  (0 ≤ size → (∀ row, row ∈ T → 0 ≤ target_column tc row < size) →
   ∃ inst, LCWAInstances.from_triples T ne nr target = inr inst
     ∧ LCWAInstances.target inst = tc
     ∧ StronglySorted (cmp_lt pair_compare) (LCWAInstances.pairs inst)
     ∧ (∀ p, p ∈ LCWAInstances.pairs inst ↔ ∃ row, row ∈ T ∧ other_columns tc row = p)
     ∧ csr_shape (LCWAInstances.compressed inst)
       = (LCWAInstances.__len__ inst, Z.to_nat size)
     ∧ ∀ i p, LCWAInstances.pairs inst !! i = Some p →
         ∃ row, LCWAInstances.__getitem__target inst i = inr row
              ∧ length row = Z.to_nat size
              ∧ ∀ j, (j < Z.to_nat size)%nat →
                  ∃ entry, row !! j = Some entry
                         ∧ Z.of_nat entry
                           = Z.min (2 ^ 24)
                               (Z.of_nat (multiplicity tc T p (Z.of_nat j))))
  ∧ (size < 0 ∨ (∃ row, row ∈ T ∧ ¬ 0 ≤ target_column tc row < size) →
     ∃ d, LCWAInstances.from_triples T ne nr target = inl (ValueError d)).
Proof.
  cbv zeta. set (tc := get_target_column target). set (size := target_size tc ne nr).
  unfold LCWAInstances.from_triples, np_unique_inverse. fold tc.
  cbv zeta iota beta.
  change (match tc with COLUMN_RELATION => nr | _ => ne end) with size.
  set (u := sorted_unique pair_compare (other_columns tc <$> T)).
  assert (NoDup u) as Hu by apply (sorted_unique_NoDup pair_compare).
  set (inv := (λ p, default 0%nat (fst <$> list_find (λ q, q = p) u))
                <$> (other_columns tc <$> T)).
  assert (Forall (λ i, (length u <=? i)%nat = false) inv) as Hrows.
  { unfold inv. rewrite <- list_fmap_compose.
    apply Forall_fmap, Forall_forall. intros row Hrow. simpl.
    assert (other_columns tc row ∈ u) as Hin.
    { apply (elem_of_sorted_unique pair_compare), list_elem_of_fmap. by exists row. }
    apply list_elem_of_lookup in Hin as [i Hi].
    rewrite (unique_position u _ i Hu Hi).
    apply Nat.leb_gt. by eapply lookup_lt_Some. }
  split.
  - intros Hsize Hrange.
    assert (make_coo_matrix (replicate (length T) 1%nat) inv
              (target_column tc <$> T) (length u, size)
            = inr {| coo_shape := (length u, Z.to_nat size);
                     coo_row := inv;
                     coo_col := Z.to_nat <$> (target_column tc <$> T);
                     coo_data := replicate (length T) 1%nat |}) as ->.
    { unfold make_coo_matrix. simpl fst. simpl snd.
      rewrite (proj2 (Z.ltb_ge size 0)) by lia.
      rewrite (proj2 (existsb_false_Forall _ _)).
      2:{ apply Forall_fmap, Forall_forall. intros row Hrow. simpl.
          apply Z.ltb_ge. by apply (Hrange row). }
      rewrite (proj2 (existsb_false_Forall _ _)) by done.
      rewrite (proj2 (existsb_false_Forall _ _)).
      2:{ apply Forall_fmap, Forall_forall. intros row Hrow. simpl.
          apply Z.leb_gt. by apply (Hrange row). }
      done. }
    rewrite bind_ret_l. eexists. split; [reflexivity|].
    unfold LCWAInstances.__len__, LCWAInstances.__getitem__target, tocsr, dense_row.
    simpl.
    split; [done|].
    split; [apply (sorted_unique_sorted pair_compare)|].
    split.
    { intros p. unfold u.
      rewrite (elem_of_sorted_unique pair_compare), list_elem_of_fmap. split.
      - intros (row & -> & Hrow). by exists row.
      - intros (row & Hrow & <-). by exists row. }
    split; [done|].
    intros i p Hi.
    destruct (lookup_lt_is_Some_2
                (foldl csr_add (replicate (length u) ∅)
                   (zip (zip inv (Z.to_nat <$> (target_column tc <$> T)))
                      (replicate (length T) 1%nat))) i) as [row Hrow].
    { rewrite length_foldl_csr_add, length_replicate. by eapply lookup_lt_Some. }
    rewrite Hrow. eexists. split; [reflexivity|].
    split; [by rewrite length_fmap, length_seq|].
    intros j Hj. rewrite list_lookup_fmap, lookup_seq_lt by done. simpl.
    eexists. split; [reflexivity|].
    pose proof (lcwa_cell_any tc T size i j p Hrange Hi) as Hsum.
    fold u in Hsum. rewrite <- (lcwa_entries_any tc T u) in Hsum. fold inv in Hsum.
    pose proof (csr_cell_foldl
                  (zip (zip inv (Z.to_nat <$> (target_column tc <$> T)))
                     (replicate (length T) 1%nat))
                  (replicate (length u) ∅) i j) as Hcell.
    rewrite csr_cell_empty in Hcell. unfold csr_cell in Hcell at 1.
    rewrite Hrow in Hcell. cbn [mbind option_bind] in Hcell.
    rewrite Hsum in Hcell. rewrite Hcell.
    + lia.
    + rewrite length_replicate. by eapply lookup_lt_Some.
    + apply Forall_forall. intros [[i' j'] v] Hin.
      apply elem_of_zip_r in Hin. simpl. by apply elem_of_replicate in Hin as [-> _].
    + lia.
  - intros Hbad. unfold make_coo_matrix. simpl fst. simpl snd.
    destruct (size <? 0) eqn:Hsize; [by eexists|].
    destruct (existsb (λ j, j <? 0) (target_column tc <$> T)) eqn:Hneg; [by eexists|].
    rewrite (proj2 (existsb_false_Forall _ _)) by done.
    destruct (existsb (λ j, size <=? j) (target_column tc <$> T)) eqn:Hbig; [by eexists|].
    exfalso. apply Z.ltb_ge in Hsize.
    destruct Hbad as [?|(row & Hrow & Hout)]; [lia|]. apply Hout.
    apply existsb_false_Forall in Hneg, Hbig.
    rewrite Forall_fmap, Forall_forall in Hneg, Hbig.
    specialize (Hneg row Hrow). specialize (Hbig row Hrow). simpl in Hneg, Hbig.
    apply Z.ltb_ge in Hneg. apply Z.leb_gt in Hbig. lia.
Qed.

Lemma LCWAInstances_from_triples_counts_witness :
  (∃ inst, LCWAInstances.from_triples repeated_triples 3 2 (Some COLUMN_RELATION) = inr inst
     ∧ LCWAInstances.pairs inst = [(0, 2); (1, 2)]
     ∧ LCWAInstances.__getitem__target inst 0 = inr [1; 2]%nat)
  ∧ ∃ d, LCWAInstances.from_triples repeated_triples 3 1 (Some COLUMN_RELATION)
         = inl (ValueError d).
Proof.
  split.
  - destruct (proj1 (LCWAInstances_from_triples_counts repeated_triples 3 2
                       (Some COLUMN_RELATION)))
      as (inst & Hinst & _).
    + simpl. lia.
    + intros row. unfold repeated_triples. rewrite !elem_of_cons, elem_of_nil.
      intros [->|[->|[->|[->|[]]]]]; simpl; lia.
    + exists inst. split; [exact Hinst|].
      vm_compute in Hinst. injection Hinst as <-. by vm_compute.
  - apply (proj2 (LCWAInstances_from_triples_counts repeated_triples 3 1
                    (Some COLUMN_RELATION))).
    right. exists (0, 1, 2). split; [|simpl; lia].
    unfold repeated_triples. left.
Defined.

(** ** Sampling a subgraph *)

Lemma retry_returns_unpicked adj_list chosen_node_degree edge_picked rand fuel k edge e :
  SubGraphSLCWAInstances.retry adj_list chosen_node_degree edge_picked rand fuel k edge
  = Some (inr e) →
  edge_picked !! e.1 = Some false.
Proof.
  revert k edge. induction fuel as [|fuel IH]; intros k edge;
    cbn [SubGraphSLCWAInstances.retry];
    destruct (edge_picked !! edge.1) as [[|]|] eqn:Hedge; try done.
  - by intros [= <-].
  - destruct (SubGraphSLCWAInstances.draw_edge _ _ _ _) as [?|edge']; [done|]. apply IH.
  - by intros [= <-].
Qed.

Lemma sample_edge_returns_unpicked adj_list chosen_node_degree edge_picked rand fuel e :
  SubGraphSLCWAInstances.sample_edge adj_list chosen_node_degree edge_picked rand fuel
  = Some (inr e) →
  edge_picked !! e.1 = Some false.
Proof.
  unfold SubGraphSLCWAInstances.sample_edge.
  destruct (SubGraphSLCWAInstances.draw_edge _ _ _ _) as [?|edge]; [done|].
  apply retry_returns_unpicked.
Qed.

Lemma setitem_inr {A} (t : list A) (i : nat) (v : A) (t' : list A) :
  SubGraphSLCWAInstances.setitem t i v = inr t' → t' = <[i := v]> t.
Proof.
  unfold SubGraphSLCWAInstances.setitem. case_bool_decide; [|done]. by intros [= <-].
Qed.

Lemma sample_step_picks degrees offset neighbors rand fuel chosen_vertex s s' :
  SubGraphSLCWAInstances.sample_step degrees offset neighbors rand fuel chosen_vertex s
  = Some (inr s') →
  ∃ e, SubGraphSLCWAInstances.edge_picked s !! e = Some false
     ∧ SubGraphSLCWAInstances.result_ids s' = SubGraphSLCWAInstances.result_ids s ++ [e]
     ∧ SubGraphSLCWAInstances.edge_picked s'
       = <[e := true]> (SubGraphSLCWAInstances.edge_picked s).
Proof.
  unfold SubGraphSLCWAInstances.sample_step.
  destruct (SubGraphSLCWAInstances.visit_vertex _ _ _ _ _)
    as [?|[[node_picked adj_list] chosen_node_degree]]; [done|].
  destruct (SubGraphSLCWAInstances.sample_edge _ _ _ _ _) as [[?|edge]|] eqn:Hedge;
    [done| |done].
  apply sample_edge_returns_unpicked in Hedge.
  intros [= Hpick]. unfold SubGraphSLCWAInstances.pick_edge in Hpick.
  apply bind_inr in Hpick as (ep & Hep%setitem_inr & Hpick).
  apply bind_inr in Hpick as (np & _ & Hpick).
  apply bind_inr in Hpick as (nw & _ & Hpick).
  apply bind_inr in Hpick as (nw' & _ & [= <-]).
  exists edge.1. simpl. by subst ep.
Qed.

Lemma picked_are_results_step (num_triples : nat) (s s' : SubGraphSLCWAInstances.state)
    (e : nat) :
  picked_are_results num_triples s →
  SubGraphSLCWAInstances.edge_picked s !! e = Some false →
  SubGraphSLCWAInstances.result_ids s' = SubGraphSLCWAInstances.result_ids s ++ [e] →
  SubGraphSLCWAInstances.edge_picked s'
  = <[e := true]> (SubGraphSLCWAInstances.edge_picked s) →
  picked_are_results num_triples s'.
Proof.
  intros (Hlen & Hnodup & Hiff) He Hres Hep. unfold picked_are_results.
  rewrite Hres, Hep. split; [by rewrite length_insert|]. split.
  - apply NoDup_app. split; [done|]. split; [|apply NoDup_singleton].
    intros e' He' ->%list_elem_of_singleton. apply Hiff in He'. congruence.
  - intros e'. rewrite elem_of_app, list_elem_of_singleton, Hiff.
    destruct (decide (e' = e)) as [->|Hne].
    + rewrite list_lookup_insert_eq by (by eapply lookup_lt_Some).
      split; [done|by right].
    + rewrite list_lookup_insert_ne by done. split; [by intros [?|?]|by left].
Qed.

Lemma sample_loop_invariant torch_multinomial degrees offset neighbors num_triples
    vertex_rand edge_rand fuel iterations k s s' :
  picked_are_results num_triples s →
  SubGraphSampling.sample_loop torch_multinomial degrees offset neighbors vertex_rand
    edge_rand fuel iterations k s = Some (inr s') →
  picked_are_results num_triples s'
  ∧ length (SubGraphSLCWAInstances.result_ids s')
    = (length (SubGraphSLCWAInstances.result_ids s) + iterations)%nat.
Proof.
  revert k s. induction iterations as [|iterations IH]; intros k s Hinv;
    cbn [SubGraphSampling.sample_loop].
  - intros [= <-]. split; [done|lia].
  - destruct (SubGraphSampling.choose_vertex _ _ _) as [?|chosen_vertex]; [done|].
    destruct (SubGraphSLCWAInstances.sample_step _ _ _ _ _ _ _) as [[?|s1]|] eqn:Hstep;
      [done| |done].
    apply sample_step_picks in Hstep as (e & He & Hres & Hep).
    intros Hloop. apply IH in Hloop as [Hinv' Hlen].
    + split; [done|]. rewrite Hlen, Hres, length_app. simpl. lia.
    + by eapply picked_are_results_step.
Qed.

Lemma NoDup_below_length (l : list nat) (n : nat) :
  NoDup l → (∀ e, e ∈ l → (e < n)%nat) → (length l ≤ n)%nat.
Proof.
  intros Hnodup Hbelow. trans (length (seq 0 n)); [|by rewrite length_seq].
  apply submseteq_length, NoDup_submseteq; [done|].
  intros e He. apply elem_of_seq. specialize (Hbelow e He). lia.
Qed.

(** X23. Whatever vertices and edges are drawn, a call of [subgraph_sample]
    that returns, returns as many edge numbers as the batch size asks for,
    all of them below the number of triples and no edge twice.  So for a
    batch size above the number of triples the call never returns: it
    raises or its rejection sampling runs forever. *)
Theorem subgraph_sample_distinct
    (torch_multinomial : list Z → nat → result nat) (degrees offset : list nat)
    (neighbors : list (nat * nat)) (num_triples : nat) (batch_size : Z)
    (vertex_rand : nat → nat) (edge_rand : nat → nat → nat) (fuel : nat) :
  (∀ result,
     SubGraphSampling.subgraph_sample torch_multinomial degrees offset neighbors
       num_triples batch_size vertex_rand edge_rand fuel = Some (inr result) →
     Z.of_nat (length result) = Z.max 0 batch_size
     ∧ NoDup result
     ∧ ∀ e, e ∈ result → (e < num_triples)%nat)
  ∧ (Z.of_nat num_triples < batch_size →
     ∀ result,
       SubGraphSampling.subgraph_sample torch_multinomial degrees offset neighbors
         num_triples batch_size vertex_rand edge_rand fuel ≠ Some (inr result)).
Proof.
  assert (∀ result,
     SubGraphSampling.subgraph_sample torch_multinomial degrees offset neighbors
       num_triples batch_size vertex_rand edge_rand fuel = Some (inr result) →
     Z.of_nat (length result) = Z.max 0 batch_size
     ∧ NoDup result
     ∧ ∀ e, e ∈ result → (e < num_triples)%nat) as Hreturns.
  { intros result. unfold SubGraphSampling.subgraph_sample.
    destruct (SubGraphSampling.sample_loop _ _ _ _ _ _ _ _ _ _) as [[?|s]|] eqn:Hloop;
      [done| |done].
    intros [= <-].
    apply (sample_loop_invariant _ _ _ _ num_triples) in Hloop
      as [(Hlen & Hnodup & Hiff) Hcount].
    - split; [simpl in Hcount; lia|]. split; [done|].
      intros e He%Hiff. apply lookup_lt_Some in He. lia.
    - unfold picked_are_results, SubGraphSampling.initial_state. simpl.
      split; [apply length_replicate|]. split; [apply NoDup_nil_2|].
      intros e. split; [by intros ?%elem_of_nil|].
      intros [? _]%lookup_replicate. done. }
  split; [done|].
  intros Hlarge result Hresult. apply Hreturns in Hresult as (Hlen & Hnodup & Hbelow).
  pose proof (NoDup_below_length result num_triples Hnodup Hbelow). lia.
Qed.

Lemma subgraph_sample_distinct_witness :
  SubGraphSampling.subgraph_sample first_positive path_degrees path_offset path_neighbors
    2 2 (λ k, k) (λ _ k, k) 3 = Some (inr [0; 1]%nat)
  ∧ NoDup [0; 1]%nat
  ∧ ∀ result,
      SubGraphSampling.subgraph_sample first_positive path_degrees path_offset
        path_neighbors 2 3 (λ k, k) (λ _ k, k) 3 ≠ Some (inr result).
Proof.
  split; [by vm_compute|]. split.
  - apply (proj1 (subgraph_sample_distinct first_positive path_degrees path_offset
                    path_neighbors 2 2 (λ k, k) (λ _ k, k) 3) [0; 1]%nat).
    by vm_compute.
  - apply (proj2 (subgraph_sample_distinct first_positive path_degrees path_offset
                    path_neighbors 2 3 (λ k, k) (λ _ k, k) 3)).
    lia.
Defined.

(** * Properties of the comparison of splits *)

Lemma size_list_to_set_le (rows : list triple) :
  (size (list_to_set rows : gset triple) ≤ length rows)%nat.
Proof.
  induction rows as [|row rows IH].
  - by rewrite list_to_set_nil, size_empty.
  - rewrite list_to_set_cons, size_union_alt, size_singleton. cbn [length].
    assert (list_to_set rows ∖ {[row]} ⊆ (list_to_set rows : gset triple)) as Hsub
      by apply subseteq_difference_l, reflexivity.
    apply subseteq_size in Hsub. lia.
Qed.

Section symmetric_difference.
Context (A B C : gset triple).

Lemma symmetric_difference_comm : A ∖ B ∪ B ∖ A = B ∖ A ∪ A ∖ B.
Proof. apply set_eq. intros x. rewrite !elem_of_union. tauto. Qed.

Lemma symmetric_difference_empty :
  size (A ∖ B ∪ B ∖ A) = 0%nat ↔ ∀ x, x ∈ A ↔ x ∈ B.
Proof.
  rewrite size_empty_iff. split.
  - intros Hempty x.
    assert (x ∉ A ∖ B ∪ B ∖ A) as Hx by (rewrite Hempty; apply not_elem_of_empty).
    rewrite elem_of_union, !elem_of_difference in Hx.
    destruct (decide (x ∈ A)), (decide (x ∈ B)); tauto.
  - intros Hsame x. rewrite elem_of_union, !elem_of_difference, Hsame.
    split; [by intros [[? ?]|[? ?]]|by intros ?%elem_of_empty].
Qed.

Lemma symmetric_difference_bound : (size (A ∖ B ∪ B ∖ A) ≤ size A + size B)%nat.
Proof.
  rewrite size_union_alt.
  assert (A ∖ B ⊆ A) as H1 by apply subseteq_difference_l, reflexivity.
  assert ((B ∖ A) ∖ (A ∖ B) ⊆ B) as H2
    by (do 2 apply subseteq_difference_l; reflexivity).
  apply subseteq_size in H1, H2. lia.
Qed.

Lemma symmetric_difference_triangle :
  (size (A ∖ C ∪ C ∖ A) ≤ size (A ∖ B ∪ B ∖ A) + size (B ∖ C ∪ C ∖ B))%nat.
Proof.
  assert (A ∖ C ∪ C ∖ A ⊆ (A ∖ B ∪ B ∖ A) ∪ (B ∖ C ∪ C ∖ B)) as H1.
  { intros x. rewrite !elem_of_union, !elem_of_difference.
    destruct (decide (x ∈ B)); tauto. }
  apply subseteq_size in H1. rewrite (size_union_alt (A ∖ B ∪ B ∖ A)) in H1.
  assert ((B ∖ C ∪ C ∖ B) ∖ (A ∖ B ∪ B ∖ A) ⊆ B ∖ C ∪ C ∖ B) as H2
    by apply subseteq_difference_l, reflexivity.
  apply subseteq_size in H2. lia.
Qed.

End symmetric_difference.

(** X24. [splits_steps] raises a [ValueError] for sequences of different
    lengths and an [IndexError] for two empty sequences.  Otherwise it
    compares only the first factories, as sets of triples: the number of
    steps is a distance between the sets of their rows.  It is zero exactly
    when the two training factories have the same rows, whatever their order
    and repetitions and whatever the other factories are; it is symmetric,
    obeys the triangle inequality and is at most the number of triples of the
    two training factories together. *)
Theorem splits_steps_metric (triple_tensor_to_set : list triple → gset triple) :
  (∀ rows row, row ∈ triple_tensor_to_set rows ↔ row ∈ rows) →
  (∀ a b, length a ≠ length b →
     splits_steps triple_tensor_to_set a b
     = inl (Later ValueErrorClass DifferentNumberOfFactories))
  ∧ splits_steps triple_tensor_to_set [] [] = inl (Later IndexErrorClass NoFactory)
  ∧ (∀ a0 b0 c0 a b c, length a = length b → length b = length c →
       ∃ dab dba dbc dac,
         splits_steps triple_tensor_to_set (a0 :: a) (b0 :: b) = inr dab
         ∧ splits_steps triple_tensor_to_set (b0 :: b) (a0 :: a) = inr dba
         ∧ splits_steps triple_tensor_to_set (b0 :: b) (c0 :: c) = inr dbc
         ∧ splits_steps triple_tensor_to_set (a0 :: a) (c0 :: c) = inr dac
         ∧ dab = dba
         ∧ (dab = 0%nat ↔ ∀ row, row ∈ CoreTriplesFactory.mapped_triples a0
                                 ↔ row ∈ CoreTriplesFactory.mapped_triples b0)
         ∧ (dac ≤ dab + dbc)%nat
         ∧ (dab ≤ CoreTriplesFactory.num_triples a0 + CoreTriplesFactory.num_triples b0)%nat).
Proof.
  intros Hset. split; [|split].
  - intros a b Hne. unfold splits_steps. by rewrite bool_decide_eq_true_2.
  - done.
  - intros a0 b0 c0 a b c Hab Hbc. unfold splits_steps. simpl.
    rewrite !bool_decide_eq_false_2 by lia.
    eexists _, _, _, _. do 4 (split; [reflexivity|]).
    split; [|split; [|split]].
    + f_equal. apply symmetric_difference_comm.
    + rewrite symmetric_difference_empty. by setoid_rewrite Hset.
    + apply symmetric_difference_triangle.
    + unfold CoreTriplesFactory.num_triples. simpl.
      assert (∀ rows, size (triple_tensor_to_set rows) ≤ length rows)%nat as Hle.
      { intros rows.
        assert (triple_tensor_to_set rows = list_to_set rows) as ->.
        { apply set_eq. intros row. by rewrite Hset, elem_of_list_to_set. }
        apply size_list_to_set_le. }
      etrans; [apply symmetric_difference_bound|].
      apply Nat.add_le_mono; apply Hle.
Qed.

Lemma splits_steps_metric_witness :
  splits_steps rows_to_set [restricted_factory] [restricted_factory; larger_factory]
  = inl (Later ValueErrorClass DifferentNumberOfFactories)
  ∧ splits_steps rows_to_set [restricted_factory; larger_factory]
      [larger_factory; restricted_factory] = inr 3%nat.
Proof.
  assert (∀ rows row, row ∈ rows_to_set rows ↔ row ∈ rows) as Hset
    by (intros rows row; apply elem_of_list_to_set).
  split.
  - by apply (proj1 (splits_steps_metric rows_to_set Hset)).
  - destruct (proj2 (proj2 (splits_steps_metric rows_to_set Hset))
                restricted_factory larger_factory restricted_factory
                [larger_factory] [restricted_factory] [larger_factory] eq_refl eq_refl)
      as (dab & _ & _ & _ & Hab & _).
    rewrite Hab. vm_compute in Hab. by injection Hab as <-.
Defined.

(** * Properties of the inductive split *)

Lemma rank_contiguous_id (x : list Z) (v : Z) : contiguous x → v ∈ x → rank x v = v.
Proof.
  intros [k Hk] Hv. apply (rank_contiguous x k); [|done].
  apply unique_ids_contiguous. intros w. rewrite Hk, elem_of_seqZ. lia.
Qed.

Lemma condensed_row_contiguous (T part : list triple) :
  contiguous (TripleCondenser.head_tail_columns T) →
  Forall (covered T true false) part →
  condensed_row T true false <$> part = part.
Proof.
  intros Hcont Hcov. rewrite <- (list_fmap_id part) at 2.
  apply list_fmap_ext. intros _ [[h r] t] Hrow%list_elem_of_lookup_2.
  rewrite Forall_forall in Hcov. destruct (Hcov _ Hrow) as [[Hh Ht] _]; [done|].
  unfold condensed_row. by rewrite !rank_contiguous_id.
Qed.

Lemma covered_self (T : list triple) (entities relations : bool) :
  Forall (covered T entities relations) T.
Proof.
  apply Forall_forall. intros [[h r] t] Hin. split.
  - intros _. split; apply elem_of_head_tail_columns; exists h, r, t; auto.
  - intros _. apply elem_of_relation_column. eauto.
Qed.

(** The condenser made from the triples [T], applied to a constructed
    factory whose entities occur in [T]. *)
Lemma apply_condenser_made (T : list triple) :
  Forall row_nonneg T →
  ∃ c, TripleCondenser.make T true false = inr c
     ∧ ∀ tf, well_formed tf →
         int64 (Z.of_nat (length (unique_ids (TripleCondenser.head_tail_columns T)))) →
         int64 (CoreTriplesFactory.num_relations tf) →
         Forall (covered T true false) (CoreTriplesFactory.mapped_triples tf) →
         ∃ tf', CoreCondensation.apply_condenser tf c = inr tf'
              ∧ CoreTriplesFactory.mapped_triples tf'
                = condensed_row T true false <$> CoreTriplesFactory.mapped_triples tf
              ∧ CoreTriplesFactory.create_inverse_triples tf'
                = CoreTriplesFactory.create_inverse_triples tf
              ∧ CoreTriplesFactory.metadata tf' = CoreTriplesFactory.metadata tf
              ∧ (contiguous (TripleCondenser.head_tail_columns T) → tf' = tf)
              ∧ (¬ contiguous (TripleCondenser.head_tail_columns T) →
                 CoreTriplesFactory.num_entities tf'
                 = Z.of_nat (length (unique_ids (TripleCondenser.head_tail_columns T)))
                 ∧ CoreTriplesFactory.real_num_relations tf'
                   = CoreTriplesFactory.num_relations tf).
Proof.
  intros Hnonneg.
  destruct (TripleCondenser_make_call T true false Hnonneg)
    as (c & Hc & Hbe & Hbr & Hnume & Hnumr & Hcall).
  exists c. split; [done|]. intros tf Hwf Hcount Hfits Hcov.
  assert (Condenser.__bool__ (TripleCondenser.relations c) = false) as Hbr'.
  { destruct (Condenser.__bool__ (TripleCondenser.relations c)); [|done].
    by destruct (proj1 Hbr eq_refl). }
  unfold CoreCondensation.apply_condenser, TripleCondenser.__bool__.
  destruct (Condenser.__bool__ (TripleCondenser.entities c)) eqn:Hbe'.
  - assert (¬ contiguous (TripleCondenser.head_tail_columns T)) as Hgap
      by (by apply Hbe).
    cbn [orb negb]. rewrite (Hcall _ Hcov), bind_ret_l.
    rewrite Hnume, Hbe', bind_ret_l, Hnumr, Hbr', bind_ret_l.
    rewrite CoreTriplesFactory_init_long; [| |done|done].
    + eexists. split; [done|]. simpl. by repeat split.
    + apply ids_in_range_spec, Forall_fmap, Forall_forall.
      intros [[h r] t] Hin. simpl.
      pose proof (proj1 Hwf) as Hrel.
      pose proof (well_formed_rows _ Hwf) as Hvalid. rewrite Forall_forall in Hvalid.
      pose proof (Hvalid _ Hin) as Hrow. simpl in Hrow.
      rewrite Forall_forall in Hcov. destruct (Hcov _ Hin) as [[Hh Ht] _]; [done|].
      pose proof (proj1 (rank_image _ (rank _ h)) ltac:(apply list_elem_of_fmap; eauto)).
      pose proof (proj1 (rank_image _ (rank _ t)) ltac:(apply list_elem_of_fmap; eauto)).
      split; [lia|]. split; [|lia].
      rewrite Hrel. unfold KGInfo.num_relations.
      destruct (CoreTriplesFactory.create_inverse_triples tf); lia.
  - rewrite Hbr'. cbn [orb negb]. exists tf. split; [done|]. split.
    + pose proof (Hcall _ Hcov) as Hsame.
      unfold TripleCondenser.__call__, TripleCondenser.__bool__ in Hsame.
      rewrite Hbe', Hbr' in Hsame. cbn [orb negb] in Hsame. by injection Hsame.
    + do 3 (split; [done|]). intros Hgap.
      discriminate (proj2 Hbe (conj eq_refl Hgap)).
Qed.

Lemma ids_in_range_subset (rows part : list triple) (ne nr : Z) :
  part ⊆ rows → ids_in_range rows ne nr = true →
  ids_in_range part ne nr = true.
Proof.
  rewrite !ids_in_range_spec, !Forall_forall. intros Hsub Hrows row Hrow.
  by apply Hrows, Hsub.
Qed.

Lemma mapM_result_spec {A B} (f : A → result B) (P : A → B → Prop) (l : list A) :
  Forall (λ x, ∃ y, f x = inr y ∧ P x y) l →
  ∃ ys, mapM_result f l = inr ys ∧ Forall2 (λ y x, P x y) ys l.
Proof.
  induction 1 as [|x l (y & Hy & HP) _ (ys & Hys & Hall)]; simpl.
  - exists []. split; [done|constructor].
  - rewrite Hy, bind_ret_l, Hys, bind_ret_l. exists (y :: ys). split; [done|].
    by constructor.
Qed.

(** X25. [split_fully_inductive] of a constructed factory of the base class
    raises a [ValueError] when the splitting routine returns fewer than two
    parts.  When it returns training, inference and evaluation parts made of
    triples of the factory, and every entity of the evaluation parts occurs
    in the inference part, the call returns one factory per part: the
    training triples are condensed by the training entities, and the
    inference and every evaluation part are condensed by the entities of the
    inference part, so that an entity has the same new ID in all of them and
    they declare the same number of entities; the evaluation factories have
    [create_inverse_triples=False], the two others the flag of the
    factory.  (The relation count of the factory, inverse relations
    included, is taken within 64 bits: a condensed factory gets it as its
    number of real relations.) *)
Theorem split_fully_inductive_condenses {split_args : Type}
    (splitting_split_fully_inductive : list triple → split_args → result (list (list triple)))
    (self : CoreTriplesFactory.t) (args : split_args) :
  well_formed self →
  (∀ parts,
     splitting_split_fully_inductive (CoreTriplesFactory.mapped_triples self) args
     = inr parts →
     (length parts < 2)%nat →
     CoreInductiveSplit.split_fully_inductive splitting_split_fully_inductive self args
     = inl (Later ValueErrorClass (NotEnoughValues 2 (length parts))))
  ∧ (∀ training inference evaluation,
       splitting_split_fully_inductive (CoreTriplesFactory.mapped_triples self) args
       = inr (training :: inference :: evaluation) →
       Forall (λ part, part ⊆ CoreTriplesFactory.mapped_triples self)
         (training :: inference :: evaluation) →
       Forall (Forall (covered inference true false)) evaluation →
       int64 (CoreTriplesFactory.num_relations self) →
       ∃ training_tf inference_tf evaluation_tfs,
         CoreInductiveSplit.split_fully_inductive splitting_split_fully_inductive self args
         = inr (training_tf :: inference_tf :: evaluation_tfs)
         ∧ CoreTriplesFactory.mapped_triples training_tf
           = condensed_row training true false <$> training
         ∧ CoreTriplesFactory.mapped_triples inference_tf
           = condensed_row inference true false <$> inference
         ∧ CoreTriplesFactory.create_inverse_triples training_tf
           = CoreTriplesFactory.create_inverse_triples self
         ∧ CoreTriplesFactory.create_inverse_triples inference_tf
           = CoreTriplesFactory.create_inverse_triples self
         ∧ (¬ contiguous (TripleCondenser.head_tail_columns inference) →
            CoreTriplesFactory.num_entities inference_tf
            = Z.of_nat (length (unique_ids (TripleCondenser.head_tail_columns inference))))
         ∧ Forall2
             (λ tf part,
                CoreTriplesFactory.mapped_triples tf
                = condensed_row inference true false <$> part
                ∧ CoreTriplesFactory.create_inverse_triples tf = false
                ∧ CoreTriplesFactory.num_entities tf
                  = CoreTriplesFactory.num_entities inference_tf)
             evaluation_tfs evaluation).
Proof.
  intros Hwf. split.
  - intros parts Hparts Hlen. unfold CoreInductiveSplit.split_fully_inductive.
    rewrite Hparts. simpl. destruct parts as [|a [|b rest]]; simpl in *; [done|done|lia].
  - intros training inference evaluation Hparts Hsub Hcov Hfits.
    apply Forall_cons in Hsub as [Hsub_t Hsub].
    apply Forall_cons in Hsub as [Hsub_i Hsub_e].
    pose proof (well_formed_nonneg self Hwf) as Hnonneg.
    destruct (well_formed_int64 self Hwf) as [Hne64 Hnr64].
    assert (∀ part, part ⊆ CoreTriplesFactory.mapped_triples self →
              Forall row_nonneg part
              ∧ ids_in_range part (CoreTriplesFactory.num_entities self)
                  (CoreTriplesFactory.real_num_relations self) = true
              ∧ int64 (Z.of_nat (length (unique_ids
                                           (TripleCondenser.head_tail_columns part)))))
      as Hpart.
    { intros part Hpart. split; [|split].
      - rewrite Forall_forall in Hnonneg |- *. intros row Hrow. by apply Hnonneg, Hpart.
      - eapply ids_in_range_subset; [done|]. by apply well_formed_ids.
      - eapply int64_bounded; [|exact Hne64]. apply unique_ids_length_bound.
        intros v (h & r & t & Hin & Hv)%elem_of_head_tail_columns.
        pose proof (well_formed_rows self Hwf) as Hrows. rewrite Forall_forall in Hrows.
        pose proof (Hrows _ (Hpart _ Hin)) as Hrow. simpl in Hrow.
        destruct Hv; subst; lia. }
    assert (∀ part civ f,
              civ ≠ Some true →
              CoreTriplesFactory.clone_and_exchange_triples self (long_tensor part)
                None true civ = inr f →
              int64 (CoreTriplesFactory.num_relations f)) as Hclone_fits.
    { intros part civ f Hciv Hf.
      apply clone_and_exchange_triples_inr in Hf as (_ & _ & _ & -> & _).
      pose proof (proj1 Hwf) as Hrel. rewrite Hrel in Hfits.
      unfold KGInfo.num_relations in Hfits |- *. unfold int64 in *.
      destruct civ as [[]|], (CoreTriplesFactory.create_inverse_triples self);
        simpl; (done || lia). }
    unfold CoreInductiveSplit.split_fully_inductive. rewrite Hparts.
    cbn [lift]. rewrite outcome_bind_ret_l.
    (* the training factory *)
    destruct (Hpart training Hsub_t) as (Hnn_t & Hvalid_t & Hcount_t).
    destruct (clone_and_exchange_triples_long self training None true None Hwf Hvalid_t)
      as (f_t & Hf_t & Hrows_t & Hciv_t).
    pose proof (clone_and_exchange_triples_well_formed _ _ _ _ _ _ Hf_t) as Hwf_t.
    destruct (apply_condenser_made training Hnn_t) as (c_t & Hc_t & Happ_t).
    destruct (Happ_t f_t Hwf_t Hcount_t (Hclone_fits training None f_t ltac:(done) Hf_t))
      as (training_tf & Htf_t & Hmapped_t & Hflag_t & _).
    { rewrite Hrows_t. apply covered_self. }
    rewrite Hf_t, bind_ret_l.
    unfold CoreCondensation.condense, CoreCondensation.make_condenser.
    rewrite Hrows_t, Hc_t, bind_ret_l, Htf_t. cbn [lift]. rewrite outcome_bind_ret_l.
    (* the condenser of the inference part and the inference factory *)
    destruct (Hpart inference Hsub_i) as (Hnn_i & Hvalid_i & Hcount_i).
    destruct (apply_condenser_made inference Hnn_i) as (c_i & Hc_i & Happ_i).
    rewrite Hc_i. cbn [lift]. rewrite outcome_bind_ret_l.
    destruct (clone_and_exchange_triples_long self inference None true None Hwf Hvalid_i)
      as (f_i & Hf_i & Hrows_i & Hciv_i).
    pose proof (clone_and_exchange_triples_well_formed _ _ _ _ _ _ Hf_i) as Hwf_i.
    pose proof (clone_and_exchange_triples_inr _ _ _ _ _ _ Hf_i) as (Hne_i & _).
    destruct (Happ_i f_i Hwf_i Hcount_i (Hclone_fits inference None f_i ltac:(done) Hf_i))
      as (inference_tf & Htf_i & Hmapped_i & Hflag_i & _ & Hsame_i & Hgap_i).
    { rewrite Hrows_i. apply covered_self. }
    rewrite Hf_i, bind_ret_l, Htf_i. cbn [lift]. rewrite outcome_bind_ret_l.
    (* the evaluation factories *)
    destruct (mapM_result_spec
                (λ mapped_triples,
                   tf ← CoreTriplesFactory.clone_and_exchange_triples self
                          (long_tensor mapped_triples) None true (Some false);
                   CoreCondensation.apply_condenser tf c_i)
                (λ part tf,
                   CoreTriplesFactory.mapped_triples tf
                   = condensed_row inference true false <$> part
                   ∧ CoreTriplesFactory.create_inverse_triples tf = false
                   ∧ CoreTriplesFactory.num_entities tf
                     = CoreTriplesFactory.num_entities inference_tf)
                evaluation) as (evaluation_tfs & Heval & Hall).
    { apply Forall_forall. intros part Hin.
      rewrite Forall_forall in Hsub_e, Hcov.
      destruct (Hpart part (Hsub_e part Hin)) as (Hnn_e & Hvalid_e & _).
      destruct (clone_and_exchange_triples_long self part None true (Some false)
                  Hwf Hvalid_e)
        as (f_e & Hf_e & Hrows_e & Hciv_e).
      pose proof (clone_and_exchange_triples_well_formed _ _ _ _ _ _ Hf_e) as Hwf_e.
      pose proof (clone_and_exchange_triples_inr _ _ _ _ _ _ Hf_e) as (Hne_e & _).
      destruct (Happ_i f_e Hwf_e Hcount_i (Hclone_fits part (Some false) f_e ltac:(done) Hf_e))
        as (tf_e & Htf_e & Hmapped_e & Hflag_e & _ & Hsame_e & Hgap_e).
      { rewrite Hrows_e. by apply Hcov. }
      exists tf_e. rewrite Hf_e, bind_ret_l. split; [done|].
      split; [by rewrite Hmapped_e, Hrows_e|]. split; [by rewrite Hflag_e, Hciv_e|].
      destruct (Condenser.__bool__ (TripleCondenser.entities c_i)) eqn:Hbool.
      - assert (¬ contiguous (TripleCondenser.head_tail_columns inference)) as Hgap.
        { intros Hcont. pose proof (Hsame_i Hcont) as ->.
          unfold CoreCondensation.apply_condenser, TripleCondenser.__bool__ in Htf_i.
          rewrite Hbool in Htf_i. cbn [orb negb] in Htf_i.
          destruct (TripleCondenser_make_call inference true false Hnn_i)
            as (c & Hc & Hbe & _).
          assert (c = c_i) as -> by congruence.
          by destruct (proj1 Hbe Hbool) as [_ []]. }
        destruct (Hgap_i Hgap) as [-> _]. by destruct (Hgap_e Hgap) as [-> _].
      - destruct (TripleCondenser_make_call inference true false Hnn_i)
          as (c & Hc & Hbe & Hbr & _).
        assert (c = c_i) as -> by congruence.
        assert (Condenser.__bool__ (TripleCondenser.relations c_i) = false) as Hbr'.
        { destruct (Condenser.__bool__ (TripleCondenser.relations c_i)); [|done].
          by destruct (proj1 Hbr eq_refl). }
        unfold CoreCondensation.apply_condenser, TripleCondenser.__bool__ in Htf_i, Htf_e.
        rewrite Hbool, Hbr' in Htf_i, Htf_e. cbn [orb negb] in Htf_i, Htf_e.
        injection Htf_i as <-. injection Htf_e as <-. congruence. }
    rewrite Heval. cbn [lift]. rewrite outcome_bind_ret_l.
    exists training_tf, inference_tf, evaluation_tfs. split; [done|].
    split; [by rewrite Hmapped_t, Hrows_t|]. split; [by rewrite Hmapped_i, Hrows_i|].
    split; [by rewrite Hflag_t, Hciv_t|]. split; [by rewrite Hflag_i, Hciv_i|].
    split; [|done]. intros Hgap. by destruct (Hgap_i Hgap).
Qed.

Lemma split_fully_inductive_condenses_witness :
  ∃ training_tf inference_tf evaluation_tf,
    CoreInductiveSplit.split_fully_inductive inductive_parts inductive_factory ()
    = inr [training_tf; inference_tf; evaluation_tf]
    ∧ CoreTriplesFactory.mapped_triples inference_tf = [(0, 1, 1); (1, 0, 0)]
    ∧ CoreTriplesFactory.mapped_triples evaluation_tf = [(0, 0, 0)]
    ∧ CoreTriplesFactory.num_entities evaluation_tf
      = CoreTriplesFactory.num_entities inference_tf.
Proof.
  destruct (proj2 (split_fully_inductive_condenses inductive_parts inductive_factory ()
                     ltac:(by split))
              [(0, 0, 1); (1, 0, 2)] [(3, 1, 5); (5, 0, 3)] [[(3, 0, 3)]] eq_refl)
    as (training_tf & inference_tf & evaluation_tfs & Hsplit & _ & Hinf & _ & _ & _ & Heval).
  - apply Forall_cons; split; [|apply Forall_cons; split;
                                   [|apply Forall_cons; split; [|apply Forall_nil_2]]];
      intros row; unfold inductive_factory; simpl;
      rewrite !elem_of_cons, !elem_of_nil; tauto.
  - apply Forall_cons; split; [|apply Forall_nil_2].
    apply Forall_cons; split; [|apply Forall_nil_2].
    split; [|done]. intros _. split; apply (bool_decide_unpack _); by vm_compute.
  - unfold int64. simpl. lia.
  - apply Forall2_cons_inv_r in Heval as (evaluation_tf & rest & (Hrows & _ & Hne) & Hrest & ->).
    apply Forall2_nil_inv_r in Hrest as ->.
    exists training_tf, inference_tf, evaluation_tf. split; [exact Hsplit|].
    split; [exact Hinf|]. split; [exact Hrows|exact Hne].
Defined.

(** * Properties of the factories from labeled triples *)

Lemma enumerate_mapping_max_id (u : list string) :
  NoDup u → u ≠ [] →
  Labeling.max_id (Labeling.built (enumerate_mapping u))
  = inr (Z.of_nat (length u)).
Proof.
  intros Hnodup Hne. apply Labeling_max_id_spec. split.
  - destruct (lookup_lt_is_Some_2 u (length u - 1)) as [l Hl].
    { destruct u; [done|simpl; lia]. }
    exists l. apply enumerate_mapping_lookup; [done|]. exists (length u - 1)%nat.
    split; [done|]. destruct u; [done|simpl; lia].
  - intros l i (j & Hj & ->)%enumerate_mapping_lookup; [|done].
    apply lookup_lt_Some in Hj. lia.
Qed.

Lemma enumerate_mapping_elem (u : list string) (l : string) :
  NoDup u → l ∈ u →
  ∃ i, enumerate_mapping u !! l = Some i ∧ 0 ≤ i < Z.of_nat (length u)
       ∧ Labeling.inverse (enumerate_mapping u) !! i = Some l.
Proof.
  intros Hnodup [j Hj]%list_elem_of_lookup. exists (Z.of_nat j).
  assert (enumerate_mapping u !! l = Some (Z.of_nat j)) as Hl
    by (apply enumerate_mapping_lookup; eauto).
  split; [done|]. split; [apply lookup_lt_Some in Hj; lia|].
  apply inverse_unique; [done|].
  intros l' (j' & Hj' & Heq)%enumerate_mapping_lookup; [|done].
  assert (j' = j) as -> by lia. congruence.
Qed.

Lemma kept_rows (kept : list ltriple) (tf : TriplesFactory.t) (unknown : string)
    (ue ur : list string) :
  NoDup ue → NoDup ur →
  (∀ h r t, (h, r, t) ∈ kept → h ∈ ue ∧ r ∈ ur ∧ t ∈ ue) →
  TriplesFactory.entity_labeling tf = Labeling.built (enumerate_mapping ue) →
  TriplesFactory.relation_labeling tf = Labeling.built (enumerate_mapping ur) →
  ∀ labeled, labeled ∈ kept →
    row_in_bounds (Z.of_nat (length ue)) (Z.of_nat (length ur))
      (mapped_row (enumerate_mapping ue) (enumerate_mapping ur) labeled)
    ∧ labeled_row tf unknown
        (mapped_row (enumerate_mapping ue) (enumerate_mapping ur) labeled) = labeled.
Proof.
  intros Hue Hur Hknown He Hr [[h r] t] Hin.
  destruct (Hknown h r t Hin) as (Hh & Hrel & Ht).
  destruct (enumerate_mapping_elem ue h Hue Hh) as (ih & Hih & Hbh & Hinvh).
  destruct (enumerate_mapping_elem ur r Hur Hrel) as (ir & Hir & Hbr & Hinvr).
  destruct (enumerate_mapping_elem ue t Hue Ht) as (it & Hit & Hbt & Hinvt).
  unfold mapped_row, labeled_row, get_id, row_in_bounds. rewrite Hih, Hir, Hit, He, Hr.
  simpl. rewrite Hinvh, Hinvr, Hinvt. done.
Qed.

(** X26. [from_labeled_triples] without given mappings and without
    compaction raises the [ValueError] of [max] when no triple is kept (none
    given, or all of them filtered out for the inverse suffix of their
    relation).  Otherwise it returns a factory with the mappings created from
    the kept triples, which declares as many entities and relations as the
    mappings have labels and holds one row for each distinct kept triple:
    no triple is dropped, and [triples] of the factory gives back exactly
    the kept labeled triples.  (The numbers of labels are taken within 64
    bits, as the length of any list in memory is.) *)
Theorem from_labeled_triples_keeps_triples
    (compact_mapping : gmap string Z → gmap string Z) (triples : list ltriple)
    (create_inverse_triples filter_out : bool) (metadata : option (gmap string pyval)) :
  let kept := kept_triples filter_out triples in
  (kept = [] →
   TriplesFactory.from_labeled_triples compact_mapping triples create_inverse_triples
     None None false filter_out metadata = inl (ValueError EmptySequence))
  ∧ (kept ≠ [] →
     int64 (Z.of_nat (size (create_entity_mapping kept))) →
     int64 (Z.of_nat (size (create_relation_mapping ((λ '(_, r, _), r) <$> kept)))) →
     ∃ tf,
       TriplesFactory.from_labeled_triples compact_mapping triples create_inverse_triples
         None None false filter_out metadata = inr tf
       ∧ TriplesFactory.entity_to_id tf = create_entity_mapping kept
       ∧ TriplesFactory.relation_to_id tf
         = create_relation_mapping ((λ '(_, r, _), r) <$> kept)
       ∧ CoreTriplesFactory.num_entities (TriplesFactory.core tf)
         = Z.of_nat (size (TriplesFactory.entity_to_id tf))
       ∧ CoreTriplesFactory.real_num_relations (TriplesFactory.core tf)
         = Z.of_nat (size (TriplesFactory.relation_to_id tf))
       ∧ (∀ labeled, labeled ∈ LabeledConstruction.triples tf ↔ labeled ∈ kept)
       ∧ length (CoreTriplesFactory.mapped_triples (TriplesFactory.core tf))
         = length (remove_dups kept)).
Proof.
  cbv zeta. unfold TriplesFactory.from_labeled_triples. cbv zeta.
  change (if filter_out
          then filter (λ '(_, r, _), endswith r INVERSE_SUFFIX = false) triples
          else triples) with (kept_triples filter_out triples).
  set (kept := kept_triples filter_out triples). split.
  - intros ->. done.
  - unfold create_entity_mapping, create_relation_mapping. cbv zeta.
    change (λ x, (sub_inverse_suffix x, endswith x INVERSE_SUFFIX)) with relation_key.
    intros Hne Hfits_e Hfits_r. revert Hfits_e Hfits_r.
    set (ue := sorted_unique String.compare
                 (((λ '(h, _, _), h) <$> kept) ++ ((λ '(_, _, t), t) <$> kept))).
    set (ur := sorted_by_key (lex String.compare Bool.compare) relation_key
                 (remove_dups ((λ '(_, r, _), r) <$> kept))).
    assert (NoDup ue) as Hue by apply sorted_unique_NoDup, _.
    assert (NoDup ur) as Hur.
    { unfold ur. rewrite sorted_by_key_perm. apply NoDup_remove_dups. }
    assert (∀ h r t, (h, r, t) ∈ kept → h ∈ ue ∧ r ∈ ur ∧ t ∈ ue) as Hknown.
    { intros h r t Hin. split; [|split].
      - apply elem_of_sorted_unique; [apply _|]. apply elem_of_entity_labels.
        exists h, r, t. auto.
      - unfold ur. rewrite sorted_by_key_perm, elem_of_remove_dups.
        apply list_elem_of_fmap. by exists (h, r, t).
      - apply elem_of_sorted_unique; [apply _|]. apply elem_of_entity_labels.
        exists h, r, t. auto. }
    assert (ue ≠ [] ∧ ur ≠ []) as [Hue_ne Hur_ne].
    { destruct kept as [|[[h r] t] kept'] eqn:Hkept; [done|].
      destruct (Hknown h r t ltac:(left)) as (Hh & Hr & _).
      split; intros Hnil; [rewrite Hnil in Hh|rewrite Hnil in Hr];
        by apply elem_of_nil in Hh || by apply elem_of_nil in Hr. }
    rewrite !enumerate_mapping_size by done. intros Hfits_e Hfits_r.
    assert (∀ u : list string, NoDup u →
              Labeling.__post_init__ (enumerate_mapping u)
              = inr (Labeling.built (enumerate_mapping u))) as Hbuilt.
    { intros u Hu. apply Labeling_post_init_built.
      intros l1 l2 i (j1 & Hj1 & ->)%enumerate_mapping_lookup
        (j2 & Hj2 & Heq)%enumerate_mapping_lookup; [|done..].
      assert (j2 = j1) as -> by lia. congruence. }
    pose proof (Hbuilt ue Hue) as Hbuilt_e. pose proof (Hbuilt ur Hur) as Hbuilt_r.
    set (e := enumerate_mapping ue) in *. set (r := enumerate_mapping ur) in *.
    set (M := _map_triples_elements_to_ids kept e r).
    assert (Labeling.max_id (Labeling.built e) = inr (Z.of_nat (length ue)))
      as Hmax_e by apply (enumerate_mapping_max_id ue Hue Hue_ne).
    assert (Labeling.max_id (Labeling.built r) = inr (Z.of_nat (length ur)))
      as Hmax_r by apply (enumerate_mapping_max_id ur Hur Hur_ne).
    unfold TriplesFactory.__init__.
    rewrite Hbuilt_e, bind_ret_l.
    rewrite Hmax_e, bind_ret_l. cbn [TriplesFactory.check_count]. rewrite bind_ret_l.
    rewrite Hbuilt_r, bind_ret_l.
    rewrite Hmax_r, bind_ret_l. cbn [TriplesFactory.check_count]. rewrite bind_ret_l.
    set (tf0 := {| TriplesFactory.core :=
                     {| CoreTriplesFactory.num_entities := Z.of_nat (length ue);
                        CoreTriplesFactory.real_num_relations := Z.of_nat (length ur);
                        CoreTriplesFactory.num_relations :=
                          KGInfo.num_relations (Z.of_nat (length ur)) create_inverse_triples;
                        CoreTriplesFactory.create_inverse_triples := create_inverse_triples;
                        CoreTriplesFactory.mapped_triples := M;
                        CoreTriplesFactory.metadata :=
                          match metadata with None => ∅ | Some m => m end |};
                   TriplesFactory.entity_labeling := Labeling.built e;
                   TriplesFactory.relation_labeling := Labeling.built r |}).
    assert (∀ labeled, labeled ∈ kept →
              row_in_bounds (Z.of_nat (length ue)) (Z.of_nat (length ur))
                (mapped_row e r labeled)
              ∧ labeled_row tf0 "[UNKNOWN]" (mapped_row e r labeled) = labeled) as Hrows
      by apply (kept_rows kept tf0 "[UNKNOWN]" ue ur Hue Hur Hknown eq_refl eq_refl).
    assert (∀ row, row ∈ M ↔ ∃ labeled, labeled ∈ kept ∧ row = mapped_row e r labeled)
      as HM.
    { intros row. unfold M. rewrite elem_of_map_triples_elements_to_ids. split.
      - intros [_ ?]. done.
      - intros (labeled & Hin & ->). split; [|eauto].
        destruct (Hrows labeled Hin) as [Hbounds _].
        destruct (mapped_row e r labeled) as [[h' r'] t']. simpl in Hbounds |- *. lia. }
    rewrite CoreTriplesFactory_init_long; [| |done|done].
    2:{ apply ids_in_range_spec, Forall_forall.
        intros row (labeled & Hin & ->)%HM. by apply Hrows. }
    rewrite bind_ret_l. exists tf0. split; [done|].
    split; [done|]. split; [done|].
    split; [simpl; unfold TriplesFactory.entity_to_id; simpl; unfold e;
            by rewrite enumerate_mapping_size|].
    split; [simpl; unfold TriplesFactory.relation_to_id; simpl; unfold r;
            by rewrite enumerate_mapping_size|].
    split.
    + intros labeled. unfold LabeledConstruction.triples.
      rewrite label_triples_fmap. cbn [default].
      change (λ '(h, r0, t), _) with (labeled_row tf0 "[UNKNOWN]").
      rewrite list_elem_of_fmap. split.
      * intros (row & -> & (labeled' & Hin & ->)%HM).
        by rewrite (proj2 (Hrows labeled' Hin)).
      * intros Hin. exists (mapped_row e r labeled). split.
        -- by rewrite (proj2 (Hrows labeled Hin)).
        -- apply HM. eauto.
    + simpl. rewrite <- (length_fmap (mapped_row e r) (remove_dups kept)).
      apply Permutation_length, NoDup_Permutation.
      * eapply strictly_sorted_NoDup; [apply _|].
        apply map_triples_elements_to_ids_sorted.
      * apply NoDup_fmap_2_strong; [|apply NoDup_remove_dups].
        intros x y Hx Hy Heq.
        apply (proj1 (elem_of_remove_dups _ _)) in Hx, Hy.
        rewrite <- (proj2 (Hrows x Hx)), <- (proj2 (Hrows y Hy)).
        by rewrite Heq.
      * intros row. rewrite HM, list_elem_of_fmap.
        split; intros (labeled & H1 & H2).
        -- exists labeled. split; [done|]. by apply elem_of_remove_dups.
        -- exists labeled. split; [by apply (proj1 (elem_of_remove_dups _ _)) in H2|done].
Qed.

Lemma from_labeled_triples_keeps_triples_witness :
  TriplesFactory.from_labeled_triples (λ m, m) [("a", "likes_inverse", "b")]%string false
    None None false true None = inl (ValueError EmptySequence)
  ∧ ∃ tf,
      TriplesFactory.from_labeled_triples (λ m, m) suffixed_triples false
        None None false true None = inr tf
      ∧ CoreTriplesFactory.num_entities (TriplesFactory.core tf) = 3
      ∧ length (CoreTriplesFactory.mapped_triples (TriplesFactory.core tf)) = 2%nat.
Proof.
  split.
  - by apply (proj1 (from_labeled_triples_keeps_triples (λ m, m)
                       [("a", "likes_inverse", "b")]%string false true None)).
  - destruct (proj2 (from_labeled_triples_keeps_triples (λ m, m) suffixed_triples
                       false true None))
      as (tf & Htf & He & _ & Hne & _ & _ & Hlen).
    + by vm_compute.
    + unfold int64. vm_compute. split; discriminate.
    + unfold int64. vm_compute. split; discriminate.
    + exists tf. split; [exact Htf|]. split.
      * rewrite Hne, He. by vm_compute.
      * rewrite Hlen. by vm_compute.
Defined.
